(** * NUMERIC fixed-point decimal core (zetasql/public/numeric_value.cc)

    A shallow embedding of the 128-bit NUMERIC value type: its parser and
    formatter, its arithmetic (Multiply, Power, Round, Trunc), its wire
    serialization and its aggregators, followed by the properties the
    specification states about them.

    Machine integers are integers of [Z] with the wrap-around written out.
    A [FixedUint<64, n>] is a [Z] in [0, 2^(64 n))], a [FixedInt<64, n>] a [Z]
    in [-2^(64 n - 1), 2^(64 n - 1))].  A [std::string] crossing the public
    interface is a [string]; the character-level code works on [list ascii].
    Bytes of the wire format are integers in [0, 256)].

    The sources hold numeric_value.cc only: what it takes from
    numeric_value.h, fixed_int.h and bits.h is written after the
    specification, each such definition saying so. *)

From Stdlib Require Import ZArith List Ascii String Bool Lia.
Import ListNotations.
Local Open Scope Z_scope.

(** ** Machine integers *)

Definition wrap_unsigned (bits : Z) (x : Z) : Z := x mod 2 ^ bits.

Definition wrap_signed (bits : Z) (x : Z) : Z :=
  (x + 2 ^ (bits - 1)) mod 2 ^ bits - 2 ^ (bits - 1).

Definition in_unsigned (bits : Z) (x : Z) : Prop := 0 <= x < 2 ^ bits.

Definition in_signed (bits : Z) (x : Z) : Prop :=
  - 2 ^ (bits - 1) <= x < 2 ^ (bits - 1).

(** [int128_sign]: -1, 0 or 1. *)
Definition int128_sign (x : Z) : Z :=
  (if 0 <? x then 1 else 0) - (if x <? 0 then 1 else 0).

(** [int128_abs]: the cast to unsigned comes before the negation. *)
Definition int128_abs (x : Z) : Z :=
  if x >=? 0 then x else wrap_unsigned 128 (- wrap_unsigned 128 x).

(** A [FixedUint<64, n>] built from its little-endian 64-bit words. *)
Fixpoint FixedUint_of_words (ws : list Z) : Z :=
  match ws with
  | [] => 0
  | w :: rest => w + 2 ^ 64 * FixedUint_of_words rest
  end.

(** Word [i] of a [FixedUint<64, n>] ([number()[i]]). *)
Definition word64 (x : Z) (i : Z) : Z := (x / 2 ^ (64 * i)) mod 2 ^ 64.

(** ** Results *)

Inductive StatusOr (A : Type) : Type :=
| Ok (a : A)
| Error (msg : string).
Arguments Ok {A} a.
Arguments Error {A} msg.

Definition is_ok {A} (r : StatusOr A) : bool :=
  match r with Ok _ => true | Error _ => false end.

(** ** The value type *)

Definition kMaxIntegerDigits : Z := 29.
Definition kMaxFractionalDigits : Z := 9.

(** Modelled from the spec: the header declaring [kScalingFactor],
    [internal::kNumericMax] and [internal::kNumericMin] is not part of the
    sources; the scale is [10^9] and [MAX_SCALED = 10^38 - 1]. *)
Definition kScalingFactor : Z := 1000000000.
Definition kNumericMax : Z := 10 ^ 38 - 1.
Definition kNumericMin : Z := - kNumericMax.

(** Modelled from the spec: the class is declared in the missing header; a
    NUMERIC value holds its packed 128-bit scaled integer, equality is
    equality of the packed integers, and a value is valid when
    [|scaled_value| <= MAX_SCALED]. *)
Record NumericValue : Type := FromPacked { as_packed_int : Z }.

Definition is_valid (v : NumericValue) : Prop :=
  kNumericMin <= as_packed_int v <= kNumericMax.

Definition is_validb (v : NumericValue) : bool :=
  (kNumericMin <=? as_packed_int v) && (as_packed_int v <=? kNumericMax).

(** The default constructor: zero. *)
Definition NumericValue_zero : NumericValue := FromPacked 0.

(** Modelled from the spec: the public constructors from the built-in
    integer types are declared in the missing header; they scale the
    integer, so that [NumericValue(1)] is the decimal 1. *)
Definition NumericValue_of_int (i : Z) : NumericValue :=
  FromPacked (i * kScalingFactor).

(** Modelled from the spec: [FromPackedInt] is declared in the missing
    header; it accepts exactly the packed integers with
    [|scaled_value| <= MAX_SCALED] and reports an overflow otherwise. *)
Definition FromPackedInt (value : Z) : StatusOr NumericValue :=
  if is_validb (FromPacked value) then Ok (FromPacked value)
  else Error "numeric overflow".

(** [NumericValue::FromFixedUint], for a [FixedUint<64, kNumWords>]. *)
Definition FromFixedUint (val : Z) (negate : bool) : StatusOr NumericValue :=
  if val <? 2 ^ 128 then
    let v := wrap_unsigned 128 val in
    if v <=? kNumericMax then
      Ok (FromPacked (wrap_signed 128
                        (if negate then wrap_unsigned 128 (- v) else v)))
    else Error "numeric overflow"
  else Error "numeric overflow".

(** ** Formatting *)

Definition digit_char (d : Z) : ascii := ascii_of_nat (48 + Z.to_nat d).

Fixpoint digits_aux (fuel : nat) (n : Z) (acc : list ascii) : list ascii :=
  match fuel with
  | O => acc
  | S fuel' =>
      let acc' := digit_char (n mod 10) :: acc in
      if n <? 10 then acc' else digits_aux fuel' (n / 10) acc'
  end.

(** Modelled from the spec: [FixedUint::AppendToString] lives in the missing
    fixed_int.h; it appends the decimal representation in its shortest
    form. *)
Definition FixedUint_AppendToString (n : Z) (output : list ascii) : list ascii :=
  output ++ digits_aux (S (Z.to_nat (Z.log2 n))) n [].

(** Modelled from the spec: [FixedInt::AppendToString] prepends the sign to
    the decimal form of the magnitude. *)
Definition FixedInt_AppendToString (v : Z) (output : list ascii) : list ascii :=
  if v <? 0 then FixedUint_AppendToString (- v) (output ++ ["-"%char])
  else FixedUint_AppendToString v output.

(** [std::string_view::find_last_not_of(c)]; [None] stands for [npos]. *)
Fixpoint find_last_not_of (c : ascii) (s : list ascii) : option nat :=
  match s with
  | [] => None
  | x :: rest =>
      match find_last_not_of c rest with
      | Some i => Some (S i)
      | None => if Ascii.eqb x c then None else Some O
      end
  end.

(** [std::string::insert(pos, count, ch)]. *)
Definition string_insert (pos count : nat) (ch : ascii) (s : list ascii)
  : list ascii :=
  firstn pos s ++ repeat ch count ++ skipn pos s.

(** [s[i] = ch]. *)
Definition string_set (i : nat) (ch : ascii) (s : list ascii) : list ascii :=
  firstn i s ++ ch :: skipn (S i) s.

(** [AddDecimalPointAndAdjustZeros].  With [npos] the unsigned expression
    [fixed_uint_length - npos - 1] wraps to [fixed_uint_length]. *)
Definition AddDecimalPointAndAdjustZeros
  (first_digit_index scale : nat) (output : list ascii) : list ascii :=
  let string_length := List.length output in
  let fixed_uint_str := skipn first_digit_index output in
  let fixed_uint_length := List.length fixed_uint_str in
  let trailing :=
    match find_last_not_of "0"%char fixed_uint_str with
    | Some i => (fixed_uint_length - i - 1)%nat
    | None => fixed_uint_length
    end in
  let zeros_to_truncate := Nat.min trailing scale in
  let output := firstn (string_length - zeros_to_truncate) output in
  if (fixed_uint_length <? scale + 1)%nat then
    let output :=
      string_insert first_digit_index (scale + 2 - fixed_uint_length)
        "0"%char output in
    string_set (first_digit_index + 1) "."%char output
  else if (zeros_to_truncate <? scale)%nat then
    string_insert (string_length - scale) 1 "."%char output
  else output.

(** [NumericValue::AppendToString]. *)
Definition AppendToString (v : NumericValue) (output : list ascii)
  : list ascii :=
  if as_packed_int v =? 0 then output ++ ["0"%char]
  else
    let old_size := List.length output in
    let value := as_packed_int v in
    let output := FixedInt_AppendToString value output in
    let first_digit_index :=
      (old_size + (if (value <? 0)%Z then 1 else 0))%nat in
    AddDecimalPointAndAdjustZeros first_digit_index
      (Z.to_nat kMaxFractionalDigits) output.

(** Modelled from the spec: [ToString] is defined in the missing header; it
    is [AppendToString] on an empty string. *)
Definition ToString (v : NumericValue) : string :=
  string_of_list_ascii (AppendToString v []).

(** ** Multiplication *)

(** Modelled from the spec: [ExtendAndMultiply] lives in the missing
    fixed_int.h; it widens the product to [len(a) + len(b)] words, so no
    overflow is possible. *)
Definition ExtendAndMultiply (a b : Z) : Z := a * b.

Definition kOverflowThreshold : Z :=
  FixedUint_of_words
    [6450984253243169536; 13015503840481697412; 293873587; 0].

(** [NumericValue::Multiply]. *)
Definition Multiply (this rh : NumericValue) : StatusOr NumericValue :=
  let value := as_packed_int this in
  let rh_value := as_packed_int rh in
  let negative := value <? 0 in
  let rh_negative := rh_value <? 0 in
  let product := ExtendAndMultiply (int128_abs value) (int128_abs rh_value) in
  if product <? kOverflowThreshold then
    let product := wrap_unsigned 256 (product + kScalingFactor / 2) in
    let res := wrap_unsigned 160 product in
    let res := res / kScalingFactor in
    let v := wrap_unsigned 128 res in
    Ok (FromPacked
          (wrap_signed 128
             (if Bool.eqb negative rh_negative then v
              else wrap_unsigned 128 (- v))))
  else
    Error ("numeric overflow: " ++ ToString this ++ " * " ++ ToString rh).

(** ** Parsing *)

Definition ascii_isspace (c : ascii) : bool :=
  let n := nat_of_ascii c in
  ((n =? 32) || ((9 <=? n) && (n <=? 13)))%nat.

Definition ascii_isdigit (c : ascii) : bool :=
  let n := nat_of_ascii c in ((48 <=? n) && (n <=? 57))%nat.

(** The value of a plain (signed) [char]. *)
Definition char_value (c : ascii) : Z :=
  wrap_signed 8 (Z.of_nat (nat_of_ascii c)).

(** [c >= '5'] on [char]. *)
Definition char_ge_5 (c : ascii) : bool :=
  char_value "5"%char <=? char_value c.

Definition digit_value (c : ascii) : Z := Z.of_nat (nat_of_ascii c) - 48.

(** The number a string of decimal digits denotes. *)
Definition decimal_value (s : list ascii) : Z :=
  fold_left (fun acc c => acc * 10 + digit_value c) s 0.

Notation "x <- a ;; b" :=
  (match a with Some x => b | None => None end)
  (at level 61, a at next level, right associativity).

(** Modelled from the spec: [FixedUint::ParseFromStringStrict] lives in the
    missing fixed_int.h; it accepts only decimal digits (at least one), no
    sign, no whitespace, and overflow of the [bits]-bit width is an error. *)
Definition FixedUint_ParseFromStringStrict (bits : Z) (s : list ascii)
  : option Z :=
  match s with
  | [] => None
  | _ =>
      if forallb ascii_isdigit s && (decimal_value s <? 2 ^ bits)
      then Some (decimal_value s) else None
  end.

(** Modelled from the spec: [FixedUint::ParseFromStringSegments] parses the
    concatenation of the digit segments without materializing the joined
    string. *)
Definition FixedUint_ParseFromStringSegments
  (bits : Z) (first_segment : list ascii) (extra_segments : list (list ascii))
  : option Z :=
  FixedUint_ParseFromStringStrict bits (first_segment ++ List.concat extra_segments).

(** Modelled from the spec: [FixedInt::SetSignAndAbs] fails if the magnitude
    exceeds the signed range, [negative] with [2^(bits-1)] being allowed. *)
Definition FixedInt_SetSignAndAbs (bits : Z) (negative : bool) (abs : Z)
  : option Z :=
  if negative then
    if abs <=? 2 ^ (bits - 1) then Some (- abs) else None
  else
    if abs <? 2 ^ (bits - 1) then Some abs else None.

(** Modelled from the spec: [FixedInt::ParseFromStringStrict] layers the sign
    handling on the unsigned parser: an optional sign, then digits. *)
Definition FixedInt_ParseFromStringStrict (bits : Z) (s : list ascii)
  : option Z :=
  match s with
  | "-"%char :: rest =>
      a <- FixedUint_ParseFromStringStrict bits rest ;;
      FixedInt_SetSignAndAbs bits true a
  | "+"%char :: rest =>
      a <- FixedUint_ParseFromStringStrict bits rest ;;
      FixedInt_SetSignAndAbs bits false a
  | _ =>
      a <- FixedUint_ParseFromStringStrict bits s ;;
      FixedInt_SetSignAndAbs bits false a
  end.

(** Modelled from the spec: [FixedUint::MultiplyOverflow] multiplies in
    place and reports whether the product left the width; [None] is the
    overflow. *)
Definition FixedUint_MultiplyOverflow (bits : Z) (x m : Z) : option Z :=
  if x * m <? 2 ^ bits then Some (x * m) else None.

(** Modelled from the spec: [FixedUint::AddOverflow]. *)
Definition FixedUint_AddOverflow (bits : Z) (x a : Z) : option Z :=
  if x + a <? 2 ^ bits then Some (x + a) else None.

(** Modelled from the spec: [FixedInt::AddOverflow]. *)
Definition FixedInt_AddOverflow (bits : Z) (x a : Z) : option Z :=
  if (- 2 ^ (bits - 1) <=? x + a) && (x + a <? 2 ^ (bits - 1))
  then Some (x + a) else None.

(** [PowersAsc<Word, first_value, base, size>()]:
    [{first_value, first_value * base, ...}]. *)
Fixpoint PowersAsc (first_value base : Z) (size : nat) : list Z :=
  match size with
  | O => []
  | S k => first_value :: map (fun v => v * base) (PowersAsc first_value base k)
  end.

(** [PowersDesc<Word, last_value, base, size>()]:
    [{last_value * base^(size-1), ..., last_value}]. *)
Fixpoint PowersDesc (last_value base : Z) (size : nat) : list Z :=
  match size with
  | O => []
  | S k => map (fun v => v * base) (PowersDesc last_value base k) ++ [last_value]
  end.

(** Modelled from the spec: [internal::k1e19] is declared in the missing
    header. *)
Definition k1e19 : Z := 10 ^ 19.

Definition int64_min : Z := - 2 ^ 63.

Record ENotationParts : Type := mkENotationParts {
  negative : bool;
  int_part : list ascii;
  fract_part : list ascii;
  exp_part : list ascii
}.

Fixpoint skip_space (s : list ascii) : list ascii :=
  match s with
  | [] => []
  | c :: rest => if ascii_isspace c then skip_space rest else s
  end.

(** Cuts [s] at the first character satisfying [p]: the part before it and,
    when there is one, the part after it. *)
Fixpoint split_at_first (p : ascii -> bool) (s : list ascii)
  : list ascii * option (list ascii) :=
  match s with
  | [] => ([], None)
  | c :: rest =>
      if p c then ([], Some rest)
      else let (before, after) := split_at_first p rest in (c :: before, after)
  end.

(** The same from the end of [s]. *)
Definition split_at_last (p : ascii -> bool) (s : list ascii)
  : list ascii * option (list ascii) :=
  match split_at_first p (rev s) with
  | (after_rev, Some before_rev) => (rev before_rev, Some (rev after_rev))
  | (_, None) => (s, None)
  end.

Definition is_exp_char (c : ascii) : bool :=
  Ascii.eqb c "e"%char || Ascii.eqb c "E"%char.

Definition is_point (c : ascii) : bool := Ascii.eqb c "."%char.

(** [SplitENotationParts]. *)
Definition SplitENotationParts (str : list ascii) : option ENotationParts :=
  let s := rev (skip_space (rev (skip_space str))) in
  match s with
  | [] => None
  | c :: rest =>
      let neg := Ascii.eqb c "-"%char in
      let body := if Ascii.eqb c "-"%char || Ascii.eqb c "+"%char
                  then rest else s in
      let split_point (mantissa e : list ascii) :=
        let (i, f) := split_at_first is_point mantissa in
        mkENotationParts neg i (match f with Some f => f | None => [] end) e in
      match split_at_last is_exp_char body with
      | (mantissa, Some e) =>
          match e with
          | [] => None
          | _ => Some (split_point mantissa e)
          end
      | (_, None) => Some (split_point body [])
      end
  end.

(** [ParseExponent]. *)
Definition ParseExponent (exp_part : list ascii) (extra_scale : Z) : option Z :=
  match exp_part with
  | [] => Some extra_scale
  | c :: rest =>
      match FixedInt_ParseFromStringStrict 64 exp_part with
      | Some exp_fixed_int => FixedInt_AddOverflow 64 exp_fixed_int extra_scale
      | None =>
          if (1 <? List.length exp_part)%nat && Ascii.eqb c "-"%char then
            if forallb ascii_isdigit rest then Some int64_min else None
          else None
      end
  end.

(** [ParseNumber<n>], with [bits = 64 n].  The first loop of the source runs
    its body [extra_exp / 19] times and leaves [extra_exp mod 19]. *)
Definition ParseNumber (bits : Z) (int_part fract_part : list ascii)
  (exp : Z) (strict : bool) : option Z :=
  st <-
    (if exp >=? 0 then
       let fract_size := Z.of_nat (List.length fract_part) in
       let round_up :=
         if exp <? fract_size
         then char_ge_5 (nth (Z.to_nat exp) fract_part zero) else false in
       let num_promoted_fract_digits :=
         if exp <? fract_size then exp else fract_size in
       let promoted_fract_part :=
         firstn (Z.to_nat num_promoted_fract_digits) fract_part in
       let fract_part := skipn (Z.to_nat num_promoted_fract_digits) fract_part in
       output <-
         (match int_part with
          | [] => FixedUint_ParseFromStringStrict bits promoted_fract_part
          | _ => FixedUint_ParseFromStringSegments bits int_part
                   [promoted_fract_part]
          end) ;;
       let extra_exp := exp - num_promoted_fract_digits in
       output <-
         N.iter (Z.to_N (extra_exp / 19))
           (fun o => x <- o ;; FixedUint_MultiplyOverflow bits x k1e19)
           (Some output) ;;
       let extra_exp := extra_exp mod 19 in
       output <-
         (if extra_exp =? 0 then Some output
          else FixedUint_MultiplyOverflow bits output
                 (nth (Z.to_nat extra_exp) (PowersAsc 1 10 19) 0)) ;;
       Some (output, round_up, @nil ascii, fract_part)
     else
       let int_size := Z.of_nat (List.length int_part) in
       if int_size + Z.of_nat (List.length fract_part) =? 0 then None
       else if exp >=? - int_size then
         let int_digits := int_size + exp in
         let round_up :=
           char_ge_5 (nth (Z.to_nat int_digits) int_part zero) in
         output <-
           (if int_digits =? 0 then Some 0
            else FixedUint_ParseFromStringStrict bits
                   (firstn (Z.to_nat int_digits) int_part)) ;;
         Some (output, round_up, skipn (Z.to_nat int_digits) int_part,
               fract_part)
       else Some (0, false, int_part, fract_part)) ;;
  let '(output, round_up, int_part, fract_part) := st in
  let is_zero c := Ascii.eqb c "0"%char in
  if (if strict
      then forallb is_zero int_part && forallb is_zero fract_part
      else forallb ascii_isdigit int_part && forallb ascii_isdigit fract_part)
  then
    if round_up then FixedUint_AddOverflow bits output 1 else Some output
  else None.

Definition MakeInvalidNumericError {A} (str : string) : StatusOr A :=
  Error ("Invalid NUMERIC value: " ++ str).

(** [NumericValue::FromStringInternal]. *)
Definition FromStringInternal (str : string) (is_strict : bool)
  : StatusOr NumericValue :=
  match
    (parts <- SplitENotationParts (list_ascii_of_string str) ;;
     exp <- ParseExponent (exp_part parts) kMaxFractionalDigits ;;
     abs <- ParseNumber 128 (int_part parts) (fract_part parts) exp is_strict ;;
     Some (FromFixedUint abs (negative parts)))
  with
  | Some (Ok v) => Ok v
  | _ => MakeInvalidNumericError str
  end.

Definition FromStringStrict (str : string) : StatusOr NumericValue :=
  FromStringInternal str true.

Definition FromString (str : string) : StatusOr NumericValue :=
  FromStringInternal str false.

(** ** Power *)

Definition kScalingFactorSquare : Z := kScalingFactor * kScalingFactor.
Definition kScalingFactorCube : Z := kScalingFactorSquare * kScalingFactor.

(** Modelled from the spec: [FixedUint::DivAndRoundAwayFromZero] lives in
    the missing fixed_int.h; it computes [(n + d/2) / d] on unsigned inputs
    of the same width. *)
Definition FixedUint_DivAndRoundAwayFromZero (bits : Z) (n d : Z) : Z :=
  wrap_unsigned bits (n + d / 2) / d.

(** [RemoveDoubleScale<size>]: [None] is the [false] return. *)
Definition RemoveDoubleScale (size : Z) (input : Z) : option Z :=
  input <- FixedUint_AddOverflow (64 * size) input (kScalingFactorSquare / 2) ;;
  if word64 input (size - 1) <? kScalingFactorSquare then
    let input := input / kScalingFactor in
    let input := input / kScalingFactor in
    Some (wrap_unsigned (64 * (size - 1)) input)
  else None.

(** The body of the [while (true)] loop of [DoubleScaledPower], by the bits
    of a nonzero [exp], least significant first. *)
Fixpoint DoubleScaledPower_loop
  (exp : positive) (double_scaled_result double_scaled_power : Z) : option Z :=
  let multiply (k : Z -> option Z) :=
    let tmp_scaled_4x :=
      ExtendAndMultiply double_scaled_result double_scaled_power in
    if negb (word64 tmp_scaled_4x 4 =? 0) || negb (word64 tmp_scaled_4x 5 =? 0)
    then None
    else
      r <- RemoveDoubleScale 4 (wrap_unsigned 256 tmp_scaled_4x) ;;
      k r in
  let square (k : Z -> option Z) :=
    if negb (word64 double_scaled_power 2 =? 0) then None
    else
      let truncated_power := wrap_unsigned 128 double_scaled_power in
      p <- RemoveDoubleScale 4
             (ExtendAndMultiply truncated_power truncated_power) ;;
      k p in
  match exp with
  | xH => multiply (fun r => Some r)
  | xO e => square (fun p => DoubleScaledPower_loop e double_scaled_result p)
  | xI e =>
      multiply (fun r => square (fun p => DoubleScaledPower_loop e r p))
  end.

(** [DoubleScaledPower]: [None] is the [false] return. *)
Definition DoubleScaledPower (double_scaled_value unscaled_exp : Z) : option Z :=
  match wrap_unsigned 128 unscaled_exp with
  | Zpos e =>
      DoubleScaledPower_loop e kScalingFactorSquare double_scaled_value
  | _ => Some kScalingFactorSquare
  end.

Definition append_error {A} (r : StatusOr A) (suffix : string) : StatusOr A :=
  match r with
  | Ok a => Ok a
  | Error msg => Error (msg ++ suffix)
  end.

Section Power.

(** The floating-point step of [MultiplyByFractionalPower],
    [FromDouble(std::pow(RemoveScaleAndConvertToDouble(abs_value),
    RemoveScaleAndConvertToDouble(fract_exp)))], is kept abstract. *)
Variable fract_pow : Z -> Z -> StatusOr NumericValue.

(** [MultiplyByFractionalPower]. *)
Definition MultiplyByFractionalPower (abs_value fract_exp dest : Z)
  : StatusOr Z :=
  match fract_pow abs_value fract_exp with
  | Error msg => Error msg
  | Ok fract_term =>
      let ret :=
        ExtendAndMultiply dest
          (wrap_unsigned 128 (as_packed_int fract_term)) in
      if (word64 ret 3 =? 0) && (word64 ret 4 =? 0)
      then Ok (wrap_unsigned 192 ret)
      else Error "numeric overflow"
  end.

(** [NumericValue::PowerInternal]. *)
Definition PowerInternal (this exp : NumericValue) : StatusOr NumericValue :=
  if as_packed_int exp =? as_packed_int NumericValue_zero then
    Ok (NumericValue_of_int 1)
  else
    let exp_is_negative := as_packed_int exp <? 0 in
    if as_packed_int this =? as_packed_int NumericValue_zero then
      if exp_is_negative then Error "division by zero"
      else Ok NumericValue_zero
    else
      let abs_exp := int128_abs (as_packed_int exp) in
      let abs_integer_exp := abs_exp / kScalingFactor in
      let abs_fract_exp := abs_exp mod kScalingFactor in
      let fract_exp :=
        if as_packed_int exp <? 0 then - abs_fract_exp else abs_fract_exp in
      let abs_value := int128_abs (as_packed_int this) in
      let finish (result_is_negative : bool) : StatusOr NumericValue :=
        let positive_power (double_scaled_value : Z) :=
          match DoubleScaledPower double_scaled_value abs_integer_exp with
          | None => Error "numeric overflow"
          | Some double_scaled_value =>
              if fract_exp =? 0 then
                FromFixedUint
                  (FixedUint_DivAndRoundAwayFromZero 192 double_scaled_value
                     kScalingFactor)
                  result_is_negative
              else
                match MultiplyByFractionalPower abs_value fract_exp
                        double_scaled_value with
                | Error msg => Error msg
                | Ok double_scaled_value =>
                    match RemoveDoubleScale 3 double_scaled_value with
                    | None => Error "numeric overflow"
                    | Some ret => FromFixedUint ret result_is_negative
                    end
                end
          end in
        if negb exp_is_negative then
          positive_power (wrap_unsigned 192 (abs_value * kScalingFactor))
        else if abs_value >? kScalingFactor then
          match DoubleScaledPower
                  (wrap_unsigned 192 (abs_value * kScalingFactor))
                  abs_integer_exp with
          | None => Ok NumericValue_zero
          | Some double_scaled_value =>
              if double_scaled_value >? kScalingFactorCube * 2
              then Ok NumericValue_zero
              else if fract_exp =? 0 then
                FromFixedUint
                  (FixedUint_DivAndRoundAwayFromZero 192 kScalingFactorCube
                     double_scaled_value)
                  result_is_negative
              else
                match MultiplyByFractionalPower abs_value fract_exp
                        kScalingFactorSquare with
                | Error msg => Error msg
                | Ok numerator =>
                    FromFixedUint
                      (FixedUint_DivAndRoundAwayFromZero 192 numerator
                         double_scaled_value)
                      result_is_negative
                end
          end
        else
          positive_power
            (FixedUint_DivAndRoundAwayFromZero 192 kScalingFactorCube
               abs_value) in
      if as_packed_int this <? 0 then
        if negb (fract_exp =? 0) then
          Error
            "Negative NUMERIC value cannot be raised to a fractional power"
        else finish (negb (Z.land (word64 abs_integer_exp 0) 1 =? 0))
      else finish false.

(** [NumericValue::Power]. *)
Definition Power (this exp : NumericValue) : StatusOr NumericValue :=
  append_error (PowerInternal this exp)
    (": POW(" ++ ToString this ++ ", " ++ ToString exp ++ ")").

End Power.

(** ** Rounding *)

(** Modelled from the spec: [internal::k1e9] is declared in the missing
    header. *)
Definition k1e9 : Z := 1000000000.

(** [RoundConst32<divisor>].  The remainder of [FixedInt::DivMod] by a
    constant has the sign of the dividend, as [%] has; the signed division
    of the source truncates. *)
Definition RoundConst32 (divisor : Z) (round_away_from_zero : bool)
  (dividend : Z) : Z :=
  let dividend :=
    if round_away_from_zero then
      wrap_signed 128
        (dividend + (if dividend >=? 0 then Z.quot divisor 2
                     else Z.quot divisor (-2)))
    else dividend in
  let remainder := Z.rem dividend divisor in
  wrap_signed 128 (dividend - remainder).

Definition kMaxDigits : Z := kMaxFractionalDigits + kMaxIntegerDigits.

Definition kTruncFactors : list Z := PowersDesc 10 10 (Z.to_nat kMaxDigits).

(** A signed 64-bit integer streamed into an error message. *)
Definition int64_to_string (i : Z) : string :=
  string_of_list_ascii (FixedInt_AppendToString i []).

(** [NumericValue::RoundInternal]. *)
Definition RoundInternal (this : NumericValue) (digits : Z)
  (round_away_from_zero : bool) : StatusOr NumericValue :=
  if digits >=? kMaxFractionalDigits then Ok this
  else if digits <? - kMaxIntegerDigits then Ok NumericValue_zero
  else
    let value := as_packed_int this in
    let value :=
      match digits with
      | 0 => RoundConst32 k1e9 round_away_from_zero value
      | 1 => RoundConst32 100000000 round_away_from_zero value
      | 2 => RoundConst32 10000000 round_away_from_zero value
      | 3 => RoundConst32 1000000 round_away_from_zero value
      | _ =>
          let trunc_factor :=
            nth (Z.to_nat (digits + kMaxIntegerDigits)) kTruncFactors 0 in
          let value :=
            if round_away_from_zero then
              let offset := Z.shiftr trunc_factor 1 in
              wrap_signed 128
                (value + (if value <? 0 then - offset else offset))
            else value in
          wrap_signed 128 (value - Z.rem value trunc_factor)
      end in
    match FromPackedInt value with
    | Ok r => Ok r
    | Error _ =>
        Error ("numeric overflow: ROUND(" ++ ToString this ++ ", "
               ++ int64_to_string digits ++ ")")
    end.

(** [NumericValue::Round]. *)
Definition Round (this : NumericValue) (digits : Z) : StatusOr NumericValue :=
  RoundInternal this digits true.

(** [StatusOr::ValueOrDie]: [None] is the crash on an error status. *)
Definition ValueOrDie {A} (r : StatusOr A) : option A :=
  match r with Ok a => Some a | Error _ => None end.

(** [NumericValue::Trunc]. *)
Definition Trunc (this : NumericValue) (digits : Z) : option NumericValue :=
  ValueOrDie (RoundInternal this digits false).

(** ** Wire serialization *)

(** Modelled from the spec: [Bits::FindMSBSetNonZero64] is declared in the
    missing bits.h; it is the index of the most significant set bit. *)
Definition FindMSBSetNonZero64 (x : Z) : Z := Z.log2 x.

(** The first [n] bytes of the object representation of a 128-bit integer
    on a little-endian machine ([memcpy] from its address). *)
Definition int128_bytes (value : Z) (n : nat) : list Z :=
  map (fun i => Z.shiftr (wrap_unsigned 128 value) (8 * Z.of_nat i) mod 256)
      (seq 0 n).

(** [NumericValue::SerializeAsProtoBytes]. *)
Definition SerializeAsProtoBytes (this : NumericValue) : list Z :=
  let value := as_packed_int this in
  if value =? 0 then [0]
  else
    let abs_value := int128_abs value in
    let abs_value_hi := wrap_unsigned 64 (Z.shiftr abs_value 64) in
    let abs_value_lo := wrap_unsigned 64 abs_value in
    let non_zero_bit_idx :=
      if negb (abs_value_hi =? 0)
      then FindMSBSetNonZero64 abs_value_hi + 64
      else FindMSBSetNonZero64 abs_value_lo in
    let non_zero_byte_idx := non_zero_bit_idx / 8 in
    let non_zero_byte :=
      wrap_unsigned 8 (Z.shiftr abs_value (non_zero_byte_idx * 8)) in
    let non_zero_byte_idx :=
      if negb (Z.land non_zero_byte 128 =? 0)
      then non_zero_byte_idx + 1 else non_zero_byte_idx in
    int128_bytes value (Z.to_nat (non_zero_byte_idx + 1)).

(** The unsigned integer a little-endian byte string denotes. *)
Fixpoint little_endian (bytes : list Z) : Z :=
  match bytes with
  | [] => 0
  | b :: rest => b + 256 * little_endian rest
  end.

(** Modelled from the spec: [FixedInt::DeserializeFromBytes] lives in the
    missing fixed_int.h; it is the inverse of the little-endian
    two's-complement encoding, sign-extending from the last byte; the empty
    string is invalid and so are bytes that do not fit the width. *)
Definition FixedInt_DeserializeFromBytes (bits : Z) (bytes : list Z)
  : option Z :=
  let len := Z.of_nat (List.length bytes) in
  if (len =? 0) || (bits <? 8 * len) then None
  else
    let u := little_endian bytes in
    if 128 <=? last bytes 0 then Some (u - 2 ^ (8 * len)) else Some u.

(** [NumericValue::DeserializeFromProtoBytes]. *)
Definition DeserializeFromProtoBytes (bytes : list Z) : StatusOr NumericValue :=
  match FixedInt_DeserializeFromBytes 128 bytes with
  | Some value => FromPackedInt value
  | None => Error "Invalid numeric encoding"
  end.

(** Modelled from the spec: [FixedInt::SerializeToBytes] lives in the
    missing fixed_int.h; it emits the minimum number of little-endian
    two's-complement bytes whose sign extension recovers the value. *)
Fixpoint min_signed_length (fuel : nat) (len : Z) (v : Z) : Z :=
  match fuel with
  | O => len
  | S fuel' =>
      if (- 2 ^ (8 * len - 1) <=? v) && (v <? 2 ^ (8 * len - 1)) then len
      else min_signed_length fuel' (len + 1) v
  end.

Definition FixedInt_SerializeToBytes (bits : Z) (v : Z) : list Z :=
  let len := min_signed_length (Z.to_nat (bits / 8)) 1 v in
  map (fun i => Z.shiftr (wrap_unsigned bits v) (8 * Z.of_nat i) mod 256)
      (seq 0 (Z.to_nat len)).

(** [SerializeFixedInt(dest, num1, num...)]: every number but the last is
    preceded by one byte holding the length of its encoding; the last takes
    the rest.  A number goes with its width in bits. *)
Fixpoint SerializeFixedInt (dest : list Z) (nums : list (Z * Z)) : list Z :=
  match nums with
  | [] => dest
  | (bits, num) :: rest =>
      match rest with
      | [] => dest ++ FixedInt_SerializeToBytes bits num
      | _ =>
          let old_size := List.length dest in
          let dest := dest ++ [0] in
          let dest := dest ++ FixedInt_SerializeToBytes bits num in
          let size_byte :=
            wrap_unsigned 8
              (Z.of_nat (List.length dest) - Z.of_nat old_size - 1) in
          let dest :=
            firstn old_size dest ++ size_byte :: skipn (S old_size) dest in
          SerializeFixedInt dest rest
      end
  end.

(** [bytes.substr(pos, n)] and [bytes.substr(pos)]. *)
Definition substr {A} (pos n : nat) (bytes : list A) : list A :=
  firstn n (skipn pos bytes).

(** [DeserializeFixedInt(bytes, num1, num...)], by the widths of the numbers
    to read; [None] is the [false] return.  The length byte is read as a
    signed [char] into an [int] and compared as an unsigned 64-bit
    integer. *)
Fixpoint DeserializeFixedInt (bytes : list Z) (widths : list Z)
  : option (list Z) :=
  match widths with
  | [] => None
  | bits :: rest =>
      match rest with
      | [] =>
          num <- FixedInt_DeserializeFromBytes bits bytes ;; Some [num]
      | _ =>
          match bytes with
          | [] => None
          | b0 :: _ =>
              let len := wrap_signed 8 b0 in
              if wrap_unsigned 64 len
                 <? wrap_unsigned 64 (Z.of_nat (List.length bytes) - 1)
              then
                num1 <-
                  FixedInt_DeserializeFromBytes bits
                    (substr 1 (Z.to_nat len) bytes) ;;
                nums <- DeserializeFixedInt
                          (skipn (Z.to_nat (len + 1)) bytes) rest ;;
                Some (num1 :: nums)
              else None
          end
      end
  end.

(** [GetScaledCovarianceNumerator]: [count * sum_product - sum_x * sum_y] in
    a [FixedInt<64, 6>]. *)
Definition GetScaledCovarianceNumerator (sum_x sum_y sum_product count : Z)
  : Z :=
  let numerator := sum_product in
  let numerator := wrap_signed 384 (numerator * count) in
  wrap_signed 384 (numerator - ExtendAndMultiply sum_x sum_y).

(** [GetCovariance], up to the conversion to [double]: the numerator and
    the denominator of the quotient it returns.  The denominator is a
    [FixedUint<64, 3>], its factors are [uint64_t]. *)
Definition GetCovariance (sum_x sum_y sum_product count count_offset : Z)
  : Z * Z :=
  let numerator :=
    GetScaledCovarianceNumerator sum_x sum_y sum_product count in
  let denominator := count in
  let denominator :=
    wrap_unsigned 192 (denominator * wrap_unsigned 64 (count - count_offset)) in
  let denominator :=
    wrap_unsigned 192
      (denominator * wrap_unsigned 64 (kScalingFactor * kScalingFactor)) in
  (numerator, denominator).

(** ** Aggregators *)

Module Aggregator.

(** The legacy aggregator: a signed 128-bit lower part and a signed 64-bit
    count of its overflows. *)
Record t : Type := mk { sum_lower_ : Z; sum_upper_ : Z }.

Definition wf (a : t) : Prop :=
  in_signed 128 (sum_lower_ a) /\ in_signed 64 (sum_upper_ a).

(** Modelled from the spec: [internal::int128_add_overflow] is declared in
    the missing header; it stores the wrapped sum and reports whether the
    addition overflowed. *)
Definition int128_add_overflow (a b : Z) : bool * Z :=
  (negb ((- 2 ^ 127 <=? a + b) && (a + b <? 2 ^ 127)), wrap_signed 128 (a + b)).

(** [Aggregator::MergeWith]; an addition on [sum_upper_] wraps. *)
Definition MergeWith (this other : t) : t :=
  let (overflow, lower) :=
    int128_add_overflow (sum_lower_ this) (sum_lower_ other) in
  let upper :=
    if overflow
    then wrap_signed 64
           (sum_upper_ this + (if sum_lower_ other <? 0 then -1 else 1))
    else sum_upper_ this in
  mk lower (wrap_signed 64 (upper + sum_upper_ other)).

(** [Aggregator::GetSum]. *)
Definition GetSum (this : t) : StatusOr NumericValue :=
  if negb (sum_upper_ this =? 0) then Error "numeric overflow: SUM"
  else
    match FromPackedInt (sum_lower_ this) with
    | Ok v => Ok v
    | Error _ => Error "numeric overflow: SUM"
    end.

(** [Aggregator::GetAverage]. *)
Definition GetAverage (this : t) (count : Z) : StatusOr NumericValue :=
  let kInt128Min := - 2 ^ 127 in
  if count =? 0 then Error "division by zero: AVG"
  else
    let upper_abs := wrap_unsigned 64 (Z.abs (sum_upper_ this)) in
    let '(negate, lower, upper_abs) :=
      if upper_abs =? 0 then
        (sum_lower_ this <? 0,
         (if negb (sum_lower_ this =? kInt128Min)
          then wrap_signed 128 (int128_abs (sum_lower_ this))
          else sum_lower_ this),
         upper_abs)
      else
        let negate := sum_upper_ this <? 0 in
        let lower :=
          if negate && negb (sum_lower_ this =? kInt128Min)
          then - sum_lower_ this else sum_lower_ this in
        (negate, lower,
         if lower <? 0 then wrap_unsigned 64 (upper_abs - 1) else upper_abs) in
    let dividend := upper_abs * 2 ^ 128 + wrap_unsigned 128 lower in
    let dividend := wrap_unsigned 192 (dividend + Z.shiftr count 1) in
    let dividend := dividend / count in
    match FromFixedUint dividend negate with
    | Ok v => Ok v
    | Error _ => Error "numeric overflow: AVG"
    end.

(** The 8 little-endian bytes of a 64-bit word ([LittleEndian::Store64]). *)
Definition Store64 (w : Z) : list Z :=
  map (fun i => Z.shiftr (wrap_unsigned 64 w) (8 * Z.of_nat i) mod 256)
      (seq 0 8).

(** [Aggregator::SerializeAsProtoBytes]. *)
Definition SerializeAsProtoBytes (this : t) : list Z :=
  let sum_lower_lo := wrap_unsigned 64 (sum_lower_ this) in
  let sum_lower_hi :=
    wrap_unsigned 64 (Z.shiftr (wrap_unsigned 128 (sum_lower_ this)) 64) in
  Store64 sum_lower_lo ++ Store64 sum_lower_hi ++ Store64 (sum_upper_ this).

(** The 64-bit word of 8 little-endian bytes ([LittleEndian::Load64]). *)
Definition Load64 (bytes : list Z) : Z := little_endian (firstn 8 bytes).

(** [Aggregator::DeserializeFromProtoBytes]. *)
Definition DeserializeFromProtoBytes (bytes : list Z) : StatusOr t :=
  if negb (Nat.eqb (List.length bytes) 24) then
    Error "Invalid NumericValue::Aggregator encoding"
  else
    let sum_lower_lo := Load64 bytes in
    let sum_lower_hi := Load64 (skipn 8 bytes) in
    Ok (mk (wrap_signed 128
              (wrap_unsigned 128 (sum_lower_hi * 2 ^ 64 + sum_lower_lo)))
           (wrap_signed 64 (Load64 (skipn 16 bytes)))).

End Aggregator.

Module SumAggregator.

(** The accumulator is a [FixedInt<64, 3>]. *)
Record t : Type := mk { sum_ : Z }.

(** Modelled from the spec: [NumericValue::FromFixedInt] is declared in the
    missing header; it narrows the wider accumulator and reports an
    overflow if it does not fit. *)
Definition FromFixedInt (v : Z) : StatusOr NumericValue :=
  if (kNumericMin <=? v) && (v <=? kNumericMax) then Ok (FromPacked v)
  else Error "numeric overflow".

(** Modelled from the spec: the signed [FixedInt::DivAndRoundAwayFromZero]
    lives in the missing fixed_int.h; it divides by [count] rounding half
    to the greater magnitude. *)
Definition FixedInt_DivAndRoundAwayFromZero (v count : Z) : Z :=
  Z.sgn v * ((Z.abs v + count / 2) / count).

(** [SumAggregator::MergeWith]. *)
Definition MergeWith (this other : t) : t :=
  mk (wrap_signed 192 (sum_ this + sum_ other)).

(** [SumAggregator::GetSum]. *)
Definition GetSum (this : t) : StatusOr NumericValue :=
  match FromFixedInt (sum_ this) with
  | Ok v => Ok v
  | Error _ => Error "numeric overflow: SUM"
  end.

(** [SumAggregator::GetAverage]. *)
Definition GetAverage (this : t) (count : Z) : StatusOr NumericValue :=
  if count =? 0 then Error "division by zero: AVG"
  else
    let dividend := FixedInt_DivAndRoundAwayFromZero (sum_ this) count in
    match FromFixedInt dividend with
    | Ok v => Ok v
    | Error _ => Error "numeric overflow: AVG"
    end.

(** [SumAggregator::SerializeAsProtoBytes]. *)
Definition SerializeAsProtoBytes (this : t) : list Z :=
  FixedInt_SerializeToBytes 192 (sum_ this).

(** [SumAggregator::DeserializeFromProtoBytes]. *)
Definition DeserializeFromProtoBytes (bytes : list Z) : StatusOr t :=
  match FixedInt_DeserializeFromBytes 192 bytes with
  | Some s => Ok (mk s)
  | None => Error "Invalid NumericValue::SumAggregator encoding"
  end.

End SumAggregator.

Module VarianceAggregator.

(** [sum_] is a [FixedInt<64, 3>], [sum_square_] a [FixedInt<64, 5>]. *)
Record t : Type := mk { sum_ : Z; sum_square_ : Z }.

Definition wf (a : t) : Prop :=
  in_signed 192 (sum_ a) /\ in_signed 320 (sum_square_ a).

(** [VarianceAggregator::Add]; [+=] on a [FixedInt] wraps. *)
Definition Add (this : t) (value : NumericValue) : t :=
  let v := as_packed_int value in
  mk (wrap_signed 192 (sum_ this + v))
     (wrap_signed 320 (sum_square_ this + ExtendAndMultiply v v)).

(** [VarianceAggregator::Subtract]. *)
Definition Subtract (this : t) (value : NumericValue) : t :=
  let v := as_packed_int value in
  mk (wrap_signed 192 (sum_ this - v))
     (wrap_signed 320 (sum_square_ this - ExtendAndMultiply v v)).

(** [VarianceAggregator::GetPopulationVariance], as the quotient handed to
    the floating-point division; [None] is [nullopt]. *)
Definition GetPopulationVariance (this : t) (count : Z) : option (Z * Z) :=
  if count >? 0
  then Some (GetCovariance (sum_ this) (sum_ this) (sum_square_ this) count 0)
  else None.

(** [VarianceAggregator::GetSamplingVariance], likewise. *)
Definition GetSamplingVariance (this : t) (count : Z) : option (Z * Z) :=
  if count >? 1
  then Some (GetCovariance (sum_ this) (sum_ this) (sum_square_ this) count 1)
  else None.

(** [VarianceAggregator::MergeWith]. *)
Definition MergeWith (this other : t) : t :=
  mk (wrap_signed 192 (sum_ this + sum_ other))
     (wrap_signed 320 (sum_square_ this + sum_square_ other)).

(** [VarianceAggregator::SerializeAsProtoBytes]. *)
Definition SerializeAsProtoBytes (this : t) : list Z :=
  SerializeFixedInt [] [(192, sum_ this); (320, sum_square_ this)].

(** [VarianceAggregator::DeserializeFromProtoBytes]. *)
Definition DeserializeFromProtoBytes (bytes : list Z) : StatusOr t :=
  match DeserializeFixedInt bytes [192; 320] with
  | Some [s; q] => Ok (mk s q)
  | _ => Error "Invalid NumericValue::VarianceAggregator encoding"
  end.

End VarianceAggregator.

Module CovarianceAggregator.

(** [sum_x_] and [sum_y_] are [FixedInt<64, 3>], [sum_product_] is a
    [FixedInt<64, 5>]. *)
Record t : Type := mk { sum_x_ : Z; sum_y_ : Z; sum_product_ : Z }.

Definition wf (a : t) : Prop :=
  in_signed 192 (sum_x_ a) /\ in_signed 192 (sum_y_ a)
  /\ in_signed 320 (sum_product_ a).

(** [CovarianceAggregator::Add]. *)
Definition Add (this : t) (x y : NumericValue) : t :=
  let x_num := as_packed_int x in
  let y_num := as_packed_int y in
  mk (wrap_signed 192 (sum_x_ this + x_num))
     (wrap_signed 192 (sum_y_ this + y_num))
     (wrap_signed 320 (sum_product_ this + ExtendAndMultiply x_num y_num)).

(** [CovarianceAggregator::Subtract]. *)
Definition Subtract (this : t) (x y : NumericValue) : t :=
  let x_num := as_packed_int x in
  let y_num := as_packed_int y in
  mk (wrap_signed 192 (sum_x_ this - x_num))
     (wrap_signed 192 (sum_y_ this - y_num))
     (wrap_signed 320 (sum_product_ this - ExtendAndMultiply x_num y_num)).

(** [CovarianceAggregator::GetPopulationCovariance], as the quotient handed
    to the floating-point division; [None] is [nullopt]. *)
Definition GetPopulationCovariance (this : t) (count : Z) : option (Z * Z) :=
  if count >? 0
  then Some (GetCovariance (sum_x_ this) (sum_y_ this) (sum_product_ this)
               count 0)
  else None.

(** [CovarianceAggregator::GetSamplingCovariance], likewise. *)
Definition GetSamplingCovariance (this : t) (count : Z) : option (Z * Z) :=
  if count >? 1
  then Some (GetCovariance (sum_x_ this) (sum_y_ this) (sum_product_ this)
               count 1)
  else None.

(** [CovarianceAggregator::MergeWith]. *)
Definition MergeWith (this other : t) : t :=
  mk (wrap_signed 192 (sum_x_ this + sum_x_ other))
     (wrap_signed 192 (sum_y_ this + sum_y_ other))
     (wrap_signed 320 (sum_product_ this + sum_product_ other)).

(** [CovarianceAggregator::SerializeAsProtoBytes]. *)
Definition SerializeAsProtoBytes (this : t) : list Z :=
  SerializeFixedInt []
    [(320, sum_product_ this); (192, sum_x_ this); (192, sum_y_ this)].

(** [CovarianceAggregator::DeserializeFromProtoBytes]. *)
Definition DeserializeFromProtoBytes (bytes : list Z) : StatusOr t :=
  match DeserializeFixedInt bytes [320; 192; 192] with
  | Some [p; x; y] => Ok (mk x y p)
  | _ => Error "Invalid NumericValue::CovarianceAggregator encoding"
  end.

End CovarianceAggregator.

Module CorrelationAggregator.

(** A covariance aggregator and two more [FixedInt<64, 5>] sums. *)
Record t : Type := mk {
  cov_agg_ : CovarianceAggregator.t;
  sum_square_x_ : Z;
  sum_square_y_ : Z
}.

Definition wf (a : t) : Prop :=
  CovarianceAggregator.wf (cov_agg_ a)
  /\ in_signed 320 (sum_square_x_ a) /\ in_signed 320 (sum_square_y_ a).

(** [CorrelationAggregator::Add]. *)
Definition Add (this : t) (x y : NumericValue) : t :=
  let x_num := as_packed_int x in
  let y_num := as_packed_int y in
  mk (CovarianceAggregator.Add (cov_agg_ this) x y)
     (wrap_signed 320 (sum_square_x_ this + ExtendAndMultiply x_num x_num))
     (wrap_signed 320 (sum_square_y_ this + ExtendAndMultiply y_num y_num)).

(** [CorrelationAggregator::Subtract]. *)
Definition Subtract (this : t) (x y : NumericValue) : t :=
  let x_num := as_packed_int x in
  let y_num := as_packed_int y in
  mk (CovarianceAggregator.Subtract (cov_agg_ this) x y)
     (wrap_signed 320 (sum_square_x_ this - ExtendAndMultiply x_num x_num))
     (wrap_signed 320 (sum_square_y_ this - ExtendAndMultiply y_num y_num)).

(** [CorrelationAggregator::GetCorrelation], up to the floating-point
    step: the numerator and the [FixedInt<64, 12>] under the square root of
    the denominator; [None] is [nullopt]. *)
Definition GetCorrelation (this : t) (count : Z) : option (Z * Z) :=
  if count >? 1 then
    let numerator :=
      GetScaledCovarianceNumerator
        (CovarianceAggregator.sum_x_ (cov_agg_ this))
        (CovarianceAggregator.sum_y_ (cov_agg_ this))
        (CovarianceAggregator.sum_product_ (cov_agg_ this)) count in
    let variance_numerator_x :=
      GetScaledCovarianceNumerator
        (CovarianceAggregator.sum_x_ (cov_agg_ this))
        (CovarianceAggregator.sum_x_ (cov_agg_ this))
        (sum_square_x_ this) count in
    let variance_numerator_y :=
      GetScaledCovarianceNumerator
        (CovarianceAggregator.sum_y_ (cov_agg_ this))
        (CovarianceAggregator.sum_y_ (cov_agg_ this))
        (sum_square_y_ this) count in
    let denominator_square :=
      ExtendAndMultiply variance_numerator_x variance_numerator_y in
    Some (numerator, denominator_square)
  else None.

(** [CorrelationAggregator::MergeWith]. *)
Definition MergeWith (this other : t) : t :=
  mk (CovarianceAggregator.MergeWith (cov_agg_ this) (cov_agg_ other))
     (wrap_signed 320 (sum_square_x_ this + sum_square_x_ other))
     (wrap_signed 320 (sum_square_y_ this + sum_square_y_ other)).

(** [CorrelationAggregator::SerializeAsProtoBytes]. *)
Definition SerializeAsProtoBytes (this : t) : list Z :=
  SerializeFixedInt []
    [(320, CovarianceAggregator.sum_product_ (cov_agg_ this));
     (192, CovarianceAggregator.sum_x_ (cov_agg_ this));
     (192, CovarianceAggregator.sum_y_ (cov_agg_ this));
     (320, sum_square_x_ this); (320, sum_square_y_ this)].

(** [CorrelationAggregator::DeserializeFromProtoBytes]. *)
Definition DeserializeFromProtoBytes (bytes : list Z) : StatusOr t :=
  match DeserializeFixedInt bytes [320; 192; 192; 320; 320] with
  | Some [p; x; y; sx; sy] => Ok (mk (CovarianceAggregator.mk x y p) sx sy)
  | _ => Error "Invalid NumericValue::CorrelationAggregator encoding"
  end.

End CorrelationAggregator.

(** ** Notions used by the statements and their proofs *)

(** The packed integer [RoundInternal] hands to its final range check. *)
Definition rounded_value (value d : Z) (round_away_from_zero : bool) : Z :=
  let f := 10 ^ (9 - d) in
  let value :=
    if round_away_from_zero
    then wrap_signed 128 (value + (if value <? 0 then - (f / 2) else f / 2))
    else value in
  wrap_signed 128 (value - Z.rem value f).

(** The number of times a sum of two 128-bit integers wraps. *)
Definition carry128 (a b : Z) : Z :=
  (a + b - wrap_signed 128 (a + b)) / 2 ^ 128.

Definition is_digit (c : ascii) : Prop := ascii_isdigit c = true.

Definition is_zero_char (c : ascii) : bool := Ascii.eqb c "0"%char.

(** The digits of [n], as [FixedUint::AppendToString] appends them. *)
Definition digits (n : Z) : list ascii :=
  digits_aux (S (Z.to_nat (Z.log2 n))) n [].

(** The fractional part of a formatted value, behind its point. *)
Definition with_point (F : list ascii) : list ascii :=
  match F with [] => [] | _ => "."%char :: F end.

Definition sign_prefix (v : Z) : list ascii :=
  if v <? 0 then ["-"%char] else [].

(** Euclidean division by constants, then linear arithmetic. *)
Ltac euclid := Z.div_mod_to_equations; lia.

(** Closed comparisons of integer constants, by evaluation. *)
Ltac closed_bounds :=
  vm_compute; repeat split;
  solve [reflexivity | let X := fresh in intro X; discriminate X].

(** Cases on the sixteen byte positions of a 128-bit integer. *)
Ltac byte_cases j H :=
  let E := fresh in
  assert (E : j = 0 \/ j = 1 \/ j = 2 \/ j = 3 \/ j = 4 \/ j = 5 \/ j = 6
              \/ j = 7 \/ j = 8 \/ j = 9 \/ j = 10 \/ j = 11 \/ j = 12
              \/ j = 13 \/ j = 14 \/ j = 15) by lia;
  clear H;
  repeat (destruct E as [E|E]; [subst j|]); [..|subst j].

(** ** Division, remainder, sign and integer rounding *)

(** [NumericValue::Abs]. *)
Definition Abs (value : NumericValue) : NumericValue :=
  FromPacked (wrap_signed 128 (int128_abs (as_packed_int value))).

(** [NumericValue::Sign]: the sign goes through the constructor from
    [int64_t], which scales it. *)
Definition Sign (value : NumericValue) : NumericValue :=
  NumericValue_of_int (int128_sign (as_packed_int value)).

(** Modelled from the spec: [GetFractionalPart] is defined in the missing
    header; it is the remainder of the packed integer by the scale, with the
    sign of the value. *)
Definition GetFractionalPart (v : NumericValue) : Z :=
  Z.rem (as_packed_int v) kScalingFactor.

(** [NumericValue::Ceiling]. *)
Definition Ceiling (this : NumericValue) : StatusOr NumericValue :=
  let value := as_packed_int this in
  let fract_part := GetFractionalPart this in
  let value :=
    wrap_signed 128
      (value - (if fract_part >? 0 then fract_part - kScalingFactor
                else fract_part)) in
  match FromPackedInt value with
  | Ok r => Ok r
  | Error _ => Error ("numeric overflow: CEIL(" ++ ToString this ++ ")")
  end.

(** [NumericValue::Floor]. *)
Definition Floor (this : NumericValue) : StatusOr NumericValue :=
  let value := as_packed_int this in
  let fract_part := GetFractionalPart this in
  let value :=
    wrap_signed 128
      (value - (if fract_part <? 0 then fract_part + kScalingFactor
                else fract_part)) in
  match FromPackedInt value with
  | Ok r => Ok r
  | Error _ => Error ("numeric overflow: FLOOR(" ++ ToString this ++ ")")
  end.

(** [NumericValue::Divide]. *)
Definition Divide (this rh : NumericValue) : StatusOr NumericValue :=
  let value := as_packed_int this in
  let rh_value := as_packed_int rh in
  let is_negative := value <? 0 in
  let rh_is_negative := rh_value <? 0 in
  if negb (rh_value =? 0) then
    let dividend := int128_abs value in
    let divisor := int128_abs rh_value in
    let dividend := wrap_unsigned 192 (dividend * kScalingFactor) in
    let dividend := wrap_unsigned 192 (dividend + Z.shiftr divisor 1) in
    let dividend := dividend / divisor in
    append_error
      (FromFixedUint dividend (negb (Bool.eqb is_negative rh_is_negative)))
      (": " ++ ToString this ++ " / " ++ ToString rh)
  else
    Error ("division by zero: " ++ ToString this ++ " / " ++ ToString rh).

(** [NumericValue::IntegerDivide]; [/] on [__int128] truncates. *)
Definition IntegerDivide (this rh : NumericValue) : StatusOr NumericValue :=
  let rh_value := as_packed_int rh in
  if negb (rh_value =? 0) then
    let value := wrap_signed 128 (Z.quot (as_packed_int this) rh_value) in
    if (value <=? Z.quot kNumericMax kScalingFactor)
       && (value >=? Z.quot kNumericMin kScalingFactor)
    then Ok (FromPacked (wrap_signed 128 (value * kScalingFactor)))
    else
      Error ("numeric overflow: " ++ ToString this ++ " / " ++ ToString rh)
  else
    Error ("division by zero: " ++ ToString this ++ " / " ++ ToString rh).

(** [NumericValue::Mod]; [%] on [__int128] has the sign of the dividend. *)
Definition Mod (this rh : NumericValue) : StatusOr NumericValue :=
  let rh_value := as_packed_int rh in
  if negb (rh_value =? 0) then
    Ok (FromPacked (Z.rem (as_packed_int this) rh_value))
  else
    Error ("division by zero: " ++ ToString this ++ " / " ++ ToString rh).


(** ** BIGNUMERIC *)

Module BigNumericValue.

(** The value is a [FixedInt<64, 4>] scaled by [10^38]. *)
Record t : Type := mk { value_ : Z }.

Definition wf (v : t) : Prop := in_signed 256 (value_ v).

Definition kBigNumericMaxFractionalDigits : Z := 38.

(** Modelled from the spec: [BigNumericValue::ScalingFactor] is declared in
    the missing header; the scale of the type is [10^38]. *)
Definition ScalingFactor : Z := 10 ^ 38.

(** Modelled from the spec: [FixedInt::abs] lives in the missing
    fixed_int.h; it is the magnitude as a [FixedUint] of the same width. *)
Definition FixedInt_abs (bits : Z) (x : Z) : Z :=
  if x <? 0 then wrap_unsigned bits (- x) else x.

(** Modelled from the spec: [BigNumericValue::RemoveScalingFactor] is
    declared in the missing header; it adds half the scale and divides by
    the scale. *)
Definition RemoveScalingFactor (x : Z) : Z :=
  (x + ScalingFactor / 2) / ScalingFactor.

(** [BigNumericValue::AppendToString]. *)
Definition AppendToString (this : t) (output : list ascii) : list ascii :=
  if value_ this =? 0 then output ++ ["0"%char]
  else
    let old_size := List.length output in
    let output := FixedInt_AppendToString (value_ this) output in
    let first_digit_index :=
      (old_size + (if (value_ this <? 0)%Z then 1 else 0))%nat in
    AddDecimalPointAndAdjustZeros first_digit_index 38 output.

(** Modelled from the spec: [ToString] is defined in the missing header; it
    is [AppendToString] on an empty string. *)
Definition ToString (this : t) : string :=
  string_of_list_ascii (AppendToString this []).

(** [MakeInvalidBigNumericError]. *)
Definition MakeInvalidBigNumericError {A} (str : string) : StatusOr A :=
  Error ("Invalid BIGNUMERIC value: " ++ str).

(** [BigNumericValue::FromStringInternal]. *)
Definition FromStringInternal (str : string) (is_strict : bool)
  : StatusOr t :=
  match
    (parts <- SplitENotationParts (list_ascii_of_string str) ;;
     exp <- ParseExponent (exp_part parts) kBigNumericMaxFractionalDigits ;;
     abs <- ParseNumber 256 (int_part parts) (fract_part parts) exp
              is_strict ;;
     FixedInt_SetSignAndAbs 256 (negative parts) abs)
  with
  | Some v => Ok (mk v)
  | None => MakeInvalidBigNumericError str
  end.

Definition FromStringStrict (str : string) : StatusOr t :=
  FromStringInternal str true.

Definition FromString (str : string) : StatusOr t :=
  FromStringInternal str false.

(** [BigNumericValue::Multiply]. *)
Definition Multiply (this rh : t) : StatusOr t :=
  let lh_negative := value_ this <? 0 in
  let rh_negative := value_ rh <? 0 in
  let abs_result_64x8 :=
    ExtendAndMultiply (FixedInt_abs 256 (value_ this))
      (FixedInt_abs 256 (value_ rh)) in
  let overflow :=
    Error ("BigNumeric overflow: " ++ ToString this ++ " * " ++ ToString rh) in
  if (word64 abs_result_64x8 6 =? 0) && (word64 abs_result_64x8 7 =? 0) then
    let abs_result_64x5 :=
      RemoveScalingFactor (wrap_unsigned 384 abs_result_64x8) in
    if word64 abs_result_64x5 4 =? 0 then
      let abs_result_64x4 := wrap_unsigned 256 abs_result_64x5 in
      match FixedInt_SetSignAndAbs 256
              (negb (Bool.eqb lh_negative rh_negative)) abs_result_64x4 with
      | Some result => Ok (mk result)
      | None => overflow
      end
    else overflow
  else overflow.

(** [BigNumericValue::Divide]. *)
Definition Divide (this rh : t) : StatusOr t :=
  let lh_negative := value_ this <? 0 in
  let rh_negative := value_ rh <? 0 in
  if negb (value_ rh =? 0) then
    let abs_value := FixedInt_abs 256 (value_ this) in
    let rh_abs_value := FixedInt_abs 256 (value_ rh) in
    let scaled_abs_value :=
      ExtendAndMultiply abs_value (wrap_unsigned 128 ScalingFactor) in
    let scaled_abs_value :=
      FixedUint_DivAndRoundAwayFromZero 384 scaled_abs_value rh_abs_value in
    let overflow :=
      Error ("BigNumeric overflow: " ++ ToString this ++ " / "
             ++ ToString rh) in
    if (word64 scaled_abs_value 4 =? 0) && (word64 scaled_abs_value 5 =? 0)
    then
      let abs_result := wrap_unsigned 256 scaled_abs_value in
      match FixedInt_SetSignAndAbs 256
              (negb (Bool.eqb lh_negative rh_negative)) abs_result with
      | Some result => Ok (mk result)
      | None => overflow
      end
    else overflow
  else
    Error ("division by zero: " ++ ToString this ++ " / " ++ ToString rh).

(** [BigNumericValue::SerializeAndAppendToProtoBytes]. *)
Definition SerializeAndAppendToProtoBytes (this : t) (bytes : list Z)
  : list Z :=
  bytes ++ FixedInt_SerializeToBytes 256 (value_ this).

(** [BigNumericValue::DeserializeFromProtoBytes]. *)
Definition DeserializeFromProtoBytes (bytes : list Z) : StatusOr t :=
  match FixedInt_DeserializeFromBytes 256 bytes with
  | Some v => Ok (mk v)
  | None => Error "Invalid BigNumericValue encoding"
  end.

End BigNumericValue.
(** * Properties *)

Example ToString_ex1 :
  ToString (FromPacked (-123450000000)) = "-123.45"%string.
Proof. vm_compute. reflexivity. Qed.

Example ToString_ex2 : ToString (FromPacked (-123)) = "-0.000000123"%string.
Proof. vm_compute. reflexivity. Qed.

Example ToString_ex3 : ToString (FromPacked 1234567890) = "1.23456789"%string.
Proof. vm_compute. reflexivity. Qed.

Example ToString_ex4 : ToString (FromPacked 5000000000) = "5"%string.
Proof. vm_compute. reflexivity. Qed.

Example Multiply_ex1 :
  Multiply (FromPacked 1500000000) (FromPacked (-2500000001))
  = Ok (FromPacked (-3750000002)).
Proof. vm_compute. reflexivity. Qed.

Example kOverflowThreshold_ex :
  kOverflowThreshold = kNumericMax * kScalingFactor + kScalingFactor / 2.
Proof. vm_compute. reflexivity. Qed.

Example FromString_ex1 :
  FromString "  -1.2345e2 " = Ok (FromPacked (-123450000000)).
Proof. vm_compute. reflexivity. Qed.

Example FromString_ex2 :
  FromStringStrict "0.0000000005" = Error "Invalid NUMERIC value: 0.0000000005"
  /\ FromString "0.0000000005" = Ok (FromPacked 1).
Proof. split; vm_compute; reflexivity. Qed.

Example FromString_ex3 :
  FromString "1e-99999999999999999999" = Ok (FromPacked 0)
  /\ FromString ".5e+1" = Ok (FromPacked 5000000000)
  /\ is_ok (FromString ".") = false
  /\ is_ok (FromString "1e") = false
  /\ is_ok (FromString "99999999999999999999999999999.9999999995") = false
  /\ FromString "99999999999999999999999999999.9999999994"
     = Ok (FromPacked kNumericMax).
Proof. repeat split; vm_compute; reflexivity. Qed.

Example Power_ex1 : forall fp,
  Power fp (NumericValue_of_int 2) (NumericValue_of_int (-3))
  = Ok (FromPacked 125000000).
Proof. intros. vm_compute. reflexivity. Qed.

Example Power_ex2 : forall fp,
  Power fp (NumericValue_of_int (-2)) (NumericValue_of_int 3)
  = Ok (NumericValue_of_int (-8))
  /\ Power fp (FromPacked 1500000000) (NumericValue_of_int 2)
     = Ok (FromPacked 2250000000)
  /\ Power fp (NumericValue_of_int (-2)) (FromPacked 500000000)
     = Error "Negative NUMERIC value cannot be raised to a fractional power: POW(-2, 0.5)".
Proof. intros. repeat split; vm_compute; reflexivity. Qed.

Example Round_ex1 :
  Round (FromPacked 1234500000) 2 = Ok (FromPacked 1230000000)
  /\ Round (FromPacked 1235000000) 2 = Ok (FromPacked 1240000000)
  /\ Round (FromPacked (-1235000000)) 2 = Ok (FromPacked (-1240000000))
  /\ Round (FromPacked (5 * 10 ^ 37)) (-29)
     = Error "numeric overflow: ROUND(50000000000000000000000000000, -29)"
  /\ Trunc (FromPacked (-1235000000)) 2 = Some (FromPacked (-1230000000))
  /\ Trunc (FromPacked (-1235000000)) 5 = Some (FromPacked (-1235000000))
  /\ Round (FromPacked (-1235555555)) 5 = Ok (FromPacked (-1235560000)).
Proof. repeat split; vm_compute; reflexivity. Qed.

Example Serialize_ex1 :
  SerializeAsProtoBytes (FromPacked 0) = [0]
  /\ SerializeAsProtoBytes (FromPacked 1) = [1]
  /\ SerializeAsProtoBytes (FromPacked 128) = [128; 0]
  /\ SerializeAsProtoBytes (FromPacked (-1)) = [255]
  /\ SerializeAsProtoBytes (FromPacked (-128)) = [128; 255]
  /\ SerializeAsProtoBytes (FromPacked (-129)) = [127; 255]
  /\ SerializeAsProtoBytes (NumericValue_of_int 1) = [0; 202; 154; 59]
  /\ FixedInt_SerializeToBytes 128 (-128) = [128]
  /\ FixedInt_SerializeToBytes 128 128 = [128; 0]
  /\ FixedInt_SerializeToBytes 128 0 = [0]
  /\ DeserializeFromProtoBytes [128] = Ok (FromPacked (-128))
  /\ DeserializeFromProtoBytes [128; 255] = Ok (FromPacked (-128))
  /\ DeserializeFromProtoBytes [] = Error "Invalid numeric encoding"
  /\ List.length (SerializeAsProtoBytes (FromPacked kNumericMax)) = 16%nat
  /\ DeserializeFromProtoBytes (SerializeAsProtoBytes (FromPacked kNumericMin))
     = Ok (FromPacked kNumericMin).
Proof. repeat split; vm_compute; reflexivity. Qed.
(** ** Machine arithmetic *)

Lemma pow2_split bits : 0 < bits -> 2 ^ bits = 2 * 2 ^ (bits - 1).
Proof.
  intros Hb. replace bits with (Z.succ (bits - 1)) at 1 by lia.
  rewrite Z.pow_succ_r; lia.
Qed.

Lemma wrap_signed_id bits x :
  0 < bits -> in_signed bits x -> wrap_signed bits x = x.
Proof.
  unfold in_signed, wrap_signed. intros Hb H.
  pose proof (pow2_split bits Hb).
  rewrite Z.mod_small; lia.
Qed.

Lemma wrap_unsigned_id bits x :
  in_unsigned bits x -> wrap_unsigned bits x = x.
Proof. unfold in_unsigned, wrap_unsigned. intros. now apply Z.mod_small. Qed.

Lemma wrap_signed_add_l bits a b :
  wrap_signed bits (wrap_signed bits a + b) = wrap_signed bits (a + b).
Proof.
  unfold wrap_signed.
  replace ((a + 2 ^ (bits - 1)) mod 2 ^ bits - 2 ^ (bits - 1) + b
           + 2 ^ (bits - 1))
    with ((a + 2 ^ (bits - 1)) mod 2 ^ bits + b) by lia.
  rewrite Zplus_mod_idemp_l. do 2 f_equal. lia.
Qed.

Lemma wrap_signed_add_r bits a b :
  wrap_signed bits (a + wrap_signed bits b) = wrap_signed bits (a + b).
Proof.
  rewrite Z.add_comm, wrap_signed_add_l. f_equal. lia.
Qed.

Lemma wrap_signed_range bits x : 0 < bits -> in_signed bits (wrap_signed bits x).
Proof.
  intros Hb. unfold in_signed, wrap_signed.
  pose proof (pow2_split bits Hb).
  assert (0 < 2 ^ (bits - 1)) by (apply Z.pow_pos_nonneg; lia).
  pose proof (Z.mod_pos_bound (x + 2 ^ (bits - 1)) (2 ^ bits)). lia.
Qed.

(** Checking a decidable property on an initial segment of the integers. *)
Lemma range_forallb (P : Z -> bool) (n : nat) :
  forallb P (map Z.of_nat (seq 0 n)) = true ->
  forall i, 0 <= i < Z.of_nat n -> P i = true.
Proof.
  intros H i Hi. rewrite forallb_forall in H. apply H.
  apply in_map_iff. exists (Z.to_nat i). split; [lia|].
  apply in_seq. lia.
Qed.

Lemma kTruncFactors_nth i :
  0 <= i < 38 -> nth (Z.to_nat i) kTruncFactors 0 = 10 ^ (38 - i).
Proof.
  intros Hi.
  apply Z.eqb_eq.
  apply (range_forallb
           (fun i => nth (Z.to_nat i) kTruncFactors 0 =? 10 ^ (38 - i)) 38);
    [vm_compute; reflexivity | lia].
Qed.

Lemma int128_abs_eq x : - 2 ^ 127 <= x < 2 ^ 127 -> int128_abs x = Z.abs x.
Proof.
  intros H. unfold int128_abs, wrap_unsigned.
  rewrite Z.geb_leb. destruct (Z.leb_spec 0 x); [lia|]. euclid.
Qed.

Lemma is_valid_in_signed v :
  is_valid v -> - 2 ^ 127 <= as_packed_int v < 2 ^ 127.
Proof. unfold is_valid, kNumericMin, kNumericMax. lia. Qed.

Lemma is_validb_true v : is_validb v = true <-> is_valid v.
Proof.
  unfold is_validb, is_valid. rewrite andb_true_iff, !Z.leb_le. tauto.
Qed.

Lemma FromPackedInt_valid x :
  is_valid (FromPacked x) -> FromPackedInt x = Ok (FromPacked x).
Proof.
  intros H. unfold FromPackedInt.
  apply is_validb_true in H. now rewrite H.
Qed.

Lemma FromPackedInt_invalid x :
  ~ is_valid (FromPacked x) -> FromPackedInt x = Error "numeric overflow".
Proof.
  intros H. unfold FromPackedInt.
  destruct (is_validb (FromPacked x)) eqn:E; [|reflexivity].
  apply is_validb_true in E. contradiction.
Qed.

(** ** Aggregators *)

(** C10: on a variance aggregator [Subtract] undoes [Add] and [Add] undoes
    [Subtract]: after adding and subtracting the same value, in either
    order, the sum and the sum of squares are the integers they were, so
    that a sliding window accumulates no error. *)
Theorem VarianceAggregator_Subtract_inverts_Add
  (s : VarianceAggregator.t) (v : NumericValue) :
  VarianceAggregator.wf s ->
  VarianceAggregator.Subtract (VarianceAggregator.Add s v) v = s
  /\ VarianceAggregator.Add (VarianceAggregator.Subtract s v) v = s.
Proof.
  destruct s as [sm sq]. intros [Hs Hq].
  cbn [VarianceAggregator.sum_ VarianceAggregator.sum_square_] in Hs, Hq.
  unfold VarianceAggregator.Subtract, VarianceAggregator.Add.
  cbn [VarianceAggregator.sum_ VarianceAggregator.sum_square_].
  set (p := ExtendAndMultiply (as_packed_int v) (as_packed_int v)).
  split; f_equal.
  - replace (wrap_signed 192 (sm + as_packed_int v) - as_packed_int v)
      with (wrap_signed 192 (sm + as_packed_int v) + - as_packed_int v) by lia.
    rewrite wrap_signed_add_l.
    replace (sm + as_packed_int v + - as_packed_int v) with sm by lia.
    apply wrap_signed_id; [lia | exact Hs].
  - replace (wrap_signed 320 (sq + p) - p)
      with (wrap_signed 320 (sq + p) + - p) by lia.
    rewrite wrap_signed_add_l.
    replace (sq + p + - p) with sq by lia.
    apply wrap_signed_id; [lia | exact Hq].
  - rewrite wrap_signed_add_l.
    replace (sm - as_packed_int v + as_packed_int v) with sm by lia.
    apply wrap_signed_id; [lia | exact Hs].
  - rewrite wrap_signed_add_l.
    replace (sq - p + p) with sq by lia.
    apply wrap_signed_id; [lia | exact Hq].
Qed.

Lemma VarianceAggregator_Subtract_inverts_Add_witness :
  VarianceAggregator.wf (VarianceAggregator.mk (2 ^ 191 - 1) (- 2 ^ 319))
  /\ VarianceAggregator.Add
       (VarianceAggregator.mk (2 ^ 191 - 1) (- 2 ^ 319))
       (FromPacked kNumericMax)
     = VarianceAggregator.mk (- 2 ^ 191 + kNumericMax - 1)
         (- 2 ^ 319 + kNumericMax * kNumericMax)
  /\ VarianceAggregator.Subtract
       (VarianceAggregator.Add
          (VarianceAggregator.mk (2 ^ 191 - 1) (- 2 ^ 319))
          (FromPacked kNumericMax))
       (FromPacked kNumericMax)
     = VarianceAggregator.mk (2 ^ 191 - 1) (- 2 ^ 319)
  /\ VarianceAggregator.Add
       (VarianceAggregator.Subtract
          (VarianceAggregator.mk (2 ^ 191 - 1) (- 2 ^ 319))
          (FromPacked kNumericMax))
       (FromPacked kNumericMax)
     = VarianceAggregator.mk (2 ^ 191 - 1) (- 2 ^ 319).
Proof.
  assert (Hwf : VarianceAggregator.wf
                  (VarianceAggregator.mk (2 ^ 191 - 1) (- 2 ^ 319)))
    by closed_bounds.
  split; [exact Hwf|]. split; [vm_compute; reflexivity|].
  exact (VarianceAggregator_Subtract_inverts_Add
           (VarianceAggregator.mk (2 ^ 191 - 1) (- 2 ^ 319))
           (FromPacked kNumericMax) Hwf).
Defined.

Lemma carry128_exact a b :
  2 ^ 128 * carry128 a b = a + b - wrap_signed 128 (a + b).
Proof. unfold carry128, wrap_signed. change (128 - 1) with 127. euclid. Qed.

Lemma Aggregator_MergeWith_eq a b :
  Aggregator.wf a -> Aggregator.wf b ->
  Aggregator.MergeWith a b
  = Aggregator.mk
      (wrap_signed 128 (Aggregator.sum_lower_ a + Aggregator.sum_lower_ b))
      (wrap_signed 64
         (Aggregator.sum_upper_ a + Aggregator.sum_upper_ b
          + carry128 (Aggregator.sum_lower_ a) (Aggregator.sum_lower_ b))).
Proof.
  destruct a as [la ua], b as [lb ub].
  unfold Aggregator.wf, in_signed, Aggregator.MergeWith,
    Aggregator.int128_add_overflow.
  cbn [Aggregator.sum_lower_ Aggregator.sum_upper_].
  change (128 - 1) with 127. change (64 - 1) with 63.
  intros [Hla Hua] [Hlb Hub].
  f_equal.
  assert (Hc : carry128 la lb
               = if negb ((- 2 ^ 127 <=? la + lb) && (la + lb <? 2 ^ 127))
                 then (if lb <? 0 then -1 else 1) else 0).
  { unfold carry128, wrap_signed. change (128 - 1) with 127.
    destruct (Z.leb_spec (- 2 ^ 127) (la + lb));
      destruct (Z.ltb_spec (la + lb) (2 ^ 127));
      destruct (Z.ltb_spec lb 0); cbn [negb andb]; euclid. }
  rewrite Hc.
  destruct (negb _).
  - rewrite wrap_signed_add_l. f_equal. lia.
  - f_equal. lia.
Qed.

Lemma Aggregator_MergeWith_wf a b :
  Aggregator.wf (Aggregator.MergeWith a b).
Proof.
  unfold Aggregator.MergeWith, Aggregator.int128_add_overflow, Aggregator.wf.
  cbn [Aggregator.sum_lower_ Aggregator.sum_upper_].
  split; apply wrap_signed_range; lia.
Qed.

Lemma Aggregator_MergeWith_assoc a b c :
  Aggregator.wf a -> Aggregator.wf b -> Aggregator.wf c ->
  Aggregator.MergeWith a (Aggregator.MergeWith b c)
  = Aggregator.MergeWith (Aggregator.MergeWith a b) c.
Proof.
  intros Ha Hb Hc.
  rewrite (Aggregator_MergeWith_eq a (Aggregator.MergeWith b c) Ha
             (Aggregator_MergeWith_wf b c)).
  rewrite (Aggregator_MergeWith_eq (Aggregator.MergeWith a b) c
             (Aggregator_MergeWith_wf a b) Hc).
  rewrite (Aggregator_MergeWith_eq a b Ha Hb),
    (Aggregator_MergeWith_eq b c Hb Hc).
  destruct a as [la ua], b as [lb ub], c as [lc uc].
  cbn [Aggregator.sum_lower_ Aggregator.sum_upper_].
  f_equal.
  - rewrite wrap_signed_add_l, wrap_signed_add_r. f_equal. lia.
  - replace (ua + wrap_signed 64 (ub + uc + carry128 lb lc)
             + carry128 la (wrap_signed 128 (lb + lc)))
      with (ua + carry128 la (wrap_signed 128 (lb + lc))
            + wrap_signed 64 (ub + uc + carry128 lb lc)) by lia.
    rewrite wrap_signed_add_r.
    replace (wrap_signed 64 (ua + ub + carry128 la lb) + uc
             + carry128 (wrap_signed 128 (la + lb)) lc)
      with (wrap_signed 64 (ua + ub + carry128 la lb)
            + (uc + carry128 (wrap_signed 128 (la + lb)) lc)) by lia.
    rewrite wrap_signed_add_l.
    f_equal.
    pose proof (carry128_exact lb lc) as E1.
    pose proof (carry128_exact la (wrap_signed 128 (lb + lc))) as E2.
    pose proof (carry128_exact la lb) as E3.
    pose proof (carry128_exact (wrap_signed 128 (la + lb)) lc) as E4.
    rewrite wrap_signed_add_r in E2. rewrite wrap_signed_add_l in E4.
    replace (la + (lb + lc)) with (la + lb + lc) in E2 by lia.
    lia.
Qed.

(** C8: merging is associative, for the legacy aggregator and for the sum
    aggregator: [a] merged with the merge of [b] and [c] is the state that
    the merge of [a] and [b] merged with [c] is, so that the two serialize
    to the same bytes and answer the sum and the average alike. *)
Theorem MergeWith_associative
  (a b c : Aggregator.t) (x y z : SumAggregator.t) :
  Aggregator.wf a -> Aggregator.wf b -> Aggregator.wf c ->
  (let l := Aggregator.MergeWith a (Aggregator.MergeWith b c) in
   let r := Aggregator.MergeWith (Aggregator.MergeWith a b) c in
   l = r
   /\ Aggregator.SerializeAsProtoBytes l = Aggregator.SerializeAsProtoBytes r
   /\ Aggregator.GetSum l = Aggregator.GetSum r
   /\ forall count, Aggregator.GetAverage l count = Aggregator.GetAverage r count)
  /\
  (let l := SumAggregator.MergeWith x (SumAggregator.MergeWith y z) in
   let r := SumAggregator.MergeWith (SumAggregator.MergeWith x y) z in
   l = r
   /\ SumAggregator.SerializeAsProtoBytes l
      = SumAggregator.SerializeAsProtoBytes r
   /\ SumAggregator.GetSum l = SumAggregator.GetSum r
   /\ forall count,
       SumAggregator.GetAverage l count = SumAggregator.GetAverage r count).
Proof.
  intros Ha Hb Hc. split.
  - intros l r.
    assert (E : l = r) by (apply Aggregator_MergeWith_assoc; assumption).
    rewrite E. repeat split; reflexivity.
  - intros l r.
    assert (E : l = r).
    { subst l r. destruct x as [sx], y as [sy], z as [sz].
      unfold SumAggregator.MergeWith. cbn [SumAggregator.sum_].
      f_equal. rewrite wrap_signed_add_l, wrap_signed_add_r. f_equal. lia. }
    rewrite E. repeat split; reflexivity.
Qed.

Lemma MergeWith_associative_witness :
  (Aggregator.wf (Aggregator.mk (2 ^ 127 - 1) 5)
   /\ Aggregator.wf (Aggregator.mk (2 ^ 127 - 7) (-3))
   /\ Aggregator.wf (Aggregator.mk (- 2 ^ 127) 0))
  /\ Aggregator.MergeWith (Aggregator.mk (2 ^ 127 - 1) 5)
       (Aggregator.MergeWith (Aggregator.mk (2 ^ 127 - 7) (-3))
          (Aggregator.mk (- 2 ^ 127) 0))
     = Aggregator.mk (2 ^ 127 - 8) 2
  /\ Aggregator.MergeWith (Aggregator.mk (2 ^ 127 - 1) 5)
       (Aggregator.MergeWith (Aggregator.mk (2 ^ 127 - 7) (-3))
          (Aggregator.mk (- 2 ^ 127) 0))
     = Aggregator.MergeWith
         (Aggregator.MergeWith (Aggregator.mk (2 ^ 127 - 1) 5)
            (Aggregator.mk (2 ^ 127 - 7) (-3)))
         (Aggregator.mk (- 2 ^ 127) 0)
  /\ SumAggregator.MergeWith (SumAggregator.mk (2 ^ 191 - 1))
       (SumAggregator.MergeWith (SumAggregator.mk kNumericMax)
          (SumAggregator.mk (- 2 ^ 191)))
     = SumAggregator.MergeWith
         (SumAggregator.MergeWith (SumAggregator.mk (2 ^ 191 - 1))
            (SumAggregator.mk kNumericMax))
         (SumAggregator.mk (- 2 ^ 191)).
Proof.
  assert (Ha : Aggregator.wf (Aggregator.mk (2 ^ 127 - 1) 5))
    by closed_bounds.
  assert (Hb : Aggregator.wf (Aggregator.mk (2 ^ 127 - 7) (-3)))
    by closed_bounds.
  assert (Hc : Aggregator.wf (Aggregator.mk (- 2 ^ 127) 0))
    by closed_bounds.
  split; [auto|]. split; [vm_compute; reflexivity|].
  pose proof (MergeWith_associative _ _ _ (SumAggregator.mk (2 ^ 191 - 1))
                (SumAggregator.mk kNumericMax) (SumAggregator.mk (- 2 ^ 191))
                Ha Hb Hc) as [[E _] [E' _]].
  split; assumption.
Defined.
(** ** Rounding and truncation *)

Lemma match_digits {A} (d : Z) (a0 a1 a2 a3 dflt : A) :
  d <> 0 -> d <> 1 -> d <> 2 -> d <> 3 ->
  match d with 0 => a0 | 1 => a1 | 2 => a2 | 3 => a3 | _ => dflt end = dflt.
Proof.
  intros. destruct d as [|[[p|p|]|[p|p|]|]|]; try reflexivity; contradiction.
Qed.

Lemma RoundConst32_eq k raz value :
  RoundConst32 (10 ^ k) raz value = rounded_value value (9 - k) raz.
Proof.
  unfold RoundConst32, rounded_value.
  replace (9 - (9 - k)) with k by lia.
  rewrite Z.geb_leb.
  replace (Z.quot (10 ^ k) (-2)) with (- (10 ^ k / 2)).
  2:{ change (-2) with (Z.opp 2). rewrite Z.quot_opp_r by lia. f_equal.
      symmetry. apply Z.quot_div_nonneg; [apply Z.pow_nonneg|]; lia. }
  replace (Z.quot (10 ^ k) 2) with (10 ^ k / 2).
  2:{ symmetry. apply Z.quot_div_nonneg; [apply Z.pow_nonneg|]; lia. }
  destruct (Z.leb_spec 0 value);
    destruct (Z.ltb_spec value 0); try lia; reflexivity.
Qed.

Lemma RoundInternal_eq v d raz :
  -29 <= d < 9 ->
  RoundInternal v d raz
  = match FromPackedInt (rounded_value (as_packed_int v) d raz) with
    | Ok r => Ok r
    | Error _ =>
        Error ("numeric overflow: ROUND(" ++ ToString v ++ ", "
               ++ int64_to_string d ++ ")")
    end.
Proof.
  intros Hd. unfold RoundInternal, kMaxFractionalDigits, kMaxIntegerDigits.
  change (Z.opp 29) with (-29).
  rewrite Z.geb_leb.
  destruct (Z.leb_spec 9 d); [lia|].
  destruct (Z.ltb_spec d (-29)); [lia|].
  cbv zeta.
  match goal with
  | |- match FromPackedInt ?a with _ => _ end
       = match FromPackedInt ?b with _ => _ end =>
      assert (E : a = b); [|rewrite E; reflexivity]
  end.
  destruct (Z.eq_dec d 0) as [->|N0]; [exact (RoundConst32_eq 9 _ _)|].
  destruct (Z.eq_dec d 1) as [->|N1]; [exact (RoundConst32_eq 8 _ _)|].
  destruct (Z.eq_dec d 2) as [->|N2]; [exact (RoundConst32_eq 7 _ _)|].
  destruct (Z.eq_dec d 3) as [->|N3]; [exact (RoundConst32_eq 6 _ _)|].
  rewrite match_digits by assumption.
  unfold rounded_value.
  rewrite kTruncFactors_nth by lia.
  replace (38 - (d + 29)) with (9 - d) by lia.
  rewrite Z.shiftr_div_pow2 by lia. change (2 ^ 1) with 2.
  reflexivity.
Qed.

Lemma rem_trunc_bounds v f :
  0 < f ->
  (0 <= v -> 0 <= v - Z.rem v f <= v) /\ (v <= 0 -> v <= v - Z.rem v f <= 0).
Proof.
  intros Hf. split; intros Hv.
  - pose proof (Z.rem_bound_pos v f Hv Hf).
    pose proof (Z.rem_le v f Hv Hf). lia.
  - assert (E : Z.rem v f = - Z.rem (- v) f).
    { rewrite Z.rem_opp_l by lia. lia. }
    rewrite E.
    pose proof (Z.rem_bound_pos (- v) f ltac:(lia) Hf).
    pose proof (Z.rem_le (- v) f ltac:(lia) Hf). lia.
Qed.

Lemma pow10_pos k : 0 <= k -> 0 < 10 ^ k.
Proof. intros. apply Z.pow_pos_nonneg; lia. Qed.

(** C9: [Trunc] is total: for a valid value and any digit count the shared
    rounding routine, with rounding away from zero disabled, returns a
    value and never the overflow error, so that [ValueOrDie] does not die;
    the result is valid and its magnitude does not exceed that of the
    argument. *)
Theorem Trunc_total (v : NumericValue) (digits : Z) :
  is_valid v ->
  exists r,
    Trunc v digits = Some r
    /\ RoundInternal v digits false = Ok r
    /\ is_valid r
    /\ Z.abs (as_packed_int r) <= Z.abs (as_packed_int v).
Proof.
  intros Hv. unfold Trunc.
  destruct (Z_lt_le_dec digits (-29)) as [Hlo|Hlo];
    [|destruct (Z_lt_le_dec digits 9) as [Hhi|Hhi]].
  - exists NumericValue_zero.
    unfold RoundInternal, kMaxFractionalDigits, kMaxIntegerDigits.
    change (Z.opp 29) with (-29).
    rewrite Z.geb_leb.
    destruct (Z.leb_spec 9 digits); [lia|].
    destruct (Z.ltb_spec digits (-29)); [|lia].
    cbn [ValueOrDie]. repeat split.
    + unfold is_valid, NumericValue_zero, kNumericMin, kNumericMax.
      cbn [as_packed_int]. lia.
    + unfold is_valid, NumericValue_zero, kNumericMin, kNumericMax.
      cbn [as_packed_int]. lia.
    + unfold NumericValue_zero. cbn [as_packed_int]. lia.
  - rewrite RoundInternal_eq by lia.
    unfold rounded_value.
    set (f := 10 ^ (9 - digits)).
    assert (Hf : 0 < f) by (apply pow10_pos; lia).
    set (t := as_packed_int v - Z.rem (as_packed_int v) f).
    pose proof (rem_trunc_bounds (as_packed_int v) f Hf) as [Hp Hn].
    fold t in Hp, Hn.
    pose proof (is_valid_in_signed v Hv) as Hs.
    assert (Ht : Z.abs t <= Z.abs (as_packed_int v)) by lia.
    assert (Hw : wrap_signed 128 t = t).
    { apply wrap_signed_id; [lia|]. unfold in_signed.
      change (128 - 1) with 127. lia. }
    rewrite Hw.
    assert (Hvt : is_valid (FromPacked t)).
    { unfold is_valid in *. cbn [as_packed_int].
      unfold kNumericMin in *. lia. }
    rewrite (FromPackedInt_valid t Hvt).
    exists (FromPacked t). repeat split; try apply Hvt. exact Ht.
  - exists v.
    unfold RoundInternal, kMaxFractionalDigits.
    rewrite Z.geb_leb.
    destruct (Z.leb_spec 9 digits); [|lia].
    repeat split; try apply Hv. lia.
Qed.

Lemma Trunc_total_witness :
  is_valid (FromPacked (-1235000000))
  /\ Trunc (FromPacked (-1235000000)) 2 = Some (FromPacked (-1230000000))
  /\ exists r,
      Trunc (FromPacked kNumericMax) (-29) = Some r
      /\ RoundInternal (FromPacked kNumericMax) (-29) false = Ok r
      /\ is_valid r
      /\ Z.abs (as_packed_int r) <= Z.abs (as_packed_int (FromPacked kNumericMax)).
Proof.
  split; [closed_bounds|].
  split; [vm_compute; reflexivity|].
  apply (Trunc_total (FromPacked kNumericMax) (-29)).
  closed_bounds.
Defined.

Lemma pow10_le_38 d : -29 <= d < 9 -> 10 <= 10 ^ (9 - d) <= 10 ^ 38.
Proof.
  intros Hd. split.
  - change 10 with (10 ^ 1) at 1. apply Z.pow_le_mono_r; lia.
  - apply Z.pow_le_mono_r; lia.
Qed.

Lemma pow10_even d : -29 <= d < 9 -> 10 ^ (9 - d) = 2 * (10 ^ (9 - d) / 2).
Proof.
  intros Hd. replace (9 - d) with (Z.succ (8 - d)) by lia.
  rewrite Z.pow_succ_r by lia.
  replace (10 * 10 ^ (8 - d)) with ((5 * 10 ^ (8 - d)) * 2) by lia.
  rewrite Z.div_mul by lia. lia.
Qed.

(** What [RoundInternal] computes when rounding away from zero: the
    magnitude [|v| + f/2] cut down to a multiple of [f], with the sign of
    [v]. *)
Lemma rounded_value_away v d :
  is_valid (FromPacked v) -> -29 <= d < 9 ->
  rounded_value v d true
  = Z.sgn v * ((Z.abs v + 10 ^ (9 - d) / 2) / 10 ^ (9 - d) * 10 ^ (9 - d)).
Proof.
  intros Hv Hd. unfold rounded_value.
  pose proof (pow10_le_38 d Hd) as [Hf1 Hf2].
  set (f := 10 ^ (9 - d)) in *.
  unfold is_valid, kNumericMin, kNumericMax in Hv. cbn [as_packed_int] in Hv.
  assert (Hh : 0 <= f / 2 <= 5 * 10 ^ 37) by euclid.
  assert (Hin : forall x, Z.abs x <= Z.abs v + f / 2 -> wrap_signed 128 x = x).
  { intros x Hx. apply wrap_signed_id; [lia|].
    unfold in_signed. change (128 - 1) with 127. lia. }
  destruct (Z.ltb_spec v 0) as [Hneg|Hpos].
  - rewrite (Hin (v + - (f / 2))) by lia.
    set (a := Z.abs v + f / 2).
    replace (v + - (f / 2)) with (- a) by (unfold a; lia).
    assert (Ha : 0 <= a) by (unfold a; lia).
    rewrite Z.rem_opp_l by lia.
    rewrite Z.rem_mod_nonneg by lia.
    pose proof (Z.div_mod a f ltac:(lia)) as Hdm.
    pose proof (Z.mod_pos_bound a f ltac:(lia)) as Hmb.
    pose proof (Z.mod_le a f Ha ltac:(lia)) as Hml.
    rewrite Hin by (unfold a in *; lia).
    replace (Z.sgn v) with (-1) by lia. lia.
  - rewrite (Hin (v + f / 2)) by lia.
    set (a := Z.abs v + f / 2).
    replace (v + f / 2) with a by (unfold a; lia).
    assert (Ha : 0 <= a) by (unfold a; lia).
    rewrite Z.rem_mod_nonneg by lia.
    pose proof (Z.div_mod a f ltac:(lia)) as Hdm.
    pose proof (Z.mod_pos_bound a f ltac:(lia)) as Hmb.
    pose proof (Z.mod_le a f Ha ltac:(lia)) as Hml.
    rewrite Hin by (unfold a in *; lia).
    destruct (Z.eq_dec v 0) as [->|Hnz].
    + assert (E0 : a / f = 0).
      { apply Z.div_small. unfold a. cbn [Z.abs]. clearbody f. clear - Hf1.
        euclid. }
      rewrite E0. cbn [Z.sgn]. lia.
    + replace (Z.sgn v) with 1 by lia. lia.
Qed.

(** C5 (as amended): rounding is to the nearest multiple of the truncation
    factor [f = 10^(9 - d)], a residual of exactly [f/2] going away from
    zero for positive and for negative values alike, that is to the
    magnitude [|v| + f/2]; when the rounded magnitude exceeds [MAX_SCALED],
    [Round] returns a numeric overflow error instead of a value.  In
    particular Round(1.2345, 2) = 1.23, Round(1.235, 2) = 1.24 and
    Round(-1.235, 2) = -1.24. *)
Theorem Round_half_away_from_zero (v : NumericValue) (d : Z) :
  is_valid v -> -29 <= d < 9 ->
  let f := 10 ^ (9 - d) in
  let m := (Z.abs (as_packed_int v) + f / 2) / f * f in
  (Z.abs (as_packed_int v) mod f = f / 2 ->
   m = Z.abs (as_packed_int v) + f / 2)
  /\ (m <= kNumericMax ->
      Round v d = Ok (FromPacked (Z.sgn (as_packed_int v) * m)))
  /\ (kNumericMax < m ->
      Round v d
      = Error ("numeric overflow: ROUND(" ++ ToString v ++ ", "
               ++ int64_to_string d ++ ")"))
  /\ Round (FromPacked 1234500000) 2 = Ok (FromPacked 1230000000)
  /\ Round (FromPacked 1235000000) 2 = Ok (FromPacked 1240000000)
  /\ Round (FromPacked (-1235000000)) 2 = Ok (FromPacked (-1240000000)).
Proof.
  intros Hv Hd f m.
  pose proof (pow10_le_38 d Hd) as [Hf1 Hf2]. fold f in Hf1, Hf2.
  pose proof (pow10_even d Hd) as Hev. fold f in Hev.
  assert (Hm0 : 0 <= m).
  { unfold m. apply Z.mul_nonneg_nonneg; [|lia].
    apply Z.div_pos; [|lia].
    assert (0 <= f / 2) by euclid. lia. }
  assert (Hr : Round v d
               = match FromPackedInt (Z.sgn (as_packed_int v) * m) with
                 | Ok r => Ok r
                 | Error _ =>
                     Error ("numeric overflow: ROUND(" ++ ToString v ++ ", "
                            ++ int64_to_string d ++ ")")
                 end).
  { unfold Round. rewrite RoundInternal_eq by exact Hd.
    rewrite rounded_value_away; [reflexivity| |exact Hd].
    destruct v; exact Hv. }
  split; [|split; [|split]].
  - intros Htie. unfold m.
    set (a := Z.abs (as_packed_int v)) in *.
    pose proof (Z.div_mod a f ltac:(lia)) as Hdm. rewrite Htie in Hdm.
    replace (a + f / 2) with ((a / f + 1) * f) by lia.
    rewrite Z.div_mul by lia. reflexivity.
  - intros Hle. rewrite Hr, FromPackedInt_valid; [reflexivity|].
    unfold is_valid, kNumericMin. cbn [as_packed_int].
    destruct (Z.sgn_spec (as_packed_int v)) as [[_ ->]|[[_ ->]|[_ ->]]]; lia.
  - intros Hgt. rewrite Hr, FromPackedInt_invalid; [reflexivity|].
    unfold is_valid, kNumericMin. cbn [as_packed_int].
    assert (as_packed_int v <> 0).
    { intros E. unfold m in Hgt. rewrite E in Hgt. cbn [Z.abs] in Hgt.
      rewrite Z.div_small in Hgt by (clearbody f; clear - Hf1; euclid).
      unfold kNumericMax in Hgt. lia. }
    destruct (Z.sgn_spec (as_packed_int v)) as [[_ ->]|[[? _]|[_ ->]]]; lia.
  - repeat split; vm_compute; reflexivity.
Qed.

Lemma Round_half_away_from_zero_witness :
  is_valid (FromPacked (-1235000000)) /\ -29 <= 2 < 9
  /\ Z.abs (-1235000000) mod 10 ^ (9 - 2) = 10 ^ (9 - 2) / 2
  /\ (Z.abs (-1235000000) + 10 ^ (9 - 2) / 2) / 10 ^ (9 - 2) * 10 ^ (9 - 2)
     = 1240000000
  /\ Round (FromPacked (-1235000000)) 2 = Ok (FromPacked (-1240000000)).
Proof.
  assert (Hv : is_valid (FromPacked (-1235000000))) by closed_bounds.
  assert (Hd : -29 <= 2 < 9) by lia.
  split; [exact Hv|]. split; [exact Hd|].
  split; [vm_compute; reflexivity|]. split; [vm_compute; reflexivity|].
  destruct (Round_half_away_from_zero (FromPacked (-1235000000)) 2 Hv Hd)
    as (_ & Hok & _).
  apply Hok. closed_bounds.
Defined.

(** C5 as stated fails where the rounded magnitude leaves the range: at the
    tie 5e28 rounded at digit -29 no magnitude is returned at all. *)
Lemma Round_tie_overflow_counterexample :
  ~ (forall (v : NumericValue) (d : Z),
        is_valid v -> -29 <= d < 9 ->
        Z.abs (as_packed_int v) mod 10 ^ (9 - d) = 10 ^ (9 - d) / 2 ->
        exists r, Round v d = Ok r
                  /\ Z.abs (as_packed_int v) < Z.abs (as_packed_int r)).
Proof.
  intros H.
  destruct (H (FromPacked (5 * 10 ^ 37)) (-29)) as (r & Hr & _).
  - closed_bounds.
  - lia.
  - vm_compute; reflexivity.
  - vm_compute in Hr. discriminate Hr.
Qed.

(** ** Multiplication *)

Lemma kOverflowThreshold_eq :
  kOverflowThreshold = kNumericMax * kScalingFactor + kScalingFactor / 2.
Proof. vm_compute. reflexivity. Qed.

(** C1: [Multiply] forms the exact 256-bit product [P] of the magnitudes;
    below the pre-check constant [MAX_SCALED * scale + scale / 2] it returns
    [(P + scale/2) / scale] with the sign the exclusive or of the input
    signs, which is [P / scale] rounded half away from zero and is in
    range; at or above the constant it returns the numeric overflow
    error. *)
Theorem Multiply_spec (a b : NumericValue) :
  is_valid a -> is_valid b ->
  let P := ExtendAndMultiply (int128_abs (as_packed_int a))
                             (int128_abs (as_packed_int b)) in
  let m := (P + kScalingFactor / 2) / kScalingFactor in
  P = Z.abs (as_packed_int a) * Z.abs (as_packed_int b)
  /\ in_unsigned 256 P
  /\ kOverflowThreshold = kNumericMax * kScalingFactor + kScalingFactor / 2
  /\ (P < kOverflowThreshold ->
      Multiply a b
      = Ok (FromPacked
              (if xorb (as_packed_int a <? 0) (as_packed_int b <? 0)
               then - m else m))
      /\ m <= kNumericMax
      /\ 2 * (m * kScalingFactor - P) <= kScalingFactor
      /\ 2 * (P - m * kScalingFactor) < kScalingFactor)
  /\ (kOverflowThreshold <= P ->
      Multiply a b
      = Error ("numeric overflow: " ++ ToString a ++ " * " ++ ToString b)).
Proof.
  intros Ha Hb P m.
  pose proof (is_valid_in_signed a Ha) as Hsa.
  pose proof (is_valid_in_signed b Hb) as Hsb.
  assert (HP : P = Z.abs (as_packed_int a) * Z.abs (as_packed_int b)).
  { unfold P, ExtendAndMultiply. now rewrite !int128_abs_eq. }
  unfold is_valid, kNumericMin, kNumericMax in Ha, Hb.
  assert (HPr : 0 <= P < 10 ^ 38 * 10 ^ 38).
  { rewrite HP. split; [lia|].
    apply Z.mul_lt_mono_nonneg; lia. }
  split; [exact HP|]. split; [unfold in_unsigned; lia|].
  split; [exact kOverflowThreshold_eq|].
  unfold Multiply. fold P.
  split.
  - intros Hlt. destruct (Z.ltb_spec P kOverflowThreshold) as [_|]; [|lia].
    rewrite kOverflowThreshold_eq in Hlt.
    unfold kNumericMax, kScalingFactor in Hlt.
    assert (Hm : 0 <= m <= 10 ^ 38 - 1).
    { unfold m, kScalingFactor. euclid. }
    assert (Hround : 2 * (m * kScalingFactor - P) <= kScalingFactor
                     /\ 2 * (P - m * kScalingFactor) < kScalingFactor).
    { unfold m, kScalingFactor. euclid. }
    split; [|split; [unfold kNumericMax; lia | exact Hround]].
    do 2 f_equal.
    assert (E1 : wrap_unsigned 256 (P + kScalingFactor / 2)
                 = P + kScalingFactor / 2).
    { apply wrap_unsigned_id. unfold in_unsigned, kScalingFactor. euclid. }
    rewrite E1.
    assert (E2 : wrap_unsigned 160 (P + kScalingFactor / 2)
                 = P + kScalingFactor / 2).
    { apply wrap_unsigned_id. unfold in_unsigned, kScalingFactor. euclid. }
    rewrite E2. fold m.
    assert (E3 : wrap_unsigned 128 m = m).
    { apply wrap_unsigned_id. unfold in_unsigned. lia. }
    rewrite E3.
    destruct (as_packed_int a <? 0), (as_packed_int b <? 0);
      cbn [Bool.eqb xorb].
    + apply wrap_signed_id; [lia|]. unfold in_signed.
      change (128 - 1) with 127. lia.
    + unfold wrap_signed, wrap_unsigned. change (128 - 1) with 127. euclid.
    + unfold wrap_signed, wrap_unsigned. change (128 - 1) with 127. euclid.
    + apply wrap_signed_id; [lia|]. unfold in_signed.
      change (128 - 1) with 127. lia.
  - intros Hge. destruct (Z.ltb_spec P kOverflowThreshold) as [|_]; [lia|].
    reflexivity.
Qed.

Lemma Multiply_spec_witness :
  (is_valid (FromPacked 1500000000) /\ is_valid (FromPacked (-2500000001))
   /\ is_valid (FromPacked (10 ^ 28)))
  /\ Multiply (FromPacked 1500000000) (FromPacked (-2500000001))
     = Ok (FromPacked (-3750000002))
  /\ Multiply (FromPacked (10 ^ 28)) (FromPacked (10 ^ 28))
     = Error "numeric overflow: 10000000000000000000 * 10000000000000000000".
Proof.
  assert (Ha : is_valid (FromPacked 1500000000)) by closed_bounds.
  assert (Hb : is_valid (FromPacked (-2500000001))) by closed_bounds.
  assert (Hc : is_valid (FromPacked (10 ^ 28))) by closed_bounds.
  split; [auto|]. split.
  - destruct (Multiply_spec _ _ Ha Hb) as (_ & _ & _ & Hok & _).
    destruct Hok as [E _]; [closed_bounds | exact E].
  - destruct (Multiply_spec _ _ Hc Hc) as (_ & _ & _ & _ & Herr).
    rewrite Herr; [vm_compute; reflexivity | closed_bounds].
Defined.

(** ** Power *)

Lemma ToString_zero : ToString NumericValue_zero = "0"%string.
Proof. reflexivity. Qed.

(** C3: whatever the floating-point step computes, [x^0 = 1] for every [x],
    zero included; [0^e] is the division-by-zero error for [e < 0] and zero
    for [e > 0]; a negative base with an exponent whose fractional part is
    not zero is an error. *)
Theorem Power_special_cases
  (fract_pow : Z -> Z -> StatusOr NumericValue) (x e : NumericValue) :
  Power fract_pow x NumericValue_zero = Ok (NumericValue_of_int 1)
  /\ Power fract_pow NumericValue_zero NumericValue_zero
     = Ok (FromPacked kScalingFactor)
  /\ (as_packed_int e < 0 ->
      Power fract_pow NumericValue_zero e
      = Error ("division by zero: POW(0, " ++ ToString e ++ ")"))
  /\ (0 < as_packed_int e ->
      Power fract_pow NumericValue_zero e = Ok NumericValue_zero)
  /\ (is_valid e ->
      as_packed_int x < 0 ->
      Z.abs (as_packed_int e) mod kScalingFactor <> 0 ->
      Power fract_pow x e
      = Error ("Negative NUMERIC value cannot be raised to a fractional power: POW("
               ++ ToString x ++ ", " ++ ToString e ++ ")")).
Proof.
  split; [reflexivity|]. split; [reflexivity|].
  unfold Power, PowerInternal. cbn [as_packed_int NumericValue_zero].
  split; [|split].
  - intros He.
    destruct (Z.eqb_spec (as_packed_int e) 0); [lia|].
    destruct (Z.ltb_spec (as_packed_int e) 0); [|lia].
    reflexivity.
  - intros He.
    destruct (Z.eqb_spec (as_packed_int e) 0); [lia|].
    destruct (Z.ltb_spec (as_packed_int e) 0); [lia|].
    reflexivity.
  - intros Hv Hx Hfr.
    destruct (Z.eqb_spec (as_packed_int e) 0) as [E|_].
    { rewrite E in Hfr. now cbn in Hfr. }
    destruct (Z.eqb_spec (as_packed_int x) 0); [lia|].
    destruct (Z.ltb_spec (as_packed_int x) 0); [|lia].
    rewrite (int128_abs_eq (as_packed_int e)) by now apply is_valid_in_signed.
    set (r := Z.abs (as_packed_int e) mod kScalingFactor) in *.
    assert (Hnz : ((if as_packed_int e <? 0 then - r else r) =? 0) = false).
    { apply Z.eqb_neq. destruct (as_packed_int e <? 0); lia. }
    rewrite Hnz. reflexivity.
Qed.

Lemma Power_special_cases_witness :
  (-500000000 < 0 /\ 0 < 1 /\ is_valid (FromPacked (-500000000))
   /\ as_packed_int (NumericValue_of_int (-2)) < 0
   /\ Z.abs (-500000000) mod kScalingFactor <> 0)
  /\ Power (fun _ _ => Error "unused") NumericValue_zero
       (FromPacked (-500000000))
     = Error "division by zero: POW(0, -0.5)"
  /\ Power (fun _ _ => Error "unused") NumericValue_zero (FromPacked 1)
     = Ok NumericValue_zero
  /\ Power (fun _ _ => Error "unused") (NumericValue_of_int (-2))
       (FromPacked (-500000000))
     = Error "Negative NUMERIC value cannot be raised to a fractional power: POW(-2, -0.5)".
Proof.
  assert (He : as_packed_int (FromPacked (-500000000)) < 0) by closed_bounds.
  assert (Hv : is_valid (FromPacked (-500000000))) by closed_bounds.
  assert (Hx : as_packed_int (NumericValue_of_int (-2)) < 0)
    by closed_bounds.
  assert (Hf : Z.abs (as_packed_int (FromPacked (-500000000)))
               mod kScalingFactor <> 0) by closed_bounds.
  split; [repeat split; solve [assumption | closed_bounds]|].
  destruct (Power_special_cases (fun _ _ => Error "unused")
              (NumericValue_of_int (-2)) (FromPacked (-500000000)))
    as (_ & _ & H1 & _ & H3).
  destruct (Power_special_cases (fun _ _ => Error "unused")
              (NumericValue_of_int (-2)) (FromPacked 1))
    as (_ & _ & _ & H2 & _).
  split; [exact (H1 He)|]. split; [apply H2; closed_bounds|].
  exact (H3 Hv Hx Hf).
Defined.

(** ** Wire serialization *)

Lemma land_128 x : 0 <= x < 256 -> (Z.land x 128 =? 0) = (x <? 128).
Proof.
  intros Hx. apply eqb_prop.
  apply (range_forallb
           (fun x => Bool.eqb (Z.land x 128 =? 0) (x <? 128)) 256);
    [vm_compute; reflexivity | lia].
Qed.

Lemma little_endian_shifts X s n :
  little_endian
    (map (fun i => Z.shiftr X (8 * Z.of_nat i) mod 256) (seq s n))
  = (X / 2 ^ (8 * Z.of_nat s)) mod 2 ^ (8 * Z.of_nat n).
Proof.
  revert s. induction n as [|n IH]; intros s.
  - cbn [seq map little_endian]. change (8 * Z.of_nat 0) with 0.
    now rewrite Z.pow_0_r, Z.mod_1_r.
  - cbn [seq map little_endian]. rewrite IH.
    rewrite Z.shiftr_div_pow2 by lia.
    replace (8 * Z.of_nat (S s)) with (8 * Z.of_nat s + 8) by lia.
    replace (8 * Z.of_nat (S n)) with (8 + 8 * Z.of_nat n) by lia.
    rewrite !Z.pow_add_r by lia.
    rewrite <- Z.div_div by (try apply Z.pow_pos_nonneg; lia).
    change (2 ^ 8) with 256.
    rewrite Z.rem_mul_r by (try apply Z.neq_sym, Z.lt_neq, Z.pow_pos_nonneg; lia).
    reflexivity.
Qed.

Lemma little_endian_snoc l x :
  little_endian (l ++ [x])
  = little_endian l + 2 ^ (8 * Z.of_nat (List.length l)) * x.
Proof.
  induction l as [|b l IH].
  - cbn [app little_endian List.length]. change (8 * Z.of_nat 0) with 0.
    rewrite Z.pow_0_r. lia.
  - cbn [app little_endian List.length]. rewrite IH.
    replace (8 * Z.of_nat (S (List.length l)))
      with (8 + 8 * Z.of_nat (List.length l)) by lia.
    rewrite Z.pow_add_r by lia. change (2 ^ 8) with 256. lia.
Qed.

Lemma little_endian_range l :
  Forall (fun b => 0 <= b < 256) l ->
  0 <= little_endian l < 2 ^ (8 * Z.of_nat (List.length l)).
Proof.
  induction 1 as [|b l Hb _ IH].
  - cbn [little_endian List.length]. change (8 * Z.of_nat 0) with 0.
    rewrite Z.pow_0_r. lia.
  - cbn [little_endian List.length].
    replace (8 * Z.of_nat (S (List.length l)))
      with (8 + 8 * Z.of_nat (List.length l)) by lia.
    rewrite Z.pow_add_r by lia. change (2 ^ 8) with 256. lia.
Qed.

(** What the deserializer returns lies in the range of its length. *)
Lemma FixedInt_DeserializeFromBytes_range bytes v :
  Forall (fun b => 0 <= b < 256) bytes ->
  FixedInt_DeserializeFromBytes 128 bytes = Some v ->
  let n := Z.of_nat (List.length bytes) in
  1 <= n <= 16 /\ - 2 ^ (8 * n - 1) <= v < 2 ^ (8 * n - 1).
Proof.
  intros Hb. unfold FixedInt_DeserializeFromBytes. cbv zeta.
  destruct (Z.eqb_spec (Z.of_nat (List.length bytes)) 0) as [|Hn0];
    [discriminate|].
  destruct (Z.ltb_spec 128 (8 * Z.of_nat (List.length bytes))) as [|Hn16];
    [discriminate|].
  cbn [orb]. intros Hd.
  split; [lia|].
  destruct bytes as [|b0 bs]; [cbn in Hn0; lia|].
  destruct (exists_last (l := b0 :: bs) ltac:(discriminate)) as (l & x & E).
  rewrite E in *. clear E b0 bs.
  rewrite last_last, little_endian_snoc in Hd.
  apply Forall_app in Hb. destruct Hb as [Hl Hx].
  apply Forall_inv in Hx. cbv beta in Hx.
  pose proof (little_endian_range l Hl) as Hr.
  rewrite length_app in *. cbn [List.length] in *.
  set (M := 2 ^ (8 * Z.of_nat (List.length l))) in *.
  assert (E1 : 2 ^ (8 * Z.of_nat (List.length l + 1) - 1) = 128 * M).
  { replace (8 * Z.of_nat (List.length l + 1) - 1)
      with (7 + 8 * Z.of_nat (List.length l)) by lia.
    rewrite Z.pow_add_r by lia. reflexivity. }
  assert (E2 : 2 ^ (8 * Z.of_nat (List.length l + 1)) = 256 * M).
  { replace (8 * Z.of_nat (List.length l + 1))
      with (8 + 8 * Z.of_nat (List.length l)) by lia.
    rewrite Z.pow_add_r by lia. reflexivity. }
  rewrite E1. rewrite E2 in Hd.
  assert (HM : 0 < M) by (apply Z.pow_pos_nonneg; lia).
  destruct (Z.leb_spec 128 x).
  - assert (v = little_endian l + M * x - 256 * M) by congruence.
    pose proof (Z.mul_le_mono_nonneg_l 128 x M ltac:(lia) ltac:(lia)).
    pose proof (Z.mul_le_mono_nonneg_l x 255 M ltac:(lia) ltac:(lia)). lia.
  - assert (v = little_endian l + M * x) by congruence.
    pose proof (Z.mul_le_mono_nonneg_l 0 x M ltac:(lia) ltac:(lia)).
    pose proof (Z.mul_le_mono_nonneg_l x 127 M ltac:(lia) ltac:(lia)). lia.
Qed.

Lemma last_map_seq {A} (f : nat -> A) n d :
  last (map f (seq 0 (S n))) d = f n.
Proof. rewrite seq_S, map_app. cbn [map]. apply last_last. Qed.

(** A value that fits [n] bytes is read back from its first [n] bytes. *)
Lemma FixedInt_DeserializeFromBytes_bytes v n :
  1 <= n <= 16 -> - 2 ^ (8 * n - 1) <= v < 2 ^ (8 * n - 1) ->
  FixedInt_DeserializeFromBytes 128 (int128_bytes v (Z.to_nat n)) = Some v.
Proof.
  intros Hn Hv. unfold FixedInt_DeserializeFromBytes, int128_bytes. cbv zeta.
  rewrite length_map, length_seq, Z2Nat.id by lia.
  destruct (Z.eqb_spec n 0); [lia|].
  destruct (Z.ltb_spec 128 (8 * n)); [lia|]. cbn [orb].
  rewrite little_endian_shifts.
  replace (Z.to_nat n) with (S (Z.to_nat (n - 1))) at 1 by lia.
  rewrite (last_map_seq
             (fun i => Z.shiftr (wrap_unsigned 128 v) (8 * Z.of_nat i) mod 256)).
  rewrite Z.shiftr_div_pow2 by lia.
  rewrite !Z2Nat.id by lia.
  change (8 * Z.of_nat 0) with 0. rewrite Z.pow_0_r, Z.div_1_r.
  unfold wrap_unsigned.
  assert (Hj : 0 <= n - 1 <= 15) by lia.
  replace n with ((n - 1) + 1) in Hv |- * by lia.
  replace (n - 1 + 1 - 1) with (n - 1) by lia.
  set (j := n - 1) in *. clearbody j. clear Hn.
  byte_cases j Hj;
    match goal with
    | |- context [8 * (?c + 1)] =>
        let e := eval vm_compute in (8 * (c + 1)) in
        change (8 * (c + 1)) with e in *
    end;
    match goal with
    | |- context [8 * ?c] =>
        let e := eval vm_compute in (8 * c) in
        change (8 * c) with e in *
    end;
    match goal with
    | H : context [?a - 1] |- _ =>
        let e := eval vm_compute in (a - 1) in change (a - 1) with e in H
    end.
  all: match goal with
       | |- context [128 <=? ?t] => destruct (Z.leb_spec 128 t)
       end; f_equal; euclid.
Qed.

(** The index of the most significant bit, as the serializer finds it from
    the two 64-bit halves of the magnitude. *)
Lemma msb_of_halves a :
  0 < a < 2 ^ 128 ->
  (if negb (wrap_unsigned 64 (Z.shiftr a 64) =? 0)
   then FindMSBSetNonZero64 (wrap_unsigned 64 (Z.shiftr a 64)) + 64
   else FindMSBSetNonZero64 (wrap_unsigned 64 a))
  = Z.log2 a.
Proof.
  intros Ha. unfold FindMSBSetNonZero64, wrap_unsigned.
  rewrite Z.shiftr_div_pow2 by lia.
  destruct (Z_lt_le_dec a (2 ^ 64)) as [Hlo|Hhi].
  - rewrite (Z.div_small a) by lia.
    rewrite (Z.mod_small a) by lia. reflexivity.
  - assert (E : (a / 2 ^ 64) mod 2 ^ 64 = a / 2 ^ 64) by euclid.
    rewrite E.
    destruct (Z.eqb_spec (a / 2 ^ 64) 0) as [E0|_]; [euclid|].
    cbn [negb].
    rewrite <- Z.shiftr_div_pow2, Z.log2_shiftr by lia.
    assert (64 <= Z.log2 a) by (apply Z.log2_le_pow2; lia).
    lia.
Qed.

(** The length [k] the serializer settles on, and the bytes it copies. *)
Lemma SerializeAsProtoBytes_length v :
  is_valid v -> as_packed_int v <> 0 ->
  exists k,
    1 <= k <= 16
    /\ SerializeAsProtoBytes v = int128_bytes (as_packed_int v) (Z.to_nat k)
    /\ Z.abs (as_packed_int v) < 2 ^ (8 * k - 1)
    /\ (k = 1 \/ 2 ^ (8 * k - 9) <= Z.abs (as_packed_int v)).
Proof.
  intros Hv Hnz. pose proof (is_valid_in_signed v Hv) as Hs.
  unfold SerializeAsProtoBytes. cbv zeta.
  destruct (Z.eqb_spec (as_packed_int v) 0); [contradiction|].
  rewrite int128_abs_eq by exact Hs.
  set (a := Z.abs (as_packed_int v)).
  assert (Ha : 0 < a < 2 ^ 127).
  { unfold is_valid, kNumericMin, kNumericMax in Hv. unfold a. lia. }
  rewrite msb_of_halves by lia.
  pose proof (Z.log2_spec a ltac:(lia)) as [HL1 HL2].
  assert (HL : 0 <= Z.log2 a < 127).
  { split; [apply Z.log2_nonneg|]. apply Z.log2_lt_pow2; lia. }
  set (j := Z.log2 a / 8) in *.
  assert (Hj : 0 <= j <= 15) by (unfold j; euclid).
  assert (Hlo : 2 ^ (8 * j) <= a).
  { eapply Z.le_trans; [|exact HL1].
    apply Z.pow_le_mono_r; [lia|]. unfold j. euclid. }
  assert (Hhi : a < 2 ^ (8 * j + 8)).
  { eapply Z.lt_le_trans; [exact HL2|].
    apply Z.pow_le_mono_r; [lia|]. unfold j. euclid. }
  rewrite Z.shiftr_div_pow2 by lia.
  replace (j * 8) with (8 * j) by lia.
  assert (Hb : wrap_unsigned 8 (a / 2 ^ (8 * j)) = a / 2 ^ (8 * j)).
  { apply wrap_unsigned_id. unfold in_unsigned. split.
    - apply Z.div_pos; [lia|]. apply Z.pow_pos_nonneg; lia.
    - apply Z.div_lt_upper_bound; [apply Z.pow_pos_nonneg; lia|].
      rewrite <- Z.pow_add_r by lia. exact Hhi. }
  rewrite Hb.
  rewrite land_128 by (rewrite <- Hb; apply Z.mod_pos_bound; lia).
  clearbody j a. clear HL1 HL2 HL Hb.
  destruct (Z.ltb_spec (a / 2 ^ (8 * j)) 128) as [Hsmall|Hbig]; cbn [negb].
  - exists (j + 1). split; [lia|]. split; [reflexivity|].
    byte_cases j Hj; cbn [Z.mul Z.add Z.sub Pos.mul Pos.add Z.opp Z.pos_sub
                            Pos.succ Z.succ_double Z.pred_double
                            Z.double Pos.pred_double] in *;
      (split; [euclid|]); first [left; reflexivity | right; lia].
  - assert (Hj14 : j <= 14).
    { destruct (Z.eq_dec j 15) as [->|]; [exfalso|lia].
      change (8 * 15) with 120 in *. euclid. }
    exists (j + 1 + 1). split; [lia|]. split; [reflexivity|].
    byte_cases j Hj; cbn [Z.mul Z.add Z.sub Pos.mul Pos.add Z.opp Z.pos_sub
                            Pos.succ Z.succ_double Z.pred_double
                            Z.double Pos.pred_double] in *;
      first [lia | split; [euclid | right; euclid]].
Qed.

Lemma NumericValue_eta v : FromPacked (as_packed_int v) = v.
Proof. now destruct v. Qed.

Lemma nth_map_seq {A} (f : nat -> A) s n i d :
  (i < n)%nat -> nth i (map f (seq s n)) d = f (s + i)%nat.
Proof.
  revert s i. induction n as [|n IH]; intros s i Hi; [lia|].
  destruct i as [|i]; cbn [seq map nth].
  - f_equal. lia.
  - rewrite IH by lia. f_equal. lia.
Qed.

Lemma int128_bytes_nth v n i :
  (i < n)%nat -> (n <= 16)%nat ->
  nth i (int128_bytes v n) 0 = (v / 2 ^ (8 * Z.of_nat i)) mod 256.
Proof.
  intros Hi Hn. unfold int128_bytes.
  rewrite nth_map_seq by exact Hi.
  cbn [Nat.add]. rewrite Z.shiftr_div_pow2 by lia.
  unfold wrap_unsigned.
  assert (Hj : 0 <= Z.of_nat i <= 15) by lia.
  set (j := Z.of_nat i) in *. clearbody j. clear Hi.
  byte_cases j Hj;
    match goal with
    | |- context [8 * ?c] =>
        let e := eval vm_compute in (8 * c) in
        change (8 * c) with e in *
    end; euclid.
Qed.

(** C4 (as amended): the serializer emits the little-endian
    two's-complement bytes of the scaled integer; zero gives the single byte
    0x00, the scaled integer 1 the single byte 0x01, and 128 is the first to
    take two bytes, 0x80 0x00, which keeps the high bit cleared;
    deserializing what was serialized gives the value back; the empty string
    is an invalid encoding; and the output is of minimum length, no shorter
    byte string deserializing to the value, for every value that is not of
    the form [-2^(8 j - 1)]. *)
Theorem SerializeAsProtoBytes_spec (v : NumericValue) :
  is_valid v ->
  SerializeAsProtoBytes NumericValue_zero = [0]
  /\ SerializeAsProtoBytes (FromPacked 1) = [1]
  /\ SerializeAsProtoBytes (FromPacked 128) = [128; 0]
  /\ DeserializeFromProtoBytes [] = Error "Invalid numeric encoding"
  /\ DeserializeFromProtoBytes (SerializeAsProtoBytes v) = Ok v
  /\ (forall i, (i < List.length (SerializeAsProtoBytes v))%nat ->
        nth i (SerializeAsProtoBytes v) 0
        = (as_packed_int v / 2 ^ (8 * Z.of_nat i)) mod 256)
  /\ ((forall j, 0 < j -> as_packed_int v <> - 2 ^ (8 * j - 1)) ->
      forall bytes,
        Forall (fun b => 0 <= b < 256) bytes ->
        FixedInt_DeserializeFromBytes 128 bytes = Some (as_packed_int v) ->
        (List.length (SerializeAsProtoBytes v) <= List.length bytes)%nat).
Proof.
  intros Hv.
  split; [reflexivity|]. split; [reflexivity|]. split; [reflexivity|].
  split; [reflexivity|].
  destruct (Z.eq_dec (as_packed_int v) 0) as [Hz|Hnz].
  - assert (E : SerializeAsProtoBytes v = [0]).
    { unfold SerializeAsProtoBytes. now rewrite Hz. }
    rewrite E. split; [|split].
    + rewrite <- (NumericValue_eta v), Hz. reflexivity.
    + intros i Hi. cbn [List.length] in Hi.
      assert (i = O) by lia. subst i. rewrite Hz. reflexivity.
    + intros _ bytes Hb Hd.
      apply FixedInt_DeserializeFromBytes_range in Hd; [|exact Hb].
      cbn [List.length]. lia.
  - destruct (SerializeAsProtoBytes_length v Hv Hnz) as (k & Hk & E & Hlt & Hge).
    rewrite E. split; [|split].
    + unfold DeserializeFromProtoBytes.
      rewrite FixedInt_DeserializeFromBytes_bytes by lia.
      rewrite FromPackedInt_valid by (rewrite NumericValue_eta; exact Hv).
      now rewrite NumericValue_eta.
    + intros i Hi. unfold int128_bytes in Hi.
      rewrite length_map, length_seq in Hi.
      apply int128_bytes_nth; lia.
    + intros Hex bytes Hb Hd.
      apply FixedInt_DeserializeFromBytes_range in Hd; [|exact Hb].
      destruct Hd as [Hn Hr].
      unfold int128_bytes. rewrite length_map, length_seq.
      set (n := Z.of_nat (List.length bytes)) in *.
      destruct (Z_lt_le_dec n k) as [Hnk|Hnk]; [exfalso|lia].
      destruct Hge as [->|Hge]; [lia|].
      assert (Hp : 2 ^ (8 * n - 1) <= 2 ^ (8 * k - 9))
        by (apply Z.pow_le_mono_r; lia).
      apply (Hex n); lia.
Qed.

Lemma SerializeAsProtoBytes_spec_witness :
  is_valid (FromPacked (-129))
  /\ SerializeAsProtoBytes (FromPacked (-129)) = [127; 255]
  /\ DeserializeFromProtoBytes (SerializeAsProtoBytes (FromPacked (-129)))
     = Ok (FromPacked (-129))
  /\ FixedInt_DeserializeFromBytes 128 [127; 255; 255] = Some (-129)
  /\ (List.length (SerializeAsProtoBytes (FromPacked (-129)))
      <= List.length [127; 255; 255]%Z)%nat.
Proof.
  assert (Hv : is_valid (FromPacked (-129))) by closed_bounds.
  assert (Hex : forall j, 0 < j ->
                  as_packed_int (FromPacked (-129)) <> - 2 ^ (8 * j - 1)).
  { intros j Hj E. cbn [as_packed_int] in E.
    destruct (Z.eq_dec j 1) as [->|]; [discriminate E|].
    assert (2 ^ 15 <= 2 ^ (8 * j - 1)) by (apply Z.pow_le_mono_r; lia).
    lia. }
  split; [exact Hv|]. split; [reflexivity|].
  destruct (SerializeAsProtoBytes_spec (FromPacked (-129)) Hv)
    as (_ & _ & _ & _ & Hrt & _ & Hmin).
  split; [exact Hrt|]. split; [reflexivity|].
  apply (Hmin Hex); [|reflexivity].
  repeat constructor; lia.
Defined.

(** C4 as stated fails on its own example: the scaled integer 1 takes one
    byte, and so does not serialize to 0x01 0x00; nor does the decimal 1. *)
Lemma SerializeAsProtoBytes_one_counterexample :
  SerializeAsProtoBytes (FromPacked 1) <> [1; 0]
  /\ SerializeAsProtoBytes (NumericValue_of_int 1) <> [1; 0].
Proof. split; vm_compute; discriminate. Qed.

(** ** Decimal digits *)

Lemma digit_char_facts d :
  0 <= d <= 9 ->
  is_digit (digit_char d) /\ digit_value (digit_char d) = d.
Proof.
  intros Hd. unfold is_digit.
  assert (H : ascii_isdigit (digit_char d)
              && (digit_value (digit_char d) =? d) = true).
  { apply (range_forallb
             (fun d => ascii_isdigit (digit_char d)
                       && (digit_value (digit_char d) =? d)) 10);
      [vm_compute; reflexivity | lia]. }
  apply andb_true_iff in H. destruct H as [H1 H2].
  apply Z.eqb_eq in H2. auto.
Qed.

Lemma digit_value_range c : is_digit c -> 0 <= digit_value c <= 9.
Proof.
  unfold is_digit, ascii_isdigit, digit_value. intros H.
  apply andb_true_iff in H. destruct H as [H1 H2].
  apply Nat.leb_le in H1. apply Nat.leb_le in H2. lia.
Qed.

Lemma digit_value_zero c : is_digit c -> digit_value c = 0 -> c = "0"%char.
Proof.
  unfold is_digit, ascii_isdigit, digit_value. intros H E.
  apply andb_true_iff in H. destruct H as [H1 H2].
  apply Nat.leb_le in H1.
  assert (N : nat_of_ascii c = 48%nat) by lia.
  rewrite <- (ascii_nat_embedding c), N. reflexivity.
Qed.

(** What a digit is not. *)
Lemma is_digit_not_special c :
  is_digit c ->
  ascii_isspace c = false /\ is_exp_char c = false /\ is_point c = false
  /\ c <> "-"%char /\ c <> "+"%char.
Proof.
  unfold is_digit.
  destruct c as [[] [] [] [] [] [] [] []]; intros H; try discriminate H;
    repeat split; try reflexivity; discriminate.
Qed.

Lemma fold_decimal_value s acc :
  fold_left (fun a c => a * 10 + digit_value c) s acc
  = acc * 10 ^ Z.of_nat (List.length s) + decimal_value s.
Proof.
  unfold decimal_value. revert acc.
  induction s as [|c s IH]; intros acc.
  - cbn [fold_left List.length]. change (Z.of_nat 0) with 0.
    rewrite Z.pow_0_r. lia.
  - cbn [fold_left List.length]. rewrite IH, (IH (0 * 10 + digit_value c)).
    rewrite Nat2Z.inj_succ, Z.pow_succ_r by lia. lia.
Qed.

Lemma decimal_value_app a b :
  decimal_value (a ++ b)
  = decimal_value a * 10 ^ Z.of_nat (List.length b) + decimal_value b.
Proof.
  unfold decimal_value at 1. rewrite fold_left_app.
  fold (decimal_value a). apply fold_decimal_value.
Qed.

Lemma decimal_value_zeros k : decimal_value (repeat "0"%char k) = 0.
Proof.
  induction k as [|k IH]; [reflexivity|].
  change (repeat "0"%char (S k)) with (["0"%char] ++ repeat "0"%char k).
  rewrite decimal_value_app, IH. reflexivity.
Qed.

Lemma decimal_value_nonneg s : Forall is_digit s -> 0 <= decimal_value s.
Proof.
  induction s as [|c s IH] using rev_ind; intros H; [cbn; lia|].
  apply Forall_app in H. destruct H as [Hs Hc]. apply Forall_inv in Hc.
  rewrite decimal_value_app. cbn [List.length].
  pose proof (digit_value_range c Hc).
  change (decimal_value [c]) with (0 * 10 + digit_value c).
  specialize (IH Hs). lia.
Qed.

Lemma FixedUint_AppendToString_eq n output :
  FixedUint_AppendToString n output = output ++ digits n.
Proof. reflexivity. Qed.

Lemma digits_aux_S fuel n acc :
  digits_aux (S fuel) n acc
  = if n <? 10 then digit_char (n mod 10) :: acc
    else digits_aux fuel (n / 10) (digit_char (n mod 10) :: acc).
Proof. reflexivity. Qed.

Lemma digits_aux_spec fuel n acc :
  0 <= n < 2 ^ Z.of_nat (S fuel) ->
  exists ds,
    digits_aux (S fuel) n acc = ds ++ acc
    /\ ds <> []
    /\ Forall is_digit ds
    /\ decimal_value ds = n
    /\ (0 < n -> hd "0"%char ds <> "0"%char).
Proof.
  revert n acc. induction fuel as [|fuel IH]; intros n acc Hn.
  - change (2 ^ Z.of_nat 1) with 2 in Hn.
    exists [digit_char n]. rewrite digits_aux_S.
    destruct (Z.ltb_spec n 10); [|lia].
    rewrite Z.mod_small by lia.
    destruct (digit_char_facts n ltac:(lia)) as [Hd Hval].
    repeat split.
    + discriminate.
    + constructor; [exact Hd | constructor].
    + change (decimal_value [digit_char n])
        with (0 * 10 + digit_value (digit_char n)). lia.
    + intros Hpos. cbn [hd]. intros E. rewrite E in Hval.
      cbv in Hval. lia.
  - rewrite digits_aux_S.
    assert (Hm : 0 <= n mod 10 <= 9) by euclid.
    destruct (digit_char_facts (n mod 10) Hm) as [Hd Hval].
    destruct (Z.ltb_spec n 10) as [Hs|Hb].
    + exists [digit_char (n mod 10)].
      rewrite Z.mod_small in * by lia.
      repeat split.
      * discriminate.
      * constructor; [exact Hd | constructor].
      * change (decimal_value [digit_char n])
          with (0 * 10 + digit_value (digit_char n)). lia.
      * intros Hpos. cbn [hd]. intros E. rewrite E in Hval.
        cbv in Hval. lia.
    + assert (Hq : 0 <= n / 10 < 2 ^ Z.of_nat (S fuel)).
      { rewrite (Nat2Z.inj_succ (S fuel)), Z.pow_succ_r in Hn by lia.
        euclid. }
      destruct (IH (n / 10) (digit_char (n mod 10) :: acc) Hq)
        as (ds & E & Hne & Hall & Hv & Hhd).
      exists (ds ++ [digit_char (n mod 10)]).
      repeat split.
      * rewrite E, <- app_assoc. reflexivity.
      * destruct ds; discriminate.
      * apply Forall_app. split; [exact Hall|].
        constructor; [exact Hd | constructor].
      * rewrite decimal_value_app, Hv. cbn [List.length].
        change (decimal_value [digit_char (n mod 10)])
          with (0 * 10 + digit_value (digit_char (n mod 10))).
        change (10 ^ Z.of_nat 1) with 10. euclid.
      * intros _. destruct ds as [|c ds]; [contradiction|].
        cbn [hd app]. apply Hhd. euclid.
Qed.

Lemma digits_spec n :
  0 <= n ->
  digits n <> []
  /\ Forall is_digit (digits n)
  /\ decimal_value (digits n) = n
  /\ (0 < n -> hd "0"%char (digits n) <> "0"%char).
Proof.
  intros Hn. unfold digits.
  assert (Hb : 0 <= n < 2 ^ Z.of_nat (S (Z.to_nat (Z.log2 n)))).
  { split; [exact Hn|].
    rewrite Nat2Z.inj_succ, Z2Nat.id by apply Z.log2_nonneg.
    destruct (Z.eq_dec n 0) as [->|]; [cbn; lia|].
    apply Z.log2_spec. lia. }
  destruct (digits_aux_spec _ n [] Hb) as (ds & E & H).
  rewrite E, app_nil_r. exact H.
Qed.

(** ** Formatting *)

Lemma find_last_not_of_spec c s :
  match find_last_not_of c s with
  | Some i =>
      (i < List.length s)%nat /\ nth i s c <> c
      /\ skipn (S i) s = repeat c (List.length s - S i)
  | None => s = repeat c (List.length s)
  end.
Proof.
  induction s as [|x s IH]; [reflexivity|].
  cbn [find_last_not_of].
  destruct (find_last_not_of c s) as [i|].
  - destruct IH as (Hi & Hn & Hs). cbn [nth skipn].
    repeat split; [cbn [List.length]; lia | exact Hn |].
    replace (List.length (x :: s) - S (S i))%nat
      with (List.length s - S i)%nat by (cbn [List.length]; lia).
    exact Hs.
  - destruct (Ascii.eqb_spec x c) as [->|Hne].
    + cbn [List.length repeat]. f_equal. exact IH.
    + cbn [nth skipn]. repeat split; [cbn [List.length]; lia | exact Hne |].
      replace (List.length (x :: s) - 1)%nat with (List.length s)
        by (cbn [List.length]; lia).
      exact IH.
Qed.

Lemma skipn_repeat {A} (c : A) k m :
  skipn k (repeat c m) = repeat c (m - k).
Proof.
  revert m. induction k as [|k IH]; intros m.
  - now rewrite Nat.sub_0_r.
  - destruct m as [|m]; [reflexivity|]. cbn [repeat skipn]. apply IH.
Qed.

Lemma skipn_app_exact {A} (a b : list A) k :
  skipn (List.length a + k) (a ++ b) = skipn k b.
Proof. induction a as [|x a IH]; [reflexivity | exact IH]. Qed.

Lemma Forall_firstn {A} (P : A -> Prop) k l :
  Forall P l -> Forall P (firstn k l).
Proof.
  intros H. rewrite <- (firstn_skipn k l) in H.
  apply Forall_app in H. tauto.
Qed.

Lemma Forall_skipn {A} (P : A -> Prop) k l :
  Forall P l -> Forall P (skipn k l).
Proof.
  intros H. rewrite <- (firstn_skipn k l) in H.
  apply Forall_app in H. tauto.
Qed.

Lemma Forall_repeat {A} (P : A -> Prop) c k : P c -> Forall P (repeat c k).
Proof. intros H. induction k; constructor; assumption. Qed.

Lemma is_digit_0 : is_digit "0"%char.
Proof. reflexivity. Qed.

Lemma hd_firstn {A} (d : A) k l : (0 < k)%nat -> hd d (firstn k l) = hd d l.
Proof. destruct k; [lia|]. now destruct l. Qed.

(** The digits of a nonzero magnitude end in [t] zeros; cutting [z <= t] of
    them divides the value by [10^z]. *)
Lemma trailing_zeros_cut s i z :
  find_last_not_of "0"%char s = Some i ->
  (z <= List.length s - i - 1)%nat ->
  s = firstn (List.length s - z) s ++ repeat "0"%char z
  /\ decimal_value (firstn (List.length s - z) s) * 10 ^ Z.of_nat z
     = decimal_value s.
Proof.
  intros Hf Hz.
  pose proof (find_last_not_of_spec "0"%char s) as H. rewrite Hf in H.
  destruct H as (Hi & _ & Hs).
  assert (E : skipn (List.length s - z) s = repeat "0"%char z).
  { replace (List.length s - z)%nat
      with ((List.length s - S i - z) + S i)%nat by lia.
    rewrite <- skipn_skipn, Hs, skipn_repeat. f_equal. lia. }
  assert (E' : s = firstn (List.length s - z) s ++ repeat "0"%char z).
  { rewrite <- E. symmetry. apply firstn_skipn. }
  split; [exact E'|].
  rewrite E' at 3. rewrite decimal_value_app, decimal_value_zeros.
  rewrite repeat_length. lia.
Qed.

Lemma skipn_app_length {A} (a b : list A) : skipn (List.length a) (a ++ b) = b.
Proof. induction a as [|x a IH]; [reflexivity | exact IH]. Qed.

Lemma firstn_app_length {A} (a b : list A) :
  firstn (List.length a) (a ++ b) = a.
Proof. induction a as [|x a IH]; [now destruct b | cbn; now f_equal]. Qed.

Lemma string_insert_at_end_of_prefix prefix rest count ch :
  string_insert (List.length prefix) count ch (prefix ++ rest)
  = prefix ++ repeat ch count ++ rest.
Proof.
  unfold string_insert. now rewrite firstn_app_length, skipn_app_length.
Qed.

(** The shape of what [AddDecimalPointAndAdjustZeros] leaves behind
    [prefix]: an integer part [I], and a fractional part [F] of [9 - z]
    digits behind a point unless it is empty. *)
Lemma AddDecimalPoint_shape prefix s :
  s <> [] -> Forall is_digit s -> hd "0"%char s <> "0"%char ->
  exists I F z,
    AddDecimalPointAndAdjustZeros (List.length prefix) 9 (prefix ++ s)
    = prefix ++ I ++ with_point F
    /\ I <> [] /\ Forall is_digit I /\ Forall is_digit F
    /\ (List.length F + z = 9)%nat
    /\ decimal_value (I ++ F) * 10 ^ Z.of_nat z = decimal_value s
    /\ (I = ["0"%char] \/ hd "0"%char I <> "0"%char)
    /\ (I = ["0"%char] -> F <> []).
Proof.
  intros Hne Hdig Hhd.
  unfold AddDecimalPointAndAdjustZeros. cbv zeta.
  rewrite length_app, skipn_app_length.
  set (n := List.length s).
  assert (Hn : (0 < n)%nat) by (destruct s; [contradiction | cbn; lia]).
  destruct (find_last_not_of "0"%char s) as [i|] eqn:Hf.
  2:{ exfalso. pose proof (find_last_not_of_spec "0"%char s) as H.
      rewrite Hf in H. apply Hhd. rewrite H. fold n.
      destruct n; [lia | reflexivity]. }
  pose proof (find_last_not_of_spec "0"%char s) as Hspec.
  rewrite Hf in Hspec. destruct Hspec as (Hi & _ & _). fold n in Hi.
  set (z := Nat.min (n - i - 1) 9).
  assert (Hz : (z <= n - i - 1 /\ z <= 9)%nat) by (unfold z; lia).
  destruct (trailing_zeros_cut s i z Hf ltac:(fold n; lia)) as [Hcut Hval].
  fold n in Hcut, Hval.
  set (pre := firstn (n - z) s) in *.
  assert (Hlen : List.length pre = (n - z)%nat)
    by (unfold pre; rewrite length_firstn; fold n; lia).
  assert (Hpre_dig : Forall is_digit pre) by now apply Forall_firstn.
  assert (Hpre_hd : hd "0"%char pre = hd "0"%char s)
    by (apply hd_firstn; lia).
  assert (Hpre_ne : pre <> [])
    by (intros E; rewrite E in Hlen; cbn in Hlen; lia).
  replace (List.length prefix + n - z)%nat
    with (List.length prefix + (n - z))%nat by lia.
  rewrite firstn_app_2. fold pre.
  destruct (Nat.ltb_spec n (9 + 1)) as [Hsmall|Hbig].
  - (* A magnitude below 1: "0." and leading zeros. *)
    rewrite string_insert_at_end_of_prefix.
    replace (9 + 2 - n)%nat with (S (S (9 - n))) by lia.
    cbn [repeat].
    unfold string_set.
    replace (S (List.length prefix + 1))
      with (List.length prefix + 2)%nat by lia.
    rewrite firstn_app_2, skipn_app_exact. cbn [firstn skipn app].
    exists ["0"%char], (repeat "0"%char (9 - n) ++ pre), z.
    assert (HF : repeat "0"%char (9 - n) ++ pre <> []).
    { intros E. apply app_eq_nil in E. tauto. }
    split.
    { rewrite <- app_assoc. unfold with_point.
      destruct (repeat "0"%char (9 - n) ++ pre) eqn:E; [contradiction|].
      reflexivity. }
    split; [discriminate|].
    split; [repeat constructor|].
    split; [apply Forall_app; split;
            [apply Forall_repeat, is_digit_0 | exact Hpre_dig]|].
    split; [rewrite length_app, repeat_length; lia|].
    split.
    { rewrite <- Hval.
      change (["0"%char] ++ repeat "0"%char (9 - n) ++ pre)
        with (repeat "0"%char (S (9 - n)) ++ pre).
      rewrite decimal_value_app, decimal_value_zeros. lia. }
    split; [left; reflexivity | intros _; exact HF].
  - destruct (Nat.ltb_spec z 9) as [Hz9|Hz9].
    + (* A point inside the digits. *)
      replace (List.length prefix + n - 9)%nat
        with (List.length prefix + (n - 9))%nat by lia.
      unfold string_insert.
      rewrite firstn_app_2, skipn_app_exact. cbn [repeat app].
      exists (firstn (n - 9) pre), (skipn (n - 9) pre), z.
      assert (HF : skipn (n - 9) pre <> []).
      { intros E. apply (f_equal (@List.length ascii)) in E.
        rewrite length_skipn, Hlen in E. cbn in E. lia. }
      split.
      { rewrite <- app_assoc. unfold with_point.
        destruct (skipn (n - 9) pre) eqn:E; [contradiction|]. reflexivity. }
      split.
      { intros E. apply (f_equal (@List.length ascii)) in E.
        rewrite length_firstn, Hlen in E. cbn in E. lia. }
      split; [now apply Forall_firstn|].
      split; [now apply Forall_skipn|].
      split; [rewrite length_skipn, Hlen; lia|].
      split; [rewrite firstn_skipn; exact Hval|].
      split; [right; rewrite hd_firstn by lia; congruence|].
      intros E. exfalso. apply Hhd. rewrite <- Hpre_hd.
      rewrite <- (hd_firstn "0"%char (n - 9) pre) by lia.
      now rewrite E.
    + (* A whole number: the nine zeros go, and no point comes. *)
      exists pre, [], z.
      split; [cbn [with_point]; now rewrite app_nil_r|].
      split; [exact Hpre_ne|].
      split; [exact Hpre_dig|].
      split; [constructor|].
      split; [cbn [List.length]; lia|].
      split; [rewrite app_nil_r; exact Hval|].
      split; [right; congruence|].
      intros E. exfalso. apply Hhd. rewrite <- Hpre_hd. now rewrite E.
Qed.

(** The shape of a formatted nonzero value. *)
Lemma AppendToString_shape v :
  as_packed_int v <> 0 ->
  exists I F z,
    AppendToString v [] = sign_prefix (as_packed_int v) ++ I ++ with_point F
    /\ I <> [] /\ Forall is_digit I /\ Forall is_digit F
    /\ (List.length F + z = 9)%nat
    /\ decimal_value (I ++ F) * 10 ^ Z.of_nat z = Z.abs (as_packed_int v)
    /\ (I = ["0"%char] \/ hd "0"%char I <> "0"%char)
    /\ (I = ["0"%char] -> F <> []).
Proof.
  intros Hnz. unfold AppendToString. cbv zeta.
  destruct (Z.eqb_spec (as_packed_int v) 0); [contradiction|].
  change (Z.to_nat kMaxFractionalDigits) with 9%nat.
  assert (E : FixedInt_AppendToString (as_packed_int v) []
              = sign_prefix (as_packed_int v) ++ digits (Z.abs (as_packed_int v))).
  { unfold FixedInt_AppendToString, sign_prefix.
    destruct (Z.ltb_spec (as_packed_int v) 0).
    - rewrite FixedUint_AppendToString_eq. cbn [app]. do 2 f_equal. lia.
    - rewrite FixedUint_AppendToString_eq. cbn [app]. f_equal. lia. }
  rewrite E.
  replace (List.length (@nil ascii)
           + (if (as_packed_int v <? 0)%Z then 1 else 0))%nat
    with (List.length (sign_prefix (as_packed_int v)))
    by (unfold sign_prefix; now destruct (as_packed_int v <? 0)).
  destruct (digits_spec (Z.abs (as_packed_int v)) ltac:(lia))
    as (Hne & Hdig & Hval & Hhd).
  destruct (AddDecimalPoint_shape (sign_prefix (as_packed_int v))
              (digits (Z.abs (as_packed_int v))) Hne Hdig ltac:(apply Hhd; lia))
    as (I & F & z & H1 & H2 & H3 & H4 & H5 & H6 & H7).
  exists I, F, z. rewrite Hval in H6. tauto.
Qed.

Lemma no_point_at_the_end (X D pre : list ascii) :
  D <> [] -> Forall is_digit D -> X ++ D <> pre ++ ["."%char].
Proof.
  intros Hne Hd E.
  destruct (exists_last Hne) as (D' & d & ->).
  rewrite app_assoc in E. apply app_inj_tail in E. destruct E as [_ ->].
  apply Forall_app in Hd. destruct Hd as [_ Hd]. apply Forall_inv in Hd.
  discriminate Hd.
Qed.

(** C7 (as amended): the format of zero is exactly "0"; no output begins
    with '+'; an output begins with "-0" only for a magnitude below 1, where
    a point follows, so that "-0" alone is never printed; no output ends
    in '.'; and an output begins with '-' exactly for the negative
    values. *)
Theorem ToString_sign_canonical (v : NumericValue) :
  let s := list_ascii_of_string (ToString v) in
  ToString NumericValue_zero = "0"%string
  /\ (forall rest, s <> "+"%char :: rest)
  /\ (forall rest, s = "-"%char :: "0"%char :: rest ->
        exists rest', rest = "."%char :: rest')
  /\ (forall pre, s <> pre ++ ["."%char])
  /\ (as_packed_int v < 0 -> exists rest, s = "-"%char :: rest)
  /\ (0 <= as_packed_int v -> forall rest, s <> "-"%char :: rest).
Proof.
  intros s. split; [reflexivity|].
  assert (Es : s = AppendToString v []).
  { unfold s, ToString. apply list_ascii_of_string_of_list_ascii. }
  rewrite Es. clear Es s.
  destruct (Z.eq_dec (as_packed_int v) 0) as [Hz|Hnz].
  - assert (E : AppendToString v [] = ["0"%char]).
    { unfold AppendToString. now rewrite Hz. }
    rewrite E. repeat split; try discriminate; try lia.
    intros pre H. destruct pre as [|? [|? ?]]; discriminate H.
  - destruct (AppendToString_shape v Hnz)
      as (I & F & z & E & HI & HdI & HdF & Hlen & _ & Hlead & HF).
    rewrite E. unfold sign_prefix.
    destruct I as [|c I]; [contradiction|].
    assert (Hc : is_digit c) by now apply Forall_inv in HdI.
    destruct (is_digit_not_special c Hc) as (_ & _ & _ & Hminus & Hplus).
    destruct (Z.ltb_spec (as_packed_int v) 0) as [Hneg|Hpos]; cbn [app].
    + split; [discriminate|]. split; [|split; [|split]].
      * intros rest H. injection H as Hc0 Hrest.
        destruct Hlead as [HI0|Hnz0]; [|cbn [hd] in Hnz0; contradiction].
        injection HI0 as _ ->. subst c. specialize (HF eq_refl).
        destruct F as [|f F]; [contradiction|].
        cbn [with_point app] in Hrest. eauto.
      * intros pre H.
        destruct F as [|f F].
        -- cbn [with_point] in H. rewrite app_nil_r in H.
           apply (no_point_at_the_end ["-"%char] (c :: I) pre);
             [discriminate | exact HdI | exact H].
        -- apply (no_point_at_the_end ("-"%char :: c :: I ++ ["."%char])
                    (f :: F) pre); [discriminate | exact HdF |].
           rewrite <- H. cbn [with_point app]. rewrite <- app_assoc.
           reflexivity.
      * eauto.
      * lia.
    + split; [intros rest H; injection H as H _; contradiction|].
      split; [intros rest H; injection H as H _; contradiction|].
      split; [|split].
      * intros pre H.
        destruct F as [|f F].
        -- cbn [with_point] in H. rewrite app_nil_r in H.
           apply (no_point_at_the_end [] (c :: I) pre);
             [discriminate | exact HdI | exact H].
        -- apply (no_point_at_the_end (c :: I ++ ["."%char]) (f :: F) pre);
             [discriminate | exact HdF |].
           rewrite <- H. cbn [with_point app]. rewrite <- app_assoc.
           reflexivity.
      * lia.
      * intros _ rest H. injection H as H _. contradiction.
Qed.

(** C7 as stated fails for the negative values of magnitude below 1: the
    format of -0.5 begins with "-0". *)
Lemma ToString_minus_zero_counterexample :
  ~ (forall v : NumericValue,
        is_valid v ->
        forall rest, ToString v <> String "-" (String "0" rest)).
Proof.
  intros H.
  apply (H (FromPacked (-500000000)) ltac:(closed_bounds) ".5"%string).
  vm_compute. reflexivity.
Qed.

Lemma ToString_sign_canonical_witness :
  ToString (FromPacked (-500000000)) = "-0.5"%string
  /\ as_packed_int (FromPacked (-500000000)) < 0
  /\ (exists rest',
        list_ascii_of_string ".5" = "."%char :: rest')
  /\ (exists rest,
        list_ascii_of_string (ToString (FromPacked (-500000000)))
        = "-"%char :: rest).
Proof.
  assert (Hneg : as_packed_int (FromPacked (-500000000)) < 0)
    by closed_bounds.
  destruct (ToString_sign_canonical (FromPacked (-500000000)))
    as (_ & _ & Hzero & _ & Hminus & _).
  split; [reflexivity|]. split; [exact Hneg|].
  split; [exact (Hzero (list_ascii_of_string ".5") eq_refl)|].
  exact (Hminus Hneg).
Defined.

(** ** Parsing what was formatted *)

Lemma skip_space_id c rest :
  ascii_isspace c = false -> skip_space (c :: rest) = c :: rest.
Proof. intros H. cbn [skip_space]. now rewrite H. Qed.

Lemma skip_trailing_space_id s d :
  ascii_isspace d = false ->
  rev (skip_space (rev (s ++ [d]))) = s ++ [d].
Proof.
  intros H. rewrite rev_app_distr. cbn [rev app].
  rewrite skip_space_id by exact H.
  change (d :: rev s) with ([d] ++ rev s).
  rewrite rev_app_distr, rev_involutive. reflexivity.
Qed.

Lemma split_at_first_none p s :
  Forall (fun c => p c = false) s -> split_at_first p s = (s, None).
Proof.
  induction 1 as [|c s Hc _ IH]; [reflexivity|].
  cbn [split_at_first]. now rewrite Hc, IH.
Qed.

Lemma split_at_first_hit p a x b :
  Forall (fun c => p c = false) a -> p x = true ->
  split_at_first p (a ++ x :: b) = (a, Some b).
Proof.
  intros Ha Hx. induction Ha as [|c a Hc _ IH].
  - cbn [app split_at_first]. now rewrite Hx.
  - cbn [app split_at_first]. now rewrite Hc, IH.
Qed.

Lemma split_at_last_none p s :
  Forall (fun c => p c = false) s -> split_at_last p s = (s, None).
Proof.
  intros H. unfold split_at_last.
  rewrite split_at_first_none by now apply Forall_rev. reflexivity.
Qed.

Lemma Forall_digit_no_exp s :
  Forall is_digit s -> Forall (fun c => is_exp_char c = false) s.
Proof.
  apply Forall_impl. intros c Hc. now apply is_digit_not_special.
Qed.

Lemma Forall_digit_no_point s :
  Forall is_digit s -> Forall (fun c => is_point c = false) s.
Proof.
  apply Forall_impl. intros c Hc. now apply is_digit_not_special.
Qed.

Lemma with_point_no_exp F :
  Forall is_digit F -> Forall (fun c => is_exp_char c = false) (with_point F).
Proof.
  intros H. destruct F as [|f F]; [constructor|].
  cbn [with_point]. constructor; [reflexivity|].
  now apply Forall_digit_no_exp.
Qed.

(** A formatted value splits into its sign, integer part and fractional
    part, with no exponent. *)
Lemma SplitENotationParts_formatted v I F :
  I <> [] -> Forall is_digit I -> Forall is_digit F ->
  SplitENotationParts (sign_prefix v ++ I ++ with_point F)
  = Some (mkENotationParts (v <? 0) I F []).
Proof.
  intros HI HdI HdF. unfold SplitENotationParts.
  destruct I as [|c I]; [contradiction|].
  assert (Hc : is_digit c) by now apply Forall_inv in HdI.
  destruct (is_digit_not_special c Hc) as (Hsp & _ & _ & Hminus & Hplus).
  set (B := (c :: I) ++ with_point F).
  assert (Hskip : skip_space (sign_prefix v ++ B) = sign_prefix v ++ B).
  { unfold sign_prefix. destruct (v <? 0); cbn [app].
    - now apply skip_space_id.
    - unfold B. cbn [app]. now apply skip_space_id. }
  rewrite Hskip.
  assert (Htrim : rev (skip_space (rev (sign_prefix v ++ B)))
                  = sign_prefix v ++ B).
  { assert (Hlast : exists X d, sign_prefix v ++ B = X ++ [d] /\ is_digit d).
    { unfold B. destruct F as [|f F].
      - cbn [with_point]. rewrite app_nil_r.
        destruct (exists_last (l := c :: I) ltac:(discriminate))
          as (X & d & E).
        exists (sign_prefix v ++ X), d. rewrite E, app_assoc.
        split; [reflexivity|].
        rewrite E in HdI. apply Forall_app in HdI.
        destruct HdI as [_ Hd]. now apply Forall_inv in Hd.
      - destruct (exists_last (l := f :: F) ltac:(discriminate))
          as (X & d & E).
        exists (sign_prefix v ++ (c :: I) ++ "."%char :: X), d.
        cbn [with_point]. rewrite E.
        split.
        + rewrite <- !app_assoc. cbn [app]. reflexivity.
        + rewrite E in HdF. apply Forall_app in HdF.
          destruct HdF as [_ Hd]. now apply Forall_inv in Hd. }
    destruct Hlast as (X & d & E & Hd). rewrite E.
    apply skip_trailing_space_id. now apply is_digit_not_special. }
  rewrite Htrim.
  assert (Hexp : split_at_last is_exp_char B = (B, None)).
  { apply split_at_last_none. unfold B. apply Forall_app. split.
    - now apply Forall_digit_no_exp.
    - now apply with_point_no_exp. }
  assert (Hpt : split_at_first is_point B
                = (c :: I, match F with [] => None | _ => Some F end)).
  { unfold B. destruct F as [|f F].
    - cbn [with_point]. rewrite app_nil_r.
      apply split_at_first_none. now apply Forall_digit_no_point.
    - cbn [with_point]. apply split_at_first_hit;
        [now apply Forall_digit_no_point | reflexivity]. }
  unfold sign_prefix. destruct (Z.ltb_spec v 0); cbn [app].
  - cbn [Ascii.eqb Bool.eqb orb andb]. rewrite Hexp, Hpt.
    now destruct F.
  - fold B. unfold B at 1. cbn [app].
    destruct (Ascii.eqb_spec c "-"%char); [contradiction|].
    destruct (Ascii.eqb_spec c "+"%char); [contradiction|].
    cbn [orb]. change (c :: I ++ with_point F) with B.
    rewrite Hexp, Hpt. now destruct F.
Qed.

Lemma PowersAsc_nth z :
  0 <= z < 19 -> nth (Z.to_nat z) (PowersAsc 1 10 19) 0 = 10 ^ z.
Proof.
  intros Hz. apply Z.eqb_eq.
  apply (range_forallb
           (fun z => nth (Z.to_nat z) (PowersAsc 1 10 19) 0 =? 10 ^ z) 19);
    [vm_compute; reflexivity | lia].
Qed.

Lemma forallb_is_digit s : Forall is_digit s -> forallb ascii_isdigit s = true.
Proof. intros H. apply forallb_forall. now apply Forall_forall. Qed.

(** The magnitude of a formatted value is parsed back, in either mode. *)
Lemma ParseNumber_formatted I F z a strict :
  I <> [] -> Forall is_digit I -> Forall is_digit F ->
  (List.length F + z = 9)%nat ->
  decimal_value (I ++ F) * 10 ^ Z.of_nat z = a -> a < 2 ^ 128 ->
  ParseNumber 128 I F 9 strict = Some a.
Proof.
  intros HI HdI HdF Hlen Hval Ha. unfold ParseNumber.
  change (9 >=? 0) with true. cbv iota zeta.
  destruct (Z.ltb_spec 9 (Z.of_nat (List.length F))); [lia|].
  rewrite Nat2Z.id, firstn_all, skipn_all.
  assert (Hd : Forall is_digit (I ++ F)) by (apply Forall_app; now split).
  pose proof (decimal_value_nonneg _ Hd) as Hnn.
  assert (Hp : 1 <= 10 ^ Z.of_nat z)
    by (pose proof (pow10_pos (Z.of_nat z) ltac:(lia)); lia).
  assert (Hparse : match I with
                   | [] => FixedUint_ParseFromStringStrict 128 F
                   | _ => FixedUint_ParseFromStringSegments 128 I [F]
                   end = Some (decimal_value (I ++ F))).
  { destruct I as [|c I]; [contradiction|].
    unfold FixedUint_ParseFromStringSegments, FixedUint_ParseFromStringStrict.
    cbn [List.concat]. rewrite app_nil_r.
    cbn [app]. change (c :: I ++ F) with ((c :: I) ++ F).
    rewrite forallb_is_digit by exact Hd.
    destruct (Z.ltb_spec (decimal_value ((c :: I) ++ F)) (2 ^ 128)); [reflexivity|].
    nia. }
  rewrite Hparse.
  replace (9 - Z.of_nat (List.length F)) with (Z.of_nat z) by lia.
  rewrite (Z.div_small (Z.of_nat z) 19) by lia.
  cbn [Z.to_N N.iter].
  rewrite (Z.mod_small (Z.of_nat z) 19) by lia.
  assert (Hmul : (if Z.of_nat z =? 0 then Some (decimal_value (I ++ F))
                  else FixedUint_MultiplyOverflow 128 (decimal_value (I ++ F))
                         (nth (Z.to_nat (Z.of_nat z)) (PowersAsc 1 10 19) 0))
                 = Some a).
  { destruct (Z.eqb_spec (Z.of_nat z) 0) as [E|_].
    - rewrite E in Hval. rewrite Z.pow_0_r in Hval. f_equal. lia.
    - rewrite PowersAsc_nth by lia. unfold FixedUint_MultiplyOverflow.
      rewrite Hval. destruct (Z.ltb_spec a (2 ^ 128)); [reflexivity | lia]. }
  rewrite Hmul. cbn [forallb andb]. now destruct strict.
Qed.

Lemma FromFixedUint_abs v :
  is_valid v ->
  FromFixedUint (Z.abs (as_packed_int v)) (as_packed_int v <? 0) = Ok v.
Proof.
  intros Hv. unfold FromFixedUint.
  unfold is_valid, kNumericMin in Hv.
  set (a := Z.abs (as_packed_int v)).
  assert (Ha : 0 <= a <= kNumericMax) by (unfold a; lia).
  assert (Hb : kNumericMax < 2 ^ 127) by (unfold kNumericMax; lia).
  destruct (Z.ltb_spec a (2 ^ 128)); [|lia].
  rewrite wrap_unsigned_id by (unfold in_unsigned; lia).
  destruct (Z.leb_spec a kNumericMax); [|lia].
  rewrite <- (NumericValue_eta v) at 2. do 2 f_equal.
  destruct (Z.ltb_spec (as_packed_int v) 0).
  - unfold wrap_signed, wrap_unsigned. change (128 - 1) with 127.
    unfold a in *. euclid.
  - replace a with (as_packed_int v) by (unfold a; lia).
    apply wrap_signed_id; [lia|]. unfold in_signed. change (128 - 1) with 127.
    unfold a in *. lia.
Qed.

(** C2: parsing the format of a valid value gives the value back, in the
    rounding mode and in the strict mode. *)
Theorem FromString_ToString_roundtrip (v : NumericValue) :
  is_valid v ->
  FromString (ToString v) = Ok v /\ FromStringStrict (ToString v) = Ok v.
Proof.
  intros Hv.
  assert (H : forall strict, FromStringInternal (ToString v) strict = Ok v).
  { intros strict. unfold FromStringInternal, ToString.
    rewrite list_ascii_of_string_of_list_ascii.
    destruct (Z.eq_dec (as_packed_int v) 0) as [Hz|Hnz].
    - assert (E : AppendToString v [] = ["0"%char]).
      { unfold AppendToString. now rewrite Hz. }
      rewrite E. rewrite <- (NumericValue_eta v), Hz.
      destruct strict; reflexivity.
    - destruct (AppendToString_shape v Hnz)
        as (I & F & z & E & HI & HdI & HdF & Hlen & Hval & _).
      rewrite E, SplitENotationParts_formatted by assumption.
      cbn [exp_part int_part fract_part negative ParseExponent].
      change kMaxFractionalDigits with 9.
      rewrite (ParseNumber_formatted I F z (Z.abs (as_packed_int v)) strict)
        by (try assumption;
            unfold is_valid, kNumericMin, kNumericMax in Hv; lia).
      rewrite FromFixedUint_abs by exact Hv. reflexivity. }
  split; apply H.
Qed.

Lemma FromString_ToString_roundtrip_witness :
  is_valid (FromPacked (-123450000000))
  /\ ToString (FromPacked (-123450000000)) = "-123.45"%string
  /\ FromString (ToString (FromPacked (-123450000000)))
     = Ok (FromPacked (-123450000000))
  /\ FromStringStrict (ToString (FromPacked (-123450000000)))
     = Ok (FromPacked (-123450000000)).
Proof.
  assert (Hv : is_valid (FromPacked (-123450000000))) by closed_bounds.
  split; [exact Hv|]. split; [reflexivity|].
  exact (FromString_ToString_roundtrip (FromPacked (-123450000000)) Hv).
Defined.

(** ** Exponents below the 64-bit range *)

Lemma ParseExponent_below_int64 ds extra_scale :
  ds <> [] -> Forall is_digit ds -> 2 ^ 63 < decimal_value ds ->
  ParseExponent ("-"%char :: ds) extra_scale = Some int64_min.
Proof.
  intros Hne Hd Hbig. unfold ParseExponent.
  assert (E : FixedInt_ParseFromStringStrict 64 ("-"%char :: ds) = None).
  { cbn [FixedInt_ParseFromStringStrict].
    unfold FixedUint_ParseFromStringStrict.
    destruct ds as [|d ds]; [contradiction|].
    rewrite forallb_is_digit by exact Hd. cbn [andb].
    destruct (Z.ltb_spec (decimal_value (d :: ds)) (2 ^ 64)); [|reflexivity].
    unfold FixedInt_SetSignAndAbs. change (64 - 1) with 63.
    destruct (Z.leb_spec (decimal_value (d :: ds)) (2 ^ 63)); [lia|].
    reflexivity. }
  rewrite E.
  destruct ds as [|d ds]; [contradiction|].
  cbn [List.length Nat.ltb Nat.leb Ascii.eqb Bool.eqb andb].
  now rewrite forallb_is_digit.
Qed.

(** With the saturated exponent every digit of the significand is
    discarded and nothing is rounded up. *)
Lemma ParseNumber_int64_min I F strict :
  I ++ F <> [] -> Z.of_nat (List.length I) < 2 ^ 63 ->
  ParseNumber 128 I F int64_min strict
  = if (if strict
        then forallb is_zero_char I && forallb is_zero_char F
        else forallb ascii_isdigit I && forallb ascii_isdigit F)
    then Some 0 else None.
Proof.
  intros Hne Hlen. unfold ParseNumber.
  change (int64_min >=? 0) with false. cbv iota zeta.
  assert (Hsz : Z.of_nat (List.length I) + Z.of_nat (List.length F) <> 0).
  { intros E. apply Hne.
    destruct I; [|cbn [List.length] in E; lia].
    destruct F; [reflexivity | cbn [List.length] in E; lia]. }
  destruct (Z.eqb_spec (Z.of_nat (List.length I) + Z.of_nat (List.length F)) 0);
    [contradiction|].
  rewrite Z.geb_leb.
  destruct (Z.leb_spec (- Z.of_nat (List.length I)) int64_min) as [Hle|_].
  { unfold int64_min in Hle. lia. }
  reflexivity.
Qed.

Lemma FromFixedUint_zero negate : FromFixedUint 0 negate = Ok NumericValue_zero.
Proof. now destruct negate. Qed.

(** C6: an exponent written as '-' and digits whose value lies below the
    64-bit range is not rejected but saturated to the minimum 64-bit
    integer, and a string with such an exponent and a significand of digits
    parses to zero; in the strict mode the discarded digits must be zeros.
    The integer part is shorter than [2^63] characters, as every string in
    a 64-bit address space is. *)
Theorem ParseExponent_saturates
  (str : string) (parts : ENotationParts) (ds : list ascii) :
  SplitENotationParts (list_ascii_of_string str) = Some parts ->
  exp_part parts = "-"%char :: ds ->
  ds <> [] -> Forall is_digit ds -> 2 ^ 63 < decimal_value ds ->
  Forall is_digit (int_part parts) -> Forall is_digit (fract_part parts) ->
  int_part parts ++ fract_part parts <> [] ->
  Z.of_nat (List.length (int_part parts)) < 2 ^ 63 ->
  ParseExponent (exp_part parts) kMaxFractionalDigits = Some int64_min
  /\ ParseNumber 128 (int_part parts) (fract_part parts) int64_min false
     = Some 0
  /\ FromString str = Ok NumericValue_zero
  /\ (forallb is_zero_char (int_part parts ++ fract_part parts) = true ->
      FromStringStrict str = Ok NumericValue_zero).
Proof.
  intros Hsplit Hexp Hne Hds Hbig HdI HdF Hsig Hlen.
  assert (E1 : ParseExponent (exp_part parts) kMaxFractionalDigits
               = Some int64_min).
  { rewrite Hexp. now apply ParseExponent_below_int64. }
  assert (E2 : ParseNumber 128 (int_part parts) (fract_part parts)
                 int64_min false = Some 0).
  { rewrite ParseNumber_int64_min by assumption.
    now rewrite !forallb_is_digit. }
  split; [exact E1|]. split; [exact E2|]. split.
  - unfold FromString, FromStringInternal.
    rewrite Hsplit, E1, E2, FromFixedUint_zero. reflexivity.
  - intros Hz. rewrite forallb_app in Hz.
    unfold FromStringStrict, FromStringInternal.
    rewrite Hsplit, E1, ParseNumber_int64_min by assumption.
    rewrite Hz, FromFixedUint_zero. reflexivity.
Qed.

Lemma ParseExponent_saturates_witness :
  SplitENotationParts (list_ascii_of_string "-12.5e-99999999999999999999")
  = Some (mkENotationParts true (list_ascii_of_string "12")
            (list_ascii_of_string "5")
            (list_ascii_of_string "-99999999999999999999"))
  /\ 2 ^ 63 < decimal_value (list_ascii_of_string "99999999999999999999")
  /\ ParseExponent (list_ascii_of_string "-99999999999999999999")
       kMaxFractionalDigits = Some int64_min
  /\ FromString "-12.5e-99999999999999999999" = Ok NumericValue_zero
  /\ is_ok (FromStringStrict "-12.5e-99999999999999999999") = false
  /\ FromStringStrict "0.0e-9223372036854775809" = Ok NumericValue_zero
  /\ FromString "5e-9223372036854775808" = Ok NumericValue_zero.
Proof.
  assert (Hsplit :
            SplitENotationParts
              (list_ascii_of_string "-12.5e-99999999999999999999")
            = Some (mkENotationParts true (list_ascii_of_string "12")
                      (list_ascii_of_string "5")
                      (list_ascii_of_string "-99999999999999999999")))
    by reflexivity.
  assert (Hds : Forall is_digit (list_ascii_of_string "99999999999999999999"))
    by (repeat constructor).
  assert (Hbig : 2 ^ 63
                 < decimal_value (list_ascii_of_string "99999999999999999999"))
    by closed_bounds.
  destruct (ParseExponent_saturates "-12.5e-99999999999999999999" _
              (list_ascii_of_string "99999999999999999999") Hsplit eq_refl
              ltac:(discriminate) Hds Hbig
              ltac:(repeat constructor) ltac:(repeat constructor)
              ltac:(discriminate) ltac:(closed_bounds))
    as (H1 & _ & H3 & _).
  split; [exact Hsplit|]. split; [exact Hbig|]. split; [exact H1|].
  split; [exact H3|].
  repeat split; vm_compute; reflexivity.
Defined.

(** ** Division, remainder, sign and integer rounding *)

Lemma is_valid_bounds v :
  is_valid v -> Z.abs (as_packed_int v) <= 10 ^ 38 - 1.
Proof. unfold is_valid, kNumericMin, kNumericMax. lia. Qed.

(** The value [Multiply] returns below its overflow threshold. *)
Lemma Multiply_ok a b :
  is_valid a -> is_valid b ->
  Z.abs (as_packed_int a) * Z.abs (as_packed_int b) < kOverflowThreshold ->
  Multiply a b
  = Ok (FromPacked
          (if xorb (as_packed_int a <? 0) (as_packed_int b <? 0)
           then - ((Z.abs (as_packed_int a) * Z.abs (as_packed_int b)
                    + kScalingFactor / 2) / kScalingFactor)
           else (Z.abs (as_packed_int a) * Z.abs (as_packed_int b)
                 + kScalingFactor / 2) / kScalingFactor)).
Proof.
  intros Ha Hb Hlt.
  pose proof (is_valid_in_signed a Ha) as Hsa.
  pose proof (is_valid_in_signed b Hb) as Hsb.
  pose proof (is_valid_bounds a Ha) as Hba.
  pose proof (is_valid_bounds b Hb) as Hbb.
  unfold Multiply, ExtendAndMultiply. cbv zeta.
  rewrite !int128_abs_eq by assumption.
  set (P := Z.abs (as_packed_int a) * Z.abs (as_packed_int b)) in *.
  assert (HP : 0 <= P) by (unfold P; lia).
  destruct (Z.ltb_spec P kOverflowThreshold) as [_|]; [|lia].
  rewrite kOverflowThreshold_eq in Hlt.
  unfold kNumericMax, kScalingFactor in Hlt.
  set (m := (P + kScalingFactor / 2) / kScalingFactor).
  assert (Hm : 0 <= m <= 10 ^ 38 - 1) by (unfold m, kScalingFactor; euclid).
  do 2 f_equal.
  rewrite (wrap_unsigned_id 256)
    by (unfold in_unsigned, kScalingFactor; euclid).
  rewrite (wrap_unsigned_id 160)
    by (unfold in_unsigned, kScalingFactor; euclid).
  fold m.
  rewrite (wrap_unsigned_id 128 m) by (unfold in_unsigned; lia).
  destruct (as_packed_int a <? 0), (as_packed_int b <? 0);
    cbn [Bool.eqb xorb].
  - apply wrap_signed_id; [lia|]. unfold in_signed.
    change (128 - 1) with 127. lia.
  - unfold wrap_signed, wrap_unsigned. change (128 - 1) with 127. euclid.
  - unfold wrap_signed, wrap_unsigned. change (128 - 1) with 127. euclid.
  - apply wrap_signed_id; [lia|]. unfold in_signed.
    change (128 - 1) with 127. lia.
Qed.

(** The value [FromFixedUint] returns for a magnitude in range. *)
Lemma FromFixedUint_ok q negate :
  0 <= q <= kNumericMax ->
  FromFixedUint q negate = Ok (FromPacked (if negate then - q else q)).
Proof.
  intros Hq. unfold FromFixedUint.
  assert (Hb : kNumericMax < 2 ^ 127) by (unfold kNumericMax; lia).
  destruct (Z.ltb_spec q (2 ^ 128)); [|lia].
  rewrite wrap_unsigned_id by (unfold in_unsigned; lia).
  destruct (Z.leb_spec q kNumericMax); [|lia].
  do 2 f_equal. destruct negate.
  - unfold wrap_signed, wrap_unsigned. change (128 - 1) with 127. euclid.
  - apply wrap_signed_id; [lia|]. unfold in_signed.
    change (128 - 1) with 127. lia.
Qed.

Lemma FromFixedUint_overflow q negate :
  kNumericMax < q -> 0 <= q < 2 ^ 192 ->
  FromFixedUint q negate = Error "numeric overflow".
Proof.
  intros Hq Hr. unfold FromFixedUint.
  destruct (Z.ltb_spec q (2 ^ 128)); [|reflexivity].
  rewrite wrap_unsigned_id by (unfold in_unsigned; lia).
  destruct (Z.leb_spec q kNumericMax); [lia | reflexivity].
Qed.

(** The quotient [Divide] computes before its range check. *)
Lemma Divide_eq a b :
  is_valid a -> is_valid b -> as_packed_int b <> 0 ->
  Divide a b
  = append_error
      (FromFixedUint
         ((Z.abs (as_packed_int a) * kScalingFactor
           + Z.abs (as_packed_int b) / 2) / Z.abs (as_packed_int b))
         (xorb (as_packed_int a <? 0) (as_packed_int b <? 0)))
      (": " ++ ToString a ++ " / " ++ ToString b).
Proof.
  intros Ha Hb Hnz.
  pose proof (is_valid_in_signed a Ha) as Hsa.
  pose proof (is_valid_in_signed b Hb) as Hsb.
  pose proof (is_valid_bounds a Ha) as Hba.
  pose proof (is_valid_bounds b Hb) as Hbb.
  unfold Divide. cbv zeta.
  destruct (Z.eqb_spec (as_packed_int b) 0); [contradiction|]. cbn [negb].
  rewrite !int128_abs_eq by assumption.
  rewrite Z.shiftr_div_pow2 by lia. change (2 ^ 1) with 2.
  set (A := Z.abs (as_packed_int a)) in *.
  set (B := Z.abs (as_packed_int b)) in *.
  assert (HB2 : 0 <= B / 2 <= B) by euclid.
  rewrite (wrap_unsigned_id 192 (A * kScalingFactor))
    by (unfold in_unsigned, kScalingFactor; lia).
  rewrite (wrap_unsigned_id 192)
    by (unfold in_unsigned, kScalingFactor; lia).
  f_equal. f_equal.
  destruct (as_packed_int a <? 0), (as_packed_int b <? 0); reflexivity.
Qed.

(** [Divide] is the quotient of the magnitudes rounded half away from zero,
    with the sign the exclusive or of the signs; it reports a division by
    zero, and an overflow exactly when the rounded quotient exceeds
    [MAX_SCALED]. *)
Theorem Divide_spec (a b : NumericValue) :
  is_valid a -> is_valid b ->
  let A := Z.abs (as_packed_int a) * kScalingFactor in
  let B := Z.abs (as_packed_int b) in
  let q := (A + B / 2) / B in
  (as_packed_int b = 0 ->
   Divide a b
   = Error ("division by zero: " ++ ToString a ++ " / " ++ ToString b))
  /\ (as_packed_int b <> 0 ->
      2 * (q * B - A) <= B /\ 2 * (A - q * B) < B
      /\ (q <= kNumericMax ->
          Divide a b
          = Ok (FromPacked
                  (if xorb (as_packed_int a <? 0) (as_packed_int b <? 0)
                   then - q else q)))
      /\ (kNumericMax < q ->
          Divide a b
          = Error ("numeric overflow: " ++ ToString a ++ " / "
                   ++ ToString b))).
Proof.
  intros Ha Hb A B q. split.
  - intros Hz. unfold Divide. rewrite Hz. reflexivity.
  - intros Hnz.
    pose proof (is_valid_bounds a Ha) as Hba.
    pose proof (is_valid_bounds b Hb) as Hbb.
    assert (HB : 0 < B) by (unfold B; lia).
    assert (HA : 0 <= A) by (unfold A, kScalingFactor; lia).
    assert (HB2 : 0 <= B / 2 /\ B <= 2 * (B / 2) + 1 /\ 2 * (B / 2) <= B)
      by euclid.
    pose proof (Z.div_mod (A + B / 2) B ltac:(lia)) as Hdm.
    pose proof (Z.mod_pos_bound (A + B / 2) B HB) as Hmb.
    fold q in Hdm.
    assert (Hq0 : 0 <= q) by (apply Z.div_pos; lia).
    assert (HqA : q <= A + B / 2).
    { unfold q. apply Z.div_le_upper_bound; [lia|]. nia. }
    split; [lia|]. split; [lia|].
    rewrite (Divide_eq a b Ha Hb Hnz). fold A B q.
    split; intros Hq.
    + rewrite FromFixedUint_ok by lia. reflexivity.
    + rewrite FromFixedUint_overflow; [reflexivity | exact Hq |].
      unfold A, kScalingFactor in HqA. lia.
Qed.

Lemma Divide_spec_witness :
  (is_valid (FromPacked 1000000000) /\ is_valid (FromPacked 3000000000)
   /\ is_valid (FromPacked kNumericMax) /\ is_valid (FromPacked 1))
  /\ Divide (FromPacked 1000000000) (FromPacked 3000000000)
     = Ok (FromPacked 333333333)
  /\ Divide (FromPacked 1000000000) NumericValue_zero
     = Error "division by zero: 1 / 0"
  /\ Divide (FromPacked kNumericMax) (FromPacked 1)
     = Error "numeric overflow: 99999999999999999999999999999.999999999 / 0.000000001".
Proof.
  assert (H1 : is_valid (FromPacked 1000000000)) by closed_bounds.
  assert (H3 : is_valid (FromPacked 3000000000)) by closed_bounds.
  assert (Hm : is_valid (FromPacked kNumericMax)) by closed_bounds.
  assert (Ho : is_valid (FromPacked 1)) by closed_bounds.
  assert (H0 : is_valid NumericValue_zero) by closed_bounds.
  split; [auto|]. split; [|split].
  - destruct (Divide_spec _ _ H1 H3) as [_ H].
    destruct H as (_ & _ & Hok & _); [closed_bounds|].
    apply Hok. closed_bounds.
  - destruct (Divide_spec _ _ H1 H0) as [H _]. apply H. reflexivity.
  - destruct (Divide_spec _ _ Hm Ho) as [_ H].
    destruct H as (_ & _ & _ & Herr); [closed_bounds|].
    rewrite Herr by closed_bounds. vm_compute. reflexivity.
Defined.

(** Dividing an exact product by one of its factors gives the other factor
    back: when [Multiply a b] returns [p] without rounding, [Divide p b]
    returns [a]. *)
Theorem Divide_undoes_exact_Multiply (a b p : NumericValue) :
  is_valid a -> is_valid b -> as_packed_int b <> 0 ->
  (Z.abs (as_packed_int a) * Z.abs (as_packed_int b)) mod kScalingFactor = 0 ->
  Multiply a b = Ok p ->
  Divide p b = Ok a.
Proof.
  intros Ha Hb Hnz Hexact Hmul.
  pose proof (is_valid_bounds a Ha) as Hba.
  pose proof (is_valid_bounds b Hb) as Hbb.
  set (A := Z.abs (as_packed_int a)) in *.
  set (B := Z.abs (as_packed_int b)) in *.
  assert (HB : 0 < B) by (unfold B; lia).
  assert (HAB : 0 <= A * B)
    by (apply Z.mul_nonneg_nonneg; [unfold A|]; lia).
  assert (Hlt : A * B < kOverflowThreshold).
  { destruct (Z_lt_le_dec (A * B) kOverflowThreshold) as [H|H]; [exact H|].
    exfalso. unfold Multiply, ExtendAndMultiply in Hmul. cbv zeta in Hmul.
    rewrite !int128_abs_eq in Hmul by now apply is_valid_in_signed.
    fold A B in Hmul.
    destruct (Z.ltb_spec (A * B) kOverflowThreshold); [lia | discriminate]. }
  rewrite (Multiply_ok a b Ha Hb Hlt) in Hmul. fold A B in Hmul.
  set (m := (A * B + kScalingFactor / 2) / kScalingFactor) in *.
  assert (Hm : m * kScalingFactor = A * B).
  { unfold m, kScalingFactor in *. euclid. }
  assert (Hmr : 0 <= m <= kNumericMax).
  { rewrite kOverflowThreshold_eq in Hlt.
    unfold m, kNumericMax, kScalingFactor in *. split; [|euclid].
    apply Z.div_pos; [euclid | lia]. }
  assert (Hp : as_packed_int p
               = if xorb (as_packed_int a <? 0) (as_packed_int b <? 0)
                 then - m else m).
  { injection Hmul as <-. reflexivity. }
  assert (Hpv : is_valid p).
  { unfold is_valid, kNumericMin. rewrite Hp.
    destruct (xorb _ _); lia. }
  assert (Hpa : Z.abs (as_packed_int p) = m).
  { rewrite Hp. destruct (xorb _ _); lia. }
  rewrite (Divide_eq p b Hpv Hb Hnz). rewrite Hpa. fold B.
  rewrite Hm.
  assert (Hq : (A * B + B / 2) / B = A).
  { rewrite Z.div_add_l by lia. rewrite (Z.div_small (B / 2) B) by euclid.
    lia. }
  rewrite Hq.
  rewrite FromFixedUint_ok by (unfold A, kNumericMax; lia).
  cbn [append_error]. f_equal.
  rewrite <- (NumericValue_eta a). f_equal.
  destruct (Z.eq_dec (as_packed_int a) 0) as [Ha0|Ha0].
  - assert (A = 0) by (unfold A; lia).
    destruct (xorb (as_packed_int p <? 0) _); lia.
  - assert (HABp : 0 < A * B)
      by (apply Z.mul_pos_pos; [unfold A|]; lia).
    assert (Hmpos : 0 < m) by (unfold kScalingFactor in Hm; lia).
    rewrite Hp.
    destruct (Z.ltb_spec (as_packed_int a) 0);
      destruct (Z.ltb_spec (as_packed_int b) 0); cbn [xorb].
    + destruct (Z.ltb_spec m 0); [lia|]. cbn [xorb]. unfold A. lia.
    + destruct (Z.ltb_spec (- m) 0); [|lia]. cbn [xorb]. unfold A. lia.
    + destruct (Z.ltb_spec (- m) 0); [|lia]. cbn [xorb]. unfold A. lia.
    + destruct (Z.ltb_spec m 0); [lia|]. cbn [xorb]. unfold A. lia.
Qed.

Lemma Divide_undoes_exact_Multiply_witness :
  (is_valid (FromPacked (-1500000000)) /\ is_valid (FromPacked 2500000000)
   /\ as_packed_int (FromPacked 2500000000) <> 0
   /\ (Z.abs (-1500000000) * Z.abs 2500000000) mod kScalingFactor = 0)
  /\ Multiply (FromPacked (-1500000000)) (FromPacked 2500000000)
     = Ok (FromPacked (-3750000000))
  /\ Divide (FromPacked (-3750000000)) (FromPacked 2500000000)
     = Ok (FromPacked (-1500000000)).
Proof.
  assert (Ha : is_valid (FromPacked (-1500000000))) by closed_bounds.
  assert (Hb : is_valid (FromPacked 2500000000)) by closed_bounds.
  assert (Hnz : as_packed_int (FromPacked 2500000000) <> 0)
    by closed_bounds.
  assert (Hex : (Z.abs (as_packed_int (FromPacked (-1500000000)))
                 * Z.abs (as_packed_int (FromPacked 2500000000)))
                mod kScalingFactor = 0) by reflexivity.
  assert (Hmul : Multiply (FromPacked (-1500000000)) (FromPacked 2500000000)
                 = Ok (FromPacked (-3750000000))) by reflexivity.
  split; [exact (conj Ha (conj Hb (conj Hnz Hex)))|]. split; [exact Hmul|].
  exact (Divide_undoes_exact_Multiply _ _ _ Ha Hb Hnz Hex Hmul).
Defined.

(** [Multiply] has the decimal 1 as its unit and does not depend on the
    order of its operands when it succeeds. *)
Theorem Multiply_unit_and_commutes (a b : NumericValue) :
  is_valid a -> is_valid b ->
  Multiply a (NumericValue_of_int 1) = Ok a
  /\ Multiply (NumericValue_of_int 1) a = Ok a
  /\ (forall p, Multiply a b = Ok p -> Multiply b a = Ok p).
Proof.
  intros Ha Hb.
  pose proof (is_valid_bounds a Ha) as Hba.
  assert (H1 : is_valid (NumericValue_of_int 1)) by closed_bounds.
  assert (Hone : forall P,
             P = Z.abs (as_packed_int a) * kScalingFactor ->
             (P + kScalingFactor / 2) / kScalingFactor
             = Z.abs (as_packed_int a)).
  { intros P ->. unfold kScalingFactor. euclid. }
  assert (Hsign : (if as_packed_int a <? 0 then - Z.abs (as_packed_int a)
                   else Z.abs (as_packed_int a)) = as_packed_int a).
  { destruct (Z.ltb_spec (as_packed_int a) 0); lia. }
  split; [|split].
  - rewrite Multiply_ok; try assumption.
    + change (as_packed_int (NumericValue_of_int 1)) with kScalingFactor.
      change (kScalingFactor <? 0) with false. rewrite xorb_false_r.
      change (Z.abs kScalingFactor) with kScalingFactor.
      rewrite (Hone _ eq_refl), Hsign. now rewrite NumericValue_eta.
    + rewrite kOverflowThreshold_eq.
      change (as_packed_int (NumericValue_of_int 1)) with kScalingFactor.
      unfold kNumericMax, kScalingFactor. euclid.
  - rewrite Multiply_ok; try assumption.
    + change (as_packed_int (NumericValue_of_int 1)) with kScalingFactor.
      change (kScalingFactor <? 0) with false. rewrite xorb_false_l.
      change (Z.abs kScalingFactor) with kScalingFactor.
      rewrite (Hone _ (Z.mul_comm _ _)), Hsign. now rewrite NumericValue_eta.
    + rewrite kOverflowThreshold_eq.
      change (as_packed_int (NumericValue_of_int 1)) with kScalingFactor.
      unfold kNumericMax, kScalingFactor. euclid.
  - intros p. unfold Multiply, ExtendAndMultiply. cbv zeta.
    rewrite (Z.mul_comm (int128_abs (as_packed_int b))).
    destruct (_ <? kOverflowThreshold); [|discriminate].
    now destruct (as_packed_int a <? 0), (as_packed_int b <? 0).
Qed.

Lemma Multiply_unit_and_commutes_witness :
  (is_valid (FromPacked (-1235000000)) /\ is_valid (FromPacked 2000000001))
  /\ Multiply (FromPacked (-1235000000)) (NumericValue_of_int 1)
     = Ok (FromPacked (-1235000000))
  /\ Multiply (FromPacked 2000000001) (FromPacked (-1235000000))
     = Ok (FromPacked (-2470000001)).
Proof.
  assert (Ha : is_valid (FromPacked (-1235000000))) by closed_bounds.
  assert (Hb : is_valid (FromPacked 2000000001)) by closed_bounds.
  destruct (Multiply_unit_and_commutes _ _ Ha Hb) as (H1 & _ & Hc).
  split; [auto|]. split; [exact H1|].
  apply Hc. reflexivity.
Defined.

(** [Abs] and [Sign] of a valid value are valid, [Abs] has the magnitude as
    its packed integer, [Sign] is the decimal -1, 0 or 1, and their product
    is the value. *)
Theorem Sign_times_Abs (v : NumericValue) :
  is_valid v ->
  is_valid (Abs v) /\ is_valid (Sign v)
  /\ as_packed_int (Abs v) = Z.abs (as_packed_int v)
  /\ as_packed_int (Sign v) = Z.sgn (as_packed_int v) * kScalingFactor
  /\ Multiply (Sign v) (Abs v) = Ok v.
Proof.
  intros Hv.
  pose proof (is_valid_bounds v Hv) as Hb.
  pose proof (is_valid_in_signed v Hv) as Hs.
  assert (Ea : as_packed_int (Abs v) = Z.abs (as_packed_int v)).
  { unfold Abs. cbn [as_packed_int]. rewrite int128_abs_eq by exact Hs.
    apply wrap_signed_id; [lia|]. unfold in_signed.
    change (128 - 1) with 127. lia. }
  assert (Es : as_packed_int (Sign v)
               = Z.sgn (as_packed_int v) * kScalingFactor).
  { unfold Sign, NumericValue_of_int, int128_sign. cbn [as_packed_int].
    f_equal.
    destruct (Z.ltb_spec 0 (as_packed_int v));
      destruct (Z.ltb_spec (as_packed_int v) 0); lia. }
  assert (Hva : is_valid (Abs v)).
  { unfold is_valid, kNumericMin, kNumericMax. rewrite Ea. lia. }
  assert (Hvs : is_valid (Sign v)).
  { unfold is_valid, kNumericMin, kNumericMax. rewrite Es.
    unfold kScalingFactor. lia. }
  repeat split; try assumption; try apply Hva; try apply Hvs.
  rewrite Multiply_ok; try assumption.
  - rewrite !Ea, !Es. clear Ea Es Hva Hvs Hv Hs.
    destruct v as [x]. cbn [as_packed_int] in *. do 2 f_equal.
    assert (Hz : (Z.abs x <? 0) = false) by (apply Z.ltb_ge; lia).
    rewrite Hz, xorb_false_r.
    unfold kScalingFactor.
    destruct (Z.sgn_spec x) as [[H E]|[[H E]|[H E]]]; rewrite E.
    + destruct (Z.ltb_spec (1 * 1000000000) 0); [lia|].
      change (Z.abs (1 * 1000000000)) with 1000000000.
      replace (Z.abs (Z.abs x)) with x by lia. euclid.
    + rewrite <- H. reflexivity.
    + change (- (1) * 1000000000) with (-1000000000).
      change (-1000000000 <? 0) with true. cbv iota.
      change (Z.abs (-1000000000)) with 1000000000.
      replace (Z.abs (Z.abs x)) with (- x) by lia. euclid.
  - rewrite Ea, Es, kOverflowThreshold_eq.
    unfold kNumericMax, kScalingFactor.
    replace (Z.abs (Z.sgn (as_packed_int v) * 1000000000))
      with (Z.abs (Z.sgn (as_packed_int v)) * 1000000000) by lia.
    replace (Z.abs (Z.abs (as_packed_int v)))
      with (Z.abs (as_packed_int v)) by lia.
    assert (Z.abs (Z.sgn (as_packed_int v)) <= 1) by lia.
    assert (Z.abs (Z.sgn (as_packed_int v)) * 1000000000
            * Z.abs (as_packed_int v)
            <= 1000000000 * Z.abs (as_packed_int v)) by nia.
    euclid.
Qed.

Lemma Sign_times_Abs_witness :
  is_valid (FromPacked (-1235000000))
  /\ Abs (FromPacked (-1235000000)) = FromPacked 1235000000
  /\ Sign (FromPacked (-1235000000)) = NumericValue_of_int (-1)
  /\ Multiply (Sign (FromPacked (-1235000000))) (Abs (FromPacked (-1235000000)))
     = Ok (FromPacked (-1235000000)).
Proof.
  assert (Hv : is_valid (FromPacked (-1235000000))) by closed_bounds.
  destruct (Sign_times_Abs _ Hv) as (_ & _ & _ & _ & H).
  split; [exact Hv|]. split; [reflexivity|]. split; [reflexivity|]. exact H.
Defined.

(** [IntegerDivide] and [Mod] are the truncated quotient and its remainder:
    the remainder is a valid value, smaller in magnitude than the divisor
    and of the sign of the dividend; the quotient, scaled back, is returned
    unless it exceeds [MAX_SCALED / scale], which is an overflow; and
    quotient times divisor plus remainder is the dividend. *)
Theorem IntegerDivide_Mod_spec (a b : NumericValue) :
  is_valid a -> is_valid b -> as_packed_int b <> 0 ->
  let q := Z.quot (as_packed_int a) (as_packed_int b) in
  let r := Z.rem (as_packed_int a) (as_packed_int b) in
  Mod a b = Ok (FromPacked r)
  /\ is_valid (FromPacked r)
  /\ Z.abs r < Z.abs (as_packed_int b)
  /\ 0 <= r * as_packed_int a
  /\ as_packed_int a = q * as_packed_int b + r
  /\ (Z.abs q <= 10 ^ 29 - 1 ->
      IntegerDivide a b = Ok (FromPacked (q * kScalingFactor))
      /\ is_valid (FromPacked (q * kScalingFactor)))
  /\ (10 ^ 29 - 1 < Z.abs q ->
      IntegerDivide a b
      = Error ("numeric overflow: " ++ ToString a ++ " / " ++ ToString b)).
Proof.
  intros Ha Hb Hnz q r.
  pose proof (is_valid_bounds a Ha) as Hba.
  pose proof (is_valid_bounds b Hb) as Hbb.
  assert (Hr : Z.abs r < Z.abs (as_packed_int b)).
  { unfold r. rewrite <- Z.rem_abs by exact Hnz.
    apply Z.rem_bound_pos; lia. }
  assert (Hra : Z.abs r <= Z.abs (as_packed_int a)).
  { unfold r. rewrite <- Z.rem_abs by exact Hnz.
    apply Z.rem_le; lia. }
  assert (Hqa : Z.abs q <= Z.abs (as_packed_int a)).
  { unfold q. rewrite <- Z.quot_abs by exact Hnz.
    rewrite Z.quot_div_nonneg by lia.
    apply Z.div_le_upper_bound; [lia|]. nia. }
  assert (Hw : wrap_signed 128 q = q).
  { apply wrap_signed_id; [lia|]. unfold in_signed.
    change (128 - 1) with 127. lia. }
  split.
  { unfold Mod. destruct (Z.eqb_spec (as_packed_int b) 0); [contradiction|].
    reflexivity. }
  split; [unfold is_valid, kNumericMin, kNumericMax; cbn [as_packed_int]; lia|].
  split; [exact Hr|].
  split; [unfold r; apply Z.rem_sign_mul; exact Hnz|].
  split.
  { unfold q, r. rewrite Z.mul_comm. apply Z.quot_rem'. }
  unfold IntegerDivide. cbv zeta.
  destruct (Z.eqb_spec (as_packed_int b) 0); [contradiction|]. cbn [negb].
  fold q. rewrite Hw.
  change (Z.quot kNumericMax kScalingFactor) with (10 ^ 29 - 1).
  change (Z.quot kNumericMin kScalingFactor) with (- (10 ^ 29 - 1)).
  rewrite Z.geb_leb.
  split; intros Hq.
  - destruct (Z.leb_spec q (10 ^ 29 - 1)); [|lia].
    destruct (Z.leb_spec (- (10 ^ 29 - 1)) q); [|lia]. cbn [andb].
    assert (Hv : is_valid (FromPacked (q * kScalingFactor))).
    { unfold is_valid, kNumericMin, kNumericMax, kScalingFactor.
      cbn [as_packed_int]. lia. }
    split; [|exact Hv]. do 2 f_equal.
    apply wrap_signed_id; [lia|]. unfold in_signed, kScalingFactor.
    change (128 - 1) with 127. lia.
  - destruct (Z.leb_spec q (10 ^ 29 - 1));
      destruct (Z.leb_spec (- (10 ^ 29 - 1)) q); try lia; reflexivity.
Qed.

Lemma IntegerDivide_Mod_spec_witness :
  (is_valid (FromPacked (-7500000000)) /\ is_valid (FromPacked 2000000000)
   /\ as_packed_int (FromPacked 2000000000) <> 0 /\ Z.abs (-3) <= 10 ^ 29 - 1)
  /\ IntegerDivide (FromPacked (-7500000000)) (FromPacked 2000000000)
     = Ok (NumericValue_of_int (-3))
  /\ Mod (FromPacked (-7500000000)) (FromPacked 2000000000)
     = Ok (FromPacked (-1500000000))
  /\ IntegerDivide (FromPacked kNumericMax) (FromPacked 1)
     = Error "numeric overflow: 99999999999999999999999999999.999999999 / 0.000000001".
Proof.
  assert (Ha : is_valid (FromPacked (-7500000000))) by closed_bounds.
  assert (Hb : is_valid (FromPacked 2000000000)) by closed_bounds.
  assert (Hnz : as_packed_int (FromPacked 2000000000) <> 0)
    by closed_bounds.
  assert (Hq : Z.abs (-3) <= 10 ^ 29 - 1) by closed_bounds.
  assert (Hm : is_valid (FromPacked kNumericMax)) by closed_bounds.
  assert (Ho : is_valid (FromPacked 1)) by closed_bounds.
  destruct (IntegerDivide_Mod_spec _ _ Ha Hb Hnz)
    as (Hmod & _ & _ & _ & _ & Hdiv & _).
  destruct (IntegerDivide_Mod_spec _ _ Hm Ho ltac:(closed_bounds))
    as (_ & _ & _ & _ & _ & _ & Herr).
  split; [exact (conj Ha (conj Hb (conj Hnz Hq)))|].
  split; [exact (proj1 (Hdiv Hq))|]. split; [exact Hmod|].
  rewrite Herr by closed_bounds. vm_compute. reflexivity.
Defined.

(** [Floor] returns the greatest multiple of the scale not above the value
    and [Ceiling] the least one not below it, each within one unit of the
    value; [Floor] overflows exactly when that multiple lies below
    [-MAX_SCALED] and [Ceiling] when it lies above [MAX_SCALED]. *)
Theorem Floor_Ceiling_spec (v : NumericValue) :
  is_valid v ->
  let s := kScalingFactor in
  let lo := as_packed_int v / s * s in
  let hi := - (- as_packed_int v / s * s) in
  lo <= as_packed_int v < lo + s
  /\ hi - s < as_packed_int v <= hi
  /\ (kNumericMin <= lo -> Floor v = Ok (FromPacked lo))
  /\ (lo < kNumericMin ->
      Floor v = Error ("numeric overflow: FLOOR(" ++ ToString v ++ ")"))
  /\ (hi <= kNumericMax -> Ceiling v = Ok (FromPacked hi))
  /\ (kNumericMax < hi ->
      Ceiling v = Error ("numeric overflow: CEIL(" ++ ToString v ++ ")")).
Proof.
  intros Hv s lo hi.
  pose proof (is_valid_bounds v Hv) as Hb.
  unfold is_valid, kNumericMin, kNumericMax in Hv.
  set (x := as_packed_int v) in *.
  assert (Hlo : lo <= x < lo + s) by (unfold lo, s, kScalingFactor; euclid).
  assert (Hhi : hi - s < x <= hi) by (unfold hi, s, kScalingFactor; euclid).
  assert (Hrem : Z.rem x s = if x <? 0 then - ((- x) mod s) else x mod s).
  { destruct (Z.ltb_spec x 0).
    - replace x with (- - x) at 1 by lia.
      rewrite Z.rem_opp_l by (unfold s, kScalingFactor; lia).
      rewrite Z.rem_mod_nonneg by (unfold s, kScalingFactor; lia).
      reflexivity.
    - apply Z.rem_mod_nonneg; unfold s, kScalingFactor; lia. }
  assert (Efloor : wrap_signed 128
                     (x - (if Z.rem x s <? 0 then Z.rem x s + s
                           else Z.rem x s)) = lo).
  { rewrite Hrem.
    assert (E : x - (if (if x <? 0 then - ((- x) mod s) else x mod s) <? 0
                     then (if x <? 0 then - ((- x) mod s) else x mod s) + s
                     else (if x <? 0 then - ((- x) mod s) else x mod s)) = lo).
    { unfold lo, s, kScalingFactor.
      destruct (Z.ltb_spec x 0);
        match goal with
        | |- context [?t <? 0] => destruct (Z.ltb_spec t 0)
        end; euclid. }
    rewrite E. apply wrap_signed_id; [lia|]. unfold in_signed.
    change (128 - 1) with 127. unfold s, kScalingFactor in *. lia. }
  assert (Eceil : wrap_signed 128
                    (x - (if Z.rem x s >? 0 then Z.rem x s - s
                          else Z.rem x s)) = hi).
  { rewrite Hrem. rewrite Z.gtb_ltb.
    assert (E : x - (if 0 <? (if x <? 0 then - ((- x) mod s) else x mod s)
                     then (if x <? 0 then - ((- x) mod s) else x mod s) - s
                     else (if x <? 0 then - ((- x) mod s) else x mod s)) = hi).
    { unfold hi, s, kScalingFactor.
      destruct (Z.ltb_spec x 0);
        match goal with
        | |- context [0 <? ?t] => destruct (Z.ltb_spec 0 t)
        end; euclid. }
    rewrite E. apply wrap_signed_id; [lia|]. unfold in_signed.
    change (128 - 1) with 127. unfold s, kScalingFactor in *. lia. }
  split; [exact Hlo|]. split; [exact Hhi|].
  unfold Floor, Ceiling, GetFractionalPart. cbv zeta. fold x s.
  rewrite Efloor, Eceil.
  repeat split; intros H.
  - rewrite FromPackedInt_valid; [reflexivity|].
    unfold is_valid, kNumericMin, kNumericMax in *. cbn [as_packed_int]. lia.
  - rewrite FromPackedInt_invalid; [reflexivity|].
    unfold is_valid, kNumericMin in *. cbn [as_packed_int]. lia.
  - rewrite FromPackedInt_valid; [reflexivity|].
    unfold is_valid, kNumericMin, kNumericMax in *. cbn [as_packed_int].
    unfold s, kScalingFactor in *. lia.
  - rewrite FromPackedInt_invalid; [reflexivity|].
    unfold is_valid in *. cbn [as_packed_int]. lia.
Qed.

Lemma Floor_Ceiling_spec_witness :
  is_valid (FromPacked (-1500000000))
  /\ Floor (FromPacked (-1500000000)) = Ok (NumericValue_of_int (-2))
  /\ Ceiling (FromPacked (-1500000000)) = Ok (NumericValue_of_int (-1))
  /\ Ceiling (FromPacked kNumericMax)
     = Error "numeric overflow: CEIL(99999999999999999999999999999.999999999)".
Proof.
  assert (Hv : is_valid (FromPacked (-1500000000))) by closed_bounds.
  assert (Hm : is_valid (FromPacked kNumericMax)) by closed_bounds.
  destruct (Floor_Ceiling_spec _ Hv) as (_ & _ & Hf & _ & Hc & _).
  destruct (Floor_Ceiling_spec _ Hm) as (_ & _ & _ & _ & _ & He).
  split; [exact Hv|].
  split; [apply Hf; closed_bounds|]. split; [apply Hc; closed_bounds|].
  rewrite He by closed_bounds. vm_compute. reflexivity.
Defined.

(** ** Rounding as a projection *)

Lemma FromPackedInt_Ok x r :
  FromPackedInt x = Ok r -> r = FromPacked x /\ is_valid r.
Proof.
  unfold FromPackedInt. destruct (is_validb (FromPacked x)) eqn:E.
  - intros H. assert (r = FromPacked x) by congruence. subst r.
    split; [reflexivity|]. now apply is_validb_true.
  - discriminate.
Qed.

Lemma rem_signed v f :
  0 < f -> Z.rem v f = Z.sgn v * (Z.abs v mod f).
Proof.
  intros Hf. destruct (Z_lt_le_dec v 0).
  - replace v with (- - v) at 1 by lia.
    rewrite Z.rem_opp_l by lia. rewrite Z.rem_mod_nonneg by lia.
    replace (Z.abs v) with (- v) by lia.
    replace (Z.sgn v) with (-1) by lia. lia.
  - rewrite Z.rem_mod_nonneg by lia.
    replace (Z.abs v) with v by lia.
    destruct (Z.eq_dec v 0) as [->|].
    + rewrite Z.mod_0_l by lia. reflexivity.
    + replace (Z.sgn v) with 1 by lia. lia.
Qed.

(** What [RoundInternal] computes when truncating: the magnitude cut down
    to a multiple of [f], with the sign of [v]. *)
Lemma rounded_value_trunc v d :
  is_valid (FromPacked v) -> -29 <= d < 9 ->
  rounded_value v d false
  = Z.sgn v * (Z.abs v / 10 ^ (9 - d) * 10 ^ (9 - d)).
Proof.
  intros Hv Hd. unfold rounded_value.
  pose proof (pow10_le_38 d Hd) as [Hf1 Hf2].
  set (f := 10 ^ (9 - d)) in *.
  unfold is_valid, kNumericMin, kNumericMax in Hv. cbn [as_packed_int] in Hv.
  rewrite rem_signed by lia.
  pose proof (Z.div_mod (Z.abs v) f ltac:(lia)) as E.
  pose proof (Z.mod_pos_bound (Z.abs v) f ltac:(lia)) as B.
  set (q := Z.abs v / f) in *. set (m := Z.abs v mod f) in *.
  assert (Hq : 0 <= q) by (apply Z.div_pos; lia).
  assert (Hqf : 0 <= q * f) by (apply Z.mul_nonneg_nonneg; lia).
  assert (Ev : v - Z.sgn v * m = Z.sgn v * (q * f)).
  { destruct (Z_lt_le_dec v 0).
    - replace (Z.sgn v) with (-1) by lia. lia.
    - destruct (Z.eq_dec v 0).
      + subst v. change (Z.abs 0) with 0 in *. cbn [Z.sgn]. lia.
      + replace (Z.sgn v) with 1 by lia. lia. }
  rewrite Ev. apply wrap_signed_id; [lia|].
  unfold in_signed. change (128 - 1) with 127.
  assert (q * f <= Z.abs v) by lia.
  destruct (Z.sgn_spec v) as [[_ ->]|[[_ ->]|[_ ->]]]; lia.
Qed.

(** A valid packed integer that is a multiple of the truncation factor is
    left as it is by both rounding modes. *)
Lemma rounded_value_fixed x d raz :
  is_valid (FromPacked x) -> -29 <= d < 9 ->
  Z.abs x mod 10 ^ (9 - d) = 0 ->
  rounded_value x d raz = x.
Proof.
  intros Hv Hd Hm.
  pose proof (pow10_le_38 d Hd) as [Hf1 Hf2].
  pose proof (pow10_even d Hd) as Hev.
  destruct raz;
    [rewrite rounded_value_away by assumption
    |rewrite rounded_value_trunc by assumption];
    set (f := 10 ^ (9 - d)) in *;
    pose proof (Z.div_mod (Z.abs x) f ltac:(lia)) as E;
    rewrite Hm in E.
  - assert (Eq : (Z.abs x + f / 2) / f = Z.abs x / f).
    { replace (Z.abs x + f / 2) with (Z.abs x / f * f + f / 2) by lia.
      rewrite Z.div_add_l by lia.
      rewrite (Z.div_small (f / 2) f) by lia. lia. }
    rewrite Eq.
    destruct (Z.sgn_spec x) as [[? ->]|[[? ->]|[? ->]]]; lia.
  - destruct (Z.sgn_spec x) as [[? ->]|[[? ->]|[? ->]]]; lia.
Qed.

Lemma abs_sgn_mul s m : s <> 0 -> 0 <= m -> Z.abs (Z.sgn s * m) = m.
Proof.
  intros Hs Hm.
  destruct (Z.sgn_spec s) as [[? ->]|[[? ->]|[? ->]]]; lia.
Qed.

Lemma abs_sgn_mul_mod s m f :
  0 < f -> 0 <= m -> m mod f = 0 -> Z.abs (Z.sgn s * m) mod f = 0.
Proof.
  intros Hf Hm E.
  destruct (Z.eq_dec s 0) as [->|Hs].
  - cbn [Z.sgn]. rewrite Z.mul_0_l. apply Z.mod_0_l. lia.
  - rewrite abs_sgn_mul by assumption. exact E.
Qed.

(** [Trunc] to [d] digits cuts the magnitude down to a multiple of
    [10^(9-d)] and keeps the sign.  The result is a fixed point of [Trunc]
    and of [Round] at the same digit count, truncating it further to fewer
    digits is the same as truncating the argument at once, and whatever
    [Round] returns is in turn a fixed point of [Round] and of [Trunc]. *)
Theorem Trunc_Round_projection (v : NumericValue) (d d' : Z) :
  is_valid v -> -29 <= d' -> d' <= d -> d < 9 ->
  let f := 10 ^ (9 - d) in
  let t := FromPacked (Z.sgn (as_packed_int v)
                       * (Z.abs (as_packed_int v) / f * f)) in
  Trunc v d = Some t
  /\ is_valid t
  /\ Trunc t d = Some t
  /\ Round t d = Ok t
  /\ Trunc t d' = Trunc v d'
  /\ (forall r, Round v d = Ok r -> Round r d = Ok r /\ Trunc r d = Some r).
Proof.
  intros Hv Hd1 Hd2 Hd3 f t. destruct v as [x]. cbn [as_packed_int] in *.
  assert (Hdd : -29 <= d < 9) by lia.
  assert (Hdd' : -29 <= d' < 9) by lia.
  pose proof (pow10_le_38 d Hdd) as [Hf1 Hf2]. fold f in Hf1, Hf2.
  pose proof (pow10_le_38 d' Hdd') as [Hg1 Hg2].
  set (q := Z.abs x / f) in *.
  pose proof (Z.div_mod (Z.abs x) f ltac:(lia)) as E.
  pose proof (Z.mod_pos_bound (Z.abs x) f ltac:(lia)) as B.
  fold q in E.
  assert (Hq : 0 <= q) by (apply Z.div_pos; lia).
  assert (Hqf : 0 <= q * f <= Z.abs x) by (split; [apply Z.mul_nonneg_nonneg|]; lia).
  assert (Ht : is_valid t).
  { unfold t, is_valid, kNumericMin, kNumericMax in *.
    cbn [as_packed_int] in *.
    destruct (Z.sgn_spec x) as [[? ->]|[[? ->]|[? ->]]]; lia. }
  assert (Hmod : Z.abs (as_packed_int t) mod f = 0).
  { unfold t. cbn [as_packed_int].
    apply abs_sgn_mul_mod; [lia|lia|]. apply Z.mod_mul. lia. }
  assert (Hfix : forall raz, RoundInternal t d raz = Ok t).
  { intros raz. rewrite RoundInternal_eq by exact Hdd.
    rewrite rounded_value_fixed; [|exact Ht|exact Hdd|exact Hmod].
    rewrite FromPackedInt_valid by exact Ht. reflexivity. }
  assert (HT : forall y e, is_valid (FromPacked y) -> -29 <= e < 9 ->
                Trunc (FromPacked y) e
                = Some (FromPacked (Z.sgn y * (Z.abs y / 10 ^ (9 - e)
                                               * 10 ^ (9 - e))))).
  { intros y e Hy He. unfold Trunc. rewrite RoundInternal_eq by exact He.
    cbn [as_packed_int]. rewrite rounded_value_trunc by assumption.
    rewrite FromPackedInt_valid; [reflexivity|].
    pose proof (pow10_le_38 e He) as [Hh1 Hh2].
    set (h := 10 ^ (9 - e)) in *.
    pose proof (Z.div_mod (Z.abs y) h ltac:(lia)).
    pose proof (Z.mod_pos_bound (Z.abs y) h ltac:(lia)).
    assert (0 <= Z.abs y / h) by (apply Z.div_pos; lia).
    assert (0 <= Z.abs y / h * h) by (apply Z.mul_nonneg_nonneg; lia).
    unfold is_valid, kNumericMin, kNumericMax in *. cbn [as_packed_int] in *.
    destruct (Z.sgn_spec y) as [[? ->]|[[? ->]|[? ->]]]; lia. }
  split; [exact (HT x d Hv Hdd)|].
  split; [exact Ht|].
  split; [unfold Trunc; rewrite Hfix; reflexivity|].
  split; [exact (Hfix true)|].
  split.
  { unfold t at 1. rewrite (HT _ d' Ht Hdd'), (HT x d' Hv Hdd').
    do 2 f_equal.
    set (g := 10 ^ (9 - d')) in *.
    assert (Hgf : g = f * 10 ^ (d - d')).
    { unfold g, f. rewrite <- Z.pow_add_r by lia. f_equal. lia. }
    assert (Hk : 0 < 10 ^ (d - d')) by (apply pow10_pos; lia).
    set (k := 10 ^ (d - d')) in *.
    assert (Ediv : q * f / g = Z.abs x / g).
    { rewrite Hgf. rewrite <- !Z.div_div by lia.
      rewrite Z.div_mul by lia. reflexivity. }
    destruct (Z.eq_dec q 0) as [Hq0|Hq0].
    - assert (Ez : Z.abs x / g = 0).
      { rewrite <- Ediv, Hq0. reflexivity. }
      rewrite Hq0, Z.mul_0_l, Z.mul_0_r. cbn [Z.sgn Z.abs].
      rewrite Ez. lia.
    - assert (Hx0 : x <> 0) by (intros ->; apply Hq0; reflexivity).
      assert (Hs : Z.sgn (Z.sgn x * (q * f)) = Z.sgn x).
      { assert (0 < q * f) by (apply Z.mul_pos_pos; lia).
        destruct (Z.sgn_spec x) as [[? ->]|[[? ->]|[? ->]]]; lia. }
      rewrite Hs, abs_sgn_mul by lia. rewrite Ediv. reflexivity. }
  intros r Hr. unfold Round in *.
  rewrite RoundInternal_eq in Hr by exact Hdd. cbn [as_packed_int] in Hr.
  rewrite rounded_value_away in Hr by assumption. fold f in Hr.
  destruct (FromPackedInt (Z.sgn x * ((Z.abs x + f / 2) / f * f)))
    as [r'|] eqn:Er; [|discriminate].
  assert (r' = r) by congruence. subst r'.
  apply FromPackedInt_Ok in Er. destruct Er as [-> Hvr].
  assert (Hrm : Z.abs (Z.sgn x * ((Z.abs x + f / 2) / f * f)) mod f = 0).
  { apply abs_sgn_mul_mod; [lia| |apply Z.mod_mul; lia].
    apply Z.mul_nonneg_nonneg; [apply Z.div_pos|]; [|lia|lia].
    assert (0 <= f / 2) by (apply Z.div_pos; lia). lia. }
  assert (Hfr : forall raz,
            RoundInternal (FromPacked (Z.sgn x * ((Z.abs x + f / 2) / f * f)))
              d raz
            = Ok (FromPacked (Z.sgn x * ((Z.abs x + f / 2) / f * f)))).
  { intros raz. rewrite RoundInternal_eq by exact Hdd. cbn [as_packed_int].
    rewrite rounded_value_fixed; [|exact Hvr|exact Hdd|exact Hrm].
    rewrite FromPackedInt_valid by exact Hvr. reflexivity. }
  split; [exact (Hfr true)|]. unfold Trunc. rewrite Hfr. reflexivity.
Qed.

Lemma Trunc_Round_projection_witness :
  (is_valid (FromPacked (-1235678900)) /\ -29 <= 0 /\ 0 <= 2 /\ 2 < 9)
  /\ Trunc (FromPacked (-1235678900)) 2 = Some (FromPacked (-1230000000))
  /\ Round (FromPacked (-1230000000)) 2 = Ok (FromPacked (-1230000000))
  /\ Trunc (FromPacked (-1230000000)) 0 = Trunc (FromPacked (-1235678900)) 0.
Proof.
  assert (Hv : is_valid (FromPacked (-1235678900))) by closed_bounds.
  assert (Hd1 : -29 <= 0) by lia.
  assert (Hd2 : 0 <= 2) by lia.
  assert (Hd3 : 2 < 9) by lia.
  destruct (Trunc_Round_projection _ 2 0 Hv Hd1 Hd2 Hd3)
    as (Ht & _ & _ & Hr & Hc & _).
  split; [exact (conj Hv (conj Hd1 (conj Hd2 Hd3)))|].
  split; [exact Ht|]. split; [exact Hr|exact Hc].
Defined.

(** ** Small integer exponents *)

Lemma RemoveDoubleScale_4 n :
  0 <= n -> n + kScalingFactorSquare / 2 < kScalingFactorSquare * 2 ^ 192 ->
  RemoveDoubleScale 4 n
  = Some ((n + kScalingFactorSquare / 2) / kScalingFactorSquare).
Proof.
  intros Hn Hlt. unfold RemoveDoubleScale, FixedUint_AddOverflow.
  change (64 * 4) with 256. change (4 - 1) with 3. change (64 * 3) with 192.
  set (m := n + kScalingFactorSquare / 2) in *.
  assert (Hm : 0 <= m) by (unfold m; vm_compute (kScalingFactorSquare / 2); lia).
  assert (Hk : kScalingFactorSquare = 10 ^ 18) by reflexivity.
  rewrite Hk in *.
  destruct (Z.ltb_spec m (2 ^ 256)); [|lia].
  unfold word64. change (64 * 3) with 192.
  assert (Hw : m / 2 ^ 192 < 10 ^ 18) by euclid.
  assert (Hw0 : 0 <= m / 2 ^ 192) by euclid.
  rewrite (Z.mod_small (m / 2 ^ 192)) by lia.
  destruct (Z.ltb_spec (m / 2 ^ 192) (10 ^ 18)); [|lia].
  f_equal. rewrite Z.div_div by (unfold kScalingFactor; lia).
  change (kScalingFactor * kScalingFactor) with (10 ^ 18).
  apply wrap_unsigned_id. unfold in_unsigned. euclid.
Qed.

Lemma RemoveDoubleScale_4_overflow n :
  0 <= n -> kScalingFactorSquare * 2 ^ 192 <= n + kScalingFactorSquare / 2 ->
  RemoveDoubleScale 4 n = None.
Proof.
  intros Hn Hge. unfold RemoveDoubleScale, FixedUint_AddOverflow.
  change (64 * 4) with 256. change (4 - 1) with 3.
  set (m := n + kScalingFactorSquare / 2) in *.
  assert (Hk : kScalingFactorSquare = 10 ^ 18) by reflexivity.
  rewrite Hk in *.
  destruct (Z.ltb_spec m (2 ^ 256)); [|reflexivity].
  unfold word64. change (64 * 3) with 192.
  assert (Hw : 10 ^ 18 <= m / 2 ^ 192 < 2 ^ 64) by euclid.
  rewrite (Z.mod_small (m / 2 ^ 192)) by lia.
  destruct (Z.ltb_spec (m / 2 ^ 192) (10 ^ 18)); [lia|reflexivity].
Qed.

(** [PowerInternal] at a positive integer exponent: the fractional step is
    not taken. *)
Lemma PowerInternal_pos_int fract_pow x n :
  is_valid x -> as_packed_int x <> 0 -> 0 < n < 10 ^ 29 ->
  PowerInternal fract_pow x (NumericValue_of_int n)
  = match DoubleScaledPower (Z.abs (as_packed_int x) * kScalingFactor) n with
    | None => Error "numeric overflow"
    | Some v =>
        FromFixedUint (FixedUint_DivAndRoundAwayFromZero 192 v kScalingFactor)
          ((as_packed_int x <? 0)
           && negb (Z.land (word64 n 0) 1 =? 0))
    end.
Proof.
  intros Hx Hnz Hn.
  pose proof (is_valid_in_signed x Hx) as Hsx.
  pose proof (is_valid_bounds x Hx) as Hbx.
  unfold PowerInternal. cbv zeta.
  unfold NumericValue_of_int, NumericValue_zero. cbn [as_packed_int].
  assert (Hk : kScalingFactor = 10 ^ 9) by reflexivity.
  assert (Hnk : 0 < n * kScalingFactor < 2 ^ 127) by (rewrite Hk; lia).
  destruct (Z.eqb_spec (n * kScalingFactor) 0); [lia|].
  destruct (Z.ltb_spec (n * kScalingFactor) 0); [lia|].
  destruct (Z.eqb_spec (as_packed_int x) 0); [contradiction|].
  rewrite (int128_abs_eq (n * kScalingFactor)) by lia.
  rewrite (int128_abs_eq (as_packed_int x)) by assumption.
  rewrite (Z.abs_eq (n * kScalingFactor)) by lia.
  rewrite Z.div_mul by (rewrite Hk; lia).
  rewrite Z.mod_mul by (rewrite Hk; lia).
  change (0 =? 0) with true. cbn [negb].
  rewrite (wrap_unsigned_id 192)
    by (unfold in_unsigned; rewrite Hk; lia).
  destruct (Z.ltb_spec (as_packed_int x) 0); cbn [andb]; reflexivity.
Qed.

Lemma DoubleScaledPower_1 v :
  0 <= v < 10 ^ 47 -> DoubleScaledPower v 1 = Some v.
Proof.
  intros Hv. unfold DoubleScaledPower.
  change (wrap_unsigned 128 1) with 1.
  cbn [DoubleScaledPower_loop]. unfold ExtendAndMultiply.
  assert (Hk : kScalingFactorSquare = 10 ^ 18) by reflexivity.
  rewrite Hk.
  assert (H4 : word64 (10 ^ 18 * v) 4 = 0).
  { unfold word64. change (64 * 4) with 256. euclid. }
  assert (H5 : word64 (10 ^ 18 * v) 5 = 0).
  { unfold word64. change (64 * 5) with 320. euclid. }
  rewrite H4, H5. change (0 =? 0) with true. cbn [negb orb].
  rewrite (wrap_unsigned_id 256) by (unfold in_unsigned; lia).
  rewrite RemoveDoubleScale_4; rewrite ?Hk.
  - f_equal. euclid.
  - lia.
  - euclid.
Qed.

Lemma DoubleScaledPower_2 a :
  0 <= a < 10 ^ 38 ->
  DoubleScaledPower (a * kScalingFactor) 2
  = if a * a <? 2 ^ 192 then Some (a * a) else None.
Proof.
  intros Ha. unfold DoubleScaledPower.
  change (wrap_unsigned 128 2) with 2.
  cbn [DoubleScaledPower_loop]. unfold ExtendAndMultiply.
  assert (Hk : kScalingFactorSquare = 10 ^ 18) by reflexivity.
  assert (Hk1 : kScalingFactor = 10 ^ 9) by reflexivity.
  rewrite Hk, Hk1.
  assert (Haa : 0 <= a * a) by (apply Z.mul_nonneg_nonneg; lia).
  unfold word64 at 1. change (64 * 2) with 128.
  assert (Hw2 : 0 <= a * 10 ^ 9 / 2 ^ 128 < 2 ^ 64) by euclid.
  rewrite (Z.mod_small _ _ Hw2).
  destruct (Z.eqb_spec (a * 10 ^ 9 / 2 ^ 128) 0) as [E|E]; cbn [negb].
  - assert (Hs : a * 10 ^ 9 < 2 ^ 128) by euclid.
    rewrite (wrap_unsigned_id 128) by (unfold in_unsigned; lia).
    replace (a * 10 ^ 9 * (a * 10 ^ 9)) with (a * a * 10 ^ 18) by ring.
    destruct (Z.ltb_spec (a * a) (2 ^ 192)) as [Hlt|Hge].
    + rewrite RemoveDoubleScale_4; rewrite ?Hk; [|lia|euclid].
      replace ((a * a * 10 ^ 18 + 10 ^ 18 / 2) / 10 ^ 18) with (a * a)
        by euclid.
      assert (H4 : word64 (10 ^ 18 * (a * a)) 4 = 0).
      { unfold word64. change (64 * 4) with 256. euclid. }
      assert (H5 : word64 (10 ^ 18 * (a * a)) 5 = 0).
      { unfold word64. change (64 * 5) with 320. euclid. }
      rewrite H4, H5. change (0 =? 0) with true. cbn [negb orb].
      rewrite (wrap_unsigned_id 256) by (unfold in_unsigned; lia).
      rewrite RemoveDoubleScale_4; rewrite ?Hk; [|lia|euclid].
      f_equal. euclid.
    + rewrite RemoveDoubleScale_4_overflow; rewrite ?Hk; [reflexivity|lia|euclid].
  - assert (Hs : 2 ^ 128 <= a * 10 ^ 9) by euclid.
    destruct (Z.ltb_spec (a * a) (2 ^ 192)) as [Hlt|Hge]; [|reflexivity].
    exfalso.
    assert (2 ^ 96 <= a) by lia.
    assert (2 ^ 96 * 2 ^ 96 <= a * a) by (apply Z.mul_le_mono_nonneg; lia).
    lia.
Qed.

(** Raising to the power one returns the value itself, and raising to the
    power two is [Multiply] of the value with itself: the same result when
    the product is in range, and an overflow error exactly when [Multiply]
    reports one.  The floating-point step is never reached. *)
Theorem Power_one_two
  (fract_pow : Z -> Z -> StatusOr NumericValue) (x : NumericValue) :
  is_valid x ->
  Power fract_pow x (NumericValue_of_int 1) = Ok x
  /\ (forall p, Multiply x x = Ok p ->
                Power fract_pow x (NumericValue_of_int 2) = Ok p)
  /\ (is_ok (Multiply x x) = false ->
      Power fract_pow x (NumericValue_of_int 2)
      = Error ("numeric overflow: POW(" ++ ToString x ++ ", 2)")).
Proof.
  intros Hx.
  pose proof (is_valid_in_signed x Hx) as Hsx.
  pose proof (is_valid_bounds x Hx) as Hbx.
  assert (Hk1 : kScalingFactor = 10 ^ 9) by reflexivity.
  destruct (Z.eq_dec (as_packed_int x) 0) as [E0|Hnz].
  { destruct x as [v]. cbn [as_packed_int] in E0. subst v.
    repeat split; try reflexivity.
    - intros p Hp. vm_compute in Hp. vm_compute. exact Hp.
    - intros H. vm_compute in H. discriminate H. }
  set (a := Z.abs (as_packed_int x)) in *.
  assert (Ha : 0 < a < 10 ^ 38) by (unfold a; lia).
  assert (Haa : 0 < a * a) by (apply Z.mul_pos_pos; lia).
  unfold Power.
  rewrite !PowerInternal_pos_int by (assumption || lia). fold a.
  rewrite DoubleScaledPower_1 by (rewrite Hk1; lia).
  rewrite DoubleScaledPower_2 by lia.
  change (Z.land (word64 1 0) 1 =? 0) with false.
  change (Z.land (word64 2 0) 1 =? 0) with true.
  cbn [negb]. rewrite andb_true_r, andb_false_r.
  split.
  { unfold FixedUint_DivAndRoundAwayFromZero.
    rewrite (wrap_unsigned_id 192) by (unfold in_unsigned; rewrite Hk1; euclid).
    replace ((a * kScalingFactor + kScalingFactor / 2) / kScalingFactor)
      with a by (rewrite Hk1; euclid).
    rewrite FromFixedUint_ok by (unfold kNumericMax; lia).
    cbn [append_error]. destruct x as [v]. cbn [as_packed_int] in *.
    do 2 f_equal. unfold a.
    destruct (Z.ltb_spec v 0); lia. }
  assert (HM : Multiply x x
               = if a * a <? kOverflowThreshold
                 then Ok (FromPacked ((a * a + kScalingFactor / 2)
                                      / kScalingFactor))
                 else Error ("numeric overflow: " ++ ToString x ++ " * "
                             ++ ToString x)).
  { destruct (Z.ltb_spec (a * a) kOverflowThreshold) as [Hlt|Hge].
    - rewrite Multiply_ok by assumption.
      rewrite xorb_nilpotent. reflexivity.
    - unfold Multiply, ExtendAndMultiply. cbv zeta.
      rewrite !int128_abs_eq by assumption. fold a.
      destruct (Z.ltb_spec (a * a) kOverflowThreshold); [lia|reflexivity]. }
  rewrite HM. rewrite kOverflowThreshold_eq.
  unfold kNumericMax. rewrite Hk1.
  destruct (Z.ltb_spec (a * a) ((10 ^ 38 - 1) * 10 ^ 9 + 10 ^ 9 / 2))
    as [Hlt|Hge].
  - split; [|cbn [is_ok]; discriminate].
    intros p Hp. assert (Ep : p = FromPacked ((a * a + 10 ^ 9 / 2) / 10 ^ 9))
      by congruence.
    subst p.
    destruct (Z.ltb_spec (a * a) (2 ^ 192)); [|euclid].
    unfold FixedUint_DivAndRoundAwayFromZero.
    rewrite (wrap_unsigned_id 192) by (unfold in_unsigned; euclid).
    rewrite FromFixedUint_ok by (unfold kNumericMax; euclid).
    reflexivity.
  - split; [intros p Hp; discriminate Hp|]. intros _.
    destruct (Z.ltb_spec (a * a) (2 ^ 192)) as [Hlt|Hge2];
      [|reflexivity].
    unfold FixedUint_DivAndRoundAwayFromZero.
    assert (Hsq : a * a + 10 ^ 9 / 2 < 2 ^ 192).
    { assert (a < 2 ^ 96).
      { destruct (Z_lt_le_dec a (2 ^ 96)) as [L|G]; [exact L|].
        assert (2 ^ 96 * 2 ^ 96 <= a * a)
          by (apply Z.mul_le_mono_nonneg; lia).
        lia. }
      assert (a * a <= (2 ^ 96 - 1) * (2 ^ 96 - 1))
        by (apply Z.mul_le_mono_nonneg; lia).
      euclid. }
    rewrite (wrap_unsigned_id 192) by (unfold in_unsigned; euclid).
    rewrite FromFixedUint_overflow;
      [reflexivity|unfold kNumericMax; euclid|euclid].
Qed.

Lemma Power_one_two_witness :
  is_valid (FromPacked (-1500000000))
  /\ Power (fun _ _ => Error "unused") (FromPacked (-1500000000))
       (NumericValue_of_int 1)
     = Ok (FromPacked (-1500000000))
  /\ Power (fun _ _ => Error "unused") (FromPacked (-1500000000))
       (NumericValue_of_int 2)
     = Ok (FromPacked 2250000000)
  /\ Power (fun _ _ => Error "unused") (FromPacked kNumericMax)
       (NumericValue_of_int 2)
     = Error "numeric overflow: POW(99999999999999999999999999999.999999999, 2)".
Proof.
  assert (Hv : is_valid (FromPacked (-1500000000))) by closed_bounds.
  assert (Hm : is_valid (FromPacked kNumericMax)) by closed_bounds.
  destruct (Power_one_two (fun _ _ => Error "unused") _ Hv) as (H1 & H2 & _).
  destruct (Power_one_two (fun _ _ => Error "unused") _ Hm) as (_ & _ & H3).
  split; [exact Hv|]. split; [exact H1|].
  split; [apply H2; vm_compute; reflexivity|].
  rewrite H3 by (vm_compute; reflexivity). vm_compute. reflexivity.
Defined.

(** ** Length-prefixed encodings of the aggregators *)

(** The length [FixedInt::SerializeToBytes] settles on is the least number
    of bytes the value fits. *)
Lemma min_signed_length_spec fuel len v :
  (1 <= fuel)%nat -> 1 <= len ->
  - 2 ^ (8 * (len + Z.of_nat fuel - 1) - 1) <= v
    < 2 ^ (8 * (len + Z.of_nat fuel - 1) - 1) ->
  let r := min_signed_length fuel len v in
  len <= r <= len + Z.of_nat fuel - 1
  /\ - 2 ^ (8 * r - 1) <= v < 2 ^ (8 * r - 1).
Proof.
  revert len. induction fuel as [|fuel IH]; intros len Hf Hl Hv; [lia|].
  cbn [min_signed_length].
  destruct (Z.leb_spec (- 2 ^ (8 * len - 1)) v) as [H1|H1];
    destruct (Z.ltb_spec v (2 ^ (8 * len - 1))) as [H2|H2]; cbn [andb];
    try (cbv zeta; lia).
  all: destruct fuel as [|fuel];
    [replace (len + Z.of_nat 1 - 1) with len in Hv by lia; lia|].
  all: specialize (IH (len + 1) ltac:(lia) ltac:(lia)).
  all: replace (len + 1 + Z.of_nat (S fuel) - 1)
         with (len + Z.of_nat (S (S fuel)) - 1) in IH by lia.
  all: specialize (IH Hv); cbv zeta in IH; cbv zeta; lia.
Qed.

Lemma mod_div_pow2 X a b :
  0 <= a -> 0 <= b ->
  (X mod 2 ^ (a + b)) / 2 ^ a = (X / 2 ^ a) mod 2 ^ b.
Proof.
  intros Ha Hb. rewrite Z.pow_add_r by assumption.
  assert (0 < 2 ^ a) by (apply Z.pow_pos_nonneg; lia).
  assert (0 < 2 ^ b) by (apply Z.pow_pos_nonneg; lia).
  rewrite Z.rem_mul_r by lia.
  rewrite (Z.mul_comm (2 ^ a)), Z.div_add by lia.
  rewrite (Z.div_small (X mod 2 ^ a)) by (apply Z.mod_pos_bound; lia).
  lia.
Qed.

Lemma mod_mod_pow2 X a b :
  0 <= a <= b -> (X mod 2 ^ b) mod 2 ^ a = X mod 2 ^ a.
Proof.
  intros H. replace b with (a + (b - a)) by lia.
  rewrite Z.pow_add_r by lia.
  assert (0 < 2 ^ a) by (apply Z.pow_pos_nonneg; lia).
  assert (0 < 2 ^ (b - a)) by (apply Z.pow_pos_nonneg; lia).
  rewrite Z.rem_mul_r by lia.
  rewrite (Z.mul_comm (2 ^ a)), Z.mod_add by lia.
  apply Z.mod_mod. lia.
Qed.

(** A value that fits [n] bytes is read back from the first [n] bytes of
    its two's-complement representation, whatever the width. *)
Lemma FixedInt_DeserializeFromBytes_first bits v n :
  1 <= n -> 8 * n <= bits ->
  - 2 ^ (8 * n - 1) <= v < 2 ^ (8 * n - 1) ->
  FixedInt_DeserializeFromBytes bits
    (map (fun i => Z.shiftr (wrap_unsigned bits v) (8 * Z.of_nat i) mod 256)
         (seq 0 (Z.to_nat n)))
  = Some v.
Proof.
  intros Hn Hb Hv. unfold FixedInt_DeserializeFromBytes. cbv zeta.
  rewrite length_map, length_seq, Z2Nat.id by lia.
  destruct (Z.eqb_spec n 0); [lia|].
  destruct (Z.ltb_spec bits (8 * n)); [lia|]. cbn [orb].
  rewrite little_endian_shifts.
  replace (Z.to_nat n) with (S (Z.to_nat (n - 1))) at 1 by lia.
  rewrite (last_map_seq
             (fun i => Z.shiftr (wrap_unsigned bits v) (8 * Z.of_nat i)
                       mod 256)).
  rewrite !Z2Nat.id by lia. change (8 * Z.of_nat 0) with 0.
  rewrite Z.pow_0_r, Z.div_1_r, Z.shiftr_div_pow2 by lia.
  unfold wrap_unsigned.
  rewrite mod_mod_pow2 by lia.
  change 256 with (2 ^ 8).
  rewrite <- (mod_div_pow2 (v mod 2 ^ bits) (8 * (n - 1)) 8) by lia.
  replace (8 * (n - 1) + 8) with (8 * n) by lia.
  rewrite mod_mod_pow2 by lia.
  assert (Hp : 2 ^ (8 * n) = 2 * 2 ^ (8 * n - 1)).
  { rewrite <- Z.pow_succ_r by lia. f_equal. lia. }
  assert (Hq : 2 ^ (8 * n - 1) = 2 ^ (8 * (n - 1)) * 128).
  { change 128 with (2 ^ 7). rewrite <- Z.pow_add_r by lia. f_equal. lia. }
  assert (Hpos : 0 < 2 ^ (8 * (n - 1))) by (apply Z.pow_pos_nonneg; lia).
  set (h := 2 ^ (8 * n - 1)) in *. set (g := 2 ^ (8 * (n - 1))) in *.
  destruct (Z_lt_le_dec v 0) as [Hneg|Hpos'].
  - assert (E : v mod 2 ^ (8 * n) = v + 2 ^ (8 * n)).
    { symmetry. apply Z.mod_unique with (q := -1); lia. }
    rewrite E.
    destruct (Z.leb_spec 128 ((v + 2 ^ (8 * n)) / g)) as [_|Hlt].
    + f_equal. lia.
    + exfalso.
      pose proof (Z.div_mod (v + 2 ^ (8 * n)) g ltac:(lia)) as Hd.
      pose proof (Z.mod_pos_bound (v + 2 ^ (8 * n)) g Hpos) as Hr.
      set (d := (v + 2 ^ (8 * n)) / g) in *.
      assert (g * d <= g * 127) by (apply Z.mul_le_mono_nonneg_l; lia).
      lia.
  - rewrite Z.mod_small by lia.
    destruct (Z.leb_spec 128 (v / g)) as [Hge|_]; [|reflexivity].
    exfalso.
    assert (v / g < 128) by (apply Z.div_lt_upper_bound; lia). lia.
Qed.

(** Decoding inverts encoding for a width that is a whole number of
    bytes. *)
Lemma FixedInt_roundtrip bits v :
  0 < bits -> bits mod 8 = 0 -> in_signed bits v ->
  FixedInt_DeserializeFromBytes bits (FixedInt_SerializeToBytes bits v)
  = Some v
  /\ (1 <= List.length (FixedInt_SerializeToBytes bits v)
      <= Z.to_nat (bits / 8))%nat.
Proof.
  intros Hb Hm Hv. unfold FixedInt_SerializeToBytes. cbv zeta.
  assert (HB : bits = 8 * (bits / 8)) by euclid.
  set (B := bits / 8) in *.
  assert (HB1 : 1 <= B) by lia.
  pose proof (min_signed_length_spec (Z.to_nat B) 1 v ltac:(lia) ltac:(lia))
    as Hs.
  rewrite Z2Nat.id in Hs by lia.
  replace (1 + B - 1) with B in Hs by lia.
  unfold in_signed in Hv. rewrite HB in Hv at 1 2.
  specialize (Hs Hv). cbv zeta in Hs.
  set (len := min_signed_length (Z.to_nat B) 1 v) in *.
  split.
  - apply FixedInt_DeserializeFromBytes_first; lia.
  - rewrite length_map, length_seq. lia.
Qed.

Lemma SerializeFixedInt_cons dest bits num p rest :
  SerializeFixedInt dest ((bits, num) :: p :: rest)
  = SerializeFixedInt
      (dest
       ++ wrap_unsigned 8
            (Z.of_nat (List.length (FixedInt_SerializeToBytes bits num)))
          :: FixedInt_SerializeToBytes bits num)
      (p :: rest).
Proof.
  set (enc := FixedInt_SerializeToBytes bits num).
  change (SerializeFixedInt dest ((bits, num) :: p :: rest))
    with (SerializeFixedInt
            (firstn (List.length dest) ((dest ++ [0]) ++ enc)
             ++ wrap_unsigned 8
                  (Z.of_nat (List.length ((dest ++ [0]) ++ enc))
                   - Z.of_nat (List.length dest) - 1)
                :: skipn (S (List.length dest)) ((dest ++ [0]) ++ enc))
            (p :: rest)).
  f_equal.
  replace (S (List.length dest)) with (List.length (dest ++ [0]))
    by (rewrite length_app; cbn [List.length]; lia).
  rewrite skipn_app, skipn_all, Nat.sub_diag. cbn [skipn app].
  rewrite <- app_assoc.
  rewrite firstn_app, firstn_all, Nat.sub_diag. cbn [firstn].
  rewrite app_nil_r. f_equal. f_equal. f_equal.
  rewrite !length_app. cbn [List.length app]. lia.
Qed.

Lemma SerializeFixedInt_app dest nums :
  SerializeFixedInt dest nums = dest ++ SerializeFixedInt [] nums.
Proof.
  revert dest. induction nums as [|[bits num] rest IH]; intros dest.
  - cbn [SerializeFixedInt]. now rewrite app_nil_r.
  - destruct rest as [|p rest]; [reflexivity|].
    rewrite !SerializeFixedInt_cons.
    rewrite IH. rewrite (IH ([] ++ _)). cbn [app].
    rewrite <- app_assoc. reflexivity.
Qed.

(** The shape of a frame: the length byte, the encoding, the rest. *)
Lemma SerializeFixedInt_frame bits num p rest :
  SerializeFixedInt [] ((bits, num) :: p :: rest)
  = wrap_unsigned 8
      (Z.of_nat (List.length (FixedInt_SerializeToBytes bits num)))
    :: FixedInt_SerializeToBytes bits num
    ++ SerializeFixedInt [] (p :: rest).
Proof.
  rewrite SerializeFixedInt_cons, SerializeFixedInt_app. reflexivity.
Qed.

(** Reading one frame. *)
Lemma DeserializeFixedInt_frame bits w ws enc tail :
  (1 <= List.length enc <= 127)%nat -> tail <> [] ->
  Z.of_nat (List.length tail) < 2 ^ 63 ->
  DeserializeFixedInt
    (wrap_unsigned 8 (Z.of_nat (List.length enc)) :: enc ++ tail)
    (bits :: w :: ws)
  = match FixedInt_DeserializeFromBytes bits enc with
    | Some num1 =>
        match DeserializeFixedInt tail (w :: ws) with
        | Some nums => Some (num1 :: nums)
        | None => None
        end
    | None => None
    end.
Proof.
  intros Hl Ht Hs.
  change (DeserializeFixedInt
            (wrap_unsigned 8 (Z.of_nat (List.length enc)) :: enc ++ tail)
            (bits :: w :: ws))
    with (let bytes :=
            wrap_unsigned 8 (Z.of_nat (List.length enc)) :: enc ++ tail in
          let len := wrap_signed 8
                       (wrap_unsigned 8 (Z.of_nat (List.length enc))) in
          if wrap_unsigned 64 len
             <? wrap_unsigned 64 (Z.of_nat (List.length bytes) - 1)
          then
            match FixedInt_DeserializeFromBytes bits
                    (substr 1 (Z.to_nat len) bytes) with
            | Some num1 =>
                match DeserializeFixedInt
                        (skipn (Z.to_nat (len + 1)) bytes) (w :: ws) with
                | Some nums => Some (num1 :: nums)
                | None => None
                end
            | None => None
            end
          else None).
  cbv zeta.
  set (L := List.length enc) in *.
  assert (Hlen : wrap_signed 8 (wrap_unsigned 8 (Z.of_nat L)) = Z.of_nat L).
  { unfold wrap_signed, wrap_unsigned. change (8 - 1) with 7.
    change (2 ^ 8) with 256. change (2 ^ 7) with 128.
    rewrite (Z.mod_small (Z.of_nat L)) by lia.
    rewrite Z.mod_small; lia. }
  rewrite Hlen.
  assert (Htl : (1 <= List.length tail)%nat).
  { destruct tail; [contradiction|cbn [List.length]; lia]. }
  cbn [List.length]. rewrite length_app. fold L.
  rewrite !wrap_unsigned_id by (unfold in_unsigned; lia).
  destruct (Z.ltb_spec (Z.of_nat L)
              (Z.of_nat (S (L + List.length tail)) - 1)); [|lia].
  rewrite Nat2Z.id.
  replace (Z.to_nat (Z.of_nat L + 1)) with (S L) by lia.
  unfold substr. cbn [skipn].
  unfold L. rewrite firstn_app, firstn_all, Nat.sub_diag. cbn [firstn].
  rewrite app_nil_r.
  rewrite skipn_app, skipn_all, Nat.sub_diag. cbn [skipn app].
  reflexivity.
Qed.

(** Any sequence of numbers, each within its width (a whole number of bytes,
    at most 127), is read back from its length-prefixed encoding. *)
Lemma DeserializeFixedInt_SerializeFixedInt nums :
  nums <> [] -> Z.of_nat (List.length nums) < 2 ^ 56 ->
  Forall (fun bn => 0 < fst bn <= 1016 /\ fst bn mod 8 = 0
                    /\ in_signed (fst bn) (snd bn)) nums ->
  DeserializeFixedInt (SerializeFixedInt [] nums) (map fst nums)
  = Some (map snd nums)
  /\ (1 <= List.length (SerializeFixedInt [] nums)
      <= 128 * List.length nums)%nat.
Proof.
  induction nums as [|[bits num] rest IH]; intros Hne Hlen Hall;
    [contradiction|].
  inversion Hall as [|? ? [Hb [Hm Hv]] Hrest]; subst.
  cbn [fst snd] in *.
  destruct (FixedInt_roundtrip bits num ltac:(lia) Hm Hv) as [Hrt Hl].
  assert (HB : (Z.to_nat (bits / 8) <= 127)%nat).
  { assert (bits / 8 <= 127) by euclid. lia. }
  destruct rest as [|p rest].
  - cbn [SerializeFixedInt map DeserializeFixedInt app List.length fst snd].
    rewrite Hrt. split; [reflexivity|lia].
  - cbn [List.length] in Hlen.
    destruct (IH ltac:(discriminate) ltac:(cbn [List.length]; lia) Hrest)
      as [IHd IHl].
    rewrite SerializeFixedInt_frame.
    change (map fst ((bits, num) :: p :: rest))
      with (bits :: fst p :: map fst rest).
    change (map fst (p :: rest)) with (fst p :: map fst rest) in IHd.
    rewrite DeserializeFixedInt_frame.
    + rewrite Hrt, IHd. split; [reflexivity|].
      cbn [List.length] in *. rewrite length_app. lia.
    + lia.
    + intros E. rewrite E in IHl. cbn [List.length] in IHl. lia.
    + cbn [List.length] in *. lia.
Qed.

(** What the decoder returns lies within the width. *)
Lemma FixedInt_DeserializeFromBytes_in_signed bits bytes v :
  Forall (fun b => 0 <= b < 256) bytes ->
  FixedInt_DeserializeFromBytes bits bytes = Some v ->
  (1 <= List.length bytes)%nat
  /\ 8 * Z.of_nat (List.length bytes) <= bits
  /\ in_signed bits v.
Proof.
  intros Hb. unfold FixedInt_DeserializeFromBytes. cbv zeta.
  destruct (Z.eqb_spec (Z.of_nat (List.length bytes)) 0) as [|Hn0];
    [discriminate|].
  destruct (Z.ltb_spec bits (8 * Z.of_nat (List.length bytes))) as [|Hn16];
    [discriminate|].
  cbn [orb]. intros Hd.
  split; [lia|]. split; [lia|].
  destruct bytes as [|b0 bs]; [cbn in Hn0; lia|].
  destruct (exists_last (l := b0 :: bs) ltac:(discriminate)) as (l & x & E).
  rewrite E in *. clear E b0 bs.
  rewrite last_last, little_endian_snoc in Hd.
  apply Forall_app in Hb. destruct Hb as [Hl Hx].
  apply Forall_inv in Hx. cbv beta in Hx.
  pose proof (little_endian_range l Hl) as Hr.
  rewrite length_app in *. cbn [List.length] in *.
  set (M := 2 ^ (8 * Z.of_nat (List.length l))) in *.
  assert (E1 : 2 ^ (8 * Z.of_nat (List.length l + 1) - 1) = 128 * M).
  { replace (8 * Z.of_nat (List.length l + 1) - 1)
      with (7 + 8 * Z.of_nat (List.length l)) by lia.
    rewrite Z.pow_add_r by lia. reflexivity. }
  assert (E2 : 2 ^ (8 * Z.of_nat (List.length l + 1)) = 256 * M).
  { replace (8 * Z.of_nat (List.length l + 1))
      with (8 + 8 * Z.of_nat (List.length l)) by lia.
    rewrite Z.pow_add_r by lia. reflexivity. }
  assert (Hle : 128 * M <= 2 ^ (bits - 1)).
  { rewrite <- E1. apply Z.pow_le_mono_r; lia. }
  rewrite E2 in Hd. unfold in_signed.
  assert (HM : 0 < M) by (apply Z.pow_pos_nonneg; lia).
  destruct (Z.leb_spec 128 x).
  - assert (v = little_endian l + M * x - 256 * M) by congruence.
    pose proof (Z.mul_le_mono_nonneg_l 128 x M ltac:(lia) ltac:(lia)).
    pose proof (Z.mul_le_mono_nonneg_l x 255 M ltac:(lia) ltac:(lia)). lia.
  - assert (v = little_endian l + M * x) by congruence.
    pose proof (Z.mul_le_mono_nonneg_l 0 x M ltac:(lia) ltac:(lia)).
    pose proof (Z.mul_le_mono_nonneg_l x 127 M ltac:(lia) ltac:(lia)). lia.
Qed.

(** [DeserializeFixedInt] returns one number for each width, each within its
    width. *)
Lemma DeserializeFixedInt_in_signed widths :
  forall bytes nums,
    Forall (fun b => 0 <= b < 256) bytes ->
    DeserializeFixedInt bytes widths = Some nums ->
    Forall2 in_signed widths nums.
Proof.
  induction widths as [|bits rest IH]; intros bytes nums Hb Hd;
    [discriminate|].
  destruct rest as [|w ws].
  - cbn [DeserializeFixedInt] in Hd.
    destruct (FixedInt_DeserializeFromBytes bits bytes) as [num|] eqn:E;
      [|discriminate].
    assert (nums = [num]) by congruence. subst nums.
    constructor; [|constructor].
    now apply (FixedInt_DeserializeFromBytes_in_signed bits bytes).
  - destruct bytes as [|b0 bs]; [discriminate|].
    change (DeserializeFixedInt (b0 :: bs) (bits :: w :: ws))
      with (let bytes := b0 :: bs in
            let len := wrap_signed 8 b0 in
            if wrap_unsigned 64 len
               <? wrap_unsigned 64 (Z.of_nat (List.length bytes) - 1)
            then
              match FixedInt_DeserializeFromBytes bits
                      (substr 1 (Z.to_nat len) bytes) with
              | Some num1 =>
                  match DeserializeFixedInt
                          (skipn (Z.to_nat (len + 1)) bytes) (w :: ws) with
                  | Some nums => Some (num1 :: nums)
                  | None => None
                  end
              | None => None
              end
            else None) in Hd.
    cbv zeta in Hd.
    destruct (wrap_unsigned 64 (wrap_signed 8 b0)
              <? wrap_unsigned 64 (Z.of_nat (List.length (b0 :: bs)) - 1));
      [|discriminate].
    destruct (FixedInt_DeserializeFromBytes bits
                (substr 1 (Z.to_nat (wrap_signed 8 b0)) (b0 :: bs)))
      as [num1|] eqn:E1; [|discriminate].
    destruct (DeserializeFixedInt
                (skipn (Z.to_nat (wrap_signed 8 b0 + 1)) (b0 :: bs))
                (w :: ws)) as [ns|] eqn:E2; [|discriminate].
    assert (nums = num1 :: ns) by congruence. subst nums.
    constructor.
    + apply (FixedInt_DeserializeFromBytes_in_signed bits _ num1) in E1;
        [tauto|].
      unfold substr. apply Forall_firstn, Forall_skipn. exact Hb.
    + apply (IH _ _ (Forall_skipn _ _ _ Hb) E2).
Qed.

(** A first length byte with the high bit set, or one that does not leave
    at least one byte after the frame, is rejected. *)
Lemma DeserializeFixedInt_bad_length b0 bs bits w ws :
  0 <= b0 < 256 -> Z.of_nat (List.length bs) < 2 ^ 63 ->
  128 <= b0 \/ Z.of_nat (List.length bs) <= b0 ->
  DeserializeFixedInt (b0 :: bs) (bits :: w :: ws) = None.
Proof.
  intros Hb Hs Hbad.
  change (DeserializeFixedInt (b0 :: bs) (bits :: w :: ws))
    with (let bytes := b0 :: bs in
          let len := wrap_signed 8 b0 in
          if wrap_unsigned 64 len
             <? wrap_unsigned 64 (Z.of_nat (List.length bytes) - 1)
          then
            match FixedInt_DeserializeFromBytes bits
                    (substr 1 (Z.to_nat len) bytes) with
            | Some num1 =>
                match DeserializeFixedInt
                        (skipn (Z.to_nat (len + 1)) bytes) (w :: ws) with
                | Some nums => Some (num1 :: nums)
                | None => None
                end
            | None => None
            end
          else None).
  cbv zeta. cbn [List.length].
  rewrite (wrap_unsigned_id 64 (Z.of_nat (S (List.length bs)) - 1))
    by (unfold in_unsigned; lia).
  assert (Hge : Z.of_nat (S (List.length bs)) - 1
                <= wrap_unsigned 64 (wrap_signed 8 b0)).
  { unfold wrap_unsigned, wrap_signed. change (8 - 1) with 7.
    change (2 ^ 7) with 128. change (2 ^ 8) with 256.
    destruct (Z_lt_le_dec b0 128).
    - rewrite (Z.mod_small (b0 + 128)) by lia.
      rewrite Z.mod_small by lia. lia.
    - replace ((b0 + 128) mod 256) with (b0 - 128) by euclid.
      replace ((b0 - 128 - 128) mod 2 ^ 64) with (2 ^ 64 + b0 - 256)
        by euclid.
      lia. }
  destruct (Z.ltb_spec (wrap_unsigned 64 (wrap_signed 8 b0))
              (Z.of_nat (S (List.length bs)) - 1)); [lia|reflexivity].
Qed.

(** ** Serialized aggregator states *)

(** The state of a [SumAggregator] is read back from its serialization,
    which takes between 1 and 24 bytes; the decoder rejects the empty string
    and whatever is longer than 24 bytes, and a state it accepts lies within
    the 192 bits of the accumulator. *)
Theorem SumAggregator_serialization (a : SumAggregator.t) :
  in_signed 192 (SumAggregator.sum_ a) ->
  SumAggregator.DeserializeFromProtoBytes
    (SumAggregator.SerializeAsProtoBytes a) = Ok a
  /\ (1 <= List.length (SumAggregator.SerializeAsProtoBytes a) <= 24)%nat
  /\ (forall bytes,
        bytes = [] \/ (24 < List.length bytes)%nat ->
        SumAggregator.DeserializeFromProtoBytes bytes
        = Error "Invalid NumericValue::SumAggregator encoding")
  /\ (forall bytes b,
        Forall (fun x => 0 <= x < 256) bytes ->
        SumAggregator.DeserializeFromProtoBytes bytes = Ok b ->
        in_signed 192 (SumAggregator.sum_ b)).
Proof.
  intros Ha.
  destruct (FixedInt_roundtrip 192 (SumAggregator.sum_ a)
              ltac:(lia) ltac:(reflexivity) Ha) as [Hrt Hl].
  unfold SumAggregator.DeserializeFromProtoBytes,
    SumAggregator.SerializeAsProtoBytes.
  split; [rewrite Hrt; now destruct a|].
  split; [exact Hl|].
  split.
  - intros bytes Hb. unfold FixedInt_DeserializeFromBytes. cbv zeta.
    destruct Hb as [->|Hb]; [reflexivity|].
    destruct (Z.eqb_spec (Z.of_nat (List.length bytes)) 0); [reflexivity|].
    destruct (Z.ltb_spec 192 (8 * Z.of_nat (List.length bytes)));
      [reflexivity|lia].
  - intros bytes b Hb Hd.
    destruct (FixedInt_DeserializeFromBytes 192 bytes) as [s|] eqn:E;
      [|discriminate].
    assert (b = SumAggregator.mk s) by congruence. subst b.
    cbn [SumAggregator.sum_].
    now apply (FixedInt_DeserializeFromBytes_in_signed 192 bytes).
Qed.

Lemma SumAggregator_serialization_witness :
  in_signed 192 (SumAggregator.sum_ (SumAggregator.mk (-129)))
  /\ SumAggregator.SerializeAsProtoBytes (SumAggregator.mk (-129))
     = [127; 255]
  /\ SumAggregator.DeserializeFromProtoBytes
       (SumAggregator.SerializeAsProtoBytes (SumAggregator.mk (-129)))
     = Ok (SumAggregator.mk (-129)).
Proof.
  assert (Ha : in_signed 192 (SumAggregator.sum_ (SumAggregator.mk (-129))))
    by closed_bounds.
  split; [exact Ha|]. split; [vm_compute; reflexivity|].
  exact (proj1 (SumAggregator_serialization _ Ha)).
Defined.

(** The state of a [VarianceAggregator] is read back from its serialization:
    a length byte, the sum, then the sum of squares.  The decoder rejects
    the empty string, a length byte with the high bit set and a length byte
    that leaves nothing after the first number; a state it accepts lies
    within the widths of the two accumulators. *)
Theorem VarianceAggregator_serialization (a : VarianceAggregator.t) :
  VarianceAggregator.wf a ->
  VarianceAggregator.DeserializeFromProtoBytes
    (VarianceAggregator.SerializeAsProtoBytes a) = Ok a
  /\ VarianceAggregator.SerializeAsProtoBytes a
     = Z.of_nat (List.length
                   (FixedInt_SerializeToBytes 192 (VarianceAggregator.sum_ a)))
       :: FixedInt_SerializeToBytes 192 (VarianceAggregator.sum_ a)
       ++ FixedInt_SerializeToBytes 320 (VarianceAggregator.sum_square_ a)
  /\ (2 <= List.length (VarianceAggregator.SerializeAsProtoBytes a) <= 65)%nat
  /\ VarianceAggregator.DeserializeFromProtoBytes []
     = Error "Invalid NumericValue::VarianceAggregator encoding"
  /\ (forall b0 bs,
        0 <= b0 < 256 -> Z.of_nat (List.length bs) < 2 ^ 63 ->
        128 <= b0 \/ Z.of_nat (List.length bs) <= b0 ->
        VarianceAggregator.DeserializeFromProtoBytes (b0 :: bs)
        = Error "Invalid NumericValue::VarianceAggregator encoding")
  /\ (forall bytes b,
        Forall (fun x => 0 <= x < 256) bytes ->
        VarianceAggregator.DeserializeFromProtoBytes bytes = Ok b ->
        VarianceAggregator.wf b).
Proof.
  intros [Hs Hq]. destruct a as [s q].
  cbn [VarianceAggregator.sum_ VarianceAggregator.sum_square_] in *.
  destruct (FixedInt_roundtrip 192 s ltac:(lia) ltac:(reflexivity) Hs)
    as [_ Hl1].
  destruct (FixedInt_roundtrip 320 q ltac:(lia) ltac:(reflexivity) Hq)
    as [_ Hl2].
  change (Z.to_nat (192 / 8)) with 24%nat in Hl1.
  change (Z.to_nat (320 / 8)) with 40%nat in Hl2.
  destruct (DeserializeFixedInt_SerializeFixedInt [(192, s); (320, q)])
    as [Hrt _].
  { discriminate. }
  { cbn [List.length]. lia. }
  { repeat (apply Forall_cons;
             [cbn [fst snd];
              split; [lia|split; [reflexivity|assumption]]|]).
    apply Forall_nil. }
  cbn [map fst snd] in Hrt.
  unfold VarianceAggregator.DeserializeFromProtoBytes,
    VarianceAggregator.SerializeAsProtoBytes.
  cbn [VarianceAggregator.sum_ VarianceAggregator.sum_square_].
  split; [rewrite Hrt; reflexivity|].
  assert (Hshape : SerializeFixedInt [] [(192, s); (320, q)]
                   = Z.of_nat (List.length (FixedInt_SerializeToBytes 192 s))
                     :: FixedInt_SerializeToBytes 192 s
                     ++ FixedInt_SerializeToBytes 320 q).
  { rewrite SerializeFixedInt_frame.
    rewrite wrap_unsigned_id by (unfold in_unsigned; lia).
    reflexivity. }
  split; [exact Hshape|].
  split; [rewrite Hshape; cbn [List.length]; rewrite length_app; lia|].
  split; [reflexivity|].
  split.
  - intros b0 bs Hb Hsz Hbad.
    rewrite DeserializeFixedInt_bad_length by assumption. reflexivity.
  - intros bytes b Hb Hd.
    destruct (DeserializeFixedInt bytes [192; 320]) as [nums|] eqn:E;
      [|discriminate].
    pose proof (DeserializeFixedInt_in_signed _ _ _ Hb E) as HF.
    inversion HF as [|? ? ? ? H1 HF2]; subst.
    inversion HF2 as [|? ? ? ? H2 HF3]; subst.
    inversion HF3; subst.
    assert (b = VarianceAggregator.mk y y0) by congruence. subst b.
    split; assumption.
Qed.

Lemma VarianceAggregator_serialization_witness :
  VarianceAggregator.wf (VarianceAggregator.mk (-129) 16641)
  /\ VarianceAggregator.SerializeAsProtoBytes
       (VarianceAggregator.mk (-129) 16641)
     = [2; 127; 255; 1; 65]
  /\ VarianceAggregator.DeserializeFromProtoBytes
       (VarianceAggregator.SerializeAsProtoBytes
          (VarianceAggregator.mk (-129) 16641))
     = Ok (VarianceAggregator.mk (-129) 16641).
Proof.
  assert (Ha : VarianceAggregator.wf (VarianceAggregator.mk (-129) 16641))
    by closed_bounds.
  split; [exact Ha|]. split; [vm_compute; reflexivity|].
  exact (proj1 (VarianceAggregator_serialization _ Ha)).
Defined.

(** The state of a [CovarianceAggregator] is read back from its
    serialization, in which the sum of products comes first, then the two
    sums; the decoder rejects the empty string and a bad first length byte,
    and a state it accepts lies within the widths of the accumulators. *)
Theorem CovarianceAggregator_serialization (a : CovarianceAggregator.t) :
  CovarianceAggregator.wf a ->
  CovarianceAggregator.DeserializeFromProtoBytes
    (CovarianceAggregator.SerializeAsProtoBytes a) = Ok a
  /\ (3 <= List.length (CovarianceAggregator.SerializeAsProtoBytes a)
      <= 90)%nat
  /\ CovarianceAggregator.DeserializeFromProtoBytes []
     = Error "Invalid NumericValue::CovarianceAggregator encoding"
  /\ (forall b0 bs,
        0 <= b0 < 256 -> Z.of_nat (List.length bs) < 2 ^ 63 ->
        128 <= b0 \/ Z.of_nat (List.length bs) <= b0 ->
        CovarianceAggregator.DeserializeFromProtoBytes (b0 :: bs)
        = Error "Invalid NumericValue::CovarianceAggregator encoding")
  /\ (forall bytes b,
        Forall (fun x => 0 <= x < 256) bytes ->
        CovarianceAggregator.DeserializeFromProtoBytes bytes = Ok b ->
        CovarianceAggregator.wf b).
Proof.
  intros (Hx & Hy & Hp). destruct a as [x y p].
  cbn [CovarianceAggregator.sum_x_ CovarianceAggregator.sum_y_
       CovarianceAggregator.sum_product_] in *.
  destruct (FixedInt_roundtrip 320 p ltac:(lia) ltac:(reflexivity) Hp)
    as [_ Hl1].
  destruct (FixedInt_roundtrip 192 x ltac:(lia) ltac:(reflexivity) Hx)
    as [_ Hl2].
  destruct (FixedInt_roundtrip 192 y ltac:(lia) ltac:(reflexivity) Hy)
    as [_ Hl3].
  change (Z.to_nat (192 / 8)) with 24%nat in *.
  change (Z.to_nat (320 / 8)) with 40%nat in *.
  destruct (DeserializeFixedInt_SerializeFixedInt
              [(320, p); (192, x); (192, y)]) as [Hrt _].
  { discriminate. }
  { cbn [List.length]. lia. }
  { repeat (apply Forall_cons;
             [cbn [fst snd];
              split; [lia|split; [reflexivity|assumption]]|]).
    apply Forall_nil. }
  cbn [map fst snd] in Hrt.
  unfold CovarianceAggregator.DeserializeFromProtoBytes,
    CovarianceAggregator.SerializeAsProtoBytes.
  cbn [CovarianceAggregator.sum_x_ CovarianceAggregator.sum_y_
       CovarianceAggregator.sum_product_].
  split; [rewrite Hrt; reflexivity|].
  split.
  { rewrite !SerializeFixedInt_frame. cbn [SerializeFixedInt app].
    cbn [List.length]. rewrite !length_app. cbn [List.length].
    rewrite length_app. lia. }
  split; [reflexivity|].
  split.
  - intros b0 bs Hb Hsz Hbad.
    rewrite DeserializeFixedInt_bad_length by assumption. reflexivity.
  - intros bytes b Hb Hd.
    destruct (DeserializeFixedInt bytes [320; 192; 192]) as [nums|] eqn:E;
      [|discriminate].
    pose proof (DeserializeFixedInt_in_signed _ _ _ Hb E) as HF.
    inversion HF as [|? ? ? ? H1 HF2]; subst.
    inversion HF2 as [|? ? ? ? H2 HF3]; subst.
    inversion HF3 as [|? ? ? ? H3 HF4]; subst.
    inversion HF4; subst.
    assert (b = CovarianceAggregator.mk y1 y2 y0) by congruence. subst b.
    exact (conj H2 (conj H3 H1)).
Qed.

Lemma CovarianceAggregator_serialization_witness :
  CovarianceAggregator.wf (CovarianceAggregator.mk (-129) 300 (-38700))
  /\ CovarianceAggregator.SerializeAsProtoBytes
       (CovarianceAggregator.mk (-129) 300 (-38700))
     = [3; 212; 104; 255; 2; 127; 255; 44; 1]
  /\ CovarianceAggregator.DeserializeFromProtoBytes
       (CovarianceAggregator.SerializeAsProtoBytes
          (CovarianceAggregator.mk (-129) 300 (-38700)))
     = Ok (CovarianceAggregator.mk (-129) 300 (-38700)).
Proof.
  assert (Ha : CovarianceAggregator.wf
                 (CovarianceAggregator.mk (-129) 300 (-38700)))
    by closed_bounds.
  split; [exact Ha|]. split; [vm_compute; reflexivity|].
  exact (proj1 (CovarianceAggregator_serialization _ Ha)).
Defined.

(** The state of a [CorrelationAggregator] is read back from its
    serialization of five numbers; the decoder rejects the empty string and
    a bad first length byte, and a state it accepts lies within the widths
    of the accumulators. *)
Theorem CorrelationAggregator_serialization (a : CorrelationAggregator.t) :
  CorrelationAggregator.wf a ->
  CorrelationAggregator.DeserializeFromProtoBytes
    (CorrelationAggregator.SerializeAsProtoBytes a) = Ok a
  /\ CorrelationAggregator.DeserializeFromProtoBytes []
     = Error "Invalid NumericValue::CorrelationAggregator encoding"
  /\ (forall b0 bs,
        0 <= b0 < 256 -> Z.of_nat (List.length bs) < 2 ^ 63 ->
        128 <= b0 \/ Z.of_nat (List.length bs) <= b0 ->
        CorrelationAggregator.DeserializeFromProtoBytes (b0 :: bs)
        = Error "Invalid NumericValue::CorrelationAggregator encoding")
  /\ (forall bytes b,
        Forall (fun x => 0 <= x < 256) bytes ->
        CorrelationAggregator.DeserializeFromProtoBytes bytes = Ok b ->
        CorrelationAggregator.wf b).
Proof.
  intros ((Hx & Hy & Hp) & Hsx & Hsy). destruct a as [[x y p] sx sy].
  cbn [CovarianceAggregator.sum_x_ CovarianceAggregator.sum_y_
       CovarianceAggregator.sum_product_ CorrelationAggregator.cov_agg_
       CorrelationAggregator.sum_square_x_
       CorrelationAggregator.sum_square_y_] in *.
  destruct (DeserializeFixedInt_SerializeFixedInt
              [(320, p); (192, x); (192, y); (320, sx); (320, sy)])
    as [Hrt _].
  { discriminate. }
  { cbn [List.length]. lia. }
  { repeat (apply Forall_cons;
             [cbn [fst snd];
              split; [lia|split; [reflexivity|assumption]]|]).
    apply Forall_nil. }
  cbn [map fst snd] in Hrt.
  unfold CorrelationAggregator.DeserializeFromProtoBytes,
    CorrelationAggregator.SerializeAsProtoBytes.
  cbn [CovarianceAggregator.sum_x_ CovarianceAggregator.sum_y_
       CovarianceAggregator.sum_product_ CorrelationAggregator.cov_agg_
       CorrelationAggregator.sum_square_x_
       CorrelationAggregator.sum_square_y_].
  split; [rewrite Hrt; reflexivity|].
  split; [reflexivity|].
  split.
  - intros b0 bs Hb Hsz Hbad.
    rewrite DeserializeFixedInt_bad_length by assumption. reflexivity.
  - intros bytes b Hb Hd.
    destruct (DeserializeFixedInt bytes [320; 192; 192; 320; 320])
      as [nums|] eqn:E; [|discriminate].
    pose proof (DeserializeFixedInt_in_signed _ _ _ Hb E) as HF.
    inversion HF as [|? ? ? ? H1 HF2]; subst.
    inversion HF2 as [|? ? ? ? H2 HF3]; subst.
    inversion HF3 as [|? ? ? ? H3 HF4]; subst.
    inversion HF4 as [|? ? ? ? H4 HF5]; subst.
    inversion HF5 as [|? ? ? ? H5 HF6]; subst.
    inversion HF6; subst.
    assert (b = CorrelationAggregator.mk
                  (CovarianceAggregator.mk y1 y2 y0) y3 y4) by congruence.
    subst b. exact (conj (conj H2 (conj H3 H1)) (conj H4 H5)).
Qed.

Lemma CorrelationAggregator_serialization_witness :
  CorrelationAggregator.wf
    (CorrelationAggregator.mk
       (CovarianceAggregator.mk (-129) 300 (-38700)) 16641 90000)
  /\ CorrelationAggregator.DeserializeFromProtoBytes
       (CorrelationAggregator.SerializeAsProtoBytes
          (CorrelationAggregator.mk
             (CovarianceAggregator.mk (-129) 300 (-38700)) 16641 90000))
     = Ok (CorrelationAggregator.mk
             (CovarianceAggregator.mk (-129) 300 (-38700)) 16641 90000).
Proof.
  assert (Ha : CorrelationAggregator.wf
                 (CorrelationAggregator.mk
                    (CovarianceAggregator.mk (-129) 300 (-38700))
                    16641 90000)) by closed_bounds.
  split; [exact Ha|].
  exact (proj1 (CorrelationAggregator_serialization _ Ha)).
Defined.

(** ** The legacy aggregator *)

Lemma Store64_length w : List.length (Aggregator.Store64 w) = 8%nat.
Proof. reflexivity. Qed.

Lemma Load64_Store64 w rest :
  Aggregator.Load64 (Aggregator.Store64 w ++ rest) = wrap_unsigned 64 w.
Proof.
  unfold Aggregator.Load64.
  rewrite firstn_app, Store64_length. change (8 - 8)%nat with 0%nat.
  rewrite firstn_0, app_nil_r.
  rewrite firstn_all2 by (rewrite Store64_length; lia).
  unfold Aggregator.Store64. rewrite little_endian_shifts.
  change (8 * Z.of_nat 0) with 0. change (8 * Z.of_nat 8) with 64.
  rewrite Z.pow_0_r, Z.div_1_r.
  unfold wrap_unsigned. apply Z.mod_mod. lia.
Qed.

Lemma Load64_range bytes :
  Forall (fun b => 0 <= b < 256) bytes ->
  0 <= Aggregator.Load64 bytes < 2 ^ 64.
Proof.
  intros Hb. unfold Aggregator.Load64.
  pose proof (little_endian_range (firstn 8 bytes)
                (Forall_firstn _ 8 bytes Hb)) as Hr.
  assert (Hl : (List.length (firstn 8 bytes) <= 8)%nat)
    by (rewrite length_firstn; lia).
  assert (2 ^ (8 * Z.of_nat (List.length (firstn 8 bytes))) <= 2 ^ 64)
    by (apply Z.pow_le_mono_r; lia).
  lia.
Qed.

(** The state of the legacy aggregator is read back from its 24 bytes; any
    other length is rejected, and 24 bytes always decode to a state within
    the widths of the two fields. *)
Theorem Aggregator_serialization (a : Aggregator.t) :
  Aggregator.wf a ->
  Aggregator.DeserializeFromProtoBytes (Aggregator.SerializeAsProtoBytes a)
  = Ok a
  /\ List.length (Aggregator.SerializeAsProtoBytes a) = 24%nat
  /\ (forall bytes,
        List.length bytes <> 24%nat ->
        Aggregator.DeserializeFromProtoBytes bytes
        = Error "Invalid NumericValue::Aggregator encoding")
  /\ (forall bytes,
        List.length bytes = 24%nat ->
        exists b, Aggregator.DeserializeFromProtoBytes bytes = Ok b
                  /\ Aggregator.wf b).
Proof.
  intros [Hl Hu]. destruct a as [l u].
  cbn [Aggregator.sum_lower_ Aggregator.sum_upper_] in *.
  unfold in_signed in Hl, Hu.
  change (128 - 1) with 127 in Hl. change (64 - 1) with 63 in Hu.
  assert (Hlen : List.length
                   (Aggregator.SerializeAsProtoBytes (Aggregator.mk l u))
                 = 24%nat) by reflexivity.
  split.
  - unfold Aggregator.DeserializeFromProtoBytes. rewrite Hlen.
    change (negb (24 =? 24)%nat) with false. cbv iota. cbv zeta.
    unfold Aggregator.SerializeAsProtoBytes. cbv zeta.
    cbn [Aggregator.sum_lower_ Aggregator.sum_upper_].
    rewrite Load64_Store64.
    replace (skipn 8 (Aggregator.Store64 (wrap_unsigned 64 l)
                      ++ Aggregator.Store64
                           (wrap_unsigned 64
                              (Z.shiftr (wrap_unsigned 128 l) 64))
                      ++ Aggregator.Store64 u))
      with (Aggregator.Store64
              (wrap_unsigned 64 (Z.shiftr (wrap_unsigned 128 l) 64))
            ++ Aggregator.Store64 u) by reflexivity.
    replace (skipn 16 (Aggregator.Store64 (wrap_unsigned 64 l)
                       ++ Aggregator.Store64
                            (wrap_unsigned 64
                               (Z.shiftr (wrap_unsigned 128 l) 64))
                       ++ Aggregator.Store64 u))
      with (Aggregator.Store64 u ++ []) by reflexivity.
    rewrite !Load64_Store64.
    rewrite Z.shiftr_div_pow2 by lia.
    do 2 f_equal.
    + unfold wrap_signed, wrap_unsigned. change (128 - 1) with 127. euclid.
    + unfold wrap_signed, wrap_unsigned. change (64 - 1) with 63. euclid.
  - split; [exact Hlen|]. split.
    + intros bytes Hb. unfold Aggregator.DeserializeFromProtoBytes.
      destruct (Nat.eqb_spec (List.length bytes) 24); [contradiction|].
      reflexivity.
    + intros bytes Hb. unfold Aggregator.DeserializeFromProtoBytes.
      rewrite Hb. change (negb (24 =? 24)%nat) with false. cbv iota zeta.
      eexists. split; [reflexivity|].
      split; cbn [Aggregator.sum_lower_ Aggregator.sum_upper_];
        apply wrap_signed_range; lia.
Qed.

Lemma Aggregator_serialization_witness :
  Aggregator.wf (Aggregator.mk (-2) 3)
  /\ Aggregator.SerializeAsProtoBytes (Aggregator.mk (-2) 3)
     = [254; 255; 255; 255; 255; 255; 255; 255;
        255; 255; 255; 255; 255; 255; 255; 255;
        3; 0; 0; 0; 0; 0; 0; 0]
  /\ Aggregator.DeserializeFromProtoBytes
       (Aggregator.SerializeAsProtoBytes (Aggregator.mk (-2) 3))
     = Ok (Aggregator.mk (-2) 3).
Proof.
  assert (Ha : Aggregator.wf (Aggregator.mk (-2) 3)) by closed_bounds.
  split; [exact Ha|]. split; [vm_compute; reflexivity|].
  exact (proj1 (Aggregator_serialization _ Ha)).
Defined.

(** With the state read as the integer
    [sum_upper_ * 2^128 + sum_lower_], [MergeWith] adds the two integers
    modulo [2^192], and exactly as long as the sum of the upper parts
    stays strictly inside the 64-bit range; it commutes, and the zero state
    is neutral on both sides. *)
Theorem Aggregator_MergeWith_adds (a b : Aggregator.t) :
  Aggregator.wf a -> Aggregator.wf b ->
  let V := fun s => Aggregator.sum_upper_ s * 2 ^ 128
                    + Aggregator.sum_lower_ s in
  (V (Aggregator.MergeWith a b) - (V a + V b)) mod 2 ^ 192 = 0
  /\ (- 2 ^ 63 < Aggregator.sum_upper_ a + Aggregator.sum_upper_ b
        < 2 ^ 63 - 1 ->
      V (Aggregator.MergeWith a b) = V a + V b)
  /\ Aggregator.MergeWith a b = Aggregator.MergeWith b a
  /\ Aggregator.MergeWith a (Aggregator.mk 0 0) = a
  /\ Aggregator.MergeWith (Aggregator.mk 0 0) a = a.
Proof.
  intros Ha Hb V.
  assert (H0 : Aggregator.wf (Aggregator.mk 0 0)).
  { split; unfold in_signed; cbn [Aggregator.sum_lower_ Aggregator.sum_upper_];
      lia. }
  rewrite (Aggregator_MergeWith_eq a b Ha Hb),
    (Aggregator_MergeWith_eq b a Hb Ha),
    (Aggregator_MergeWith_eq a _ Ha H0),
    (Aggregator_MergeWith_eq _ a H0 Ha).
  destruct a as [la ua], b as [lb ub]. unfold V.
  cbn [Aggregator.sum_lower_ Aggregator.sum_upper_].
  destruct Ha as [Hla Hua], Hb as [Hlb Hub].
  unfold in_signed in *.
  cbn [Aggregator.sum_lower_ Aggregator.sum_upper_] in *.
  change (128 - 1) with 127 in *. change (64 - 1) with 63 in *.
  pose proof (carry128_exact la lb) as Hc.
  pose proof (carry128_exact lb la) as Hc'.
  pose proof (carry128_exact la 0) as Hc0.
  pose proof (carry128_exact 0 la) as Hc0'.
  assert (Hw : forall x, - 2 ^ 127 <= x < 2 ^ 127 -> wrap_signed 128 x = x).
  { intros x Hx. apply wrap_signed_id; [lia|]. unfold in_signed.
    change (128 - 1) with 127. lia. }
  assert (Hw64 : forall x, - 2 ^ 63 <= x < 2 ^ 63 -> wrap_signed 64 x = x).
  { intros x Hx. apply wrap_signed_id; [lia|]. unfold in_signed.
    change (64 - 1) with 63. lia. }
  pose proof (wrap_signed_range 128 (la + lb) ltac:(lia)) as Hr.
  unfold in_signed in Hr. change (128 - 1) with 127 in Hr.
  split; [|split; [|split; [|split]]].
  - set (l := wrap_signed 128 (la + lb)) in *.
    set (c := carry128 la lb) in *.
    replace (wrap_signed 64 (ua + ub + c) * 2 ^ 128 + l
             - (ua * 2 ^ 128 + la + (ub * 2 ^ 128 + lb)))
      with ((wrap_signed 64 (ua + ub + c) - (ua + ub + c)) * 2 ^ 128) by lia.
    unfold wrap_signed. change (64 - 1) with 63.
    set (x := ua + ub + c).
    replace (((x + 2 ^ 63) mod 2 ^ 64 - 2 ^ 63 - x) * 2 ^ 128)
      with (- ((x + 2 ^ 63) / 2 ^ 64) * 2 ^ 192) by euclid.
    apply Z.mod_mul. lia.
  - intros Hsum.
    set (l := wrap_signed 128 (la + lb)) in *.
    set (c := carry128 la lb) in *.
    assert (-1 <= c <= 1) by lia.
    rewrite Hw64 by lia. lia.
  - f_equal.
    + f_equal. lia.
    + f_equal. rewrite (Z.add_comm lb la) in Hc'. lia.
  - rewrite Z.add_0_r in *. rewrite (Hw la Hla) in *.
    assert (carry128 la 0 = 0) by lia.
    f_equal. rewrite Hw64; lia.
  - cbn [Z.add] in *. rewrite (Hw la Hla) in *.
    assert (carry128 0 la = 0) by lia.
    f_equal. rewrite Hw64; lia.
Qed.

Lemma Aggregator_MergeWith_adds_witness :
  (Aggregator.wf (Aggregator.mk (2 ^ 127 - 1) 5)
   /\ Aggregator.wf (Aggregator.mk 1 (-3))
   /\ - 2 ^ 63 < 5 + -3 < 2 ^ 63 - 1)
  /\ Aggregator.MergeWith (Aggregator.mk (2 ^ 127 - 1) 5)
       (Aggregator.mk 1 (-3))
     = Aggregator.mk (- 2 ^ 127) 3
  /\ Aggregator.sum_upper_
       (Aggregator.MergeWith (Aggregator.mk (2 ^ 127 - 1) 5)
          (Aggregator.mk 1 (-3))) * 2 ^ 128
     + Aggregator.sum_lower_
         (Aggregator.MergeWith (Aggregator.mk (2 ^ 127 - 1) 5)
            (Aggregator.mk 1 (-3)))
     = 5 * 2 ^ 128 + (2 ^ 127 - 1) + (-3 * 2 ^ 128 + 1).
Proof.
  assert (Ha : Aggregator.wf (Aggregator.mk (2 ^ 127 - 1) 5))
    by closed_bounds.
  assert (Hb : Aggregator.wf (Aggregator.mk 1 (-3))) by closed_bounds.
  assert (Hs : - 2 ^ 63 < 5 + -3 < 2 ^ 63 - 1) by lia.
  split; [exact (conj Ha (conj Hb Hs))|]. split; [vm_compute; reflexivity|].
  exact (proj1 (proj2 (Aggregator_MergeWith_adds _ _ Ha Hb)) Hs).
Defined.

(** The dividend [GetAverage] builds from the two fields, its sign, and the
    division. *)
Lemma Aggregator_GetAverage_eq l u count :
  - 2 ^ 127 <= l < 2 ^ 127 -> - 2 ^ 63 < u < 2 ^ 63 -> 0 < count < 2 ^ 64 ->
  let V := u * 2 ^ 128 + l in
  let m := if (u <? 0) && (l =? - 2 ^ 127) then Z.abs V - 2 ^ 128
           else Z.abs V in
  0 <= m < 2 ^ 191 + 2 ^ 128
  /\ Aggregator.GetAverage (Aggregator.mk l u) count
     = match FromFixedUint ((m + count / 2) / count) (V <? 0) with
       | Ok v => Ok v
       | Error _ => Error "numeric overflow: AVG"
       end.
Proof.
  intros Hl Hu Hc V m.
  unfold Aggregator.GetAverage. cbv zeta.
  cbn [Aggregator.sum_lower_ Aggregator.sum_upper_].
  destruct (Z.eqb_spec count 0); [lia|].
  rewrite (wrap_unsigned_id 64 (Z.abs u)) by (unfold in_unsigned; lia).
  rewrite Z.shiftr_div_pow2 by lia. change (2 ^ 1) with 2.
  assert (Hh : 0 <= count / 2 < 2 ^ 63) by euclid.
  assert (Habs : l <> - 2 ^ 127 -> wrap_signed 128 (int128_abs l) = Z.abs l).
  { intros Hne. rewrite int128_abs_eq by lia.
    apply wrap_signed_id; [lia|]. unfold in_signed.
    change (128 - 1) with 127. lia. }
  assert (Hwu : forall x, 0 <= x < 2 ^ 128 -> wrap_unsigned 128 x = x).
  { intros x Hx. apply wrap_unsigned_id. unfold in_unsigned. lia. }
  assert (Hwn : forall x, - 2 ^ 128 <= x < 0 ->
                          wrap_unsigned 128 x = x + 2 ^ 128).
  { intros x Hx. unfold wrap_unsigned. symmetry.
    apply Z.mod_unique with (q := -1); lia. }
  assert (Hfin : forall d neg,
            d = m -> neg = (V <? 0) -> 0 <= m < 2 ^ 191 + 2 ^ 128 ->
            0 <= m < 2 ^ 191 + 2 ^ 128
            /\ match FromFixedUint
                       (wrap_unsigned 192 (d + count / 2) / count) neg with
               | Ok v => Ok v
               | Error _ => Error "numeric overflow: AVG"
               end
               = match FromFixedUint ((m + count / 2) / count) (V <? 0) with
                 | Ok v => Ok v
                 | Error _ => Error "numeric overflow: AVG"
                 end).
  { intros d neg -> -> Hm. split; [exact Hm|].
    rewrite wrap_unsigned_id by (unfold in_unsigned; lia). reflexivity. }
  destruct (Z.eqb_spec (Z.abs u) 0) as [Hu0|Hu0].
  - assert (u = 0) by lia. subst u.
    assert (EV : V = l) by (unfold V; lia).
    assert (Em : m = Z.abs l).
    { unfold m. change (0 <? 0) with false. cbn [andb]. now rewrite EV. }
    destruct (Z.eqb_spec l (- 2 ^ 127)) as [Emin|Hne]; cbn [negb].
    + apply Hfin; [|now rewrite EV|lia].
      rewrite Hu0, Em, Emin. reflexivity.
    + apply Hfin; [|now rewrite EV|lia].
      rewrite Habs by assumption. rewrite Hwu by lia. lia.
  - destruct (Z.ltb_spec u 0) as [Hneg|Hpos].
    + assert (HV : V < 0) by (unfold V; lia).
      assert (EV : (V <? 0) = true) by (apply Z.ltb_lt; exact HV).
      destruct (Z.eqb_spec l (- 2 ^ 127)) as [Emin|Hne]; cbn [negb andb].
      * assert (Em : m = (Z.abs u - 1) * 2 ^ 128 + 2 ^ 127).
        { unfold m. destruct (Z.ltb_spec u 0); [|lia].
          destruct (Z.eqb_spec l (- 2 ^ 127)); [|lia].
          cbn [andb]. unfold V. lia. }
        destruct (Z.ltb_spec l 0); [|lia].
        rewrite (wrap_unsigned_id 64 (Z.abs u - 1))
          by (unfold in_unsigned; lia).
        apply Hfin; [|now rewrite EV|lia].
        rewrite Em, Hwn by lia. lia.
      * assert (Em : m = Z.abs V).
        { unfold m. destruct (Z.eqb_spec l (- 2 ^ 127)); [lia|].
          now rewrite andb_false_r. }
        destruct (Z.ltb_spec (- l) 0).
        -- rewrite (wrap_unsigned_id 64 (Z.abs u - 1))
             by (unfold in_unsigned; lia).
           apply Hfin; [|now rewrite EV|lia].
           rewrite Em, Hwn by lia. unfold V. lia.
        -- apply Hfin; [|now rewrite EV|lia].
           rewrite Em, Hwu by lia. unfold V. lia.
    + assert (HV : 0 < V) by (unfold V; lia).
      assert (EV : (V <? 0) = false) by (apply Z.ltb_ge; lia).
      assert (Em : m = V).
      { unfold m. destruct (Z.ltb_spec u 0); [lia|]. cbn [andb]. lia. }
      cbn [andb].
      destruct (Z.ltb_spec l 0).
      * rewrite (wrap_unsigned_id 64 (Z.abs u - 1))
          by (unfold in_unsigned; lia).
        apply Hfin; [|now rewrite EV|unfold V in *; lia].
        rewrite Em, Hwn by lia. unfold V. lia.
      * apply Hfin; [|now rewrite EV|unfold V in *; lia].
        rewrite Em, Hwu by lia. unfold V. lia.
Qed.

(** Read as the integer [V = sum_upper_ * 2^128 + sum_lower_], the state of
    the legacy aggregator gives [V] itself as its sum when [V] is a valid
    value and the overflow error otherwise.  Its average over [count] rows
    is [|V| / count] rounded half away from zero with the sign of [V], or
    the overflow error when that is out of range; a zero count is a
    division by zero.  In the one state where [sum_upper_] is negative and
    [sum_lower_] is the least 128-bit integer, the magnitude divided is
    [|V| - 2^128]. *)
Theorem Aggregator_GetSum_GetAverage (a : Aggregator.t) (count : Z) :
  Aggregator.wf a -> - 2 ^ 63 < Aggregator.sum_upper_ a ->
  0 < count < 2 ^ 64 ->
  let V := Aggregator.sum_upper_ a * 2 ^ 128 + Aggregator.sum_lower_ a in
  let m := if (Aggregator.sum_upper_ a <? 0)
              && (Aggregator.sum_lower_ a =? - 2 ^ 127)
           then Z.abs V - 2 ^ 128 else Z.abs V in
  let q := (m + count / 2) / count in
  Aggregator.GetSum a
  = (if Z.abs V <=? kNumericMax then Ok (FromPacked V)
     else Error "numeric overflow: SUM")
  /\ Aggregator.GetAverage a 0 = Error "division by zero: AVG"
  /\ (q <= kNumericMax ->
      Aggregator.GetAverage a count
      = Ok (FromPacked (if V <? 0 then - q else q)))
  /\ (kNumericMax < q ->
      Aggregator.GetAverage a count = Error "numeric overflow: AVG").
Proof.
  intros [Hl Hu] Hu' Hc V m q. destruct a as [l u].
  cbn [Aggregator.sum_lower_ Aggregator.sum_upper_] in *.
  unfold in_signed in Hl, Hu.
  change (128 - 1) with 127 in Hl. change (64 - 1) with 63 in Hu.
  destruct (Aggregator_GetAverage_eq l u count Hl ltac:(lia) Hc)
    as [Hm Havg].
  fold V m in Hm, Havg. fold q in Havg.
  assert (Hq0 : 0 <= q).
  { unfold q. apply Z.div_pos; [|lia].
    assert (0 <= count / 2) by (apply Z.div_pos; lia). lia. }
  assert (Hq1 : q < 2 ^ 192).
  { unfold q. apply Z.div_lt_upper_bound; [lia|].
    assert (count / 2 < 2 ^ 63) by euclid. nia. }
  split; [|split; [reflexivity|split]].
  - unfold Aggregator.GetSum.
    cbn [Aggregator.sum_lower_ Aggregator.sum_upper_].
    assert (Hmax : kNumericMax < 2 ^ 127) by (unfold kNumericMax; lia).
    destruct (Z.eqb_spec u 0) as [->|Hnz]; cbn [negb].
    + assert (EV : V = l) by (unfold V; lia). rewrite EV.
      destruct (Z.leb_spec (Z.abs l) kNumericMax).
      * rewrite FromPackedInt_valid; [reflexivity|].
        unfold is_valid, kNumericMin. cbn [as_packed_int]. lia.
      * rewrite FromPackedInt_invalid; [reflexivity|].
        unfold is_valid, kNumericMin. cbn [as_packed_int]. lia.
    + destruct (Z.leb_spec (Z.abs V) kNumericMax); [|reflexivity].
      unfold V in *. lia.
  - intros Hle. rewrite Havg.
    rewrite FromFixedUint_ok by lia. reflexivity.
  - intros Hgt. rewrite Havg.
    rewrite FromFixedUint_overflow by lia. reflexivity.
Qed.

Lemma Aggregator_GetSum_GetAverage_witness :
  (Aggregator.wf (Aggregator.mk (- 2 ^ 127) 1) /\ - 2 ^ 63 < 1
   /\ 0 < 4 < 2 ^ 64)
  /\ Aggregator.GetSum (Aggregator.mk (- 2 ^ 127) 1)
     = Error "numeric overflow: SUM"
  /\ Aggregator.GetAverage (Aggregator.mk (- 2 ^ 127) 1) 4
     = Ok (FromPacked (2 ^ 125)).
Proof.
  assert (Ha : Aggregator.wf (Aggregator.mk (- 2 ^ 127) 1))
    by closed_bounds.
  assert (Hu : - 2 ^ 63 < Aggregator.sum_upper_ (Aggregator.mk (- 2 ^ 127) 1))
    by closed_bounds.
  assert (Hc : 0 < 4 < 2 ^ 64) by lia.
  destruct (Aggregator_GetSum_GetAverage _ 4 Ha Hu Hc) as (Hs & _ & Hq & _).
  split; [exact (conj Ha (conj Hu Hc))|].
  split; [exact Hs|]. apply Hq. closed_bounds.
Defined.

(** ** Accumulating and merging *)

Lemma wrap_signed_sub_add bits s p :
  0 < bits -> in_signed bits s ->
  wrap_signed bits (wrap_signed bits (s + p) - p) = s
  /\ wrap_signed bits (wrap_signed bits (s - p) + p) = s.
Proof.
  intros Hb Hs. split.
  - replace (wrap_signed bits (s + p) - p)
      with (wrap_signed bits (s + p) + - p) by lia.
    rewrite wrap_signed_add_l.
    replace (s + p + - p) with s by lia. now apply wrap_signed_id.
  - rewrite wrap_signed_add_l.
    replace (s - p + p) with s by lia. now apply wrap_signed_id.
Qed.

Lemma wrap_signed_add_assoc bits a b c :
  wrap_signed bits (a + wrap_signed bits (b + c))
  = wrap_signed bits (wrap_signed bits (a + b) + c).
Proof.
  rewrite wrap_signed_add_l, wrap_signed_add_r. f_equal. lia.
Qed.

Lemma wrap_signed_add_zero bits a b :
  wrap_signed bits (a + wrap_signed bits (0 + b)) = wrap_signed bits (a + b).
Proof. rewrite wrap_signed_add_r. f_equal. Qed.

Lemma wrap_signed_add_0_r bits a :
  0 < bits -> in_signed bits a -> wrap_signed bits (a + 0) = a.
Proof. intros. rewrite Z.add_0_r. now apply wrap_signed_id. Qed.

Lemma in_signed_0 bits : 0 < bits -> in_signed bits 0.
Proof.
  intros Hb. unfold in_signed.
  assert (0 < 2 ^ (bits - 1)) by (apply Z.pow_pos_nonneg; lia). lia.
Qed.

(** Accumulating a list from a state is merging the state with what the
    list accumulates from the empty state, for any accumulator whose [add]
    is a merge and whose merge is associative. *)
Lemma fold_add_merge {T V} (wf : T -> Prop) (merge : T -> T -> T)
  (add : T -> V -> T) (empty : T) :
  (forall u, wf u -> merge u empty = u) ->
  (forall u w z, merge u (merge w z) = merge (merge u w) z) ->
  (forall u v, add u v = merge u (add empty v)) ->
  (forall u v, wf (add u v)) -> wf empty ->
  forall l u, wf u ->
    fold_left add l u = merge u (fold_left add l empty)
    /\ wf (fold_left add l u).
Proof.
  intros Hunit Hassoc Hadd Hwf Hwf0.
  induction l as [|p l IH]; intros u Hu.
  - cbn [fold_left]. split; [symmetry; now apply Hunit|exact Hu].
  - cbn [fold_left].
    destruct (IH (add u p) (Hwf u p)) as [E1 W1].
    destruct (IH (add empty p) (Hwf empty p)) as [E2 _].
    split; [|exact W1].
    rewrite E1, E2, Hassoc, <- Hadd. reflexivity.
Qed.

Lemma fold_add_app {T V} (wf : T -> Prop) (merge : T -> T -> T)
  (add : T -> V -> T) (empty : T) :
  (forall u, wf u -> merge u empty = u) ->
  (forall u w z, merge u (merge w z) = merge (merge u w) z) ->
  (forall u v, add u v = merge u (add empty v)) ->
  (forall u v, wf (add u v)) -> wf empty ->
  forall l l',
    fold_left add (l ++ l') empty
    = merge (fold_left add l empty) (fold_left add l' empty).
Proof.
  intros Hunit Hassoc Hadd Hwf Hwf0 l l'.
  rewrite fold_left_app.
  destruct (fold_add_merge wf merge add empty Hunit Hassoc Hadd Hwf Hwf0
              l empty Hwf0) as [_ W].
  exact (proj1 (fold_add_merge wf merge add empty Hunit Hassoc Hadd Hwf Hwf0
                  l' _ W)).
Qed.

Lemma VarianceAggregator_MergeWith_assoc u w z :
  VarianceAggregator.MergeWith u (VarianceAggregator.MergeWith w z)
  = VarianceAggregator.MergeWith (VarianceAggregator.MergeWith u w) z.
Proof.
  unfold VarianceAggregator.MergeWith.
  cbn [VarianceAggregator.sum_ VarianceAggregator.sum_square_].
  f_equal; apply wrap_signed_add_assoc.
Qed.

Lemma VarianceAggregator_Add_merge u v :
  VarianceAggregator.Add u v
  = VarianceAggregator.MergeWith u
      (VarianceAggregator.Add (VarianceAggregator.mk 0 0) v).
Proof.
  unfold VarianceAggregator.MergeWith, VarianceAggregator.Add.
  cbn [VarianceAggregator.sum_ VarianceAggregator.sum_square_].
  f_equal; symmetry; apply wrap_signed_add_zero.
Qed.

Lemma VarianceAggregator_MergeWith_empty u :
  VarianceAggregator.wf u ->
  VarianceAggregator.MergeWith u (VarianceAggregator.mk 0 0) = u.
Proof.
  intros [H1 H2]. destruct u as [s q].
  unfold VarianceAggregator.MergeWith.
  cbn [VarianceAggregator.sum_ VarianceAggregator.sum_square_] in *.
  f_equal; apply wrap_signed_add_0_r; (lia || assumption).
Qed.

Lemma VarianceAggregator_Add_wf u v :
  VarianceAggregator.wf (VarianceAggregator.Add u v).
Proof.
  split; cbn [VarianceAggregator.Add VarianceAggregator.sum_
              VarianceAggregator.sum_square_];
    apply wrap_signed_range; lia.
Qed.

(** [VarianceAggregator]: [MergeWith] is commutative and associative with
    the empty state as unit, adding a value is merging with the state that
    holds that value alone, and a list of values may be accumulated in
    parts and the parts merged. *)
Theorem VarianceAggregator_algebra
  (s a b c : VarianceAggregator.t) (x : NumericValue)
  (ps qs : list NumericValue) :
  VarianceAggregator.wf s ->
  let empty := VarianceAggregator.mk 0 0 in
  let add_all := fold_left VarianceAggregator.Add in
  VarianceAggregator.MergeWith s empty = s
  /\ VarianceAggregator.MergeWith a b = VarianceAggregator.MergeWith b a
  /\ VarianceAggregator.MergeWith a (VarianceAggregator.MergeWith b c)
     = VarianceAggregator.MergeWith (VarianceAggregator.MergeWith a b) c
  /\ VarianceAggregator.Add a x
     = VarianceAggregator.MergeWith a (VarianceAggregator.Add empty x)
  /\ add_all ps s = VarianceAggregator.MergeWith s (add_all ps empty)
  /\ add_all (ps ++ qs) empty
     = VarianceAggregator.MergeWith (add_all ps empty) (add_all qs empty).
Proof.
  intros Hs empty add_all.
  assert (Hw0 : VarianceAggregator.wf empty).
  { split; apply in_signed_0; lia. }
  split; [now apply VarianceAggregator_MergeWith_empty|].
  split.
  { unfold VarianceAggregator.MergeWith. f_equal; f_equal; lia. }
  split; [apply VarianceAggregator_MergeWith_assoc|].
  split; [apply VarianceAggregator_Add_merge|].
  split.
  - exact (proj1 (fold_add_merge VarianceAggregator.wf
                    VarianceAggregator.MergeWith VarianceAggregator.Add empty
                    VarianceAggregator_MergeWith_empty
                    VarianceAggregator_MergeWith_assoc
                    VarianceAggregator_Add_merge
                    VarianceAggregator_Add_wf Hw0 ps s Hs)).
  - exact (fold_add_app VarianceAggregator.wf
             VarianceAggregator.MergeWith VarianceAggregator.Add empty
             VarianceAggregator_MergeWith_empty
             VarianceAggregator_MergeWith_assoc
             VarianceAggregator_Add_merge
             VarianceAggregator_Add_wf Hw0 ps qs).
Qed.

Lemma VarianceAggregator_algebra_witness :
  VarianceAggregator.wf (VarianceAggregator.mk (2 ^ 191 - 1) 5)
  /\ fold_left VarianceAggregator.Add
       [FromPacked 3; FromPacked (-4)] (VarianceAggregator.mk (2 ^ 191 - 1) 5)
     = VarianceAggregator.MergeWith (VarianceAggregator.mk (2 ^ 191 - 1) 5)
         (fold_left VarianceAggregator.Add [FromPacked 3; FromPacked (-4)]
            (VarianceAggregator.mk 0 0)).
Proof.
  assert (Hs : VarianceAggregator.wf (VarianceAggregator.mk (2 ^ 191 - 1) 5))
    by closed_bounds.
  split; [exact Hs|].
  destruct (VarianceAggregator_algebra _
              (VarianceAggregator.mk 0 0) (VarianceAggregator.mk 0 0)
              (VarianceAggregator.mk 0 0) (FromPacked 0)
              [FromPacked 3; FromPacked (-4)] [] Hs)
    as (_ & _ & _ & _ & H & _).
  exact H.
Defined.

Lemma CovarianceAggregator_MergeWith_assoc u w z :
  CovarianceAggregator.MergeWith u (CovarianceAggregator.MergeWith w z)
  = CovarianceAggregator.MergeWith (CovarianceAggregator.MergeWith u w) z.
Proof.
  unfold CovarianceAggregator.MergeWith.
  cbn [CovarianceAggregator.sum_x_ CovarianceAggregator.sum_y_
       CovarianceAggregator.sum_product_].
  f_equal; apply wrap_signed_add_assoc.
Qed.

Lemma CovarianceAggregator_Add_merge u v w :
  CovarianceAggregator.Add u v w
  = CovarianceAggregator.MergeWith u
      (CovarianceAggregator.Add (CovarianceAggregator.mk 0 0 0) v w).
Proof.
  unfold CovarianceAggregator.MergeWith, CovarianceAggregator.Add.
  cbn [CovarianceAggregator.sum_x_ CovarianceAggregator.sum_y_
       CovarianceAggregator.sum_product_].
  f_equal; symmetry; apply wrap_signed_add_zero.
Qed.

Lemma CovarianceAggregator_MergeWith_empty u :
  CovarianceAggregator.wf u ->
  CovarianceAggregator.MergeWith u (CovarianceAggregator.mk 0 0 0) = u.
Proof.
  intros (H1 & H2 & H3). destruct u as [x y p].
  unfold CovarianceAggregator.MergeWith.
  cbn [CovarianceAggregator.sum_x_ CovarianceAggregator.sum_y_
       CovarianceAggregator.sum_product_] in *.
  f_equal; apply wrap_signed_add_0_r; (lia || assumption).
Qed.

Lemma CovarianceAggregator_Add_wf u v w :
  CovarianceAggregator.wf (CovarianceAggregator.Add u v w).
Proof.
  repeat split;
    cbn [CovarianceAggregator.Add CovarianceAggregator.sum_x_
         CovarianceAggregator.sum_y_ CovarianceAggregator.sum_product_];
    apply wrap_signed_range; lia.
Qed.

Lemma CovarianceAggregator_Subtract_Add s x y :
  CovarianceAggregator.wf s ->
  CovarianceAggregator.Subtract (CovarianceAggregator.Add s x y) x y = s
  /\ CovarianceAggregator.Add (CovarianceAggregator.Subtract s x y) x y = s.
Proof.
  intros (Hx & Hy & Hp). destruct s as [sx sy sp].
  unfold CovarianceAggregator.Subtract, CovarianceAggregator.Add.
  cbn [CovarianceAggregator.sum_x_ CovarianceAggregator.sum_y_
       CovarianceAggregator.sum_product_] in *.
  split; f_equal;
    solve [apply wrap_signed_sub_add; (lia || assumption)].
Qed.

(** [CovarianceAggregator]: [Subtract] undoes [Add] and [Add] undoes
    [Subtract] on every state within the field widths, wrap-around
    included; [MergeWith] is commutative and associative with the empty
    state as unit, adding a pair is merging with the state that holds that
    pair alone, and a list of pairs may be accumulated in parts and the
    parts merged. *)
Theorem CovarianceAggregator_algebra
  (s a b c : CovarianceAggregator.t) (x y : NumericValue)
  (ps qs : list (NumericValue * NumericValue)) :
  CovarianceAggregator.wf s ->
  let empty := CovarianceAggregator.mk 0 0 0 in
  let add_all :=
    fold_left (fun t p => CovarianceAggregator.Add t (fst p) (snd p)) in
  CovarianceAggregator.Subtract (CovarianceAggregator.Add s x y) x y = s
  /\ CovarianceAggregator.Add (CovarianceAggregator.Subtract s x y) x y = s
  /\ CovarianceAggregator.MergeWith s empty = s
  /\ CovarianceAggregator.MergeWith a b = CovarianceAggregator.MergeWith b a
  /\ CovarianceAggregator.MergeWith a (CovarianceAggregator.MergeWith b c)
     = CovarianceAggregator.MergeWith (CovarianceAggregator.MergeWith a b) c
  /\ add_all ps s = CovarianceAggregator.MergeWith s (add_all ps empty)
  /\ add_all (ps ++ qs) empty
     = CovarianceAggregator.MergeWith (add_all ps empty) (add_all qs empty).
Proof.
  intros Hs empty add_all.
  assert (Hw0 : CovarianceAggregator.wf empty).
  { repeat split; apply in_signed_0; lia. }
  destruct (CovarianceAggregator_Subtract_Add s x y Hs) as [E1 E2].
  split; [exact E1|]. split; [exact E2|].
  split; [now apply CovarianceAggregator_MergeWith_empty|].
  split.
  { unfold CovarianceAggregator.MergeWith. f_equal; f_equal; lia. }
  split; [apply CovarianceAggregator_MergeWith_assoc|].
  split.
  - exact (proj1 (fold_add_merge CovarianceAggregator.wf
                    CovarianceAggregator.MergeWith
                    (fun t p => CovarianceAggregator.Add t (fst p) (snd p))
                    empty
                    CovarianceAggregator_MergeWith_empty
                    CovarianceAggregator_MergeWith_assoc
                    (fun u p => CovarianceAggregator_Add_merge u _ _)
                    (fun u p => CovarianceAggregator_Add_wf u _ _)
                    Hw0 ps s Hs)).
  - exact (fold_add_app CovarianceAggregator.wf
             CovarianceAggregator.MergeWith
             (fun t p => CovarianceAggregator.Add t (fst p) (snd p))
             empty
             CovarianceAggregator_MergeWith_empty
             CovarianceAggregator_MergeWith_assoc
             (fun u p => CovarianceAggregator_Add_merge u _ _)
             (fun u p => CovarianceAggregator_Add_wf u _ _)
             Hw0 ps qs).
Qed.

Lemma CovarianceAggregator_algebra_witness :
  CovarianceAggregator.wf (CovarianceAggregator.mk (2 ^ 191 - 1) 7 (- 2 ^ 319))
  /\ CovarianceAggregator.Subtract
       (CovarianceAggregator.Add
          (CovarianceAggregator.mk (2 ^ 191 - 1) 7 (- 2 ^ 319))
          (FromPacked 5) (FromPacked (-3)))
       (FromPacked 5) (FromPacked (-3))
     = CovarianceAggregator.mk (2 ^ 191 - 1) 7 (- 2 ^ 319).
Proof.
  assert (Hs : CovarianceAggregator.wf
                 (CovarianceAggregator.mk (2 ^ 191 - 1) 7 (- 2 ^ 319)))
    by closed_bounds.
  split; [exact Hs|].
  exact (proj1 (CovarianceAggregator_algebra _
                  (CovarianceAggregator.mk 0 0 0)
                  (CovarianceAggregator.mk 0 0 0)
                  (CovarianceAggregator.mk 0 0 0)
                  (FromPacked 5) (FromPacked (-3)) [] [] Hs)).
Defined.

Lemma CorrelationAggregator_MergeWith_assoc u w z :
  CorrelationAggregator.MergeWith u (CorrelationAggregator.MergeWith w z)
  = CorrelationAggregator.MergeWith (CorrelationAggregator.MergeWith u w) z.
Proof.
  unfold CorrelationAggregator.MergeWith.
  cbn [CorrelationAggregator.cov_agg_ CorrelationAggregator.sum_square_x_
       CorrelationAggregator.sum_square_y_].
  f_equal; solve [apply CovarianceAggregator_MergeWith_assoc
                 |apply wrap_signed_add_assoc].
Qed.

Lemma CorrelationAggregator_Add_merge u v w :
  CorrelationAggregator.Add u v w
  = CorrelationAggregator.MergeWith u
      (CorrelationAggregator.Add
         (CorrelationAggregator.mk (CovarianceAggregator.mk 0 0 0) 0 0) v w).
Proof.
  unfold CorrelationAggregator.MergeWith, CorrelationAggregator.Add.
  cbn [CorrelationAggregator.cov_agg_ CorrelationAggregator.sum_square_x_
       CorrelationAggregator.sum_square_y_].
  f_equal; solve [apply CovarianceAggregator_Add_merge
                 |symmetry; apply wrap_signed_add_zero].
Qed.

Lemma CorrelationAggregator_MergeWith_empty u :
  CorrelationAggregator.wf u ->
  CorrelationAggregator.MergeWith u
    (CorrelationAggregator.mk (CovarianceAggregator.mk 0 0 0) 0 0) = u.
Proof.
  intros (H1 & H2 & H3). destruct u as [cv sx sy].
  unfold CorrelationAggregator.MergeWith.
  cbn [CorrelationAggregator.cov_agg_ CorrelationAggregator.sum_square_x_
       CorrelationAggregator.sum_square_y_] in *.
  f_equal;
    solve [now apply CovarianceAggregator_MergeWith_empty
          |apply wrap_signed_add_0_r; (lia || assumption)].
Qed.

Lemma CorrelationAggregator_Add_wf u v w :
  CorrelationAggregator.wf (CorrelationAggregator.Add u v w).
Proof.
  split; [apply CovarianceAggregator_Add_wf|].
  split;
    cbn [CorrelationAggregator.Add CorrelationAggregator.sum_square_x_
         CorrelationAggregator.sum_square_y_];
    apply wrap_signed_range; lia.
Qed.

(** [CorrelationAggregator]: [Subtract] undoes [Add] and [Add] undoes
    [Subtract] on every state within the field widths, wrap-around
    included; [MergeWith] is commutative and associative with the empty
    state as unit, and a list of pairs may be accumulated in parts and the
    parts merged. *)
Theorem CorrelationAggregator_algebra
  (s a b c : CorrelationAggregator.t) (x y : NumericValue)
  (ps qs : list (NumericValue * NumericValue)) :
  CorrelationAggregator.wf s ->
  let empty :=
    CorrelationAggregator.mk (CovarianceAggregator.mk 0 0 0) 0 0 in
  let add_all :=
    fold_left (fun t p => CorrelationAggregator.Add t (fst p) (snd p)) in
  CorrelationAggregator.Subtract (CorrelationAggregator.Add s x y) x y = s
  /\ CorrelationAggregator.Add (CorrelationAggregator.Subtract s x y) x y = s
  /\ CorrelationAggregator.MergeWith s empty = s
  /\ CorrelationAggregator.MergeWith a b = CorrelationAggregator.MergeWith b a
  /\ CorrelationAggregator.MergeWith a (CorrelationAggregator.MergeWith b c)
     = CorrelationAggregator.MergeWith (CorrelationAggregator.MergeWith a b) c
  /\ add_all ps s = CorrelationAggregator.MergeWith s (add_all ps empty)
  /\ add_all (ps ++ qs) empty
     = CorrelationAggregator.MergeWith (add_all ps empty) (add_all qs empty).
Proof.
  intros Hs empty add_all.
  assert (Hw0 : CorrelationAggregator.wf empty).
  { repeat split; apply in_signed_0; lia. }
  split; [|split].
  - destruct Hs as (Hc & Hx & Hy). destruct s as [cv sx sy].
    unfold CorrelationAggregator.Subtract, CorrelationAggregator.Add.
    cbn [CorrelationAggregator.cov_agg_ CorrelationAggregator.sum_square_x_
         CorrelationAggregator.sum_square_y_] in *.
    f_equal;
      solve [apply CovarianceAggregator_Subtract_Add; assumption
            |apply wrap_signed_sub_add; (lia || assumption)].
  - destruct Hs as (Hc & Hx & Hy). destruct s as [cv sx sy].
    unfold CorrelationAggregator.Subtract, CorrelationAggregator.Add.
    cbn [CorrelationAggregator.cov_agg_ CorrelationAggregator.sum_square_x_
         CorrelationAggregator.sum_square_y_] in *.
    f_equal;
      solve [apply CovarianceAggregator_Subtract_Add; assumption
            |apply wrap_signed_sub_add; (lia || assumption)].
  - split; [now apply CorrelationAggregator_MergeWith_empty|].
    split.
    { unfold CorrelationAggregator.MergeWith,
        CovarianceAggregator.MergeWith.
      f_equal; [f_equal|..]; f_equal; lia. }
    split; [apply CorrelationAggregator_MergeWith_assoc|].
    split.
    + exact (proj1 (fold_add_merge CorrelationAggregator.wf
                      CorrelationAggregator.MergeWith
                      (fun t p => CorrelationAggregator.Add t (fst p) (snd p))
                      empty
                      CorrelationAggregator_MergeWith_empty
                      CorrelationAggregator_MergeWith_assoc
                      (fun u p => CorrelationAggregator_Add_merge u _ _)
                      (fun u p => CorrelationAggregator_Add_wf u _ _)
                      Hw0 ps s Hs)).
    + exact (fold_add_app CorrelationAggregator.wf
               CorrelationAggregator.MergeWith
               (fun t p => CorrelationAggregator.Add t (fst p) (snd p))
               empty
               CorrelationAggregator_MergeWith_empty
               CorrelationAggregator_MergeWith_assoc
               (fun u p => CorrelationAggregator_Add_merge u _ _)
               (fun u p => CorrelationAggregator_Add_wf u _ _)
               Hw0 ps qs).
Qed.

Lemma CorrelationAggregator_algebra_witness :
  CorrelationAggregator.wf
    (CorrelationAggregator.mk
       (CovarianceAggregator.mk (2 ^ 191 - 1) 7 (- 2 ^ 319)) (2 ^ 319 - 1) 0)
  /\ CorrelationAggregator.Subtract
       (CorrelationAggregator.Add
          (CorrelationAggregator.mk
             (CovarianceAggregator.mk (2 ^ 191 - 1) 7 (- 2 ^ 319))
             (2 ^ 319 - 1) 0)
          (FromPacked 5) (FromPacked (-3)))
       (FromPacked 5) (FromPacked (-3))
     = CorrelationAggregator.mk
         (CovarianceAggregator.mk (2 ^ 191 - 1) 7 (- 2 ^ 319)) (2 ^ 319 - 1) 0.
Proof.
  assert (Hs : CorrelationAggregator.wf
                 (CorrelationAggregator.mk
                    (CovarianceAggregator.mk (2 ^ 191 - 1) 7 (- 2 ^ 319))
                    (2 ^ 319 - 1) 0)) by closed_bounds.
  split; [exact Hs|].
  exact (proj1 (CorrelationAggregator_algebra _
                  (CorrelationAggregator.mk (CovarianceAggregator.mk 0 0 0) 0 0)
                  (CorrelationAggregator.mk (CovarianceAggregator.mk 0 0 0) 0 0)
                  (CorrelationAggregator.mk (CovarianceAggregator.mk 0 0 0) 0 0)
                  (FromPacked 5) (FromPacked (-3)) [] [] Hs)).
Defined.

(** ** What the parser returns *)

Lemma FromFixedUint_Ok_valid a neg v :
  FromFixedUint a neg = Ok v -> is_valid v.
Proof.
  unfold FromFixedUint. destruct (a <? 2 ^ 128); [|discriminate].
  cbv zeta. set (u := wrap_unsigned 128 a).
  assert (Hr : 0 <= u < 2 ^ 128)
    by (unfold u, wrap_unsigned; apply Z.mod_pos_bound; lia).
  clearbody u.
  destruct (Z.leb_spec u kNumericMax) as [Hle|]; [|discriminate].
  intros H. assert (E : v = FromPacked
                              (wrap_signed 128
                                 (if neg then wrap_unsigned 128 (- u) else u)))
    by congruence.
  subst v. unfold is_valid, kNumericMin. cbn [as_packed_int].
  unfold kNumericMax in *.
  destruct neg.
  - replace (wrap_signed 128 (wrap_unsigned 128 (- u))) with (- u); [lia|].
    unfold wrap_signed, wrap_unsigned. change (128 - 1) with 127. euclid.
  - rewrite wrap_signed_id; [lia|lia|]. unfold in_signed.
    change (128 - 1) with 127. lia.
Qed.

Lemma forallb_zero_digit s :
  forallb (fun c => Ascii.eqb c "0"%char) s = true ->
  forallb ascii_isdigit s = true.
Proof.
  induction s as [|c s IH]; [reflexivity|].
  cbn [forallb]. intros H. apply andb_true_iff in H. destruct H as [Hc Hs].
  apply Ascii.eqb_eq in Hc. subst c. rewrite (IH Hs). reflexivity.
Qed.

(** What [ParseNumber] accepts in the strict mode it accepts in the
    rounding mode, with the same result. *)
Lemma ParseNumber_strict_lenient bits I F exp a :
  ParseNumber bits I F exp true = Some a ->
  ParseNumber bits I F exp false = Some a.
Proof.
  unfold ParseNumber.
  match goal with
  | |- match ?st with _ => _ end = _ -> _ => destruct st as [[[[o r] i] f]|]
  end; [|discriminate].
  destruct (forallb (fun c => Ascii.eqb c "0"%char) i) eqn:Hi;
    [|discriminate].
  destruct (forallb (fun c => Ascii.eqb c "0"%char) f) eqn:Hf;
    [|discriminate].
  cbn [andb]. rewrite (forallb_zero_digit i Hi), (forallb_zero_digit f Hf).
  cbn [andb]. tauto.
Qed.

(** [FromString] and [FromStringStrict] return either a valid value or the
    invalid-value error that quotes the whole input, and never anything
    else; whatever the strict parser accepts the rounding parser accepts
    with the same value. *)
Theorem FromString_result (str : string) (strict : bool) (v : NumericValue) :
  ((exists r, FromStringInternal str strict = Ok r /\ is_valid r)
   \/ FromStringInternal str strict
      = Error ("Invalid NUMERIC value: " ++ str))
  /\ (FromStringStrict str = Ok v -> FromString str = Ok v).
Proof.
  unfold FromStringStrict, FromString, FromStringInternal.
  destruct (SplitENotationParts (list_ascii_of_string str)) as [parts|];
    [|split; [right; reflexivity|discriminate]].
  destruct (ParseExponent (exp_part parts) kMaxFractionalDigits) as [exp|];
    [|split; [right; reflexivity|discriminate]].
  split.
  - destruct (ParseNumber 128 (int_part parts) (fract_part parts) exp strict)
      as [a|]; [|right; reflexivity].
    destruct (FromFixedUint a (negative parts)) as [r|msg] eqn:E;
      [|right; reflexivity].
    left. exists r. split; [reflexivity|].
    exact (FromFixedUint_Ok_valid _ _ _ E).
  - destruct (ParseNumber 128 (int_part parts) (fract_part parts) exp true)
      as [a|] eqn:E; [|discriminate].
    rewrite (ParseNumber_strict_lenient _ _ _ _ _ E). tauto.
Qed.

Lemma FromString_result_witness :
  FromStringStrict "-1.5e2" = Ok (NumericValue_of_int (-150))
  /\ FromString "-1.5e2" = Ok (NumericValue_of_int (-150))
  /\ FromStringStrict "0.0000000015"
     = Error "Invalid NUMERIC value: 0.0000000015"
  /\ FromString "0.0000000015" = Ok (FromPacked 2).
Proof.
  assert (Hs : FromStringStrict "-1.5e2" = Ok (NumericValue_of_int (-150)))
    by (vm_compute; reflexivity).
  split; [exact Hs|].
  split; [exact (proj2 (FromString_result "-1.5e2" true _) Hs)|].
  split; vm_compute; reflexivity.
Defined.

(** ** Exact sums and the statistics built on them *)

(** The sum of a list of integers. *)
Lemma sum_bounds (xs : list Z) M :
  0 <= M -> Forall (fun x => Z.abs x <= M) xs ->
  Z.abs (fold_right Z.add 0 xs) <= Z.of_nat (List.length xs) * M
  /\ 0 <= fold_right Z.add 0 (map (fun x => x * x) xs)
       <= Z.of_nat (List.length xs) * (M * M).
Proof.
  intros HM. induction 1 as [|x xs Hx _ IH]; [cbn; lia|].
  cbn [fold_right map List.length].
  assert (Hsq : 0 <= x * x <= M * M).
  { split; [apply Z.square_nonneg|].
    rewrite <- Z.abs_square. apply Z.mul_le_mono_nonneg; lia. }
  assert (0 <= M * M) by (apply Z.mul_nonneg_nonneg; lia).
  lia.
Qed.

(** Cauchy-Schwarz for one list: [n * sum x^2 - (sum x)^2 >= 0]. *)
Lemma variance_numerator_nonneg (xs : list Z) :
  let n := Z.of_nat (List.length xs) in
  let S := fold_right Z.add 0 xs in
  let Q := fold_right Z.add 0 (map (fun x => x * x) xs) in
  0 <= n * Q - S * S /\ forall t, 0 <= Q - 2 * S * t + n * (t * t).
Proof.
  induction xs as [|x xs IH]; [cbn; split; [lia|intros; lia]|].
  cbn [fold_right map List.length]. cbv zeta in *.
  destruct IH as [IH1 IH2].
  set (n := Z.of_nat (List.length xs)) in *.
  set (S := fold_right Z.add 0 xs) in *.
  set (Q := fold_right Z.add 0 (map (fun x => x * x) xs)) in *.
  replace (Z.of_nat (Datatypes.S (List.length xs))) with (n + 1) by lia.
  split.
  - specialize (IH2 x).
    replace ((n + 1) * (x * x + Q) - (x + S) * (x + S))
      with ((n * Q - S * S) + (Q - 2 * S * x + n * (x * x))) by ring.
    lia.
  - intros t. specialize (IH2 t).
    replace (x * x + Q - 2 * (x + S) * t + (n + 1) * (t * t))
      with ((Q - 2 * S * t + n * (t * t)) + (x - t) * (x - t)) by ring.
    pose proof (Z.square_nonneg (x - t)). lia.
Qed.

(** What a [VarianceAggregator] holds after accumulating a list. *)
Lemma VarianceAggregator_add_all vs s q k :
  Forall is_valid vs ->
  0 <= k -> k + Z.of_nat (List.length vs) <= 2 ^ 64 ->
  Z.abs s <= k * 10 ^ 38 -> 0 <= q <= k * (10 ^ 38 * 10 ^ 38) ->
  fold_left VarianceAggregator.Add vs (VarianceAggregator.mk s q)
  = VarianceAggregator.mk
      (s + fold_right Z.add 0 (map as_packed_int vs))
      (q + fold_right Z.add 0
             (map (fun x => x * x) (map as_packed_int vs))).
Proof.
  intros Hv. revert s q k.
  induction Hv as [|v vs Hv _ IH]; intros s q k Hk Hn Hs Hq.
  - cbn [fold_left map fold_right]. f_equal; lia.
  - cbn [fold_left map fold_right List.length] in *.
    pose proof (is_valid_bounds v Hv) as Hb.
    set (x := as_packed_int v) in *.
    assert (Hsq : 0 <= x * x <= 10 ^ 38 * 10 ^ 38).
    { split; [apply Z.square_nonneg|].
      rewrite <- Z.abs_square. apply Z.mul_le_mono_nonneg; lia. }
    unfold VarianceAggregator.Add at 2.
    cbn [VarianceAggregator.sum_ VarianceAggregator.sum_square_].
    fold x. unfold ExtendAndMultiply.
    rewrite (wrap_signed_id 192), (wrap_signed_id 320);
      [|lia|unfold in_signed; change (320 - 1) with 319; lia
       |lia|unfold in_signed; change (192 - 1) with 191; lia].
    rewrite (IH _ _ (k + 1)) by lia.
    f_equal; lia.
Qed.

Lemma GetScaledCovarianceNumerator_exact sx sy sp n B :
  0 <= n <= 2 ^ 64 -> 0 <= B -> B * B <= 2 ^ 253 ->
  Z.abs sx <= n * B -> Z.abs sy <= n * B -> Z.abs sp <= n * (B * B) ->
  GetScaledCovarianceNumerator sx sy sp n = sp * n - sx * sy.
Proof.
  intros Hn HB HBB Hx Hy Hp. unfold GetScaledCovarianceNumerator.
  cbv zeta. unfold ExtendAndMultiply.
  assert (H0 : 0 <= B * B) by (apply Z.mul_nonneg_nonneg; lia).
  assert (Hspn : Z.abs (sp * n) <= 2 ^ 64 * 2 ^ 253 * 2 ^ 64).
  { rewrite Z.abs_mul, (Z.abs_eq n) by lia.
    apply Z.mul_le_mono_nonneg; try lia.
    apply Z.le_trans with (n * (B * B)); [exact Hp|].
    apply Z.mul_le_mono_nonneg; lia. }
  assert (HnB : n * B <= 2 ^ 64 * B) by (apply Z.mul_le_mono_nonneg_r; lia).
  assert (Hxy : Z.abs (sx * sy) <= 2 ^ 64 * 2 ^ 64 * 2 ^ 253).
  { rewrite Z.abs_mul.
    apply Z.le_trans with ((2 ^ 64 * B) * (2 ^ 64 * B)).
    - apply Z.mul_le_mono_nonneg; lia.
    - replace (2 ^ 64 * B * (2 ^ 64 * B)) with (2 ^ 64 * 2 ^ 64 * (B * B))
        by ring.
      apply Z.mul_le_mono_nonneg_l; lia. }
  rewrite (wrap_signed_id 384 (sp * n))
    by (try lia; unfold in_signed; change (384 - 1) with 383; lia).
  apply wrap_signed_id; [lia|]. unfold in_signed.
  change (384 - 1) with 383. lia.
Qed.

(** After accumulating a list of [n] valid values, with [0 < n < 2^64], a
    [VarianceAggregator] holds their sum and the sum of their squares
    exactly; the quotient [GetPopulationVariance] forms has the numerator
    [n * sum x^2 - (sum x)^2], which is never negative, over
    [n^2 * scale^2], and [GetSamplingVariance] has the same numerator over
    [n * (n - 1) * scale^2]; the first is [nullopt] for a zero count and the
    second for a count of at most one. *)
Theorem VarianceAggregator_exact (vs : list NumericValue) :
  Forall is_valid vs ->
  let n := Z.of_nat (List.length vs) in
  0 < n < 2 ^ 64 ->
  let a := fold_left VarianceAggregator.Add vs (VarianceAggregator.mk 0 0) in
  let S := fold_right Z.add 0 (map as_packed_int vs) in
  let Q := fold_right Z.add 0
             (map (fun x => x * x) (map as_packed_int vs)) in
  a = VarianceAggregator.mk S Q
  /\ 0 <= n * Q - S * S
  /\ VarianceAggregator.GetPopulationVariance a n
     = Some (n * Q - S * S, n * n * 10 ^ 18)
  /\ VarianceAggregator.GetSamplingVariance a n
     = (if n =? 1 then None else Some (n * Q - S * S, n * (n - 1) * 10 ^ 18))
  /\ VarianceAggregator.GetPopulationVariance a 0 = None
  /\ VarianceAggregator.GetSamplingVariance a 0 = None.
Proof.
  intros Hv n Hn a S Q.
  assert (Ea : a = VarianceAggregator.mk S Q).
  { unfold a. rewrite (VarianceAggregator_add_all vs 0 0 0) by (assumption || lia).
    reflexivity. }
  assert (Hb : Forall (fun x => Z.abs x <= 10 ^ 38) (map as_packed_int vs)).
  { apply Forall_map. eapply Forall_impl; [|exact Hv].
    intros v Hvv. pose proof (is_valid_bounds v Hvv). cbv beta. lia. }
  destruct (sum_bounds _ (10 ^ 38) ltac:(lia) Hb) as [HS HQ].
  rewrite length_map in HS, HQ. fold n S in HS. fold n Q in HQ.
  destruct (variance_numerator_nonneg (map as_packed_int vs)) as [Hnn _].
  rewrite length_map in Hnn. fold n S Q in Hnn.
  assert (Hnum : GetScaledCovarianceNumerator S S Q n = n * Q - S * S).
  { rewrite (GetScaledCovarianceNumerator_exact S S Q n (10 ^ 38));
      lia. }
  assert (Hnn' : 0 < n * n < 2 ^ 128) by nia.
  assert (Hden : forall off, 0 <= off <= 1 ->
            wrap_unsigned 192
              (wrap_unsigned 192 (n * wrap_unsigned 64 (n - off))
               * wrap_unsigned 64 (kScalingFactor * kScalingFactor))
            = n * (n - off) * 10 ^ 18).
  { intros off Hoff.
    rewrite (wrap_unsigned_id 64 (n - off)) by (unfold in_unsigned; lia).
    change (wrap_unsigned 64 (kScalingFactor * kScalingFactor)) with (10 ^ 18).
    assert (0 <= n * (n - off) < 2 ^ 128) by nia.
    rewrite (wrap_unsigned_id 192 (n * (n - off)))
      by (unfold in_unsigned; lia).
    apply wrap_unsigned_id. unfold in_unsigned. lia. }
  split; [exact Ea|]. split; [exact Hnn|].
  rewrite Ea.
  unfold VarianceAggregator.GetPopulationVariance,
    VarianceAggregator.GetSamplingVariance, GetCovariance.
  cbn [VarianceAggregator.sum_ VarianceAggregator.sum_square_].
  cbv zeta. rewrite Hnum.
  rewrite !Z.gtb_ltb.
  destruct (Z.ltb_spec 0 n); [|lia].
  split.
  { rewrite (Hden 0) by lia. rewrite Z.sub_0_r. reflexivity. }
  split; [|split; reflexivity].
  destruct (Z.eqb_spec n 1) as [E1|N1].
  - rewrite E1. reflexivity.
  - destruct (Z.ltb_spec 1 n); [|lia].
    rewrite (Hden 1) by lia. reflexivity.
Qed.

Lemma VarianceAggregator_exact_witness :
  (Forall is_valid [FromPacked 3; FromPacked (-4)] /\ 0 < 2 < 2 ^ 64)
  /\ fold_left VarianceAggregator.Add [FromPacked 3; FromPacked (-4)]
       (VarianceAggregator.mk 0 0)
     = VarianceAggregator.mk (-1) 25
  /\ VarianceAggregator.GetPopulationVariance
       (fold_left VarianceAggregator.Add [FromPacked 3; FromPacked (-4)]
          (VarianceAggregator.mk 0 0)) 2
     = Some (49, 4 * 10 ^ 18).
Proof.
  assert (Hv : Forall is_valid [FromPacked 3; FromPacked (-4)]).
  { repeat (apply Forall_cons; [closed_bounds|]). apply Forall_nil. }
  assert (Hn : 0 < 2 < 2 ^ 64) by lia.
  destruct (VarianceAggregator_exact _ Hv Hn) as (Ha & _ & Hp & _).
  split; [exact (conj Hv Hn)|]. split; [exact Ha|exact Hp].
Defined.

Lemma quadratic_form_discriminant A B C :
  (forall p q, 0 <= p * p * A + 2 * p * q * C + q * q * B) ->
  0 <= A /\ 0 <= B /\ C * C <= A * B.
Proof.
  intros H.
  assert (HA : 0 <= A) by (specialize (H 1 0); lia).
  assert (HB : 0 <= B) by (specialize (H 0 1); lia).
  split; [exact HA|]. split; [exact HB|].
  destruct (Z.eq_dec A 0) as [EA|NA].
  - subst A. destruct (Z.eq_dec C 0) as [->|NC]; [lia|].
    exfalso. specialize (H (- C * (B + 1)) 1).
    assert (1 <= C * C) by nia.
    assert (B + 1 <= C * C * (B + 1)) by nia.
    nia.
  - specialize (H (- C) A).
    assert (E : - C * - C * A + 2 * - C * A * C + A * A * B
                = A * (A * B - C * C)) by ring.
    rewrite E in H. nia.
Qed.

(** Cauchy-Schwarz for the centred sums of a list of pairs. *)
Lemma covariance_numerators (l : list (Z * Z)) :
  let n := Z.of_nat (List.length l) in
  let Sx := fold_right Z.add 0 (map fst l) in
  let Sy := fold_right Z.add 0 (map snd l) in
  let Qx := fold_right Z.add 0 (map (fun p => fst p * fst p) l) in
  let Qy := fold_right Z.add 0 (map (fun p => snd p * snd p) l) in
  let P := fold_right Z.add 0 (map (fun p => fst p * snd p) l) in
  0 <= n * Qx - Sx * Sx /\ 0 <= n * Qy - Sy * Sy
  /\ (n * P - Sx * Sy) * (n * P - Sx * Sy)
     <= (n * Qx - Sx * Sx) * (n * Qy - Sy * Sy).
Proof.
  cbv zeta. apply quadratic_form_discriminant.
  assert (H : (forall p q t,
             0 <= (p * p * fold_right Z.add 0 (map (fun p => fst p * fst p) l)
                   + 2 * p * q
                     * fold_right Z.add 0 (map (fun p => fst p * snd p) l)
                   + q * q
                     * fold_right Z.add 0 (map (fun p => snd p * snd p) l))
                  - 2 * (p * fold_right Z.add 0 (map fst l)
                         + q * fold_right Z.add 0 (map snd l)) * t
                  + Z.of_nat (List.length l) * (t * t))
          /\ (forall p q,
             0 <= p * p
                  * (Z.of_nat (List.length l)
                     * fold_right Z.add 0 (map (fun p => fst p * fst p) l)
                     - fold_right Z.add 0 (map fst l)
                       * fold_right Z.add 0 (map fst l))
                  + 2 * p * q
                    * (Z.of_nat (List.length l)
                       * fold_right Z.add 0 (map (fun p => fst p * snd p) l)
                       - fold_right Z.add 0 (map fst l)
                         * fold_right Z.add 0 (map snd l))
                  + q * q
                    * (Z.of_nat (List.length l)
                       * fold_right Z.add 0 (map (fun p => snd p * snd p) l)
                       - fold_right Z.add 0 (map snd l)
                         * fold_right Z.add 0 (map snd l)))).
  { induction l as [|[x y] l IH].
    - cbn [fold_right map List.length]. change (Z.of_nat 0) with 0.
      split; intros; lia.
    - cbn [fold_right map List.length fst snd].
      destruct IH as [IH1 IH2].
      set (n := Z.of_nat (List.length l)) in *.
      set (Sx := fold_right Z.add 0 (map fst l)) in *.
      set (Sy := fold_right Z.add 0 (map snd l)) in *.
      set (Qx := fold_right Z.add 0 (map (fun p => fst p * fst p) l)) in *.
      set (Qy := fold_right Z.add 0 (map (fun p => snd p * snd p) l)) in *.
      set (P := fold_right Z.add 0 (map (fun p => fst p * snd p) l)) in *.
      replace (Z.of_nat (S (List.length l))) with (n + 1) by lia.
      split.
      + intros p q t. specialize (IH1 p q t).
        pose proof (Z.square_nonneg (p * x + q * y - t)) as Hsq.
        replace (p * p * (x * x + Qx) + 2 * p * q * (x * y + P)
                 + q * q * (y * y + Qy)
                 - 2 * (p * (x + Sx) + q * (y + Sy)) * t
                 + (n + 1) * (t * t))
          with ((p * p * Qx + 2 * p * q * P + q * q * Qy
                 - 2 * (p * Sx + q * Sy) * t + n * (t * t))
                + (p * x + q * y - t) * (p * x + q * y - t)) by ring.
        lia.
      + intros p q. specialize (IH2 p q).
        specialize (IH1 p q (p * x + q * y)).
        replace (p * p * ((n + 1) * (x * x + Qx) - (x + Sx) * (x + Sx))
                 + 2 * p * q * ((n + 1) * (x * y + P) - (x + Sx) * (y + Sy))
                 + q * q * ((n + 1) * (y * y + Qy) - (y + Sy) * (y + Sy)))
          with ((p * p * (n * Qx - Sx * Sx) + 2 * p * q * (n * P - Sx * Sy)
                 + q * q * (n * Qy - Sy * Sy))
                + (p * p * Qx + 2 * p * q * P + q * q * Qy
                   - 2 * (p * Sx + q * Sy) * (p * x + q * y)
                   + n * ((p * x + q * y) * (p * x + q * y)))) by ring.
        lia. }
  exact (proj2 H).
Qed.

Lemma pair_sum_bounds (l : list (Z * Z)) M :
  0 <= M -> Forall (fun p => Z.abs (fst p) <= M /\ Z.abs (snd p) <= M) l ->
  let n := Z.of_nat (List.length l) in
  Z.abs (fold_right Z.add 0 (map fst l)) <= n * M
  /\ Z.abs (fold_right Z.add 0 (map snd l)) <= n * M
  /\ Z.abs (fold_right Z.add 0 (map (fun p => fst p * snd p) l))
     <= n * (M * M)
  /\ 0 <= fold_right Z.add 0 (map (fun p => fst p * fst p) l) <= n * (M * M)
  /\ 0 <= fold_right Z.add 0 (map (fun p => snd p * snd p) l) <= n * (M * M).
Proof.
  intros HM. induction 1 as [|[x y] l [Hx Hy] _ IH];
    [cbn [fold_right map List.length]; change (Z.of_nat 0) with 0; lia|].
  cbn [fold_right map List.length fst snd] in *. cbv zeta in IH.
  assert (Hxx : 0 <= x * x <= M * M).
  { split; [apply Z.square_nonneg|].
    rewrite <- Z.abs_square. apply Z.mul_le_mono_nonneg; lia. }
  assert (Hyy : 0 <= y * y <= M * M).
  { split; [apply Z.square_nonneg|].
    rewrite <- Z.abs_square. apply Z.mul_le_mono_nonneg; lia. }
  assert (Hxy : Z.abs (x * y) <= M * M).
  { rewrite Z.abs_mul. apply Z.mul_le_mono_nonneg; lia. }
  assert (0 <= M * M) by (apply Z.mul_nonneg_nonneg; lia).
  lia.
Qed.

(** What a [CorrelationAggregator] holds after accumulating a list. *)
Lemma CorrelationAggregator_add_all ps sx sy sp qx qy k :
  Forall (fun p => is_valid (fst p) /\ is_valid (snd p)) ps ->
  0 <= k -> k + Z.of_nat (List.length ps) <= 2 ^ 64 ->
  Z.abs sx <= k * 10 ^ 38 -> Z.abs sy <= k * 10 ^ 38 ->
  Z.abs sp <= k * (10 ^ 38 * 10 ^ 38) ->
  0 <= qx <= k * (10 ^ 38 * 10 ^ 38) ->
  0 <= qy <= k * (10 ^ 38 * 10 ^ 38) ->
  let l := map (fun p => (as_packed_int (fst p), as_packed_int (snd p))) ps in
  fold_left (fun t p => CorrelationAggregator.Add t (fst p) (snd p)) ps
    (CorrelationAggregator.mk (CovarianceAggregator.mk sx sy sp) qx qy)
  = CorrelationAggregator.mk
      (CovarianceAggregator.mk
         (sx + fold_right Z.add 0 (map fst l))
         (sy + fold_right Z.add 0 (map snd l))
         (sp + fold_right Z.add 0 (map (fun p => fst p * snd p) l)))
      (qx + fold_right Z.add 0 (map (fun p => fst p * fst p) l))
      (qy + fold_right Z.add 0 (map (fun p => snd p * snd p) l)).
Proof.
  intros Hv. revert sx sy sp qx qy k. cbv zeta.
  induction Hv as [|[vx vy] ps [Hvx Hvy] _ IH];
    intros sx sy sp qx qy k Hk Hn Hsx Hsy Hsp Hqx Hqy.
  - cbn [fold_left map fold_right]. f_equal; [f_equal|..]; lia.
  - cbn [fold_left map fold_right List.length fst snd] in *.
    pose proof (is_valid_bounds vx Hvx) as Hbx.
    pose proof (is_valid_bounds vy Hvy) as Hby.
    set (x := as_packed_int vx) in *. set (y := as_packed_int vy) in *.
    assert (Hxx : 0 <= x * x <= 10 ^ 38 * 10 ^ 38).
    { split; [apply Z.square_nonneg|].
      rewrite <- Z.abs_square. apply Z.mul_le_mono_nonneg; lia. }
    assert (Hyy : 0 <= y * y <= 10 ^ 38 * 10 ^ 38).
    { split; [apply Z.square_nonneg|].
      rewrite <- Z.abs_square. apply Z.mul_le_mono_nonneg; lia. }
    assert (Hxy : Z.abs (x * y) <= 10 ^ 38 * 10 ^ 38).
    { rewrite Z.abs_mul. apply Z.mul_le_mono_nonneg; lia. }
    unfold CorrelationAggregator.Add at 2, CovarianceAggregator.Add.
    cbn [CorrelationAggregator.cov_agg_ CorrelationAggregator.sum_square_x_
         CorrelationAggregator.sum_square_y_ CovarianceAggregator.sum_x_
         CovarianceAggregator.sum_y_ CovarianceAggregator.sum_product_].
    fold x y. unfold ExtendAndMultiply.
    rewrite !(wrap_signed_id 192)
      by (try lia; unfold in_signed; change (192 - 1) with 191; lia).
    rewrite !(wrap_signed_id 320)
      by (try lia; unfold in_signed; change (320 - 1) with 319; lia).
    rewrite (IH _ _ _ _ _ (k + 1)) by lia.
    f_equal; [f_equal|..]; lia.
Qed.

(** After accumulating [n] pairs of valid values, with [1 < n < 2^64], a
    [CorrelationAggregator] holds the five sums exactly, and the integers
    [GetCorrelation] hands to the floating-point step are exact: the
    numerator is [n * sum xy - sum x * sum y], the value under the square
    root is the product of the two variance numerators, which is not
    negative, and the square of the numerator never exceeds it, so that the
    quotient lies between -1 and 1.  Below two rows the result is
    [nullopt]. *)
Theorem CorrelationAggregator_exact (ps : list (NumericValue * NumericValue)) :
  Forall (fun p => is_valid (fst p) /\ is_valid (snd p)) ps ->
  let n := Z.of_nat (List.length ps) in
  1 < n < 2 ^ 64 ->
  let a :=
    fold_left (fun t p => CorrelationAggregator.Add t (fst p) (snd p)) ps
      (CorrelationAggregator.mk (CovarianceAggregator.mk 0 0 0) 0 0) in
  let l := map (fun p => (as_packed_int (fst p), as_packed_int (snd p))) ps in
  let Sx := fold_right Z.add 0 (map fst l) in
  let Sy := fold_right Z.add 0 (map snd l) in
  let Qx := fold_right Z.add 0 (map (fun p => fst p * fst p) l) in
  let Qy := fold_right Z.add 0 (map (fun p => snd p * snd p) l) in
  let P := fold_right Z.add 0 (map (fun p => fst p * snd p) l) in
  a = CorrelationAggregator.mk (CovarianceAggregator.mk Sx Sy P) Qx Qy
  /\ CorrelationAggregator.GetCorrelation a n
     = Some (n * P - Sx * Sy, (n * Qx - Sx * Sx) * (n * Qy - Sy * Sy))
  /\ 0 <= n * Qx - Sx * Sx /\ 0 <= n * Qy - Sy * Sy
  /\ (n * P - Sx * Sy) * (n * P - Sx * Sy)
     <= (n * Qx - Sx * Sx) * (n * Qy - Sy * Sy)
  /\ CorrelationAggregator.GetCorrelation a 1 = None
  /\ CovarianceAggregator.GetPopulationCovariance
       (CorrelationAggregator.cov_agg_ a) n
     = Some (n * P - Sx * Sy, n * n * 10 ^ 18).
Proof.
  intros Hv n Hn a l Sx Sy Qx Qy P.
  assert (Ea : a = CorrelationAggregator.mk
                     (CovarianceAggregator.mk Sx Sy P) Qx Qy).
  { unfold a.
    rewrite (CorrelationAggregator_add_all ps 0 0 0 0 0 0)
      by (assumption || lia).
    reflexivity. }
  assert (Hb : Forall (fun p => Z.abs (fst p) <= 10 ^ 38
                                /\ Z.abs (snd p) <= 10 ^ 38) l).
  { unfold l. apply Forall_map. eapply Forall_impl; [|exact Hv].
    intros [vx vy] [Hx Hy]. cbn [fst snd] in *.
    pose proof (is_valid_bounds vx Hx). pose proof (is_valid_bounds vy Hy).
    lia. }
  destruct (pair_sum_bounds l (10 ^ 38) ltac:(lia) Hb)
    as (HSx & HSy & HP & HQx & HQy).
  assert (El : Z.of_nat (List.length l) = n)
    by (unfold l; now rewrite length_map).
  rewrite El in HSx, HSy, HP, HQx, HQy.
  fold Sx in HSx. fold Sy in HSy. fold P in HP. fold Qx in HQx.
  fold Qy in HQy.
  destruct (covariance_numerators l) as (HA & HB & HC).
  rewrite El in HA, HB, HC. fold Sx Sy Qx Qy P in HA, HB, HC.
  assert (Hnum : forall sx sy sp,
            Z.abs sx <= n * 10 ^ 38 -> Z.abs sy <= n * 10 ^ 38 ->
            Z.abs sp <= n * (10 ^ 38 * 10 ^ 38) ->
            GetScaledCovarianceNumerator sx sy sp n = n * sp - sx * sy).
  { intros sx sy sp H1 H2 H3.
    rewrite (GetScaledCovarianceNumerator_exact sx sy sp n (10 ^ 38)); lia. }
  split; [exact Ea|].
  rewrite Ea.
  unfold CorrelationAggregator.GetCorrelation,
    CovarianceAggregator.GetPopulationCovariance, GetCovariance.
  cbn [CorrelationAggregator.cov_agg_ CorrelationAggregator.sum_square_x_
       CorrelationAggregator.sum_square_y_ CovarianceAggregator.sum_x_
       CovarianceAggregator.sum_y_ CovarianceAggregator.sum_product_].
  cbv zeta. unfold ExtendAndMultiply.
  rewrite !Hnum by lia.
  rewrite !Z.gtb_ltb.
  destruct (Z.ltb_spec 1 n); [|lia].
  destruct (Z.ltb_spec 0 n); [|lia].
  split; [reflexivity|].
  split; [exact HA|]. split; [exact HB|]. split; [exact HC|].
  split; [reflexivity|].
  do 2 f_equal.
  rewrite Z.sub_0_r.
  rewrite (wrap_unsigned_id 64 n) by (unfold in_unsigned; lia).
  change (wrap_unsigned 64 (kScalingFactor * kScalingFactor)) with (10 ^ 18).
  assert (0 <= n * n < 2 ^ 128) by nia.
  rewrite (wrap_unsigned_id 192 (n * n)) by (unfold in_unsigned; lia).
  apply wrap_unsigned_id. unfold in_unsigned. lia.
Qed.

Lemma CorrelationAggregator_exact_witness :
  (Forall (fun p => is_valid (fst p) /\ is_valid (snd p))
     [(FromPacked 1, FromPacked 2); (FromPacked 3, FromPacked 5)]
   /\ 1 < 2 < 2 ^ 64)
  /\ CorrelationAggregator.GetCorrelation
       (fold_left (fun t p => CorrelationAggregator.Add t (fst p) (snd p))
          [(FromPacked 1, FromPacked 2); (FromPacked 3, FromPacked 5)]
          (CorrelationAggregator.mk (CovarianceAggregator.mk 0 0 0) 0 0)) 2
     = Some (6, 36).
Proof.
  assert (Hv : Forall (fun p => is_valid (fst p) /\ is_valid (snd p))
                 [(FromPacked 1, FromPacked 2); (FromPacked 3, FromPacked 5)]).
  { repeat (apply Forall_cons; [split; closed_bounds|]). apply Forall_nil. }
  assert (Hn : 1 < 2 < 2 ^ 64) by lia.
  destruct (CorrelationAggregator_exact _ Hv Hn) as (_ & Hc & _).
  split; [exact (conj Hv Hn)|exact Hc].
Defined.

(** ** The number [ParseNumber] computes *)

Lemma decimal_value_lt s :
  Forall is_digit s -> decimal_value s < 10 ^ Z.of_nat (List.length s).
Proof.
  induction s as [|c s IH] using rev_ind; intros H; [cbn; lia|].
  apply Forall_app in H. destruct H as [Hs Hc]. apply Forall_inv in Hc.
  rewrite decimal_value_app, length_app. cbn [List.length].
  pose proof (digit_value_range c Hc).
  change (decimal_value [c]) with (0 * 10 + digit_value c).
  specialize (IH Hs).
  replace (Z.of_nat (List.length s + 1)) with (Z.succ (Z.of_nat (List.length s)))
    by lia.
  rewrite Z.pow_succ_r by lia. change (Z.of_nat 1) with 1.
  rewrite Z.pow_1_r. lia.
Qed.

Lemma decimal_value_cons c s :
  decimal_value (c :: s)
  = digit_value c * 10 ^ Z.of_nat (List.length s) + decimal_value s.
Proof.
  change (c :: s) with ([c] ++ s). rewrite decimal_value_app.
  change (decimal_value [c]) with (0 * 10 + digit_value c). lia.
Qed.

Lemma char_ge_5_digit c :
  is_digit c -> char_ge_5 c = (5 <=? digit_value c).
Proof.
  unfold is_digit.
  destruct c as [[] [] [] [] [] [] [] []]; intros H; try discriminate H;
    reflexivity.
Qed.

(** Dropping the digits [b :: B] and rounding up on [b >= '5'] rounds half
    up. *)
Lemma round_digit A b B :
  Forall is_digit (b :: B) ->
  (decimal_value (A ++ b :: B) + 10 ^ Z.of_nat (List.length (b :: B)) / 2)
  / 10 ^ Z.of_nat (List.length (b :: B))
  = decimal_value A + (if char_ge_5 b then 1 else 0).
Proof.
  intros H. inversion H as [|? ? Hb HB]; subst.
  rewrite decimal_value_app, decimal_value_cons, (char_ge_5_digit b Hb).
  cbn [List.length].
  replace (Z.of_nat (S (List.length B))) with (Z.succ (Z.of_nat (List.length B)))
    by lia.
  rewrite Z.pow_succ_r by lia.
  pose proof (decimal_value_nonneg B HB) as H0.
  pose proof (decimal_value_lt B HB) as H1.
  pose proof (digit_value_range b Hb) as Hd.
  set (P := 10 ^ Z.of_nat (List.length B)) in *.
  set (r := decimal_value B) in *. set (d := digit_value b) in *.
  assert (HP : 0 < P) by lia.
  replace (10 * P / 2) with (5 * P) by euclid.
  replace (decimal_value A * (10 * P) + (d * P + r) + 5 * P)
    with (decimal_value A * (10 * P) + (d * P + r + 5 * P)) by lia.
  rewrite Z.div_add_l by lia. f_equal.
  destruct (Z.leb_spec 5 d).
  - symmetry. apply Z.div_unique with (r := d * P + r + 5 * P - 10 * P).
    + left. nia.
    + lia.
  - apply Z.div_small. nia.
Qed.

Lemma forallb_zero_decimal_value s :
  Forall is_digit s ->
  forallb (fun c => Ascii.eqb c "0"%char) s = (decimal_value s =? 0).
Proof.
  induction 1 as [|c s Hc Hs IH]; [reflexivity|].
  cbn [forallb]. rewrite decimal_value_cons, IH.
  pose proof (decimal_value_nonneg s Hs) as H0.
  pose proof (digit_value_range c Hc) as Hd.
  assert (HP : 0 < 10 ^ Z.of_nat (List.length s))
    by (apply pow10_pos; lia).
  destruct (Ascii.eqb_spec c "0"%char) as [->|Hne].
  - change (digit_value "0") with 0. cbn [andb]. reflexivity.
  - assert (digit_value c <> 0)
      by (intros E; apply Hne; now apply digit_value_zero).
    cbn [andb]. symmetry. apply Z.eqb_neq. nia.
Qed.

Lemma iter_MultiplyOverflow bits n x :
  0 <= x -> x * 10 ^ (19 * Z.of_N n) < 2 ^ bits ->
  N.iter n (fun o => match o with
                     | Some x => FixedUint_MultiplyOverflow bits x k1e19
                     | None => None
                     end) (Some x)
  = Some (x * 10 ^ (19 * Z.of_N n)).
Proof.
  intros Hx. induction n as [|n IH] using N.peano_ind; intros Hlt.
  - cbn [N.iter]. change (19 * Z.of_N 0) with 0. rewrite Z.pow_0_r.
    f_equal. lia.
  - rewrite N.iter_succ.
    assert (E : 10 ^ (19 * Z.of_N (N.succ n))
                = 10 ^ (19 * Z.of_N n) * 10 ^ 19).
    { rewrite <- Z.pow_add_r by lia. f_equal. lia. }
    rewrite E in *.
    assert (0 < 10 ^ (19 * Z.of_N n)) by (apply pow10_pos; lia).
    rewrite IH by nia.
    unfold FixedUint_MultiplyOverflow, k1e19.
    rewrite Z.mul_assoc in Hlt.
    destruct (Z.ltb_spec (x * 10 ^ (19 * Z.of_N n) * 10 ^ 19) (2 ^ bits));
      [|lia].
    f_equal. lia.
Qed.

Lemma forallb_zero_split X Y :
  Forall is_digit X -> Forall is_digit Y ->
  forallb (fun c => Ascii.eqb c "0"%char) X
  && forallb (fun c => Ascii.eqb c "0"%char) Y
  = (decimal_value (X ++ Y) =? 0).
Proof.
  intros HX HY. rewrite <- forallb_app.
  apply forallb_zero_decimal_value. apply Forall_app. now split.
Qed.

Lemma parse_digits bits s :
  s <> [] -> Forall is_digit s -> decimal_value s < 2 ^ bits ->
  FixedUint_ParseFromStringStrict bits s = Some (decimal_value s).
Proof.
  intros Hne Hd Hlt. unfold FixedUint_ParseFromStringStrict.
  destruct s as [|c s]; [contradiction|].
  rewrite forallb_is_digit by exact Hd.
  destruct (Z.ltb_spec (decimal_value (c :: s)) (2 ^ bits)); [reflexivity|lia].
Qed.

Lemma nth_hd_skipn {A} n (l : list A) d : nth n l d = hd d (skipn n l).
Proof.
  revert l. induction n as [|n IH]; intros [|x l]; cbn [nth skipn hd];
    try reflexivity. apply IH.
Qed.

Lemma ParseNumber_promote bits I F exp strict :
  I <> [] -> Forall is_digit I -> Forall is_digit F ->
  0 <= exp < Z.of_nat (List.length F) ->
  let A := I ++ firstn (Z.to_nat exp) F in
  let B := skipn (Z.to_nat exp) F in
  let R := decimal_value A + (if char_ge_5 (hd zero B) then 1 else 0) in
  R < 2 ^ bits ->
  ParseNumber bits I F exp strict
  = if strict && negb (decimal_value B =? 0) then None else Some R.
Proof.
  intros HI HdI HdF He A B R HR. unfold ParseNumber.
  rewrite Z.geb_leb. destruct (Z.leb_spec 0 exp); [|lia]. cbv zeta.
  destruct (Z.ltb_spec exp (Z.of_nat (List.length F))); [|lia].
  fold B.
  assert (HdA : Forall is_digit A).
  { apply Forall_app. split; [exact HdI|]. now apply Forall_firstn. }
  assert (HdB : Forall is_digit B) by now apply Forall_skipn.
  pose proof (decimal_value_nonneg A HdA) as HA0.
  assert (Hru : 0 <= (if char_ge_5 (hd zero B) then 1 else 0) <= 1)
    by (destruct (char_ge_5 (hd zero B)); lia).
  assert (Hparse : match I with
                   | [] => FixedUint_ParseFromStringStrict bits
                             (firstn (Z.to_nat exp) F)
                   | _ => FixedUint_ParseFromStringSegments bits I
                            [firstn (Z.to_nat exp) F]
                   end = Some (decimal_value A)).
  { destruct I as [|c I]; [contradiction|].
    unfold FixedUint_ParseFromStringSegments. cbn [List.concat].
    rewrite app_nil_r. apply parse_digits; [discriminate|exact HdA|].
    unfold R in HR. fold A. lia. }
  rewrite Hparse. rewrite Z.sub_diag.
  change (0 / 19) with 0. change (0 mod 19) with 0.
  cbn [Z.to_N N.iter]. change (0 =? 0) with true. cbv iota beta.
  rewrite nth_hd_skipn. fold B. cbn [forallb andb].
  rewrite (forallb_is_digit B HdB), (forallb_zero_decimal_value B HdB).
  unfold FixedUint_AddOverflow.
  destruct strict; cbn [andb negb].
  - destruct (Z.eqb_spec (decimal_value B) 0) as [E0|]; cbn [negb];
      [|reflexivity].
    assert (Hb : char_ge_5 (hd zero B) = false).
    { destruct B as [|b B']; [reflexivity|]. cbn [hd].
      inversion HdB as [|? ? Hb HB']; subst.
      rewrite (char_ge_5_digit b Hb).
      rewrite decimal_value_cons in E0.
      pose proof (decimal_value_nonneg B' HB').
      pose proof (digit_value_range b Hb).
      assert (0 < 10 ^ Z.of_nat (List.length B')) by (apply pow10_pos; lia).
      apply Z.leb_gt. nia. }
    unfold R. rewrite Hb. f_equal. lia.
  - unfold R. destruct (char_ge_5 (hd zero B)).
    + destruct (Z.ltb_spec (decimal_value A + 1) (2 ^ bits)); [reflexivity|].
      unfold R in HR. lia.
    + f_equal. lia.
Qed.

Lemma ParseNumber_scale bits I F exp strict :
  I <> [] -> Forall is_digit I -> Forall is_digit F ->
  Z.of_nat (List.length F) <= exp ->
  let R := decimal_value (I ++ F) * 10 ^ (exp - Z.of_nat (List.length F)) in
  R < 2 ^ bits ->
  ParseNumber bits I F exp strict = Some R.
Proof.
  intros HI HdI HdF He R HR. unfold ParseNumber.
  rewrite Z.geb_leb. destruct (Z.leb_spec 0 exp); [|lia]. cbv zeta.
  destruct (Z.ltb_spec exp (Z.of_nat (List.length F))); [lia|].
  rewrite Nat2Z.id, firstn_all, skipn_all.
  assert (Hd : Forall is_digit (I ++ F)) by (apply Forall_app; now split).
  pose proof (decimal_value_nonneg _ Hd) as Hnn.
  set (s := exp - Z.of_nat (List.length F)) in *.
  assert (Hs : 0 <= s) by (unfold s; lia).
  assert (Hp : 1 <= 10 ^ s) by (pose proof (pow10_pos s Hs); lia).
  set (D := decimal_value (I ++ F)) in *.
  assert (HD : D < 2 ^ bits) by (unfold R in HR; nia).
  assert (Hparse : match I with
                   | [] => FixedUint_ParseFromStringStrict bits F
                   | _ => FixedUint_ParseFromStringSegments bits I [F]
                   end = Some D).
  { destruct I as [|c I]; [contradiction|].
    unfold FixedUint_ParseFromStringSegments. cbn [List.concat].
    rewrite app_nil_r. apply parse_digits; [discriminate|exact Hd|exact HD]. }
  rewrite Hparse.
  pose proof (Z.div_mod s 19 ltac:(lia)) as Hdm.
  pose proof (Z.mod_pos_bound s 19 ltac:(lia)) as Hmb.
  assert (Hq : 0 <= s / 19) by (apply Z.div_pos; lia).
  assert (Epow : 10 ^ s = 10 ^ (19 * (s / 19)) * 10 ^ (s mod 19)).
  { rewrite <- Z.pow_add_r by lia. f_equal. exact Hdm. }
  assert (Hp1 : 0 < 10 ^ (19 * (s / 19))) by (apply pow10_pos; lia).
  assert (Hp2 : 0 < 10 ^ (s mod 19)) by (apply pow10_pos; lia).
  assert (Hmid : D * 10 ^ (19 * (s / 19)) <= R).
  { unfold R. rewrite Epow. nia. }
  rewrite iter_MultiplyOverflow; rewrite ?Z2N.id by lia; [|lia|lia].
  assert (Hmul : (if s mod 19 =? 0 then Some (D * 10 ^ (19 * (s / 19)))
                  else FixedUint_MultiplyOverflow bits
                         (D * 10 ^ (19 * (s / 19)))
                         (nth (Z.to_nat (s mod 19)) (PowersAsc 1 10 19) 0))
                 = Some R).
  { destruct (Z.eqb_spec (s mod 19) 0) as [E|_].
    - unfold R. rewrite Epow, E, Z.pow_0_r. f_equal. lia.
    - rewrite PowersAsc_nth by lia. unfold FixedUint_MultiplyOverflow.
      replace (D * 10 ^ (19 * (s / 19)) * 10 ^ (s mod 19)) with R
        by (unfold R; rewrite Epow; lia).
      destruct (Z.ltb_spec R (2 ^ bits)); [reflexivity | lia]. }
  rewrite Hmul. cbn [forallb andb]. now destruct strict.
Qed.

Lemma ParseNumber_demote bits I F exp strict :
  I <> [] -> Forall is_digit I -> Forall is_digit F ->
  - Z.of_nat (List.length I) <= exp < 0 ->
  let n := Z.to_nat (Z.of_nat (List.length I) + exp) in
  let A := firstn n I in
  let B := skipn n I ++ F in
  let R := decimal_value A + (if char_ge_5 (hd zero B) then 1 else 0) in
  R < 2 ^ bits ->
  ParseNumber bits I F exp strict
  = if strict && negb (decimal_value B =? 0) then None else Some R.
Proof.
  intros HI HdI HdF He n A B R HR. unfold ParseNumber.
  rewrite Z.geb_leb. destruct (Z.leb_spec 0 exp); [lia|]. cbv zeta.
  assert (Hlen : 0 < Z.of_nat (List.length I)).
  { destruct I; [contradiction|cbn [List.length]; lia]. }
  destruct (Z.eqb_spec (Z.of_nat (List.length I) + Z.of_nat (List.length F)) 0);
    [lia|].
  rewrite Z.geb_leb.
  destruct (Z.leb_spec (- Z.of_nat (List.length I)) exp); [|lia].
  fold n. fold A.
  assert (Hn : (n < List.length I)%nat) by (unfold n; lia).
  assert (HdA : Forall is_digit A) by now apply Forall_firstn.
  assert (HdS : Forall is_digit (skipn n I)) by now apply Forall_skipn.
  assert (HdB : Forall is_digit B) by (apply Forall_app; now split).
  pose proof (decimal_value_nonneg A HdA) as HA0.
  assert (Hru : 0 <= (if char_ge_5 (hd zero B) then 1 else 0) <= 1)
    by (destruct (char_ge_5 (hd zero B)); lia).
  assert (Hhd : nth n I zero = hd zero B).
  { rewrite nth_hd_skipn. unfold B.
    destruct (skipn n I) as [|b S'] eqn:ES; [|reflexivity].
    apply (f_equal (@List.length ascii)) in ES.
    rewrite length_skipn in ES. cbn [List.length] in ES. lia. }
  rewrite Hhd.
  assert (Hparse : (if Z.of_nat (List.length I) + exp =? 0 then Some 0
                    else FixedUint_ParseFromStringStrict bits A)
                   = Some (decimal_value A)).
  { destruct (Z.eqb_spec (Z.of_nat (List.length I) + exp) 0) as [E|E].
    - unfold A, n. rewrite E. reflexivity.
    - apply parse_digits; [|exact HdA|unfold R in HR; lia].
      unfold A. intros E0. apply (f_equal (@List.length ascii)) in E0.
      rewrite length_firstn in E0. cbn [List.length] in E0. lia. }
  rewrite Hparse. cbv iota beta.
  rewrite (forallb_is_digit _ HdS), (forallb_is_digit _ HdF).
  rewrite (forallb_zero_split _ _ HdS HdF). fold B.
  unfold FixedUint_AddOverflow.
  destruct strict; cbn [andb negb].
  - destruct (Z.eqb_spec (decimal_value B) 0) as [E0|]; cbn [negb];
      [|reflexivity].
    assert (Hb : char_ge_5 (hd zero B) = false).
    { destruct B as [|b B']; [reflexivity|]. cbn [hd].
      inversion HdB as [|? ? Hb HB']; subst.
      rewrite (char_ge_5_digit b Hb).
      rewrite decimal_value_cons in E0.
      pose proof (decimal_value_nonneg B' HB').
      pose proof (digit_value_range b Hb).
      assert (0 < 10 ^ Z.of_nat (List.length B')) by (apply pow10_pos; lia).
      apply Z.leb_gt. nia. }
    unfold R. rewrite Hb. f_equal. lia.
  - unfold R. destruct (char_ge_5 (hd zero B)).
    + destruct (Z.ltb_spec (decimal_value A + 1) (2 ^ bits)); [reflexivity|].
      unfold R in HR. lia.
    + f_equal. lia.
Qed.

Lemma ParseNumber_vanish bits I F exp strict :
  I <> [] -> Forall is_digit I -> Forall is_digit F ->
  exp < - Z.of_nat (List.length I) ->
  ParseNumber bits I F exp strict
  = if strict && negb (decimal_value (I ++ F) =? 0) then None else Some 0.
Proof.
  intros HI HdI HdF He. unfold ParseNumber.
  rewrite Z.geb_leb. destruct (Z.leb_spec 0 exp); [lia|]. cbv zeta.
  assert (Hlen : 0 < Z.of_nat (List.length I)).
  { destruct I; [contradiction|cbn [List.length]; lia]. }
  destruct (Z.eqb_spec (Z.of_nat (List.length I) + Z.of_nat (List.length F)) 0);
    [lia|].
  rewrite Z.geb_leb.
  destruct (Z.leb_spec (- Z.of_nat (List.length I)) exp); [lia|].
  cbv iota beta.
  rewrite (forallb_is_digit _ HdI), (forallb_is_digit _ HdF).
  rewrite (forallb_zero_split _ _ HdI HdF).
  destruct strict; cbn [andb negb]; [|reflexivity].
  destruct (decimal_value (I ++ F) =? 0); reflexivity.
Qed.

Lemma dropped_digits A B k :
  Forall is_digit B -> B <> [] -> k = Z.of_nat (List.length B) ->
  (decimal_value (A ++ B) + 10 ^ k / 2) / 10 ^ k
  = decimal_value A + (if char_ge_5 (hd zero B) then 1 else 0)
  /\ decimal_value (A ++ B) mod 10 ^ k = decimal_value B.
Proof.
  intros HdB HB ->. destruct B as [|b B']; [contradiction|]. cbn [hd].
  split; [now apply round_digit|].
  rewrite decimal_value_app.
  pose proof (decimal_value_nonneg _ HdB).
  pose proof (decimal_value_lt _ HdB).
  rewrite Z.add_comm, Z.mod_add by lia.
  apply Z.mod_small. lia.
Qed.

(** For digit strings [I] (not empty) and [F], the result of [ParseNumber]
    in the two modes. *)
Lemma ParseNumber_rounded bits (I F : list ascii) (exp : Z) :
  I <> [] -> Forall is_digit I -> Forall is_digit F ->
  let D := decimal_value (I ++ F) in
  let s := exp - Z.of_nat (List.length F) in
  let R := if 0 <=? s then D * 10 ^ s
           else (D + 10 ^ (- s) / 2) / 10 ^ (- s) in
  R < 2 ^ bits ->
  ParseNumber bits I F exp false = Some R
  /\ ParseNumber bits I F exp true
     = (if (0 <=? s) || (D mod 10 ^ (- s) =? 0) then Some R else None).
Proof.
  intros HI HdI HdF D s R HR.
  assert (Hd : Forall is_digit (I ++ F)) by (apply Forall_app; now split).
  pose proof (decimal_value_nonneg _ Hd) as HD0.
  pose proof (decimal_value_lt _ Hd) as HD1. fold D in HD0, HD1.
  rewrite length_app in HD1.
  assert (Hlen : 0 < Z.of_nat (List.length I)).
  { destruct I; [contradiction|cbn [List.length]; lia]. }
  unfold R in *. clear R.
  destruct (Z.leb_spec 0 s) as [Hs|Hs]; cbn [orb].
  - assert (E : forall strict,
               ParseNumber bits I F exp strict = Some (D * 10 ^ s)).
    { intros strict. apply ParseNumber_scale; try assumption.
      unfold s in Hs. lia. }
    split; apply E.
  - destruct (Z_lt_le_dec exp (- Z.of_nat (List.length I))) as [Hv|Hv];
      [|destruct (Z_lt_le_dec exp 0) as [Hneg|Hpos]].
    + assert (Hpow : 10 * 10 ^ Z.of_nat (List.length I + List.length F)
                     <= 10 ^ (- s)).
      { rewrite <- Z.pow_succ_r by lia. apply Z.pow_le_mono_r; lia. }
      assert (Hhalf : 0 <= 10 ^ (- s) / 2 /\ 10 ^ (- s) / 2 * 2 <= 10 ^ (- s)).
      { assert (0 < 10 ^ (- s)) by (apply pow10_pos; lia). euclid. }
      assert (ER : (D + 10 ^ (- s) / 2) / 10 ^ (- s) = 0)
        by (apply Z.div_small; lia).
      rewrite ER, (Z.mod_small D) by lia.
      rewrite !ParseNumber_vanish by assumption. fold D. cbn [andb negb].
      split; [reflexivity|]. now destruct (D =? 0).
    + set (n := Z.to_nat (Z.of_nat (List.length I) + exp)).
      assert (Hn : (n < List.length I)%nat) by (unfold n; lia).
      assert (EIF : I ++ F = firstn n I ++ (skipn n I ++ F)).
      { now rewrite app_assoc, firstn_skipn. }
      assert (HdB : Forall is_digit (skipn n I ++ F)).
      { apply Forall_app. split; [now apply Forall_skipn|exact HdF]. }
      assert (HB : skipn n I ++ F <> []).
      { intros E0. apply (f_equal (@List.length ascii)) in E0.
        rewrite length_app, length_skipn in E0. cbn [List.length] in E0.
        lia. }
      destruct (dropped_digits (firstn n I) (skipn n I ++ F) (- s) HdB HB)
        as [ER EM].
      { rewrite length_app, length_skipn. unfold s, n. lia. }
      unfold D in *. rewrite EIF in *. rewrite ER, EM in *.
      rewrite !ParseNumber_demote by (assumption || lia).
      fold n. cbn [andb negb]. split; [reflexivity|].
      now destruct (decimal_value (skipn n I ++ F) =? 0).
    + set (n := Z.to_nat exp).
      assert (EIF : I ++ F = (I ++ firstn n F) ++ skipn n F).
      { now rewrite <- app_assoc, firstn_skipn. }
      assert (HdB : Forall is_digit (skipn n F)) by now apply Forall_skipn.
      assert (HB : skipn n F <> []).
      { intros E0. apply (f_equal (@List.length ascii)) in E0.
        rewrite length_skipn in E0. cbn [List.length] in E0.
        unfold s, n in *. lia. }
      destruct (dropped_digits (I ++ firstn n F) (skipn n F) (- s) HdB HB)
        as [ER EM].
      { rewrite length_skipn. unfold s, n in *. lia. }
      unfold D in *. rewrite EIF in *. rewrite ER, EM in *.
      rewrite !ParseNumber_promote by (assumption || (unfold s in Hs; lia)).
      fold n. cbn [andb negb]. split; [reflexivity|].
      now destruct (decimal_value (skipn n F) =? 0).
Qed.


(** For digit strings [I] (not empty) and [F], [ParseNumber] computes
    [I.F * 10^exp] as an integer of the given width: exactly when no digit
    is dropped, and otherwise, in the rounding mode, the nearest integer
    with a tie going up, while the strict mode accepts only dropped digits
    that are all zeros. *)
Theorem ParseNumber_value (bits : Z) (I F : list ascii) (exp : Z) :
  I <> [] -> Forall is_digit I -> Forall is_digit F ->
  let D := decimal_value (I ++ F) in
  let s := exp - Z.of_nat (List.length F) in
  let R := if 0 <=? s then D * 10 ^ s
           else (D + 10 ^ (- s) / 2) / 10 ^ (- s) in
  R < 2 ^ bits ->
  ParseNumber bits I F exp false = Some R
  /\ ParseNumber bits I F exp true
     = (if (0 <=? s) || (D mod 10 ^ (- s) =? 0) then Some R else None)
  /\ (s < 0 ->
      2 * Z.abs (R * 10 ^ (- s) - D) <= 10 ^ (- s)
      /\ (D mod 10 ^ (- s) = 10 ^ (- s) / 2 ->
          R * 10 ^ (- s) = D + 10 ^ (- s) / 2)).
Proof.
  intros HI HdI HdF D s R HR.
  destruct (ParseNumber_rounded bits I F exp HI HdI HdF HR) as [Hl Hs].
  split; [exact Hl|]. split; [exact Hs|].
  intros Hneg. unfold R.
  destruct (Z.leb_spec 0 s); [lia|].
  assert (Hp : 10 <= 10 ^ (- s)).
  { change 10 with (10 ^ 1) at 1. apply Z.pow_le_mono_r; lia. }
  assert (Hev : 10 ^ (- s) = 2 * (10 ^ (- s) / 2)).
  { replace (- s) with (Z.succ (- s - 1)) by lia.
    rewrite Z.pow_succ_r by lia.
    replace (10 * 10 ^ (- s - 1)) with ((5 * 10 ^ (- s - 1)) * 2) by lia.
    rewrite Z.div_mul by lia. lia. }
  set (f := 10 ^ (- s)) in *. set (h := f / 2) in *.
  pose proof (Z.div_mod (D + h) f ltac:(lia)) as E1.
  pose proof (Z.mod_pos_bound (D + h) f ltac:(lia)) as B1.
  split; [lia|].
  intros Htie.
  pose proof (Z.div_mod D f ltac:(lia)) as E2.
  rewrite Htie in E2.
  assert (E3 : (D + h) / f = D / f + 1).
  { symmetry. apply Z.div_unique with (r := 0); lia. }
  rewrite E3. lia.
Qed.

Lemma ParseNumber_value_witness :
  (["1"; "2"]%char <> [] /\ Forall is_digit ["1"; "2"]%char
   /\ Forall is_digit ["3"; "4"; "5"]%char /\ 1235 < 2 ^ 128)
  /\ ParseNumber 128 ["1"; "2"]%char ["3"; "4"; "5"]%char 2 false = Some 1235
  /\ ParseNumber 128 ["1"; "2"]%char ["3"; "4"; "5"]%char 2 true = None.
Proof.
  assert (HI : ["1"; "2"]%char <> []) by discriminate.
  assert (HdI : Forall is_digit ["1"; "2"]%char)
    by (repeat constructor).
  assert (HdF : Forall is_digit ["3"; "4"; "5"]%char)
    by (repeat constructor).
  assert (HR : 1235 < 2 ^ 128) by lia.
  split; [exact (conj HI (conj HdI (conj HdF HR)))|].
  destruct (ParseNumber_value 128 _ _ 2 HI HdI HdF HR) as (Hl & Hs & _).
  exact (conj Hl Hs).
Defined.

Lemma split_at_last_hit p a x b :
  Forall (fun c => p c = false) b -> p x = true ->
  split_at_last p (a ++ x :: b) = (a, Some b).
Proof.
  intros Hb Hx. unfold split_at_last.
  rewrite rev_app_distr. cbn [rev]. rewrite <- app_assoc. cbn [app].
  rewrite split_at_first_hit; [|now apply Forall_rev|exact Hx].
  now rewrite !rev_involutive.
Qed.

Lemma FixedInt_ParseFromStringStrict_digit bits c r :
  is_digit c ->
  FixedInt_ParseFromStringStrict bits (c :: r)
  = match FixedUint_ParseFromStringStrict bits (c :: r) with
    | Some a => FixedInt_SetSignAndAbs bits false a
    | None => None
    end.
Proof.
  unfold is_digit.
  destruct c as [[] [] [] [] [] [] [] []]; intros H; try discriminate H;
    reflexivity.
Qed.

(** The decimal form of a 64-bit exponent is parsed back and the extra
    scale added. *)
Lemma ParseExponent_AppendToString e extra :
  - 2 ^ 63 <= e < 2 ^ 63 -> - 2 ^ 63 <= e + extra < 2 ^ 63 ->
  ParseExponent (FixedInt_AppendToString e []) extra = Some (e + extra).
Proof.
  intros He Hs.
  assert (Hparse : FixedInt_ParseFromStringStrict 64
                     (FixedInt_AppendToString e []) = Some e).
  { unfold FixedInt_AppendToString.
    destruct (Z.ltb_spec e 0) as [Hneg|Hpos].
    - rewrite FixedUint_AppendToString_eq. cbn [app].
      destruct (digits_spec (- e) ltac:(lia)) as (Hne & Hd & Hv & _).
      cbn [FixedInt_ParseFromStringStrict].
      rewrite parse_digits by (try assumption; rewrite Hv; lia).
      rewrite Hv. unfold FixedInt_SetSignAndAbs. change (64 - 1) with 63.
      destruct (Z.leb_spec (- e) (2 ^ 63)); [|lia]. f_equal. lia.
    - rewrite FixedUint_AppendToString_eq. cbn [app].
      destruct (digits_spec e Hpos) as (Hne & Hd & Hv & _).
      destruct (digits e) as [|c r] eqn:E; [contradiction|].
      rewrite FixedInt_ParseFromStringStrict_digit
        by now apply Forall_inv in Hd.
      rewrite parse_digits by (try assumption; rewrite Hv; lia).
      rewrite Hv. unfold FixedInt_SetSignAndAbs. change (64 - 1) with 63.
      destruct (Z.ltb_spec e (2 ^ 63)); [reflexivity|lia]. }
  unfold ParseExponent. rewrite Hparse.
  destruct (FixedInt_AppendToString e []) as [|c rest] eqn:E.
  - discriminate Hparse.
  - unfold FixedInt_AddOverflow. change (64 - 1) with 63.
    destruct (Z.leb_spec (- 2 ^ 63) (e + extra)); [|lia].
    destruct (Z.ltb_spec (e + extra) (2 ^ 63)); [reflexivity|lia].
Qed.

Lemma AppendToString_int64_shape e :
  exists X d,
    FixedInt_AppendToString e [] = X ++ [d] /\ is_digit d
    /\ Forall (fun c => is_exp_char c = false) (X ++ [d]).
Proof.
  unfold FixedInt_AppendToString.
  assert (Hd : forall n, 0 <= n ->
            exists X d, digits n = X ++ [d] /\ Forall is_digit (X ++ [d])).
  { intros n Hn. destruct (digits_spec n Hn) as (Hne & Hdig & _).
    destruct (exists_last Hne) as (X & d & E).
    exists X, d. rewrite <- E. now split. }
  destruct (Z.ltb_spec e 0).
  - rewrite FixedUint_AppendToString_eq. cbn [app].
    destruct (Hd (- e) ltac:(lia)) as (X & d & E & HF).
    exists ("-"%char :: X), d. rewrite E. split; [reflexivity|].
    split.
    + apply Forall_app in HF. destruct HF as [_ HF]. now apply Forall_inv in HF.
    + cbn [app]. constructor; [reflexivity|]. now apply Forall_digit_no_exp.
  - rewrite FixedUint_AppendToString_eq. cbn [app].
    destruct (Hd e ltac:(lia)) as (X & d & E & HF).
    exists X, d. rewrite E. split; [reflexivity|].
    split.
    + apply Forall_app in HF. destruct HF as [_ HF]. now apply Forall_inv in HF.
    + now apply Forall_digit_no_exp.
Qed.

(** A number in scientific notation splits into its sign, integer part,
    fractional part and exponent. *)
Lemma SplitENotationParts_scientific v I F x e :
  I <> [] -> Forall is_digit I -> Forall is_digit F ->
  is_exp_char x = true ->
  SplitENotationParts
    (sign_prefix v ++ I ++ with_point F ++ x :: FixedInt_AppendToString e [])
  = Some (mkENotationParts (v <? 0) I F (FixedInt_AppendToString e [])).
Proof.
  intros HI HdI HdF Hx. unfold SplitENotationParts.
  destruct (AppendToString_int64_shape e) as (X & d & EX & Hd & HnoE).
  rewrite EX.
  destruct I as [|c I]; [contradiction|].
  assert (Hc : is_digit c) by now apply Forall_inv in HdI.
  destruct (is_digit_not_special c Hc) as (Hsp & _ & _ & Hminus & Hplus).
  set (M := (c :: I) ++ with_point F).
  set (B := (c :: I) ++ with_point F ++ x :: X ++ [d]).
  assert (EB : B = M ++ x :: X ++ [d]).
  { unfold B, M. now rewrite <- app_assoc. }
  assert (Hskip : skip_space (sign_prefix v ++ B) = sign_prefix v ++ B).
  { unfold sign_prefix. destruct (v <? 0); cbn [app].
    - now apply skip_space_id.
    - unfold B. cbn [app]. now apply skip_space_id. }
  rewrite Hskip.
  assert (Htrim : rev (skip_space (rev (sign_prefix v ++ B)))
                  = sign_prefix v ++ B).
  { replace (sign_prefix v ++ B)
      with ((sign_prefix v ++ M ++ x :: X) ++ [d]).
    - apply skip_trailing_space_id. now apply is_digit_not_special.
    - rewrite EB. rewrite <- !app_assoc. reflexivity. }
  rewrite Htrim.
  assert (Hexp : split_at_last is_exp_char B = (M, Some (X ++ [d]))).
  { rewrite EB. now apply split_at_last_hit. }
  assert (Hpt : split_at_first is_point M
                = (c :: I, match F with [] => None | _ => Some F end)).
  { unfold M. destruct F as [|f F].
    - cbn [with_point]. rewrite app_nil_r.
      apply split_at_first_none. now apply Forall_digit_no_point.
    - cbn [with_point]. apply split_at_first_hit;
        [now apply Forall_digit_no_point | reflexivity]. }
  assert (Hne : X ++ [d] <> []) by (destruct X; discriminate).
  unfold sign_prefix. destruct (Z.ltb_spec v 0); cbn [app].
  - cbn [Ascii.eqb Bool.eqb orb andb]. rewrite Hexp, Hpt.
    destruct (X ++ [d]) as [|y Y]; [contradiction|]. now destruct F.
  - fold B. unfold B at 1. cbn [app].
    destruct (Ascii.eqb_spec c "-"%char); [contradiction|].
    destruct (Ascii.eqb_spec c "+"%char); [contradiction|].
    cbn [orb].
    change (c :: I ++ with_point F ++ x :: X ++ [d]) with B.
    rewrite Hexp, Hpt.
    destruct (X ++ [d]) as [|y Y]; [contradiction|]. now destruct F.
Qed.

(** Scientific notation: with digit strings [I] (not empty) and [F] and a
    64-bit exponent [e] written in decimal, [FromString] returns
    [I.F * 10^e]: exactly when it has at most nine fractional digits, and
    otherwise rounded half away from zero, provided the result is in
    range; [FromStringStrict] returns the same when the digits beyond the
    ninth are all zeros and its error otherwise.  Without an exponent the
    input is read as with the exponent zero. *)
Theorem FromString_scientific (neg : bool) (I F : list ascii) (e : Z) :
  I <> [] -> Forall is_digit I -> Forall is_digit F ->
  - 2 ^ 63 <= e < 2 ^ 63 - 9 ->
  let D := decimal_value (I ++ F) in
  let s := e + 9 - Z.of_nat (List.length F) in
  let R := if 0 <=? s then D * 10 ^ s
           else (D + 10 ^ (- s) / 2) / 10 ^ (- s) in
  let mantissa := (if neg then ["-"%char] else []) ++ I ++ with_point F in
  let str := string_of_list_ascii
               (mantissa ++ "e"%char :: FixedInt_AppendToString e []) in
  R <= kNumericMax ->
  FromString str = Ok (FromPacked (if neg then - R else R))
  /\ FromStringStrict str
     = (if (0 <=? s) || (D mod 10 ^ (- s) =? 0)
        then Ok (FromPacked (if neg then - R else R))
        else Error ("Invalid NUMERIC value: " ++ str))
  /\ (e = 0 ->
      FromString (string_of_list_ascii mantissa)
      = Ok (FromPacked (if neg then - R else R))).
Proof.
  intros HI HdI HdF He D s R mantissa str HR.
  assert (Hd : Forall is_digit (I ++ F)) by (apply Forall_app; now split).
  pose proof (decimal_value_nonneg _ Hd) as HD0. fold D in HD0.
  assert (HR0 : 0 <= R).
  { unfold R. destruct (0 <=? s) eqn:Es.
    - apply Z.leb_le in Es. pose proof (pow10_pos s Es). nia.
    - apply Z.leb_gt in Es. pose proof (pow10_pos (- s) ltac:(lia)).
      apply Z.div_pos; [|lia].
      assert (0 <= 10 ^ (- s) / 2) by (apply Z.div_pos; lia). lia. }
  assert (HR128 : R < 2 ^ 128) by (unfold kNumericMax in HR; lia).
  destruct (ParseNumber_rounded 128 I F (e + 9) HI HdI HdF HR128)
    as [HPl HPs].
  fold D s R in HPl, HPs.
  set (v := if neg then -1 else 0).
  assert (Ev : (v <? 0) = neg) by (unfold v; now destruct neg).
  assert (Esgn : (if neg then ["-"%char] else []) = sign_prefix v)
    by (unfold sign_prefix, v; now destruct neg).
  assert (Esplit : SplitENotationParts
                     (mantissa ++ "e"%char :: FixedInt_AppendToString e [])
                   = Some (mkENotationParts neg I F
                             (FixedInt_AppendToString e []))).
  { unfold mantissa. rewrite Esgn, <- !app_assoc.
    rewrite SplitENotationParts_scientific by (assumption || reflexivity).
    now rewrite Ev. }
  assert (Eexp : ParseExponent (FixedInt_AppendToString e [])
                   kMaxFractionalDigits = Some (e + 9)).
  { apply ParseExponent_AppendToString; unfold kMaxFractionalDigits; lia. }
  assert (EF : FromFixedUint R neg = Ok (FromPacked (if neg then - R else R)))
    by (apply FromFixedUint_ok; lia).
  unfold FromString, FromStringStrict, FromStringInternal.
  unfold str. rewrite !list_ascii_of_string_of_list_ascii.
  rewrite Esplit. cbn [exp_part int_part fract_part negative].
  rewrite Eexp, HPl, HPs, EF.
  split; [reflexivity|]. split.
  - destruct ((0 <=? s) || (D mod 10 ^ (- s) =? 0)).
    + rewrite EF. reflexivity.
    + reflexivity.
  - intros E0. unfold mantissa. rewrite Esgn.
    rewrite SplitENotationParts_formatted by assumption.
    cbn [exp_part int_part fract_part negative ParseExponent].
    change kMaxFractionalDigits with 9.
    subst e. change (0 + 9) with 9 in HPl.
    rewrite HPl, Ev, EF. reflexivity.
Qed.

Lemma FromString_scientific_witness :
  (["1"; "2"]%char <> [] /\ Forall is_digit ["1"; "2"]%char
   /\ Forall is_digit ["3"; "4"; "5"]%char /\ - 2 ^ 63 <= -8 < 2 ^ 63 - 9
   /\ 123 <= kNumericMax)
  /\ FromString "-12.345e-8" = Ok (FromPacked (-123))
  /\ FromStringStrict "-12.345e-8"
     = Error "Invalid NUMERIC value: -12.345e-8".
Proof.
  assert (HI : ["1"; "2"]%char <> []) by discriminate.
  assert (HdI : Forall is_digit ["1"; "2"]%char)
    by (repeat constructor).
  assert (HdF : Forall is_digit ["3"; "4"; "5"]%char)
    by (repeat constructor).
  assert (He : - 2 ^ 63 <= -8 < 2 ^ 63 - 9) by lia.
  assert (HR : 123 <= kNumericMax) by closed_bounds.
  split; [exact (conj HI (conj HdI (conj HdF (conj He HR))))|].
  destruct (FromString_scientific true _ _ (-8) HI HdI HdF He HR)
    as (Hl & Hs & _).
  split; [exact Hl|exact Hs].
Defined.

(** ** BIGNUMERIC *)

Lemma BigNumeric_abs_eq x :
  in_signed 256 x -> BigNumericValue.FixedInt_abs 256 x = Z.abs x.
Proof.
  unfold in_signed, BigNumericValue.FixedInt_abs. change (256 - 1) with 255.
  intros H. destruct (Z.ltb_spec x 0); [|lia].
  rewrite wrap_unsigned_id by (unfold in_unsigned; lia). lia.
Qed.

Lemma SetSignAndAbs_256 neg q :
  0 <= q ->
  FixedInt_SetSignAndAbs 256 neg q
  = if (if neg then q <=? 2 ^ 255 else q <? 2 ^ 255)
    then Some (if neg then - q else q) else None.
Proof.
  intros Hq. unfold FixedInt_SetSignAndAbs. change (256 - 1) with 255.
  now destruct neg.
Qed.

(** [BigNumericValue::Divide] is the quotient of the magnitudes, scaled by
    [10^38], rounded half away from zero, with the sign the exclusive or of
    the signs; it reports a division by zero, and an overflow exactly when
    the signed result does not fit 256 bits. *)
Theorem BigNumeric_Divide_spec (a b : BigNumericValue.t) :
  BigNumericValue.wf a -> BigNumericValue.wf b ->
  let A := Z.abs (BigNumericValue.value_ a) * 10 ^ 38 in
  let B := Z.abs (BigNumericValue.value_ b) in
  let q := (A + B / 2) / B in
  let neg := xorb (BigNumericValue.value_ a <? 0)
                  (BigNumericValue.value_ b <? 0) in
  (BigNumericValue.value_ b = 0 ->
   BigNumericValue.Divide a b
   = Error ("division by zero: " ++ BigNumericValue.ToString a ++ " / "
            ++ BigNumericValue.ToString b))
  /\ (BigNumericValue.value_ b <> 0 ->
      2 * (q * B - A) <= B /\ 2 * (A - q * B) < B
      /\ BigNumericValue.Divide a b
         = if (if neg then q <=? 2 ^ 255 else q <? 2 ^ 255)
           then Ok (BigNumericValue.mk (if neg then - q else q))
           else Error ("BigNumeric overflow: " ++ BigNumericValue.ToString a
                       ++ " / " ++ BigNumericValue.ToString b)).
Proof.
  intros Ha Hb A B q neg. unfold BigNumericValue.Divide. cbv zeta.
  split.
  - intros E. rewrite E. reflexivity.
  - intros Hnz.
    destruct (Z.eqb_spec (BigNumericValue.value_ b) 0); [contradiction|].
    cbn [negb].
    rewrite !BigNumeric_abs_eq by assumption.
    unfold BigNumericValue.wf, in_signed in Ha, Hb.
    change (256 - 1) with 255 in Ha, Hb.
    unfold ExtendAndMultiply, BigNumericValue.ScalingFactor.
    rewrite (wrap_unsigned_id 128 (10 ^ 38)) by (unfold in_unsigned; lia).
    fold A B.
    assert (HB : 0 < B) by (unfold B; lia).
    assert (HA : 0 <= A < 2 ^ 255 * 10 ^ 38 + 1) by (unfold A; lia).
    assert (Hh : 0 <= B / 2 <= 2 ^ 254) by (unfold B; euclid).
    unfold FixedUint_DivAndRoundAwayFromZero.
    rewrite (wrap_unsigned_id 384) by (unfold in_unsigned; lia).
    fold q.
    pose proof (Z.div_mod (A + B / 2) B ltac:(lia)) as E1.
    pose proof (Z.mod_pos_bound (A + B / 2) B HB) as B1.
    fold q in E1.
    assert (E2 : B = 2 * (B / 2) + B mod 2) by (apply Z.div_mod; lia).
    pose proof (Z.mod_pos_bound B 2 ltac:(lia)) as B2.
    assert (Hq0 : 0 <= q) by (unfold q; apply Z.div_pos; lia).
    assert (Hq1 : q < 2 ^ 384).
    { unfold q. apply Z.div_lt_upper_bound; [lia|]. nia. }
    split; [lia|]. split; [lia|].
    replace (negb (Bool.eqb (BigNumericValue.value_ a <? 0)
                            (BigNumericValue.value_ b <? 0))) with neg
      by (unfold neg; now destruct (BigNumericValue.value_ a <? 0),
                                   (BigNumericValue.value_ b <? 0)).
    assert (Hw : (word64 q 4 =? 0) && (word64 q 5 =? 0) = (q <? 2 ^ 256)).
    { unfold word64. change (64 * 4) with 256. change (64 * 5) with 320.
      destruct (Z.ltb_spec q (2 ^ 256)).
      - rewrite (Z.div_small q (2 ^ 256)), (Z.div_small q (2 ^ 320)) by lia.
        reflexivity.
      - apply andb_false_iff.
        destruct (Z.eqb_spec ((q / 2 ^ 256) mod 2 ^ 64) 0) as [E4|];
          [|now left].
        right. apply Z.eqb_neq. euclid. }
    rewrite Hw.
    destruct (Z.ltb_spec q (2 ^ 256)) as [Hlt|Hge].
    + rewrite (wrap_unsigned_id 256 q) by (unfold in_unsigned; lia).
      rewrite SetSignAndAbs_256 by exact Hq0.
      now destruct (if neg then q <=? 2 ^ 255 else q <? 2 ^ 255).
    + destruct neg.
      * destruct (Z.leb_spec q (2 ^ 255)); [lia|reflexivity].
      * destruct (Z.ltb_spec q (2 ^ 255)); [lia|reflexivity].
Qed.

Lemma BigNumeric_Divide_spec_witness :
  (BigNumericValue.wf (BigNumericValue.mk (10 ^ 38))
   /\ BigNumericValue.wf (BigNumericValue.mk (-3 * 10 ^ 38))
   /\ BigNumericValue.wf (BigNumericValue.mk 0))
  /\ BigNumericValue.Divide (BigNumericValue.mk (10 ^ 38))
       (BigNumericValue.mk (-3 * 10 ^ 38))
     = Ok (BigNumericValue.mk (-33333333333333333333333333333333333333))
  /\ BigNumericValue.Divide (BigNumericValue.mk (10 ^ 38))
       (BigNumericValue.mk 0)
     = Error "division by zero: 1 / 0".
Proof.
  assert (Ha : BigNumericValue.wf (BigNumericValue.mk (10 ^ 38)))
    by closed_bounds.
  assert (Hb : BigNumericValue.wf (BigNumericValue.mk (-3 * 10 ^ 38)))
    by closed_bounds.
  assert (Hz : BigNumericValue.wf (BigNumericValue.mk 0)) by closed_bounds.
  split; [exact (conj Ha (conj Hb Hz))|].
  destruct (BigNumeric_Divide_spec _ _ Ha Hb) as [_ H1].
  destruct (BigNumeric_Divide_spec _ _ Ha Hz) as [H2 _].
  split.
  - destruct (H1 ltac:(closed_bounds)) as (_ & _ & E). rewrite E.
    vm_compute. reflexivity.
  - rewrite H2 by reflexivity. vm_compute. reflexivity.
Defined.


(** [BigNumericValue::Multiply] forms the exact product [P] of the
    magnitudes and returns [(P + scale/2) / scale], which is [P / scale]
    rounded half away from zero, with the sign the exclusive or of the
    signs; it reports an overflow exactly when that signed result does not
    fit 256 bits. *)
Theorem BigNumeric_Multiply_spec (a b : BigNumericValue.t) :
  BigNumericValue.wf a -> BigNumericValue.wf b ->
  let P := Z.abs (BigNumericValue.value_ a)
           * Z.abs (BigNumericValue.value_ b) in
  let r := (P + 10 ^ 38 / 2) / 10 ^ 38 in
  let neg := xorb (BigNumericValue.value_ a <? 0)
                  (BigNumericValue.value_ b <? 0) in
  2 * (r * 10 ^ 38 - P) <= 10 ^ 38 /\ 2 * (P - r * 10 ^ 38) < 10 ^ 38
  /\ BigNumericValue.Multiply a b
     = if (if neg then r <=? 2 ^ 255 else r <? 2 ^ 255)
       then Ok (BigNumericValue.mk (if neg then - r else r))
       else Error ("BigNumeric overflow: " ++ BigNumericValue.ToString a
                   ++ " * " ++ BigNumericValue.ToString b).
Proof.
  intros Ha Hb P r neg. unfold BigNumericValue.Multiply. cbv zeta.
  rewrite !BigNumeric_abs_eq by assumption.
  unfold BigNumericValue.wf, in_signed in Ha, Hb.
  change (256 - 1) with 255 in Ha, Hb.
  unfold ExtendAndMultiply, BigNumericValue.RemoveScalingFactor,
    BigNumericValue.ScalingFactor.
  fold P.
  assert (HP : 0 <= P <= 2 ^ 255 * 2 ^ 255).
  { unfold P. split; [apply Z.mul_nonneg_nonneg; lia|].
    apply Z.mul_le_mono_nonneg; lia. }
  assert (Hr0 : 0 <= r) by (unfold r; euclid).
  split; [unfold r; euclid|]. split; [unfold r; euclid|].
  replace (negb (Bool.eqb (BigNumericValue.value_ a <? 0)
                          (BigNumericValue.value_ b <? 0))) with neg
    by (unfold neg; now destruct (BigNumericValue.value_ a <? 0),
                                 (BigNumericValue.value_ b <? 0)).
  assert (Hw : (word64 P 6 =? 0) && (word64 P 7 =? 0) = (P <? 2 ^ 384)).
  { unfold word64. change (64 * 6) with 384. change (64 * 7) with 448.
    destruct (Z.ltb_spec P (2 ^ 384)).
    - rewrite (Z.div_small P (2 ^ 384)), (Z.div_small P (2 ^ 448)) by lia.
      reflexivity.
    - apply andb_false_iff.
      destruct (Z.eqb_spec ((P / 2 ^ 384) mod 2 ^ 64) 0) as [E4|];
        [|now left].
      right. apply Z.eqb_neq. euclid. }
  rewrite Hw.
  assert (Hbig : 2 ^ 255 < r ->
                 (if neg then r <=? 2 ^ 255 else r <? 2 ^ 255) = false).
  { intros H. destruct neg.
    - destruct (Z.leb_spec r (2 ^ 255)); [lia|reflexivity].
    - destruct (Z.ltb_spec r (2 ^ 255)); [lia|reflexivity]. }
  destruct (Z.ltb_spec P (2 ^ 384)) as [Hlt|Hge].
  - rewrite (wrap_unsigned_id 384 P) by (unfold in_unsigned; lia). fold r.
    assert (Hr1 : r < 2 ^ 320) by (unfold r; euclid).
    unfold word64. change (64 * 4) with 256.
    rewrite (Z.mod_small (r / 2 ^ 256)) by euclid.
    destruct (Z.eqb_spec (r / 2 ^ 256) 0) as [E|E].
    + assert (r < 2 ^ 256) by euclid.
      rewrite (wrap_unsigned_id 256 r) by (unfold in_unsigned; lia).
      rewrite SetSignAndAbs_256 by exact Hr0.
      now destruct (if neg then r <=? 2 ^ 255 else r <? 2 ^ 255).
    + rewrite Hbig by euclid. reflexivity.
  - rewrite Hbig by (unfold r; euclid). reflexivity.
Qed.

Lemma BigNumeric_Multiply_spec_witness :
  (BigNumericValue.wf (BigNumericValue.mk (15 * 10 ^ 37))
   /\ BigNumericValue.wf (BigNumericValue.mk (-15 * 10 ^ 37)))
  /\ BigNumericValue.Multiply (BigNumericValue.mk (15 * 10 ^ 37))
       (BigNumericValue.mk (-15 * 10 ^ 37))
     = Ok (BigNumericValue.mk (-225 * 10 ^ 36)).
Proof.
  assert (Ha : BigNumericValue.wf (BigNumericValue.mk (15 * 10 ^ 37)))
    by closed_bounds.
  assert (Hb : BigNumericValue.wf (BigNumericValue.mk (-15 * 10 ^ 37)))
    by closed_bounds.
  split; [exact (conj Ha Hb)|].
  destruct (BigNumeric_Multiply_spec _ _ Ha Hb) as (_ & _ & E).
  rewrite E. vm_compute. reflexivity.
Defined.


(** A BIGNUMERIC value is read back from its serialization, which is
    appended to the given bytes and takes between 1 and 32 bytes; the
    decoder rejects the empty string and whatever is longer than 32 bytes,
    and a value it accepts lies within 256 bits. *)
Theorem BigNumeric_serialization (v : BigNumericValue.t) (dest : list Z) :
  BigNumericValue.wf v ->
  BigNumericValue.DeserializeFromProtoBytes
    (BigNumericValue.SerializeAndAppendToProtoBytes v []) = Ok v
  /\ BigNumericValue.SerializeAndAppendToProtoBytes v dest
     = dest ++ BigNumericValue.SerializeAndAppendToProtoBytes v []
  /\ (1 <= List.length (BigNumericValue.SerializeAndAppendToProtoBytes v [])
      <= 32)%nat
  /\ (forall bytes,
        bytes = [] \/ (32 < List.length bytes)%nat ->
        BigNumericValue.DeserializeFromProtoBytes bytes
        = Error "Invalid BigNumericValue encoding")
  /\ (forall bytes w,
        Forall (fun x => 0 <= x < 256) bytes ->
        BigNumericValue.DeserializeFromProtoBytes bytes = Ok w ->
        BigNumericValue.wf w).
Proof.
  intros Hv.
  destruct (FixedInt_roundtrip 256 (BigNumericValue.value_ v)
              ltac:(lia) ltac:(reflexivity) Hv) as [Hrt Hl].
  unfold BigNumericValue.DeserializeFromProtoBytes,
    BigNumericValue.SerializeAndAppendToProtoBytes.
  cbn [app].
  split; [rewrite Hrt; now destruct v|].
  split; [reflexivity|].
  split; [exact Hl|].
  split.
  - intros bytes Hb. unfold FixedInt_DeserializeFromBytes. cbv zeta.
    destruct Hb as [->|Hb]; [reflexivity|].
    destruct (Z.eqb_spec (Z.of_nat (List.length bytes)) 0); [reflexivity|].
    destruct (Z.ltb_spec 256 (8 * Z.of_nat (List.length bytes)));
      [reflexivity|lia].
  - intros bytes w Hb Hd.
    destruct (FixedInt_DeserializeFromBytes 256 bytes) as [s|] eqn:E;
      [|discriminate].
    assert (w = BigNumericValue.mk s) by congruence. subst w.
    unfold BigNumericValue.wf. cbn [BigNumericValue.value_].
    now apply (FixedInt_DeserializeFromBytes_in_signed 256 bytes).
Qed.

Lemma BigNumeric_serialization_witness :
  BigNumericValue.wf (BigNumericValue.mk (-129))
  /\ BigNumericValue.SerializeAndAppendToProtoBytes
       (BigNumericValue.mk (-129)) [7]
     = [7; 127; 255]
  /\ BigNumericValue.DeserializeFromProtoBytes
       (BigNumericValue.SerializeAndAppendToProtoBytes
          (BigNumericValue.mk (-129)) [])
     = Ok (BigNumericValue.mk (-129)).
Proof.
  assert (Hv : BigNumericValue.wf (BigNumericValue.mk (-129)))
    by closed_bounds.
  split; [exact Hv|]. split; [vm_compute; reflexivity|].
  exact (proj1 (BigNumeric_serialization _ [] Hv)).
Defined.


(** The same for any scale: what [AddDecimalPointAndAdjustZeros] leaves behind
    [prefix]: an integer part [I], and a fractional part [F] of [scale - z]
    digits behind a point unless it is empty. *)
Lemma AddDecimalPoint_shape_scale scale prefix s :
  (0 < scale)%nat ->
  s <> [] -> Forall is_digit s -> hd "0"%char s <> "0"%char ->
  exists I F z,
    AddDecimalPointAndAdjustZeros (List.length prefix) scale (prefix ++ s)
    = prefix ++ I ++ with_point F
    /\ I <> [] /\ Forall is_digit I /\ Forall is_digit F
    /\ (List.length F + z = scale)%nat
    /\ decimal_value (I ++ F) * 10 ^ Z.of_nat z = decimal_value s
    /\ (I = ["0"%char] \/ hd "0"%char I <> "0"%char)
    /\ (I = ["0"%char] -> F <> []).
Proof.
  intros Hscale Hne Hdig Hhd.
  unfold AddDecimalPointAndAdjustZeros. cbv zeta.
  rewrite length_app, skipn_app_length.
  set (n := List.length s).
  assert (Hn : (0 < n)%nat) by (destruct s; [contradiction | cbn; lia]).
  destruct (find_last_not_of "0"%char s) as [i|] eqn:Hf.
  2:{ exfalso. pose proof (find_last_not_of_spec "0"%char s) as H.
      rewrite Hf in H. apply Hhd. rewrite H. fold n.
      destruct n; [lia | reflexivity]. }
  pose proof (find_last_not_of_spec "0"%char s) as Hspec.
  rewrite Hf in Hspec. destruct Hspec as (Hi & _ & _). fold n in Hi.
  set (z := Nat.min (n - i - 1) scale).
  assert (Hz : (z <= n - i - 1 /\ z <= scale)%nat) by (unfold z; lia).
  destruct (trailing_zeros_cut s i z Hf ltac:(fold n; lia)) as [Hcut Hval].
  fold n in Hcut, Hval.
  set (pre := firstn (n - z) s) in *.
  assert (Hlen : List.length pre = (n - z)%nat)
    by (unfold pre; rewrite length_firstn; fold n; lia).
  assert (Hpre_dig : Forall is_digit pre) by now apply Forall_firstn.
  assert (Hpre_hd : hd "0"%char pre = hd "0"%char s)
    by (apply hd_firstn; lia).
  assert (Hpre_ne : pre <> [])
    by (intros E; rewrite E in Hlen; cbn in Hlen; lia).
  replace (List.length prefix + n - z)%nat
    with (List.length prefix + (n - z))%nat by lia.
  rewrite firstn_app_2. fold pre.
  destruct (Nat.ltb_spec n (scale + 1)) as [Hsmall|Hbig].
  - (* A magnitude below 1: "0." and leading zeros. *)
    rewrite string_insert_at_end_of_prefix.
    replace (scale + 2 - n)%nat with (S (S (scale - n))) by lia.
    cbn [repeat].
    unfold string_set.
    replace (S (List.length prefix + 1))
      with (List.length prefix + 2)%nat by lia.
    rewrite firstn_app_2, skipn_app_exact. cbn [firstn skipn app].
    exists ["0"%char], (repeat "0"%char (scale - n) ++ pre), z.
    assert (HF : repeat "0"%char (scale - n) ++ pre <> []).
    { intros E. apply app_eq_nil in E. tauto. }
    split.
    { rewrite <- app_assoc. unfold with_point.
      destruct (repeat "0"%char (scale - n) ++ pre) eqn:E; [contradiction|].
      reflexivity. }
    split; [discriminate|].
    split; [repeat constructor|].
    split; [apply Forall_app; split;
            [apply Forall_repeat, is_digit_0 | exact Hpre_dig]|].
    split; [rewrite length_app, repeat_length; lia|].
    split.
    { rewrite <- Hval.
      change (["0"%char] ++ repeat "0"%char (scale - n) ++ pre)
        with (repeat "0"%char (S (scale - n)) ++ pre).
      rewrite decimal_value_app, decimal_value_zeros. lia. }
    split; [left; reflexivity | intros _; exact HF].
  - destruct (Nat.ltb_spec z scale) as [Hz9|Hz9].
    + (* A point inside the digits. *)
      replace (List.length prefix + n - scale)%nat
        with (List.length prefix + (n - scale))%nat by lia.
      unfold string_insert.
      rewrite firstn_app_2, skipn_app_exact. cbn [repeat app].
      exists (firstn (n - scale) pre), (skipn (n - scale) pre), z.
      assert (HF : skipn (n - scale) pre <> []).
      { intros E. apply (f_equal (@List.length ascii)) in E.
        rewrite length_skipn, Hlen in E. cbn in E. lia. }
      split.
      { rewrite <- app_assoc. unfold with_point.
        destruct (skipn (n - scale) pre) eqn:E; [contradiction|]. reflexivity. }
      split.
      { intros E. apply (f_equal (@List.length ascii)) in E.
        rewrite length_firstn, Hlen in E. cbn in E. lia. }
      split; [now apply Forall_firstn|].
      split; [now apply Forall_skipn|].
      split; [rewrite length_skipn, Hlen; lia|].
      split; [rewrite firstn_skipn; exact Hval|].
      split; [right; rewrite hd_firstn by lia; congruence|].
      intros E. exfalso. apply Hhd. rewrite <- Hpre_hd.
      rewrite <- (hd_firstn "0"%char (n - scale) pre) by lia.
      now rewrite E.
    + (* A whole number: the zeros of the scale go, and no point comes. *)
      exists pre, [], z.
      split; [cbn [with_point]; now rewrite app_nil_r|].
      split; [exact Hpre_ne|].
      split; [exact Hpre_dig|].
      split; [constructor|].
      split; [cbn [List.length]; lia|].
      split; [rewrite app_nil_r; exact Hval|].
      split; [right; congruence|].
      intros E. exfalso. apply Hhd. rewrite <- Hpre_hd. now rewrite E.
Qed.

(** The shape of a formatted nonzero BIGNUMERIC value. *)
Lemma BigNumeric_AppendToString_shape v :
  BigNumericValue.value_ v <> 0 ->
  exists I F z,
    BigNumericValue.AppendToString v []
    = sign_prefix (BigNumericValue.value_ v) ++ I ++ with_point F
    /\ I <> [] /\ Forall is_digit I /\ Forall is_digit F
    /\ (List.length F + z = 38)%nat
    /\ decimal_value (I ++ F) * 10 ^ Z.of_nat z
       = Z.abs (BigNumericValue.value_ v)
    /\ (I = ["0"%char] \/ hd "0"%char I <> "0"%char)
    /\ (I = ["0"%char] -> F <> []).
Proof.
  intros Hnz. unfold BigNumericValue.AppendToString. cbv zeta.
  destruct (Z.eqb_spec (BigNumericValue.value_ v) 0); [contradiction|].
  set (x := BigNumericValue.value_ v) in *.
  assert (E : FixedInt_AppendToString x [] = sign_prefix x ++ digits (Z.abs x)).
  { unfold FixedInt_AppendToString, sign_prefix.
    destruct (Z.ltb_spec x 0).
    - rewrite FixedUint_AppendToString_eq. cbn [app]. do 2 f_equal. lia.
    - rewrite FixedUint_AppendToString_eq. cbn [app]. f_equal. lia. }
  rewrite E.
  replace (List.length (@nil ascii) + (if (x <? 0)%Z then 1 else 0))%nat
    with (List.length (sign_prefix x))
    by (unfold sign_prefix; now destruct (x <? 0)).
  destruct (digits_spec (Z.abs x) ltac:(lia)) as (Hne & Hdig & Hval & Hhd).
  destruct (AddDecimalPoint_shape_scale 38 (sign_prefix x)
              (digits (Z.abs x)) ltac:(lia) Hne Hdig ltac:(apply Hhd; lia))
    as (I & F & z & H1 & H2 & H3 & H4 & H5 & H6 & H7).
  exists I, F, z. rewrite Hval in H6. tauto.
Qed.

(** Parsing the format of a BIGNUMERIC value gives the value back, in the
    rounding mode and in the strict mode, the least value [-2^255]
    included; the format of zero is "0", a negative value begins with '-'
    and no other does. *)
Theorem BigNumeric_FromString_ToString (v : BigNumericValue.t) :
  BigNumericValue.wf v ->
  BigNumericValue.FromString (BigNumericValue.ToString v) = Ok v
  /\ BigNumericValue.FromStringStrict (BigNumericValue.ToString v) = Ok v
  /\ BigNumericValue.ToString (BigNumericValue.mk 0) = "0"%string
  /\ (BigNumericValue.value_ v < 0 <->
      exists rest,
        list_ascii_of_string (BigNumericValue.ToString v)
        = "-"%char :: rest).
Proof.
  intros Hv. unfold BigNumericValue.wf, in_signed in Hv.
  change (256 - 1) with 255 in Hv.
  assert (H : forall strict,
            BigNumericValue.FromStringInternal (BigNumericValue.ToString v)
              strict = Ok v).
  { intros strict.
    unfold BigNumericValue.FromStringInternal, BigNumericValue.ToString.
    rewrite list_ascii_of_string_of_list_ascii.
    destruct (Z.eq_dec (BigNumericValue.value_ v) 0) as [Hz|Hnz].
    - assert (E : BigNumericValue.AppendToString v [] = ["0"%char]).
      { unfold BigNumericValue.AppendToString. now rewrite Hz. }
      rewrite E. destruct v as [x]. cbn [BigNumericValue.value_] in Hz.
      subst x. destruct strict; reflexivity.
    - destruct (BigNumeric_AppendToString_shape v Hnz)
        as (I & F & z & E & HI & HdI & HdF & Hlen & Hval & _).
      rewrite E, SplitENotationParts_formatted by assumption.
      cbn [exp_part int_part fract_part negative ParseExponent].
      change BigNumericValue.kBigNumericMaxFractionalDigits with 38.
      rewrite (ParseNumber_scale 256 I F 38 strict) by
        (try assumption; try lia;
         replace (38 - Z.of_nat (List.length F)) with (Z.of_nat z) by lia;
         rewrite Hval; lia).
      replace (38 - Z.of_nat (List.length F)) with (Z.of_nat z) by lia.
      rewrite Hval.
      rewrite SetSignAndAbs_256 by lia.
      destruct v as [x]. cbn [BigNumericValue.value_] in *.
      destruct (Z.ltb_spec x 0).
      + destruct (Z.leb_spec (Z.abs x) (2 ^ 255)); [|lia].
        do 2 f_equal. lia.
      + destruct (Z.ltb_spec (Z.abs x) (2 ^ 255)); [|lia].
        do 2 f_equal. lia. }
  split; [apply H|]. split; [apply H|]. split; [reflexivity|].
  unfold BigNumericValue.ToString.
  rewrite list_ascii_of_string_of_list_ascii.
  destruct (Z.eq_dec (BigNumericValue.value_ v) 0) as [Hz|Hnz].
  - assert (E : BigNumericValue.AppendToString v [] = ["0"%char]).
    { unfold BigNumericValue.AppendToString. now rewrite Hz. }
    rewrite E. split; [lia|]. intros [rest Hr]. discriminate Hr.
  - destruct (BigNumeric_AppendToString_shape v Hnz)
      as (I & F & z & E & HI & HdI & _).
    rewrite E. unfold sign_prefix.
    destruct (Z.ltb_spec (BigNumericValue.value_ v) 0) as [Hneg|Hpos].
    + split; [intros _|intros _; exact Hneg]. cbn [app]. eexists. reflexivity.
    + split; [lia|]. intros [rest Hr]. cbn [app] in Hr.
      destruct I as [|c I]; [contradiction|]. cbn [app] in Hr.
      assert (c = "-"%char) by congruence. subst c.
      apply Forall_inv in HdI. discriminate HdI.
Qed.

Lemma BigNumeric_FromString_ToString_witness :
  BigNumericValue.wf (BigNumericValue.mk (- 2 ^ 255))
  /\ BigNumericValue.ToString (BigNumericValue.mk (- 2 ^ 255))
     = "-578960446186580977117854925043439539266.34992332820282019728792003956564819968"%string
  /\ BigNumericValue.FromString
       (BigNumericValue.ToString (BigNumericValue.mk (- 2 ^ 255)))
     = Ok (BigNumericValue.mk (- 2 ^ 255)).
Proof.
  assert (Hv : BigNumericValue.wf (BigNumericValue.mk (- 2 ^ 255)))
    by closed_bounds.
  split; [exact Hv|]. split; [vm_compute; reflexivity|].
  exact (proj1 (BigNumeric_FromString_ToString _ Hv)).
Defined.
